(** * Canoga rule engine: a shallow embedding of the web implementation

    The model follows the JavaScript sources of the repository:
    [Board.js], [GameRound.js], [Tournament.js], [ComputerPlayer.js],
    [Dice.js], [Serializer.js] and [GameSession.js] of the web model, and
    [Game.js] of the server backend.

    Conventions.
    - A JavaScript number that the engine only ever uses as an integer is a
      [Z]; an array is a [list]; [null] is [None].
    - A method that mutates [this] is a function from the object to the
      mutated object together with its completion: [Ok v] for a normal
      return, [Throw msg] for a thrown [Error].  An exception does not roll
      anything back, so the object returned next to a [Throw] carries every
      assignment made before the throw.
    - Text is a [string]; the string helpers below follow the ECMAScript
      definitions of the methods the serializer uses. *)

From Stdlib Require Import Ascii String.
From Stdlib Require Import ZArith List Bool Lia Arith.
From Stdlib Require Import Sorting.Sorted Sorting.Permutation.
From Equations Require Import Equations.
Import ListNotations.

Open Scope string_scope.
Open Scope list_scope.
Open Scope Z_scope.

(** ** Completions *)

Inductive completion (A : Type) : Type :=
| Ok (v : A)
| Throw (msg : string).
Arguments Ok {A} v.
Arguments Throw {A} msg.

(** A method body: the receiver before, the receiver after, the completion. *)
Definition method (S A : Type) : Type := S -> S * completion A.

Definition ret {S A} (v : A) : method S A := fun s => (s, Ok v).
Definition throw {S A} (msg : string) : method S A := fun s => (s, Throw msg).
Definition bind {S A B} (m : method S A) (k : A -> method S B) : method S B :=
  fun s => match m s with
           | (s', Ok v) => k v s'
           | (s', Throw msg) => (s', Throw msg)
           end.
Definition get {S} : method S S := fun s => (s, Ok s).
Definition put {S} (s' : S) : method S unit := fun _ => (s', Ok tt).
Definition modify {S} (f : S -> S) : method S unit := fun s => (f s, Ok tt).

Declare Scope method_scope.
Delimit Scope method_scope with method.
Notation "x <- m ;; k" := (bind m (fun x => k))
  (at level 61, m at next level, right associativity) : method_scope.
Notation "m ;;; k" := (bind m (fun _ => k))
  (at level 61, right associativity) : method_scope.

(** [arr.forEach(f)]: the calls run left to right and the first throw ends
    the loop. *)
Fixpoint forEach {S A} (f : A -> method S unit) (arr : list A) : method S unit :=
  match arr with
  | [] => ret tt
  | x :: rest => bind (f x) (fun _ => forEach f rest)
  end.

(** ** Small array helpers *)

(** [arr[i] = v] for an index inside the array. *)
Fixpoint array_set {A} (arr : list A) (i : nat) (v : A) : list A :=
  match arr, i with
  | [], _ => []
  | _ :: rest, O => v :: rest
  | x :: rest, S i' => x :: array_set rest i' v
  end.

(** The values taken by [for (let i = lo; i <= hi; i++)]. *)
Definition range_incl (lo hi : Z) : list Z :=
  map (fun k => lo + Z.of_nat k) (seq 0 (Z.to_nat (hi + 1 - lo))).

(** [arr.reduce((acc, n) => acc + n, 0)] *)
Definition sum_list (arr : list Z) : Z := fold_left Z.add arr 0.

(** [arr.includes(x)] on numbers. *)
Definition includes (arr : list Z) (x : Z) : bool := existsb (Z.eqb x) arr.

(** [[...arr].sort((a, b) => a - b)]: the ascending stable sort. *)
Fixpoint insert_asc (x : Z) (l : list Z) : list Z :=
  match l with
  | [] => [x]
  | y :: rest => if x <? y then x :: l else y :: insert_asc x rest
  end.
Definition sort_asc (arr : list Z) : list Z := fold_left (fun acc x => insert_asc x acc) arr [].

(** ** Strings

    The ECMAScript string methods the serializer calls, on strings of code
    units below 256. *)

Module Js.

Definition LF : ascii := ascii_of_nat 10.
Definition CR : ascii := ascii_of_nat 13.

(** White space and line terminators, as [trim] and [\s] see them. *)
Definition is_white (c : ascii) : bool :=
  let n := nat_of_ascii c in
  ((9 <=? n) && (n <=? 13) || (n =? 32) || (n =? 160))%nat.

Definition is_digit (c : ascii) : bool :=
  let n := nat_of_ascii c in ((48 <=? n) && (n <=? 57))%nat.

Definition is_empty (s : string) : bool :=
  match s with EmptyString => true | String _ _ => false end.

Fixpoint ltrim (s : string) : string :=
  match s with
  | EmptyString => EmptyString
  | String c rest => if is_white c then ltrim rest else s
  end.

Fixpoint rtrim (s : string) : string :=
  match s with
  | EmptyString => EmptyString
  | String c rest =>
      let r := rtrim rest in
      if is_empty r && is_white c then EmptyString else String c r
  end.

(** [s.trim()] *)
Definition trim (s : string) : string := rtrim (ltrim s).

(** Push a code unit onto the first piece of a split. *)
Definition cons_first (c : ascii) (pieces : list string) : list string :=
  match pieces with
  | [] => [String c EmptyString]
  | h :: t => String c h :: t
  end.

(** [s.split(sep)] for a separator of one code unit. *)
Fixpoint split_char (sep : ascii) (s : string) : list string :=
  match s with
  | EmptyString => [EmptyString]
  | String c rest =>
      if Ascii.eqb c sep then EmptyString :: split_char sep rest
      else cons_first c (split_char sep rest)
  end.

(** [s.split(/\r?\n/)] *)
Fixpoint split_lines (s : string) : list string :=
  match s with
  | EmptyString => [EmptyString]
  | String c rest =>
      if Ascii.eqb c LF then EmptyString :: split_lines rest
      else
        match rest with
        | String c' rest' =>
            if Ascii.eqb c CR && Ascii.eqb c' LF then EmptyString :: split_lines rest'
            else cons_first c (split_lines rest)
        | EmptyString => cons_first c (split_lines rest)
        end
  end.

(** [s.split(/\s+/)]; [in_sep] holds while a run of white space is being
    skipped. *)
Fixpoint split_ws_from (in_sep : bool) (s : string) : list string :=
  match s with
  | EmptyString => [EmptyString]
  | String c rest =>
      if is_white c then
        if in_sep then split_ws_from true rest
        else EmptyString :: split_ws_from true rest
      else cons_first c (split_ws_from false rest)
  end.
Definition split_ws (s : string) : list string := split_ws_from false s.

(** [s.slice(n)] for [0 <= n]. *)
Fixpoint drop (n : nat) (s : string) : string :=
  match n, s with
  | O, _ => s
  | S n', String _ rest => drop n' rest
  | S _, EmptyString => EmptyString
  end.

(** [s.replace(pat, rep)] for a string pattern: the first occurrence only. *)
Fixpoint replace_first (pat rep s : string) : string :=
  if String.prefix pat s then rep ++ drop (String.length pat) s
  else match s with
       | EmptyString => EmptyString
       | String c rest => String c (replace_first pat rep rest)
       end.

Definition lower (c : ascii) : ascii :=
  let n := nat_of_ascii c in
  if ((65 <=? n) && (n <=? 90))%nat then ascii_of_nat (n + 32) else c.

(** [s.toLowerCase()] *)
Fixpoint toLowerCase (s : string) : string :=
  match s with
  | EmptyString => EmptyString
  | String c rest => String (lower c) (toLowerCase rest)
  end.

(** Does [s] begin with [pat], ignoring case? ([pat] is given in lower case.) *)
Definition prefix_ci (pat s : string) : bool := String.prefix pat (toLowerCase s).

(** [/true/i.test(s)] and the like. *)
Fixpoint contains_ci (pat s : string) : bool :=
  prefix_ci pat s ||
  match s with
  | EmptyString => false
  | String _ rest => contains_ci pat rest
  end.

Fixpoint take_while (f : ascii -> bool) (s : string) : string :=
  match s with
  | EmptyString => EmptyString
  | String c rest => if f c then String c (take_while f rest) else EmptyString
  end.

(** Numbers as the engine meets them: an integer, or [NaN]. *)
Inductive num : Type := Int (z : Z) | NaN.

Definition num_eqb (a b : num) : bool :=
  match a, b with
  | Int x, Int y => x =? y
  | _, _ => false
  end.

Definition digit_value (c : ascii) : Z := Z.of_nat (nat_of_ascii c - 48).

Fixpoint digits_value (acc : Z) (s : string) : option Z :=
  match s with
  | EmptyString => Some acc
  | String c rest =>
      if is_digit c then digits_value (10 * acc + digit_value c) rest else None
  end.

Definition unsigned_value (s : string) : num :=
  if is_empty s then NaN
  else match digits_value 0 s with Some v => Int v | None => NaN end.

(** [Number(s)] on the integer numerals: white space is trimmed, the empty
    string is [0], an optional sign may precede the digits.  Every other
    text is [NaN] here (fractions, exponents, radix prefixes and [Infinity]
    are left out of the model). *)
Definition Number (s : string) : num :=
  match trim s with
  | EmptyString => Int 0
  | String c rest =>
      if Ascii.eqb c "-" then
        match unsigned_value rest with Int v => Int (- v) | NaN => NaN end
      else if Ascii.eqb c "+" then unsigned_value rest
      else unsigned_value (String c rest)
  end.

(** [Number(undefined)] is [NaN]. *)
Definition Number_opt (s : option string) : num :=
  match s with Some s' => Number s' | None => NaN end.

Definition digit_char (d : Z) : ascii := ascii_of_nat (48 + Z.to_nat d).

(** The decimal digits of a non-negative integer. *)
Equations? digits_of (n : Z) : string by wf (Z.to_nat n) lt :=
  digits_of n with Z_lt_dec n 10 => {
    | left _ := String (digit_char n) EmptyString;
    | right _ := digits_of (n / 10) ++ String (digit_char (n mod 10)) EmptyString }.
Proof.
  assert (n / 10 < n) by (apply Z.div_lt; lia).
  assert (0 <= n / 10) by (apply Z.div_pos; lia).
  lia.
Qed.

(** [`${n}`] for an integer [n]. *)
Definition print (n : Z) : string :=
  if n <? 0 then String "-" (digits_of (- n)) else digits_of n.

Definition print_bool (b : bool) : string := if b then "true" else "false".

(** [`${v}`] for a number [v]. *)
Definition print_num (v : num) : string :=
  match v with Int z => print z | NaN => "NaN" end.

(** The double quote, and a text between double quotes. *)
Definition dq : string := String (ascii_of_nat 34) EmptyString.
Definition quoted (s : string) : string := (dq ++ s ++ dq)%string.

(** [arr.join(sep)] *)
Definition join (sep : string) (arr : list string) : string := String.concat sep arr.

(** [/sum=([0-9\-]+)/i]: the captured group of the leftmost match. *)
Definition sum_class (c : ascii) : bool := is_digit c || Ascii.eqb c "-".
Fixpoint match_sum (s : string) : option string :=
  let here :=
    if prefix_ci "sum=" s then
      let run := take_while sum_class (drop 4 s) in
      if is_empty run then None else Some run
    else None in
  match here with
  | Some run => Some run
  | None =>
      match s with
      | EmptyString => None
      | String _ rest => match_sum rest
      end
  end.

End Js.

(** ** Players *)

Inductive PlayerId : Type := HUMAN | COMPUTER.

Definition PlayerId_eqb (a b : PlayerId) : bool :=
  match a, b with
  | HUMAN, HUMAN | COMPUTER, COMPUTER => true
  | _, _ => false
  end.

(** ** Board.js *)

Module Board.

Record t : Type := mk {
  size : Z;
  _covered : list bool
}.

(** [constructor(size)] *)
Definition new (size : Z) : completion t :=
  if size <? 1 then Throw "Board size must be a positive integer"
  else Ok {| size := size; _covered := repeat false (Z.to_nat (size + 1)) |}.

(** [this._covered[num]] *)
Definition covered_at (b : t) (num : Z) : bool := nth (Z.to_nat num) (_covered b) false.

Definition set_covered (num : Z) (v : bool) (b : t) : t :=
  {| size := size b; _covered := array_set (_covered b) (Z.to_nat num) v |}.

Definition _validateSquareNumber (num : Z) : method t unit :=
  fun b => if (num <? 1) || (num >? size b)
           then (b, Throw ("Square number must be between 1 and " ++ Js.print (size b) ++
                           ", got " ++ Js.print num)%string)
           else (b, Ok tt).

Definition isCovered (num : Z) : method t bool :=
  (_validateSquareNumber num ;;;
   b <- get ;;
   ret (covered_at b num))%method.

Definition cover (num : Z) : method t unit :=
  (_validateSquareNumber num ;;;
   b <- get ;;
   if covered_at b num then throw ("Square " ++ Js.print num ++ " is already covered")%string
   else modify (set_covered num true))%method.

Definition uncover (num : Z) : method t unit :=
  (_validateSquareNumber num ;;;
   b <- get ;;
   if negb (covered_at b num)
   then throw ("Square " ++ Js.print num ++ " is already uncovered")%string
   else modify (set_covered num false))%method.

Definition coverSquares (nums : list Z) : method t unit := forEach cover nums.
Definition uncoverSquares (nums : list Z) : method t unit := forEach uncover nums.

Definition getCoveredNumbers (b : t) : list Z :=
  filter (fun i => covered_at b i) (range_incl 1 (size b)).

Definition getUncoveredNumbers (b : t) : list Z :=
  filter (fun i => negb (covered_at b i)) (range_incl 1 (size b)).

Definition areAllCovered (b : t) : bool := (length (getUncoveredNumbers b) =? 0)%nat.
Definition areAllUncovered (b : t) : bool := (length (getCoveredNumbers b) =? 0)%nat.

(** The inner [backtrack(startIndex, remaining, path)] of [_getCombosForSum].
    [cands] is the part of [sorted] from [startIndex] on, and the value is
    the list of combinations the call pushes onto [result], in push order. *)
Fixpoint backtrack (cands : list Z) (remaining : Z) (path : list Z) : list (list Z) :=
  if (remaining =? 0) && (1 <=? length path)%nat && (length path <=? 4)%nat then [path]
  else if (remaining <? 0) || (length path =? 4)%nat then []
  else (fix loop (l : list Z) : list (list Z) :=
          match l with
          | [] => []
          | n :: rest =>
              if n >? remaining then []
              else backtrack rest (remaining - n) (path ++ [n]) ++ loop rest
          end) cands.

Definition _getCombosForSum (candidates : list Z) (targetSum : Z) : list (list Z) :=
  backtrack (sort_asc candidates) targetSum [].

Definition getCoverCombos (b : t) (targetSum : Z) : list (list Z) :=
  _getCombosForSum (getUncoveredNumbers b) targetSum.

Definition getUncoverCombos (b : t) (targetSum : Z) : list (list Z) :=
  _getCombosForSum (getCoveredNumbers b) targetSum.

Definition toNumberArrayFormat (b : t) : list Z :=
  map (fun i => if covered_at b i then 0 else i) (range_incl 1 (size b)).

Definition canUseOneDie (b : t) : bool :=
  if size b <? 7 then true
  else forallb (fun i => covered_at b i) (range_incl 7 (size b)).

(** The loop of [loadFromNumberArrayFormat], at array index [i]. *)
Fixpoint load_loop (arr : list Js.num) (i : Z) : method t unit :=
  match arr with
  | [] => ret tt
  | val :: rest =>
      let expectedNum := i + 1 in
      if Js.num_eqb val (Js.Int 0)
      then (modify (set_covered expectedNum true) ;;; load_loop rest (i + 1))%method
      else if negb (Js.num_eqb val (Js.Int expectedNum))
      then throw ("Invalid board entry at position " ++ Js.print i ++ ": expected " ++
                  Js.print expectedNum ++ " or 0, got " ++ Js.print_num val)%string
      else (modify (set_covered expectedNum false) ;;; load_loop rest (i + 1))%method
  end.

(** [loadFromNumberArrayFormat(arr)]; the entries are numbers as a parsed
    save file supplies them, [NaN] included. *)
Definition loadFromNumberArrayFormat (arr : list Js.num) : method t unit :=
  fun b => if negb (Z.of_nat (length arr) =? size b)
           then (b, Throw "Bad board array length in loadFromNumberArrayFormat")
           else load_loop arr 0 b.

End Board.

(** ** Player.js *)

Record Player : Type := mkPlayer {
  id : PlayerId;
  name : string;
  board : Board.t;
  totalScore : Z
}.

(** [new Player(id, name)].  The source leaves [board] at [null] until a
    round assigns a fresh [Board]; no method reads it before that, and the
    model holds an empty board there. *)
Definition Player_new (id : PlayerId) (name : string) : Player :=
  {| id := id; name := name; board := Board.mk 0 []; totalScore := 0 |}.

Definition with_board (p : Player) (b : Board.t) : Player :=
  {| id := id p; name := name p; board := b; totalScore := totalScore p |}.

Definition with_totalScore (p : Player) (n : Z) : Player :=
  {| id := id p; name := name p; board := board p; totalScore := n |}.

(** [addToScore(delta)]: every integer is finite, so the guard never fires. *)
Definition addToScore (delta : Z) (p : Player) : Player :=
  with_totalScore p (totalScore p + delta).

(** ** GameRound.js *)

Inductive WinType : Type := WinCover | WinUncover.

Record AdvantageInfo : Type := mkAdvantageInfo {
  ai_playerId : PlayerId;
  ai_digitSum : Z
}.

Record AdvantageLock : Type := mkAdvantageLock {
  lock_playerId : PlayerId;
  lock_squareNumber : Z;
  lock_unlocked : bool
}.

Module GameRound.

Record t : Type := mk {
  boardSize : Z;
  human : Player;
  computer : Player;
  firstPlayerId : PlayerId;
  currentPlayerId : PlayerId;
  advantageInfo : option AdvantageInfo;
  advantageLock : option AdvantageLock;
  roundOver : bool;
  roundWinnerId : option PlayerId;
  winType : option WinType;
  roundScore : Z;
  humanEverCovered : bool;
  computerEverCovered : bool
}.

Definition getPlayerById (r : t) (id : PlayerId) : Player :=
  match id with
  | HUMAN => human r
  | COMPUTER => computer r
  end.

Definition getOpponentId (playerId : PlayerId) : PlayerId :=
  match playerId with
  | HUMAN => COMPUTER
  | COMPUTER => HUMAN
  end.

Definition getOpponent (r : t) (playerId : PlayerId) : Player :=
  getPlayerById r (getOpponentId playerId).

(** Field assignments. *)
Definition set_player (id : PlayerId) (p : Player) (r : t) : t :=
  match id with
  | HUMAN =>
      mk (boardSize r) p (computer r) (firstPlayerId r) (currentPlayerId r)
         (advantageInfo r) (advantageLock r) (roundOver r) (roundWinnerId r)
         (winType r) (roundScore r) (humanEverCovered r) (computerEverCovered r)
  | COMPUTER =>
      mk (boardSize r) (human r) p (firstPlayerId r) (currentPlayerId r)
         (advantageInfo r) (advantageLock r) (roundOver r) (roundWinnerId r)
         (winType r) (roundScore r) (humanEverCovered r) (computerEverCovered r)
  end.

Definition set_currentPlayerId (id : PlayerId) (r : t) : t :=
  mk (boardSize r) (human r) (computer r) (firstPlayerId r) id
     (advantageInfo r) (advantageLock r) (roundOver r) (roundWinnerId r)
     (winType r) (roundScore r) (humanEverCovered r) (computerEverCovered r).

Definition set_advantageLock (l : option AdvantageLock) (r : t) : t :=
  mk (boardSize r) (human r) (computer r) (firstPlayerId r) (currentPlayerId r)
     (advantageInfo r) l (roundOver r) (roundWinnerId r)
     (winType r) (roundScore r) (humanEverCovered r) (computerEverCovered r).

Definition set_everCovered (id : PlayerId) (v : bool) (r : t) : t :=
  match id with
  | HUMAN =>
      mk (boardSize r) (human r) (computer r) (firstPlayerId r) (currentPlayerId r)
         (advantageInfo r) (advantageLock r) (roundOver r) (roundWinnerId r)
         (winType r) (roundScore r) v (computerEverCovered r)
  | COMPUTER =>
      mk (boardSize r) (human r) (computer r) (firstPlayerId r) (currentPlayerId r)
         (advantageInfo r) (advantageLock r) (roundOver r) (roundWinnerId r)
         (winType r) (roundScore r) (humanEverCovered r) v
  end.

Definition set_result (over : bool) (w : option PlayerId) (wt : option WinType)
    (score : Z) (r : t) : t :=
  mk (boardSize r) (human r) (computer r) (firstPlayerId r) (currentPlayerId r)
     (advantageInfo r) (advantageLock r) over w wt score
     (humanEverCovered r) (computerEverCovered r).

(** A method of a player's board, run on [getPlayerById(id).board]. *)
Definition on_board {A} (id : PlayerId) (m : method Board.t A) : method t A :=
  fun r =>
    let p := getPlayerById r id in
    let (b', c) := m (board p) in
    (set_player id (with_board p b') r, c).

Definition getLockedAdvantageSquare (r : t) (playerId : PlayerId) : option Z :=
  match advantageLock r with
  | Some l =>
      if PlayerId_eqb (lock_playerId l) playerId && negb (lock_unlocked l)
      then Some (lock_squareNumber l)
      else None
  | None => None
  end.

Definition _applyAdvantageIfAny : method t unit :=
  fun r =>
    match advantageInfo r with
    | None => (r, Ok tt)
    | Some info =>
        let squareNumber := ai_digitSum info in
        if (squareNumber <? 1) || (squareNumber >? boardSize r) then (r, Ok tt)
        else
          (on_board (ai_playerId info) (Board.coverSquares [squareNumber]) ;;;
           modify (set_advantageLock
                     (Some (mkAdvantageLock (ai_playerId info) squareNumber false))))%method r
    end.

(** [constructor({boardSize, humanPlayer, computerPlayer, firstPlayerId, advantageInfo})] *)
Definition new (boardSize : Z) (humanPlayer computerPlayer : Player)
    (firstPlayerId : PlayerId) (advantageInfo : option AdvantageInfo) : completion t :=
  if boardSize <? 1 then Throw "boardSize must be positive integer"
  else
    match Board.new boardSize with
    | Throw msg => Throw msg
    | Ok fresh =>
        let r0 := mk boardSize (with_board humanPlayer fresh) (with_board computerPlayer fresh)
                     firstPlayerId firstPlayerId advantageInfo None
                     false None None 0 false false in
        match _applyAdvantageIfAny r0 with
        | (_, Throw msg) => Throw msg
        | (r1, Ok _) =>
            let r2 := set_result false None None 0 r1 in
            let r3 := set_everCovered HUMAN
                        (0 <? length (Board.getCoveredNumbers (board (human r2))))%nat r2 in
            Ok (set_everCovered COMPUTER
                  (0 <? length (Board.getCoveredNumbers (board (computer r3))))%nat r3)
        end
    end.

Definition notifyTurnEnded (playerId : PlayerId) (r : t) : t :=
  match advantageLock r with
  | None => r
  | Some l =>
      if PlayerId_eqb (lock_playerId l) playerId && negb (lock_unlocked l)
      then set_advantageLock
             (Some (mkAdvantageLock (lock_playerId l) (lock_squareNumber l) true)) r
      else r
  end.

Definition getCoverOptions (r : t) (playerId : PlayerId) (sum : Z) : list (list Z) :=
  Board.getCoverCombos (board (getPlayerById r playerId)) sum.

Definition getUncoverOptions (r : t) (playerId : PlayerId) (sum : Z) : list (list Z) :=
  let combos := Board.getUncoverCombos (board (getOpponent r playerId)) sum in
  match advantageLock r with
  | Some l =>
      if negb (lock_unlocked l) && negb (PlayerId_eqb playerId (lock_playerId l))
      then filter (fun combo => negb (includes combo (lock_squareNumber l))) combos
      else combos
  | None => combos
  end.

Definition _hadAnyCovered (r : t) (player : Player) : bool :=
  match id player with
  | HUMAN => humanEverCovered r
  | COMPUTER => computerEverCovered r
  end.

Definition _computeRoundScore (r : t) (winnerId : PlayerId) (wt : WinType) : Z :=
  let winner := getPlayerById r winnerId in
  let loser := getOpponent r winnerId in
  match wt with
  | WinCover => sum_list (Board.getUncoveredNumbers (board loser))
  | WinUncover => sum_list (Board.getCoveredNumbers (board winner))
  end.

(** The winner and win type that [_checkForRoundEnd] settles on, if any. *)
Definition round_end_verdict (r : t) : option (PlayerId * WinType) :=
  let humanCoveredAll := Board.areAllCovered (board (human r)) in
  let compCoveredAll := Board.areAllCovered (board (computer r)) in
  let humanCoveredCount := length (Board.getCoveredNumbers (board (human r))) in
  let compCoveredCount := length (Board.getCoveredNumbers (board (computer r))) in
  if humanCoveredAll then Some (HUMAN, WinCover)
  else if compCoveredAll then Some (COMPUTER, WinCover)
  else if (compCoveredCount =? 0)%nat && _hadAnyCovered r (computer r)
       then Some (HUMAN, WinUncover)
  else if (humanCoveredCount =? 0)%nat && _hadAnyCovered r (human r)
       then Some (COMPUTER, WinUncover)
  else None.

Definition _checkForRoundEnd (r : t) : t :=
  match round_end_verdict r with
  | None => r
  | Some (winnerId, wt) =>
      let score := _computeRoundScore r winnerId wt in
      let r' := set_result true (Some winnerId) (Some wt) score r in
      set_player winnerId (addToScore score (getPlayerById r' winnerId)) r'
  end.

Definition applyCoverMove (playerId : PlayerId) (squares : list Z) : method t unit :=
  (on_board playerId (Board.coverSquares squares) ;;;
   modify (set_everCovered playerId true) ;;;
   modify _checkForRoundEnd)%method.

Definition applyUncoverMove (playerId : PlayerId) (squares : list Z) : method t unit :=
  (on_board (getOpponentId playerId) (Board.uncoverSquares squares) ;;;
   modify _checkForRoundEnd)%method.

Definition switchTurn (r : t) : t :=
  set_currentPlayerId (getOpponentId (currentPlayerId r)) r.

End GameRound.

(** ** Tournament.js *)

Module Tournament.

(** The [while (x > 0) { sum += x % 10; x = Math.floor(x / 10); }] loop of
    [_digitSum], from the loop state [(sum, x)] to the final [sum]. *)
Equations? digits_loop (sum x : Z) : Z by wf (Z.to_nat x) lt :=
  digits_loop sum x with Z_gt_dec x 0 => {
    | left _ := digits_loop (sum + x mod 10) (x / 10);
    | right _ := sum }.
Proof.
  assert (x / 10 < x) by (apply Z.div_lt; lia).
  assert (0 <= x / 10) by (apply Z.div_pos; lia).
  lia.
Qed.

Lemma digits_loop_bound (sum x : Z) :
  0 <= x -> digits_loop sum x <= sum + x /\ (10 <= x -> digits_loop sum x < sum + x).
Proof.
  funelim (digits_loop sum x); intros Hx.
  - assert (Hd : 0 <= x / 10) by (apply Z.div_pos; lia).
    destruct (H Hd) as [Hle _].
    pose proof (Z.mod_pos_bound x 10 ltac:(lia)) as Hm.
    pose proof (Z.div_mod x 10 ltac:(lia)) as Hq.
    split; [lia | intros; lia].
  - split; [lia | intros; lia].
Qed.

(** [_digitSum(n)]; [Math.abs(Math.trunc(n))] is [Z.abs] on an integer. *)
Equations? _digitSum (n : Z) : Z by wf (Z.to_nat (Z.abs n)) lt :=
  _digitSum n with Z.eq_dec (Z.abs n) 0 => {
    | left _ := 0;
    | right _ with Z_ge_dec (digits_loop 0 (Z.abs n)) 10 => {
        | left _ := _digitSum (digits_loop 0 (Z.abs n));
        | right _ := digits_loop 0 (Z.abs n) } }.
Proof.
  pose proof (digits_loop_bound 0 (Z.abs n) ltac:(lia)) as [Hle Hlt].
  assert (10 <= Z.abs n) by lia.
  specialize (Hlt ltac:(lia)). lia.
Qed.

Record t : Type := mk {
  human : Player;
  computer : Player;
  currentRound : option GameRound.t;
  nextRoundAdvantage : option AdvantageInfo;
  roundNumber : Z
}.

(** [constructor(humanName, computerName)] *)
Definition new (humanName computerName : string) : t :=
  {| human := Player_new HUMAN humanName;
     computer := Player_new COMPUTER computerName;
     currentRound := None;
     nextRoundAdvantage := None;
     roundNumber := 0 |}.

(** [startNewRound(boardSize, firstPlayerId)].  The round keeps references to
    the tournament's two [Player] objects, so the boards the round constructor
    assigns are seen through [this.human] and [this.computer] as well. *)
Definition startNewRound (boardSize : Z) (firstPlayerId : PlayerId) : method t GameRound.t :=
  fun tn =>
    let tn1 := mk (human tn) (computer tn) (currentRound tn) (nextRoundAdvantage tn)
                  (roundNumber tn + 1) in
    match GameRound.new boardSize (human tn1) (computer tn1) firstPlayerId
                        (nextRoundAdvantage tn1) with
    | Throw msg => (tn1, Throw msg)
    | Ok r =>
        (mk (GameRound.human r) (GameRound.computer r) (Some r)
            (nextRoundAdvantage tn1) (roundNumber tn1), Ok r)
    end.

Definition set_nextRoundAdvantage (a : option AdvantageInfo) (tn : t) : t :=
  mk (human tn) (computer tn) (currentRound tn) a (roundNumber tn).

Definition updateAdvantageForNextRound (tn : t) : t :=
  match currentRound tn with
  | None => set_nextRoundAdvantage None tn
  | Some round =>
      if negb (GameRound.roundOver round) then set_nextRoundAdvantage None tn
      else
        match GameRound.roundWinnerId round with
        | None => set_nextRoundAdvantage None tn
        | Some winnerId =>
            let firstPlayerId := GameRound.firstPlayerId round in
            let rawScore := GameRound.roundScore round in
            if rawScore <=? 0 then set_nextRoundAdvantage None tn
            else
              let recipientId :=
                if PlayerId_eqb winnerId firstPlayerId
                then GameRound.getOpponentId winnerId
                else winnerId in
              set_nextRoundAdvantage
                (Some (mkAdvantageInfo recipientId (_digitSum rawScore))) tn
        end
  end.

Inductive TournamentWinner : Type := WinnerIs (p : PlayerId) | DRAW.

Definition getTournamentResult (tn : t) : TournamentWinner * Z * Z :=
  let humanScore := totalScore (human tn) in
  let computerScore := totalScore (computer tn) in
  let winnerId :=
    if humanScore >? computerScore then WinnerIs HUMAN
    else if computerScore >? humanScore then WinnerIs COMPUTER
    else DRAW in
  (winnerId, humanScore, computerScore).

End Tournament.

(** ** ComputerPlayer.js *)

Module ComputerPlayer.

Inductive Action : Type := ActCover | ActUncover | ActNone.

Record Decision : Type := mkDecision {
  action : Action;
  squares : list Z;
  reason : string;
  allCoverOptions : list (list Z);
  allUncoverOptions : list (list Z)
}.

(** [for (const combo of options) if (combo.length === n) return ...] *)
Definition find_length (n : nat) (options : list (list Z)) : option (list Z) :=
  find (fun combo => (length combo =? n)%nat) options.

(** One pass of the loop body of [_pickBestCombo]. *)
Definition pick_step (best candidate : list Z) : list Z :=
  if (length best <? length candidate)%nat then candidate
  else if (length candidate =? length best)%nat then
    let sumBest := sum_list best in
    let sumCand := sum_list candidate in
    if sumCand >? sumBest then candidate else best
  else best.

(** [_pickBestCombo(options)]; [options[0]] of an empty array is [undefined],
    which no caller reaches and the model renders as the empty list. *)
Definition _pickBestCombo (options : list (list Z)) : list Z :=
  match options with
  | [] => []
  | first :: rest => fold_left pick_step rest first
  end.

Definition decideMove (round : GameRound.t) (playerId : PlayerId) (diceSum : Z) : Decision :=
  let coverOptions := GameRound.getCoverOptions round playerId diceSum in
  let uncoverOptions := GameRound.getUncoverOptions round playerId diceSum in
  if (length coverOptions =? 0)%nat && (length uncoverOptions =? 0)%nat then
    mkDecision ActNone []
      "No valid cover or uncover moves available for this dice sum." [] []
  else
    let self := GameRound.getPlayerById round playerId in
    let opp := GameRound.getOpponent round playerId in
    let selfUncovered := Board.getUncoveredNumbers (board self) in
    let oppCovered := Board.getCoveredNumbers (board opp) in
    match find_length (length selfUncovered) coverOptions with
    | Some combo =>
        mkDecision ActCover combo
          "This move COVERS all your remaining squares and wins the round immediately."
          coverOptions uncoverOptions
    | None =>
        match find_length (length oppCovered) uncoverOptions with
        | Some combo =>
            mkDecision ActUncover combo
              "This move UNCOVERS all opponent squares and wins the round immediately."
              coverOptions uncoverOptions
        | None =>
            if (0 <? length coverOptions)%nat then
              mkDecision ActCover (_pickBestCombo coverOptions)
                "No immediate win available. Chose to COVER own squares using the combination that makes the most progress (more / larger squares)."
                coverOptions uncoverOptions
            else
              mkDecision ActUncover (_pickBestCombo uncoverOptions)
                "No immediate win available and no cover move. Chose to UNCOVER opponent's squares using the strongest combination (more / larger squares)."
                coverOptions uncoverOptions
        end
    end.

Definition getHelpSuggestion := decideMove.

(** [chooseNumDice(board)]; the test [i >= 1 && i <= n] holds for every [i]
    the loop visits. *)
Definition chooseNumDice (b : Board.t) : Z :=
  let n := Board.size b in
  let allHighCovered :=
    forallb (fun i => negb ((1 <=? i) && (i <=? n) && negb (Board.covered_at b i)))
            (range_incl 7 n) in
  if allHighCovered then 1 else 2.

End ComputerPlayer.

(** ** Dice.js *)

(** An entry of a dice queue, [{d1, d2}]; [d2] is [null] for one die. *)
Record QueuedRoll : Type := mkQueuedRoll {
  q_d1 : Z;
  q_d2 : option Z
}.

Module Dice.

Record Roll : Type := mkRoll {
  d1 : Z;
  d2 : option Z;
  sum : Z
}.

Definition _isValidDie (v : Z) : bool := (1 <=? v) && (v <=? 6).

(** [useManual(values)] *)
Definition useManual (values : list Z) : completion Roll :=
  match values with
  | [v1] =>
      if negb (_isValidDie v1) then Throw "Manual dice values must be between 1 and 6"
      else Ok (mkRoll v1 None (v1 + 0))
  | [v1; v2] =>
      if negb (_isValidDie v1) || negb (_isValidDie v2)
      then Throw "Manual dice values must be between 1 and 6"
      else Ok (mkRoll v1 (Some v2) (v1 + v2))
  | _ => Throw "Manual dice must be array of length 1 or 2"
  end.

(** [setQueue(entries)], on the queue of the dice object. *)
Definition setQueue (entries : list QueuedRoll) : method (list QueuedRoll) unit :=
  fun _ => (entries, Ok tt).

(** [_dequeue(numDice)]: the first entry with [numDice] values leaves the
    queue and is returned; [None] stands for [null]. *)
Fixpoint _dequeue (numDice : Z) (queue : list QueuedRoll)
    : list QueuedRoll * option QueuedRoll :=
  match queue with
  | [] => ([], None)
  | q :: rest =>
      let hasTwo := match q_d2 q with Some _ => true | None => false end in
      if ((numDice =? 1) && negb hasTwo) || ((numDice =? 2) && hasTwo)
      then (rest, Some q)
      else let (rest', found) := _dequeue numDice rest in (q :: rest', found)
  end.

(** [rollRandom(numDice)].  The values the two calls of [_rollOne()] return
    come from the random number generator; they are the arguments [face1]
    and [face2], read only when the queue holds no entry for [numDice]. *)
Definition rollRandom (numDice : Z) (face1 face2 : Z) : method (list QueuedRoll) Roll :=
  fun queue =>
    match _dequeue numDice queue with
    | (queue', Some queued) =>
        (queue', Ok (mkRoll (q_d1 queued) (q_d2 queued)
                       (q_d1 queued + match q_d2 queued with Some v => v | None => 0 end)))
    | (queue', None) =>
        if negb (numDice =? 1) && negb (numDice =? 2)
        then (queue', Throw "numDice must be 1 or 2")
        else
          let d1 := face1 in
          let d2 := if numDice =? 2 then Some face2 else None in
          (queue', Ok (mkRoll d1 d2 (d1 + match d2 with Some v => v | None => 0 end)))
    end.

End Dice.

(** ** Serializer.js *)

Definition PlayerId_string (p : PlayerId) : string :=
  match p with HUMAN => "HUMAN" | COMPUTER => "COMPUTER" end.

Record CurrentDice : Type := mkCurrentDice {
  cd_d1 : option Z;
  cd_d2 : option Z;
  cd_sum : option Z
}.

Definition no_dice : CurrentDice := mkCurrentDice None None None.

(** Completions of code without a receiver. *)
Definition cbind {A B} (m : completion A) (k : A -> completion B) : completion B :=
  match m with
  | Ok v => k v
  | Throw msg => Throw msg
  end.

Declare Scope completion_scope.
Delimit Scope completion_scope with comp.
Notation "x <- m ;; k" := (cbind m (fun x => k))
  (at level 61, m at next level, right associativity) : completion_scope.

Module Serializer.

(** The argument object of [serializeSnapshot]. *)
Record Params : Type := mkParams {
  computerBoard : Board.t;
  humanBoard : Board.t;
  computerScore : Z;
  humanScore : Z;
  firstTurnId : PlayerId;
  nextTurnId : PlayerId;
  phase : string;
  currentDice : CurrentDice;
  advantageLock : option AdvantageLock;
  queuedRolls : list QueuedRoll
}.

Definition turn_label (p : PlayerId) : string :=
  match p with COMPUTER => "Computer" | HUMAN => "Human" end.

(** [v ?? "-"] inside a template. *)
Definition print_or_dash (v : option Z) : string :=
  match v with Some n => Js.print n | None => "-" end.

Definition roll_text (r : QueuedRoll) : string :=
  match q_d2 r with
  | Some b => (Js.print (q_d1 r) ++ "," ++ Js.print b)%string
  | None => Js.print (q_d1 r)
  end.

Definition nl : string := String Js.LF EmptyString.

Definition serializeSnapshot (p : Params) : string :=
  let compArr := Board.toNumberArrayFormat (computerBoard p) in
  let humanArr := Board.toNumberArrayFormat (humanBoard p) in
  let firstTurnLabel := turn_label (firstTurnId p) in
  let nextTurnLabel := turn_label (nextTurnId p) in
  let computerLine := Js.join " " (map Js.print compArr) in
  let humanLine := Js.join " " (map Js.print humanArr) in
  let base : string :=
    ("Computer:" ++ nl ++
    "   Squares: " ++ computerLine ++ nl ++
    "   Score: " ++ Js.print (computerScore p) ++ nl ++ nl ++
    "Human:" ++ nl ++
    "   Squares: " ++ humanLine ++ nl ++
    "   Score: " ++ Js.print (humanScore p) ++ nl ++ nl ++
    "First Turn: " ++ firstTurnLabel ++ nl ++
    "Next Turn: " ++ nextTurnLabel ++ nl)%string in
  let meta0 :=
    [ ("# Phase: " ++ phase p)%string;
      ("# CurrentDice: " ++ print_or_dash (cd_d1 (currentDice p)) ++ " " ++
        print_or_dash (cd_d2 (currentDice p)) ++ " (sum=" ++
        print_or_dash (cd_sum (currentDice p)) ++ ")")%string ] in
  let meta1 :=
    match advantageLock p with
    | Some l =>
        if negb (lock_squareNumber l =? 0) then
          meta0 ++ [ ("# AdvantageLock: " ++ PlayerId_string (lock_playerId l) ++ " " ++
                      Js.print (lock_squareNumber l) ++ " unlocked=" ++
                      Js.print_bool (lock_unlocked l))%string ]
        else meta0
    | None => meta0
    end in
  let meta :=
    match queuedRolls p with
    | [] => meta1
    | _ :: _ =>
        meta1 ++ [ ("# QueuedRolls: " ++ Js.join " | " (map roll_text (queuedRolls p)))%string ]
    end in
  (base ++ (if (0 <? length meta)%nat then nl ++ Js.join nl meta ++ nl else ""))%string.

(** The object [parseSnapshot] returns. *)
Record ParsedDice : Type := mkParsedDice {
  pd_d1 : option Js.num;
  pd_d2 : option Js.num;
  pd_sum : option Js.num
}.

Record ParsedLock : Type := mkParsedLock {
  pl_playerId : string;
  pl_squareNumber : Js.num;
  pl_unlocked : bool
}.

Record ParsedRoll : Type := mkParsedRoll {
  pr_d1 : Js.num;
  pr_d2 : option Js.num
}.

Record Snapshot : Type := mkSnapshot {
  s_computerSquares : list Js.num;
  s_humanSquares : list Js.num;
  s_computerScore : Z;
  s_humanScore : Z;
  s_firstTurnId : PlayerId;
  s_nextTurnId : PlayerId;
  s_phase : string;
  s_currentDice : ParsedDice;
  s_advantageLock : option ParsedLock;
  s_queuedRolls : list ParsedRoll
}.

Definition startsWith (prefix l : string) : bool := String.prefix prefix l.

(** [findLine(prefix)] *)
Definition findLine (lines : list string) (prefix : string) : completion string :=
  match find (startsWith prefix) lines with
  | Some line =>
      if Js.is_empty line
      then Throw ("Cannot find line starting with " ++ Js.quoted prefix)%string
      else Ok line
  | None => Throw ("Cannot find line starting with " ++ Js.quoted prefix)%string
  end.

(** [line.split(":")[1]] *)
Definition afterColon (line : string) : option string :=
  nth_error (Js.split_char ":" line) 1.

Definition non_empty (s : string) : bool := negb (Js.is_empty s).

Definition parseSquares (line : string) : completion (list Js.num) :=
  match afterColon line with
  | None => Throw ("Bad squares line: " ++ Js.quoted line)%string
  | Some after =>
      if Js.is_empty after then Throw ("Bad squares line: " ++ Js.quoted line)%string
      else Ok (map Js.Number (filter non_empty (Js.split_ws (Js.trim after))))
  end.

Definition parseScore (line : string) : completion Z :=
  match afterColon line with
  | None => Throw ("Bad score line: " ++ Js.quoted line)%string
  | Some after =>
      if Js.is_empty after then Throw ("Bad score line: " ++ Js.quoted line)%string
      else match Js.Number (Js.trim after) with
           | Js.NaN => Throw ("Score is not a number: " ++ Js.quoted line)%string
           | Js.Int n => Ok n
           end
  end.

Definition mapLabel (label : string) : completion PlayerId :=
  if String.eqb (Js.toLowerCase label) "computer" then Ok COMPUTER
  else if String.eqb (Js.toLowerCase label) "human" then Ok HUMAN
  else Throw ("Unknown player label: " ++ Js.quoted label)%string.

(** [line.split(":")[1].trim()]; taking [.trim()] of [undefined] throws. *)
Definition label_of (line : string) : completion string :=
  match afterColon line with
  | Some after => Ok (Js.trim after)
  | None => Throw "TypeError"
  end.

(** The four variables the metadata loop assigns. *)
Record Meta : Type := mkMeta {
  m_phase : string;
  m_currentDice : ParsedDice;
  m_advantageLock : option ParsedLock;
  m_queuedRolls : list ParsedRoll
}.

Definition meta_default : Meta :=
  mkMeta "awaitingRoll" (mkParsedDice None None None) None [].

(** [x === "-" ? null : Number(x)] where [x] may be [undefined]. *)
Definition dash_or_number (x : option string) : option Js.num :=
  match x with
  | Some s => if String.eqb s "-" then None else Some (Js.Number s)
  | None => Some Js.NaN
  end.

Definition parse_roll (entry : string) : ParsedRoll :=
  let vals := map (fun v => Js.Number (Js.trim v)) (Js.split_char "," entry) in
  if (length vals =? 1)%nat then mkParsedRoll (nth 0 vals Js.NaN) None
  else mkParsedRoll (nth 0 vals Js.NaN) (Some (nth 1 vals Js.NaN)).

(** The body of the [forEach] over the lines that start with [#]. *)
Definition meta_step (m : Meta) (metaLine : string) : Meta :=
  let body := Js.trim (Js.drop 1 metaLine) in
  if startsWith "Phase:" body then
    mkMeta (match afterColon body with Some a => Js.trim a | None => m_phase m end)
           (m_currentDice m) (m_advantageLock m) (m_queuedRolls m)
  else if startsWith "CurrentDice:" body then
    let parts := Js.split_ws (Js.trim (Js.replace_first "CurrentDice:" "" body)) in
    let d1 := dash_or_number (nth_error parts 0) in
    let d2 := dash_or_number (nth_error parts 1) in
    let sum :=
      match Js.match_sum body with
      | Some raw => if String.eqb raw "-" then None else Some (Js.Number raw)
      | None => None
      end in
    mkMeta (m_phase m) (mkParsedDice d1 d2 sum) (m_advantageLock m) (m_queuedRolls m)
  else if startsWith "AdvantageLock:" body then
    let parts := Js.split_ws (Js.trim (Js.replace_first "AdvantageLock:" "" body)) in
    match parts with
    | p0 :: p1 :: p2 :: _ =>
        mkMeta (m_phase m) (m_currentDice m)
               (Some (mkParsedLock p0 (Js.Number p1) (Js.contains_ci "true" p2)))
               (m_queuedRolls m)
    | _ => m
    end
  else if startsWith "QueuedRolls:" body then
    let payload := Js.trim (Js.replace_first "QueuedRolls:" "" body) in
    mkMeta (m_phase m) (m_currentDice m) (m_advantageLock m)
           (map parse_roll (filter non_empty (map Js.trim (Js.split_char "|" payload))))
  else m.

(** [lines.findIndex(p)]; [None] stands for [-1]. *)
Fixpoint findIndex {A} (p : A -> bool) (l : list A) : option nat :=
  match l with
  | [] => None
  | x :: rest => if p x then Some O else option_map S (findIndex p rest)
  end.

Definition parseSnapshot (text : string) : completion Snapshot :=
  let lines := map Js.trim (Js.split_lines text) in
  (compSquaresLine <- findLine lines "Squares:" ;;
   compScoreLine <- findLine lines "Score:" ;;
   match findIndex (fun l => String.eqb l "Human:") lines with
   | None => Throw ("Missing " ++ Js.quoted "Human:" ++ " section")%string
   | Some humanIdx =>
       let below := skipn (humanIdx + 1) lines in
       match find (startsWith "Squares:") below, find (startsWith "Score:") below with
       | Some humanSquaresLine, Some humanScoreLine =>
           firstTurnLine <- findLine lines "First Turn:" ;;
           nextTurnLine <- findLine lines "Next Turn:" ;;
           computerSquares <- parseSquares compSquaresLine ;;
           humanSquares <- parseSquares humanSquaresLine ;;
           computerScore <- parseScore compScoreLine ;;
           humanScore <- parseScore humanScoreLine ;;
           firstTurnLabel <- label_of firstTurnLine ;;
           nextTurnLabel <- label_of nextTurnLine ;;
           firstTurnId <- mapLabel firstTurnLabel ;;
           nextTurnId <- mapLabel nextTurnLabel ;;
           let m := fold_left meta_step (filter (startsWith "#") lines) meta_default in
           Ok (mkSnapshot computerSquares humanSquares computerScore humanScore
                          firstTurnId nextTurnId
                          (m_phase m) (m_currentDice m) (m_advantageLock m)
                          (m_queuedRolls m))
       | _, _ => Throw "Cannot find human squares/score lines"
       end
   end)%comp.

End Serializer.

(** ** GameSession.js

    The session, the tournament and the round refer to the same two [Player]
    objects, and [tournament.currentRound], when it is not [null], is the
    object [session.currentRound].  The records of the model hold copies, and
    [store_round] writes a changed round through to every reference. *)

Module GameSession.

Inductive Phase : Type := idle | awaitingRoll | awaitingMove | roundOver.

Definition Phase_string (p : Phase) : string :=
  match p with
  | idle => "idle"
  | awaitingRoll => "awaitingRoll"
  | awaitingMove => "awaitingMove"
  | roundOver => "roundOver"
  end.

Definition Phase_eqb (a b : Phase) : bool :=
  match a, b with
  | idle, idle | awaitingRoll, awaitingRoll
  | awaitingMove, awaitingMove | roundOver, roundOver => true
  | _, _ => false
  end.

Inductive GameMode : Type := HvsC | HvsH | CvsC.

Inductive MoveType : Type := MoveCover | MoveUncover.

Record LastAction : Type := mkLastAction {
  la_playerId : PlayerId;
  la_action : ComputerPlayer.Action;
  la_squares : list Z;
  la_roll : CurrentDice;
  la_reason : option string
}.

Record SnapTournament : Type := mkSnapTournament {
  st_humanScore : Z;
  st_computerScore : Z;
  st_nextRoundAdvantage : option AdvantageInfo;
  st_roundNumber : Z
}.

Record SnapRound : Type := mkSnapRound {
  sr_boardSize : Z;
  sr_firstPlayerId : PlayerId;
  sr_currentPlayerId : PlayerId;
  sr_advantageInfo : option AdvantageInfo;
  sr_advantageLock : option AdvantageLock;
  sr_roundOver : bool;
  sr_roundWinnerId : option PlayerId;
  sr_winType : option WinType;
  sr_roundScore : Z;
  sr_humanBoard : list Z;
  sr_computerBoard : list Z;
  sr_humanScore : Z;
  sr_computerScore : Z
}.

(** The object [_captureSnapshot] builds. *)
Record Snapshot : Type := mkSnapshot {
  hs_gameMode : GameMode;
  hs_currentPlayerId : PlayerId;
  hs_phase : Phase;
  hs_currentDice : CurrentDice;
  hs_lastAction : option LastAction;
  hs_tournament : SnapTournament;
  hs_round : SnapRound
}.

Record HistoryEntry : Type := mkHistoryEntry {
  h_label : string;
  h_snapshot : Snapshot;
  h_lastAction : option LastAction
}.

Record t : Type := mk {
  tournament : option Tournament.t;
  dice : option (list QueuedRoll);
  currentRound : option GameRound.t;
  history : list HistoryEntry;
  queuedRolls : list QueuedRoll;
  gameMode : GameMode;
  currentPlayerId : PlayerId;
  phase : Phase;
  currentDice : CurrentDice
}.

(** [constructor()] *)
Definition new : t :=
  mk None None None [] [] HvsC HUMAN idle no_dice.

Definition set_tournament (v : option Tournament.t) (s : t) : t :=
  mk v (dice s) (currentRound s) (history s) (queuedRolls s) (gameMode s)
     (currentPlayerId s) (phase s) (currentDice s).
Definition set_currentRound (v : option GameRound.t) (s : t) : t :=
  mk (tournament s) (dice s) v (history s) (queuedRolls s) (gameMode s)
     (currentPlayerId s) (phase s) (currentDice s).
Definition set_history (v : list HistoryEntry) (s : t) : t :=
  mk (tournament s) (dice s) (currentRound s) v (queuedRolls s) (gameMode s)
     (currentPlayerId s) (phase s) (currentDice s).
Definition set_queuedRolls (v : list QueuedRoll) (s : t) : t :=
  mk (tournament s) (dice s) (currentRound s) (history s) v (gameMode s)
     (currentPlayerId s) (phase s) (currentDice s).
Definition set_gameMode (v : GameMode) (s : t) : t :=
  mk (tournament s) (dice s) (currentRound s) (history s) (queuedRolls s) v
     (currentPlayerId s) (phase s) (currentDice s).
Definition set_currentPlayerId (v : PlayerId) (s : t) : t :=
  mk (tournament s) (dice s) (currentRound s) (history s) (queuedRolls s) (gameMode s)
     v (phase s) (currentDice s).
Definition set_phase (v : Phase) (s : t) : t :=
  mk (tournament s) (dice s) (currentRound s) (history s) (queuedRolls s) (gameMode s)
     (currentPlayerId s) v (currentDice s).
Definition set_currentDice (v : CurrentDice) (s : t) : t :=
  mk (tournament s) (dice s) (currentRound s) (history s) (queuedRolls s) (gameMode s)
     (currentPlayerId s) (phase s) v.
Definition set_dice (v : option (list QueuedRoll)) (s : t) : t :=
  mk (tournament s) v (currentRound s) (history s) (queuedRolls s) (gameMode s)
     (currentPlayerId s) (phase s) (currentDice s).

(** The round object after a change, seen through every reference to it and
    to its players. *)
Definition store_round (r : GameRound.t) (s : t) : t :=
  let tn' :=
    match tournament s with
    | Some tn =>
        Some (Tournament.mk (GameRound.human r) (GameRound.computer r)
                (match Tournament.currentRound tn with Some _ => Some r | None => None end)
                (Tournament.nextRoundAdvantage tn) (Tournament.roundNumber tn))
    | None => None
    end in
  set_currentRound (Some r) (set_tournament tn' s).

Definition resetTournament (s : t) : t :=
  mk (Some (Tournament.new "Human" "Computer")) (Some []) None [] [] (gameMode s)
     HUMAN idle no_dice.

Definition setMode (mode : GameMode) (s : t) : t := set_gameMode mode s.

Definition isPlayerHumanControlled (s : t) (playerId : PlayerId) : bool :=
  match gameMode s with
  | HvsC => PlayerId_eqb playerId HUMAN
  | HvsH => true
  | CvsC => false
  end.

Definition getPlayerDisplayName (s : t) (playerId : PlayerId) : string :=
  match gameMode s, playerId with
  | HvsH, HUMAN => "Player 1 (Human)"
  | HvsH, COMPUTER => "Player 2 (Human)"
  | CvsC, HUMAN => "Player 1 (Computer)"
  | CvsC, COMPUTER => "Player 2 (Computer)"
  | HvsC, HUMAN => "Human"
  | HvsC, COMPUTER => "Computer"
  end.

Definition _captureSnapshot (s : t) (lastAction : option LastAction) : option Snapshot :=
  match currentRound s, tournament s with
  | Some r, Some tn =>
      Some (mkSnapshot (gameMode s) (currentPlayerId s) (phase s) (currentDice s) lastAction
              (mkSnapTournament (totalScore (Tournament.human tn))
                 (totalScore (Tournament.computer tn))
                 (Tournament.nextRoundAdvantage tn) (Tournament.roundNumber tn))
              (mkSnapRound (GameRound.boardSize r) (GameRound.firstPlayerId r)
                 (GameRound.currentPlayerId r) (GameRound.advantageInfo r)
                 (GameRound.advantageLock r) (GameRound.roundOver r)
                 (GameRound.roundWinnerId r) (GameRound.winType r) (GameRound.roundScore r)
                 (Board.toNumberArrayFormat (board (GameRound.human r)))
                 (Board.toNumberArrayFormat (board (GameRound.computer r)))
                 (totalScore (GameRound.human r)) (totalScore (GameRound.computer r))))
  | _, _ => None
  end.

Definition _pushHistory (label : string) (lastAction : option LastAction) (s : t) : t :=
  match _captureSnapshot s lastAction with
  | None => s
  | Some snap => set_history (history s ++ [mkHistoryEntry label snap lastAction]) s
  end.

(** What a driver-facing operation hands back: an [{error}] object, or the
    flags of its result object. *)
Inductive Reply : Type :=
| Error (msg : string)
| Done (isRoundOver canMove autoMoveDone : bool).

Definition MoveType_string (m : MoveType) : string :=
  match m with MoveCover => "cover" | MoveUncover => "uncover" end.

Definition Action_string (a : ComputerPlayer.Action) : string :=
  match a with
  | ComputerPlayer.ActCover => "cover"
  | ComputerPlayer.ActUncover => "uncover"
  | ComputerPlayer.ActNone => "none"
  end.

Definition squares_text (squares : list Z) : string := Js.join ", " (map Js.print squares).

Definition tournament_or_fresh (s : t) : Tournament.t :=
  match tournament s with Some tn => tn | None => Tournament.new "Human" "Computer" end.

(** [startNewRound(boardSize, firstPlayerId)] *)
Definition startNewRound (boardSize : Z) (firstPlayerId : PlayerId) : method t unit :=
  fun s0 =>
    let s := match tournament s0, dice s0 with
             | Some _, Some _ => s0
             | _, _ => resetTournament s0
             end in
    match Tournament.startNewRound boardSize firstPlayerId (tournament_or_fresh s) with
    | (tn, Throw msg) => (set_tournament (Some tn) s, Throw msg)
    | (tn, Ok r) =>
        let s1 := set_currentRound (Some r) (set_tournament (Some tn) s) in
        let s2 := set_currentPlayerId (GameRound.currentPlayerId r) s1 in
        let s3 := set_queuedRolls [] (set_history [] (set_currentDice no_dice
                    (set_phase awaitingRoll s2))) in
        (_pushHistory
           ("Round " ++ Js.print (Tournament.roundNumber tn) ++ " start (first: " ++
            getPlayerDisplayName s3 firstPlayerId ++ ")")%string None s3, Ok tt)
    end.

(** [this.tournament.updateAdvantageForNextRound()] *)
Definition update_advantage (s : t) : t :=
  match tournament s with
  | Some tn => set_tournament (Some (Tournament.updateAdvantageForNextRound tn)) s
  | None => s
  end.

(** Two selections are the same once both are sorted. *)
Fixpoint same_numbers (a b : list Z) : bool :=
  match a, b with
  | [], [] => true
  | x :: a', y :: b' => (x =? y) && same_numbers a' b'
  | _, _ => false
  end.

Definition option_exists (options : list (list Z)) (squares : list Z) : bool :=
  let sortedSel := sort_asc squares in
  existsb (fun combo => same_numbers (sort_asc combo) sortedSel) options.

(** A method of the round, run on [this.currentRound]. *)
Definition on_round {A} (m : method GameRound.t A) (r : GameRound.t) : method t A :=
  fun s => let (r', c) := m r in (store_round r' s, c).

Definition sum_is_set (d : CurrentDice) : option Z :=
  match cd_sum d with
  | Some n => if n =? 0 then None else Some n
  | None => None
  end.

(** [applyHumanMove(moveType, squares)] *)
Definition applyHumanMove (moveType : MoveType) (squares : list Z) : method t Reply :=
  fun s =>
    match currentRound s with
    | None => (s, Ok (Error "No active round."))
    | Some round =>
        if negb (Phase_eqb (phase s) awaitingMove)
        then (s, Ok (Error "Not expecting a move selection right now."))
        else
          match sum_is_set (currentDice s) with
          | None => (s, Ok (Error "No active dice roll."))
          | Some sum =>
              let options :=
                match moveType with
                | MoveCover => GameRound.getCoverOptions round (currentPlayerId s) sum
                | MoveUncover => GameRound.getUncoverOptions round (currentPlayerId s) sum
                end in
              if negb (option_exists options squares)
              then (s, Ok (Error "Selected combination is no longer valid based on current board."))
              else
                let apply :=
                  match moveType with
                  | MoveCover => GameRound.applyCoverMove (currentPlayerId s) squares
                  | MoveUncover => GameRound.applyUncoverMove (currentPlayerId s) squares
                  end in
                match on_round apply round s with
                | (s1, Throw msg) => (s1, Throw msg)
                | (s1, Ok _) =>
                    let lastAction :=
                      mkLastAction (currentPlayerId s1)
                        (match moveType with
                         | MoveCover => ComputerPlayer.ActCover
                         | MoveUncover => ComputerPlayer.ActUncover
                         end)
                        squares (currentDice s1) None in
                    let s2 :=
                      _pushHistory
                        (getPlayerDisplayName s1 (currentPlayerId s1) ++ " " ++
                         MoveType_string moveType ++ "s [" ++ squares_text squares ++ "]")%string
                        (Some lastAction) s1 in
                    match currentRound s2 with
                    | Some r2 =>
                        if GameRound.roundOver r2
                        then (update_advantage (set_phase roundOver s2), Ok (Done true false false))
                        else (set_phase awaitingRoll (set_currentDice no_dice s2),
                              Ok (Done false false false))
                    | None => (s2, Throw "TypeError")
                    end
                end
          end
    end.

(** [endTurn()] *)
Definition endTurn : method t Reply :=
  fun s =>
    match currentRound s with
    | None => (s, Ok (Error "No active round."))
    | Some round =>
        let r1 := GameRound.notifyTurnEnded (currentPlayerId s) round in
        let s1 := store_round r1 s in
        if GameRound.roundOver r1
        then (update_advantage (set_phase roundOver s1), Ok (Done true false false))
        else
          let r2 := GameRound.switchTurn r1 in
          let s2 := set_currentPlayerId (GameRound.currentPlayerId r2) (store_round r2 s1) in
          (set_phase awaitingRoll (set_currentDice no_dice s2), Ok (Done false false false))
    end.

Definition Action_upper (a : ComputerPlayer.Action) : string :=
  match a with
  | ComputerPlayer.ActCover => "COVER"
  | ComputerPlayer.ActUncover => "UNCOVER"
  | ComputerPlayer.ActNone => "NONE"
  end.

Definition count_text (n : nat) (what : string) : string :=
  (Js.print (Z.of_nat n) ++ " " ++ what ++ " option" ++ (if (n =? 1)%nat then "" else "s"))%string.

Definition _formatComputerReason (action : ComputerPlayer.Action) (squares : list Z)
    (baseReason : string) (diceSum : Z) (coverOptions uncoverOptions : list (list Z)) : string :=
  let choiceSquares : string :=
    match squares with
    | [] => "(no squares)"
    | _ :: _ => ("[" ++ squares_text squares ++ "]")%string
    end in
  let choiceText : string := (Action_upper action ++ " " ++ choiceSquares)%string in
  let coverCount := length coverOptions in
  let uncoverCount := length uncoverOptions in
  let optionParts :=
    (if (0 <? coverCount)%nat then [count_text coverCount "cover"] else []) ++
    (if (0 <? uncoverCount)%nat then [count_text uncoverCount "uncover"] else []) in
  let optionsText : string :=
    match optionParts with
    | [] => ""
    | _ :: _ => (" Options seen: " ++ Js.join " | " optionParts ++ ".")%string
    end in
  ("Rolled " ++ Js.print diceSum ++ ". " ++ baseReason ++ " Chosen: " ++ choiceText ++ "." ++
   optionsText)%string.

(** The computer-controlled branch of [handleManualRoll] when no option exists. *)
Definition computer_no_moves (round : GameRound.t) (rollInfo : CurrentDice) (sum : Z)
    (coverOptions uncoverOptions : list (list Z)) : method t Reply :=
  fun s =>
    let reason :=
      _formatComputerReason ComputerPlayer.ActNone []
        "No valid cover or uncover moves available." sum coverOptions uncoverOptions in
    let lastAction :=
      mkLastAction (currentPlayerId s) ComputerPlayer.ActNone [] rollInfo (Some reason) in
    let r1 := GameRound.notifyTurnEnded (currentPlayerId s) round in
    let s1 := store_round r1 s in
    if GameRound.roundOver r1 then
      let s2 := update_advantage (set_phase roundOver s1) in
      (_pushHistory (getPlayerDisplayName s2 (currentPlayerId s2) ++ " had no moves")%string
         (Some lastAction) s2, Ok (Done true false true))
    else
      let r2 := GameRound.switchTurn r1 in
      let s2 := set_currentPlayerId (GameRound.currentPlayerId r2) (store_round r2 s1) in
      (set_phase awaitingRoll (set_currentDice no_dice s2), Ok (Done false false true)).

(** The computer-controlled branch of [handleManualRoll] when a move exists. *)
Definition computer_moves (round : GameRound.t) (rollInfo : CurrentDice) (sum : Z)
    (coverOptions uncoverOptions : list (list Z)) : method t Reply :=
  fun s =>
    let decision := ComputerPlayer.decideMove round (currentPlayerId s) sum in
    let decisionReason :=
      _formatComputerReason (ComputerPlayer.action decision) (ComputerPlayer.squares decision)
        (ComputerPlayer.reason decision) sum coverOptions uncoverOptions in
    let apply : method GameRound.t unit :=
      match ComputerPlayer.action decision with
      | ComputerPlayer.ActCover =>
          GameRound.applyCoverMove (currentPlayerId s) (ComputerPlayer.squares decision)
      | ComputerPlayer.ActUncover =>
          GameRound.applyUncoverMove (currentPlayerId s) (ComputerPlayer.squares decision)
      | ComputerPlayer.ActNone => ret tt
      end in
    match on_round apply round s with
    | (s1, Throw msg) => (s1, Throw msg)
    | (s1, Ok _) =>
        let lastAction :=
          mkLastAction (currentPlayerId s1) (ComputerPlayer.action decision)
            (ComputerPlayer.squares decision) rollInfo (Some decisionReason) in
        let s2 :=
          _pushHistory
            (getPlayerDisplayName s1 (currentPlayerId s1) ++ " " ++
             Action_string (ComputerPlayer.action decision) ++ "s [" ++
             squares_text (ComputerPlayer.squares decision) ++ "]")%string
            (Some lastAction) s1 in
        match currentRound s2 with
        | Some r2 =>
            if GameRound.roundOver r2 then
              let s3 := store_round (GameRound.notifyTurnEnded (currentPlayerId s2) r2) s2 in
              (update_advantage (set_phase roundOver s3), Ok (Done true false true))
            else
              (set_phase awaitingRoll (set_currentDice no_dice s2), Ok (Done false false true))
        | None => (s2, Throw "TypeError")
        end
    end.

(** [handleManualRoll(numDice, values)] *)
Definition handleManualRoll (numDice : Z) (values : list Z) : method t Reply :=
  fun s =>
    match currentRound s with
    | None => (s, Ok (Error "No active round."))
    | Some round =>
        if negb (Phase_eqb (phase s) awaitingRoll)
        then (s, Ok (Error "You cannot roll dice right now."))
        else if negb (numDice =? 1) && negb (numDice =? 2)
        then (s, Ok (Error "You must use 1 or 2 dice."))
        else if Z.of_nat (length values) <? numDice
        then (s, Ok (Error "Please select enough dice values."))
        else
          let d1 := nth 0 values 0 in
          let d2 := if numDice =? 2 then Some (nth 1 values 0) else None in
          if negb (Dice._isValidDie d1) ||
             match d2 with Some v => negb (Dice._isValidDie v) | None => false end
          then (s, Ok (Error "Dice values must be between 1 and 6."))
          else
            let player := GameRound.getPlayerById round (currentPlayerId s) in
            if (numDice =? 1) && negb (Board.canUseOneDie (board player))
            then (s, Ok (Error "You may roll ONE die only if squares 7..n are ALL covered."))
            else
              let sum := d1 + match d2 with Some v => v | None => 0 end in
              let rollInfo := mkCurrentDice (Some d1) d2 (Some sum) in
              let s1 := set_currentDice rollInfo s in
              let coverOptions := GameRound.getCoverOptions round (currentPlayerId s1) sum in
              let uncoverOptions := GameRound.getUncoverOptions round (currentPlayerId s1) sum in
              let noOptions := (length coverOptions =? 0)%nat && (length uncoverOptions =? 0)%nat in
              if isPlayerHumanControlled s1 (currentPlayerId s1) then
                if noOptions then (s1, Ok (Done false false false))
                else (set_phase awaitingMove s1, Ok (Done false true false))
              else if noOptions
              then computer_no_moves round rollInfo sum coverOptions uncoverOptions s1
              else computer_moves round rollInfo sum coverOptions uncoverOptions s1
    end.

(** [_restoreSnapshot(snap)] *)
Definition _restoreSnapshot (snap : Snapshot) : method t unit :=
  fun s =>
    let s1 := set_gameMode (hs_gameMode snap) s in
    let tn0 := Tournament.new "Human" "Computer" in
    let tn1 :=
      Tournament.mk
        (with_totalScore (Tournament.human tn0) (st_humanScore (hs_tournament snap)))
        (with_totalScore (Tournament.computer tn0) (st_computerScore (hs_tournament snap)))
        None
        (st_nextRoundAdvantage (hs_tournament snap))
        (st_roundNumber (hs_tournament snap)) in
    let s2 := set_tournament (Some tn1) s1 in
    match GameRound.new (sr_boardSize (hs_round snap)) (Tournament.human tn1)
            (Tournament.computer tn1) (sr_firstPlayerId (hs_round snap))
            (sr_advantageInfo (hs_round snap)) with
    | Throw msg => (s2, Throw msg)
    | Ok r0 =>
        let restore : method GameRound.t unit :=
          (modify (GameRound.set_advantageLock (sr_advantageLock (hs_round snap))) ;;;
           GameRound.on_board HUMAN
             (Board.loadFromNumberArrayFormat (map Js.Int (sr_humanBoard (hs_round snap)))) ;;;
           GameRound.on_board COMPUTER
             (Board.loadFromNumberArrayFormat (map Js.Int (sr_computerBoard (hs_round snap)))) ;;;
           modify (fun r => GameRound.set_player HUMAN
                     (with_totalScore (GameRound.human r) (sr_humanScore (hs_round snap))) r) ;;;
           modify (fun r => GameRound.set_player COMPUTER
                     (with_totalScore (GameRound.computer r) (sr_computerScore (hs_round snap))) r) ;;;
           modify (fun r => GameRound.set_everCovered HUMAN
                     (0 <? length (Board.getCoveredNumbers (board (GameRound.human r))))%nat r) ;;;
           modify (fun r => GameRound.set_everCovered COMPUTER
                     (0 <? length (Board.getCoveredNumbers (board (GameRound.computer r))))%nat r) ;;;
           modify (GameRound.set_currentPlayerId (sr_currentPlayerId (hs_round snap))) ;;;
           modify (GameRound.set_result (sr_roundOver (hs_round snap))
                     (sr_roundWinnerId (hs_round snap)) (sr_winType (hs_round snap))
                     (sr_roundScore (hs_round snap))))%method in
        match on_round restore r0 s2 with
        | (s3, Throw msg) => (s3, Throw msg)
        | (s3, Ok _) =>
            (set_currentDice (hs_currentDice snap)
               (set_phase (hs_phase snap)
                  (set_currentPlayerId (hs_currentPlayerId snap) s3)), Ok tt)
        end
    end.

(** What [rewindTo] hands back. *)
Inductive RewindReply : Type :=
| RewindError (msg : string)
| Rewound (lastAction : option LastAction) (dice : CurrentDice) (ph : Phase).

(** [rewindTo(index)] *)
Definition rewindTo (index : Z) : method t RewindReply :=
  fun s =>
    if (index <? 0) || (index >=? Z.of_nat (length (history s)))
    then (s, Ok (RewindError "Invalid rewind selection."))
    else
      match nth_error (history s) (Z.to_nat index) with
      | None => (s, Throw "TypeError")
      | Some entry =>
          match _restoreSnapshot (h_snapshot entry) s with
          | (s1, Throw msg) => (s1, Throw msg)
          | (s1, Ok _) =>
              let s2 := set_currentDice no_dice (set_phase awaitingRoll s1) in
              (s2, Ok (Rewound (h_lastAction entry) (currentDice s2) (phase s2)))
          end
      end.

(** [getSnapshotText()] *)
Definition getSnapshotText (s : t) : completion string :=
  match currentRound s, tournament s with
  | None, _ => Throw "No active round to save."
  | Some r, Some tn =>
      Ok (Serializer.serializeSnapshot
            (Serializer.mkParams (board (GameRound.computer r)) (board (GameRound.human r))
               (totalScore (Tournament.computer tn)) (totalScore (Tournament.human tn))
               (GameRound.firstPlayerId r) (currentPlayerId s)
               (Phase_string (phase s)) (currentDice s)
               (GameRound.advantageLock r) (queuedRolls s)))
  | Some _, None => Throw "TypeError"
  end.

(** [getScores()]: [(humanScore, computerScore)] *)
Definition getScores (s : t) : Z * Z :=
  match tournament s with
  | None => (0, 0)
  | Some tn => (totalScore (Tournament.human tn), totalScore (Tournament.computer tn))
  end.

(** [getRollButtonState()]: [(canRoll1, enableRollButtons)] *)
Definition getRollButtonState (s : t) : bool * bool :=
  match currentRound s with
  | None => (false, false)
  | Some round =>
      if negb (Phase_eqb (phase s) awaitingRoll) then (false, false)
      else (Board.canUseOneDie (board (GameRound.getPlayerById round (currentPlayerId s))), true)
  end.

(** [getHelpSuggestion()]; [None] stands for [null], and reading
    [this.tournament.computer] of a missing tournament throws. *)
Definition getHelpSuggestion (s : t) : completion (option ComputerPlayer.Decision) :=
  match currentRound s with
  | None => Ok None
  | Some round =>
      match sum_is_set (currentDice s) with
      | None => Ok None
      | Some sum =>
          match tournament s with
          | None => Throw "TypeError"
          | Some _ =>
              Ok (Some (ComputerPlayer.getHelpSuggestion round (currentPlayerId s) sum))
          end
      end
  end.

(** [getHistoryEntries()]: the pairs [{index, label}] *)
Definition getHistoryEntries (s : t) : list (Z * string) :=
  map (fun p => (Z.of_nat (fst p), h_label (snd p)))
      (combine (seq 0 (length (history s))) (history s)).

(** [getHistorySnapshot(index)] *)
Definition getHistorySnapshot (s : t) (index : Z) : option Snapshot :=
  if (index <? 0) || (index >=? Z.of_nat (length (history s))) then None
  else option_map h_snapshot (nth_error (history s) (Z.to_nat index)).

(** [handleRandomRoll(numDice)]; [face1] and [face2] as in [Dice.rollRandom].
    The [roll] the method adds to a result without one is not part of
    [Reply]. *)
Definition handleRandomRoll (numDice : Z) (face1 face2 : Z) : method t Reply :=
  fun s =>
    let queue0 := match dice s with Some q => q | None => [] end in
    let queue1 := match queuedRolls s with [] => queue0 | _ :: _ => queuedRolls s end in
    match Dice.rollRandom numDice face1 face2 queue1 with
    | (queue2, Throw msg) => (set_dice (Some queue2) s, Throw msg)
    | (queue2, Ok roll) =>
        let s1 := set_queuedRolls queue2 (set_dice (Some queue2) s) in
        handleManualRoll numDice
          (match Dice.d2 roll with
           | None => [Dice.d1 roll]
           | Some v => [Dice.d1 roll; v]
           end) s1
    end.

(** The result object of [rollOff]; [None] stands for the empty
    [firstPlayerId] of a tie. *)
Record RollOff : Type := mkRollOff {
  ro_humanRoll : Dice.Roll;
  ro_compRoll : Dice.Roll;
  ro_firstPlayerId : option PlayerId;
  ro_text : string;
  ro_canStart : bool
}.

(** A value or [null] inside a template literal. *)
Definition print_or_null (v : option Z) : string :=
  match v with Some n => Js.print n | None => "null" end.

(** [rollOff(boardSize)]; [h1], [h2], [c1] and [c2] are the faces of the two
    rolls, as in [Dice.rollRandom].  The method reads the queue of the dice
    object and never the queued rolls of the session. *)
Definition rollOff (boardSize : Z) (h1 h2 c1 c2 : Z) : method t RollOff :=
  fun s0 =>
    let s := match tournament s0, dice s0 with
             | Some _, Some _ => s0
             | _, _ => resetTournament s0
             end in
    let queue0 := match dice s with Some q => q | None => [] end in
    match Dice.rollRandom 2 h1 h2 queue0 with
    | (queue1, Throw msg) => (set_dice (Some queue1) s, Throw msg)
    | (queue1, Ok humanRoll) =>
        match Dice.rollRandom 2 c1 c2 queue1 with
        | (queue2, Throw msg) => (set_dice (Some queue2) s, Throw msg)
        | (queue2, Ok compRoll) =>
            let s1 := set_dice (Some queue2) s in
            let hr := Dice.sum humanRoll in
            let cr := Dice.sum compRoll in
            let humanName := getPlayerDisplayName s1 HUMAN in
            let compName := getPlayerDisplayName s1 COMPUTER in
            let text :=
              (humanName ++ " rolled " ++ Js.print (Dice.d1 humanRoll) ++ " + " ++
               print_or_null (Dice.d2 humanRoll) ++ " = " ++ Js.print hr ++ ". " ++
               compName ++ " rolled " ++ Js.print (Dice.d1 compRoll) ++ " + " ++
               print_or_null (Dice.d2 compRoll) ++ " = " ++ Js.print cr ++ ". ")%string in
            if hr >? cr then
              (s1, Ok (mkRollOff humanRoll compRoll (Some HUMAN)
                         (text ++ humanName ++ " goes first.")%string true))
            else if cr >? hr then
              (s1, Ok (mkRollOff humanRoll compRoll (Some COMPUTER)
                         (text ++ compName ++ " goes first.")%string true))
            else
              (s1, Ok (mkRollOff humanRoll compRoll None
                         (text ++ "It's a tie. Roll again.")%string false))
        end
    end.

(** *** Loading a saved text

    A parsed snapshot holds strings and numbers where the session of this
    model holds a phase, player ids and integers.  The functions below give
    the value of the model for a parsed value, and [None] for a parsed value
    the records of the model do not have: a phase that is none of the four,
    [NaN], a lock on a player id other than the two. *)

(** [snapshot.phase || "awaitingRoll"] *)
Definition phase_of_text (text : string) : option Phase :=
  if Js.is_empty text then Some awaitingRoll
  else if String.eqb text "idle" then Some idle
  else if String.eqb text "awaitingRoll" then Some awaitingRoll
  else if String.eqb text "awaitingMove" then Some awaitingMove
  else if String.eqb text "roundOver" then Some roundOver
  else None.

Definition int_of (v : Js.num) : option Z :=
  match v with Js.Int z => Some z | Js.NaN => None end.

Definition int_or_null_of (v : option Js.num) : option (option Z) :=
  match v with
  | None => Some None
  | Some n => option_map Some (int_of n)
  end.

Definition dice_of (d : Serializer.ParsedDice) : option CurrentDice :=
  match int_or_null_of (Serializer.pd_d1 d), int_or_null_of (Serializer.pd_d2 d),
        int_or_null_of (Serializer.pd_sum d) with
  | Some a, Some b, Some c => Some (mkCurrentDice a b c)
  | _, _, _ => None
  end.

Definition playerId_of (text : string) : option PlayerId :=
  if String.eqb text "HUMAN" then Some HUMAN
  else if String.eqb text "COMPUTER" then Some COMPUTER
  else None.

Definition lock_of (l : Serializer.ParsedLock) : option AdvantageLock :=
  match playerId_of (Serializer.pl_playerId l), int_of (Serializer.pl_squareNumber l) with
  | Some p, Some n => Some (mkAdvantageLock p n (Serializer.pl_unlocked l))
  | _, _ => None
  end.

Definition lock_or_null_of (l : option Serializer.ParsedLock) : option (option AdvantageLock) :=
  match l with
  | None => Some None
  | Some pl => option_map Some (lock_of pl)
  end.

Definition roll_of (r : Serializer.ParsedRoll) : option QueuedRoll :=
  match int_of (Serializer.pr_d1 r), int_or_null_of (Serializer.pr_d2 r) with
  | Some a, Some b => Some (mkQueuedRoll a b)
  | _, _ => None
  end.

Fixpoint rolls_of (l : list Serializer.ParsedRoll) : option (list QueuedRoll) :=
  match l with
  | [] => Some []
  | r :: rest =>
      match roll_of r, rolls_of rest with
      | Some q, Some qs => Some (q :: qs)
      | _, _ => None
      end
  end.

(** How [loadSnapshotFromText] ends: it returns, it throws, or it returns
    with a session that holds a value outside the model.  The object it
    returns is text for the page and is left out. *)
Inductive LoadResult : Type :=
| Loaded (s : t)
| LoadThrows (s : t) (msg : string)
| LoadedOutsideModel.

(** The assignments after the two boards are loaded. *)
Definition finish_load (snapshot : Serializer.Snapshot) (r : GameRound.t) (s : t)
    : LoadResult :=
  let r1 := GameRound.set_everCovered HUMAN
              (0 <? length (Board.getCoveredNumbers (board (GameRound.human r))))%nat r in
  let r2 := GameRound.set_everCovered COMPUTER
              (0 <? length (Board.getCoveredNumbers (board (GameRound.computer r1))))%nat r1 in
  let r3 := GameRound.set_currentPlayerId (Serializer.s_nextTurnId snapshot) r2 in
  match phase_of_text (Serializer.s_phase snapshot),
        dice_of (Serializer.s_currentDice snapshot),
        lock_or_null_of (Serializer.s_advantageLock snapshot),
        rolls_of (Serializer.s_queuedRolls snapshot) with
  | Some ph, Some cd, Some lock, Some rolls =>
      let r4 := match lock with
                | Some l => GameRound.set_advantageLock (Some l) r3
                | None => r3
                end in
      let s1 := set_currentPlayerId (Serializer.s_nextTurnId snapshot) (store_round r4 s) in
      let s2 := set_queuedRolls rolls (set_currentDice cd (set_phase ph s1)) in
      Loaded (_pushHistory
                ("Loaded snapshot (first: " ++
                 getPlayerDisplayName s2 (Serializer.s_firstTurnId snapshot) ++ ")")%string
                None s2)
  | _, _, _, _ => LoadedOutsideModel
  end.

(** [loadSnapshotFromText(text)] *)
Definition loadSnapshotFromText (text : string) (s0 : t) : LoadResult :=
  let s1 := match tournament s0, dice s0 with
            | Some _, Some _ => s0
            | _, _ => resetTournament s0
            end in
  let s2 := set_history [] s1 in
  match Serializer.parseSnapshot text with
  | Throw msg => LoadThrows s2 msg
  | Ok snapshot =>
      let s3 := set_gameMode HvsC s2 in
      let boardSize := Z.of_nat (length (Serializer.s_humanSquares snapshot)) in
      match Tournament.startNewRound boardSize (Serializer.s_firstTurnId snapshot)
              (tournament_or_fresh s3) with
      | (tn, Throw msg) => LoadThrows (set_tournament (Some tn) s3) msg
      | (tn, Ok r) =>
          let s4 := set_currentRound (Some r) (set_tournament (Some tn) s3) in
          let r1 := GameRound.set_player HUMAN
                      (with_totalScore (GameRound.human r) (Serializer.s_humanScore snapshot))
                      r in
          let r2 := GameRound.set_player COMPUTER
                      (with_totalScore (GameRound.computer r1)
                         (Serializer.s_computerScore snapshot)) r1 in
          match on_round (GameRound.on_board HUMAN
                            (Board.loadFromNumberArrayFormat
                               (Serializer.s_humanSquares snapshot))) r2 s4 with
          | (s5, Throw msg) => LoadThrows s5 msg
          | (s5, Ok _) =>
              match currentRound s5 with
              | None => LoadThrows s5 "TypeError"
              | Some r3 =>
                  match on_round (GameRound.on_board COMPUTER
                                    (Board.loadFromNumberArrayFormat
                                       (Serializer.s_computerSquares snapshot))) r3 s5 with
                  | (s6, Throw msg) => LoadThrows s6 msg
                  | (s6, Ok _) =>
                      match currentRound s6 with
                      | None => LoadThrows s6 "TypeError"
                      | Some r4 => finish_load snapshot r4 s6
                      end
                  end
              end
          end
      end
  end.

(** *** The computer's turn *)

(** The result object of [autoPlayComputerTurn], without the [summary] that
    [_buildRoundSummary] packs for the page. *)
Record AutoPlay : Type := mkAutoPlay {
  ap_logs : list string;
  ap_switchedToHuman : bool;
  ap_roundOver : bool
}.

(** How one run of the body of the [while] loop ends: in a [return], or at
    the end of the body with the log so far. *)
Inductive LoopStep : Type :=
| Return (res : AutoPlay)
| Continue (logs : list string).

Definition roll_text (roll : Dice.Roll) : string :=
  ("Computer rolled " ++ Js.print (Dice.d1 roll) ++
   match Dice.d2 roll with
   | None => EmptyString
   | Some v => " + " ++ Js.print v
   end ++
   " (sum = " ++ Js.print (Dice.sum roll) ++ ")")%string.

(** The end of the loop body after a move is applied. *)
Definition after_auto_move (logs : list string) : method t LoopStep :=
  fun s =>
    match currentRound s with
    | None => (s, Throw "TypeError")
    | Some r =>
        if GameRound.roundOver r then
          let s1 := store_round (GameRound.notifyTurnEnded (currentPlayerId s) r) s in
          (update_advantage (set_phase roundOver s1),
           Ok (Return (mkAutoPlay (logs ++ ["=== ROUND OVER ==="]) false true)))
        else
          (set_phase awaitingRoll (set_currentDice no_dice s), Ok (Continue logs))
    end.

(** The loop body; [face1] and [face2] as in [Dice.rollRandom].  The roll
    comes from the queue of the dice object, to which the queued rolls of
    the session are not copied here. *)
Definition autoPlay_body (face1 face2 : Z) (logs : list string) (round : GameRound.t)
    : method t LoopStep :=
  fun s =>
    match tournament s with
    | None => (s, Throw "TypeError")
    | Some _ =>
        let player := GameRound.getPlayerById round (currentPlayerId s) in
        let numDice := ComputerPlayer.chooseNumDice (board player) in
        let queue0 := match dice s with Some q => q | None => [] end in
        match Dice.rollRandom numDice face1 face2 queue0 with
        | (queue1, Throw msg) => (set_dice (Some queue1) s, Throw msg)
        | (queue1, Ok roll) =>
            let s1 := set_currentDice
                        (mkCurrentDice (Some (Dice.d1 roll)) (Dice.d2 roll)
                           (Some (Dice.sum roll)))
                        (set_dice (Some queue1) s) in
            let logs1 := logs ++ [roll_text roll] in
            let coverOptions :=
              GameRound.getCoverOptions round (currentPlayerId s1) (Dice.sum roll) in
            let uncoverOptions :=
              GameRound.getUncoverOptions round (currentPlayerId s1) (Dice.sum roll) in
            if (length coverOptions =? 0)%nat && (length uncoverOptions =? 0)%nat then
              let logs2 := logs1 ++ ["No moves available. Turn ends."] in
              let r1 := GameRound.notifyTurnEnded (currentPlayerId s1) round in
              let s2 := store_round r1 s1 in
              if GameRound.roundOver r1 then
                (update_advantage (set_phase roundOver s2),
                 Ok (Return (mkAutoPlay (logs2 ++ ["=== ROUND OVER ==="]) false true)))
              else
                let r2 := GameRound.switchTurn r1 in
                let s3 := set_currentPlayerId (GameRound.currentPlayerId r2)
                            (store_round r2 s2) in
                (set_phase awaitingRoll (set_currentDice no_dice s3),
                 Ok (Return (mkAutoPlay logs2 true false)))
            else
              let decision :=
                ComputerPlayer.decideMove round (currentPlayerId s1) (Dice.sum roll) in
              let squares := ComputerPlayer.squares decision in
              let logs2 :=
                logs1 ++ [("Computer decision: " ++
                           Action_upper (ComputerPlayer.action decision) ++ " [" ++
                           squares_text squares ++ "] – " ++
                           ComputerPlayer.reason decision)%string] in
              match ComputerPlayer.action decision with
              | ComputerPlayer.ActCover =>
                  match on_round (GameRound.applyCoverMove (currentPlayerId s1) squares)
                          round s1 with
                  | (s2, Throw msg) => (s2, Throw msg)
                  | (s2, Ok _) =>
                      after_auto_move
                        (logs2 ++ [("Computer covers squares [" ++ squares_text squares ++
                                    "]")%string]) s2
                  end
              | ComputerPlayer.ActUncover =>
                  match on_round (GameRound.applyUncoverMove (currentPlayerId s1) squares)
                          round s1 with
                  | (s2, Throw msg) => (s2, Throw msg)
                  | (s2, Ok _) =>
                      after_auto_move
                        (logs2 ++ [("Computer uncovers opponent squares [" ++
                                    squares_text squares ++ "]")%string]) s2
                  end
              | ComputerPlayer.ActNone =>
                  let r1 := GameRound.notifyTurnEnded (currentPlayerId s1) round in
                  let r2 := GameRound.switchTurn r1 in
                  let s3 := set_currentPlayerId (GameRound.currentPlayerId r2)
                              (store_round r2 (store_round r1 s1)) in
                  (set_phase awaitingRoll (set_currentDice no_dice s3),
                   Ok (Return (mkAutoPlay logs2 true false)))
              end
        end
    end.

(** The [while] loop.  [faces] holds, for each run of the body, the faces the
    random number generator would give; [None] is the answer when the loop
    would run once more than [faces] has entries. *)
Fixpoint autoPlay_loop (faces : list (Z * Z)) (logs : list string) (s : t)
    : option (t * completion AutoPlay) :=
  match currentRound s with
  | None => Some (s, Ok (mkAutoPlay logs false false))
  | Some round =>
      if negb (GameRound.roundOver round) &&
         negb (isPlayerHumanControlled s (currentPlayerId s)) &&
         Phase_eqb (phase s) awaitingRoll
      then
        match faces with
        | [] => None
        | (face1, face2) :: faces' =>
            match autoPlay_body face1 face2 logs round s with
            | (s', Throw msg) => Some (s', Throw msg)
            | (s', Ok (Return res)) => Some (s', Ok res)
            | (s', Ok (Continue logs')) => autoPlay_loop faces' logs' s'
            end
        end
      else Some (s, Ok (mkAutoPlay logs false false))
  end.

(** [autoPlayComputerTurn()] *)
Definition autoPlayComputerTurn (faces : list (Z * Z)) (s : t)
    : option (t * completion AutoPlay) :=
  match currentRound s with
  | None => Some (s, Ok (mkAutoPlay [] false false))
  | Some _ =>
      if negb (Phase_eqb (phase s) awaitingRoll)
      then Some (s, Ok (mkAutoPlay [] false false))
      else if isPlayerHumanControlled s (currentPlayerId s)
      then Some (s, Ok (mkAutoPlay [] false false))
      else
        let s1 := match dice s with
                  | Some _ => s
                  | None => set_dice (Some []) s
                  end in
        autoPlay_loop faces [] s1
  end.

End GameSession.

(** ** The server backend: Board.js and Game.js

    Only what [isGameOver] and [switchTurn] touch. *)

Module Backend.

Record Board : Type := mkBoard {
  size : Z;
  squares : list Z
}.

(** [constructor(size)]: square [i] starts with the value [i + 1]. *)
Definition Board_new (size : Z) : Board :=
  mkBoard size (map (fun i => i + 1) (range_incl 0 (size - 1))).

Definition allCovered (b : Board) : bool := forallb (fun square => square =? 0) (squares b).
Definition allUncovered (b : Board) : bool :=
  forallb (fun square => negb (square =? 0)) (squares b).

Record Player : Type := mkPlayer {
  board : Board;
  score : Z;
  hasFirstTurnBeenPlayed : bool
}.

Inductive Seat : Type := player1 | player2.

Record Game : Type := mkGame {
  BOARD_SIZE : Z;
  gameOver : bool;
  currentPlayer : Seat;
  p1 : Player;
  p2 : Player
}.

Definition played (p : Player) : Player := mkPlayer (board p) (score p) true.

(** [switchTurn()]; the call to [tournament.recordTurn] changes the
    tournament only. *)
Definition switchTurn (g : Game) : Game :=
  match currentPlayer g with
  | player1 => mkGame (BOARD_SIZE g) (gameOver g) player2 (played (p1 g)) (p2 g)
  | player2 => mkGame (BOARD_SIZE g) (gameOver g) player1 (p1 g) (played (p2 g))
  end.

Definition set_gameOver (g : Game) : Game :=
  mkGame (BOARD_SIZE g) true (currentPlayer g) (p1 g) (p2 g).

(** [isGameOver()] *)
Definition isGameOver (g : Game) : Game * option Seat :=
  if negb (hasFirstTurnBeenPlayed (p1 g)) || negb (hasFirstTurnBeenPlayed (p2 g))
  then (g, None)
  else if allCovered (board (p1 g)) then (set_gameOver g, Some player1)
  else if allUncovered (board (p2 g)) then (set_gameOver g, Some player1)
  else if allCovered (board (p2 g)) then (set_gameOver g, Some player2)
  else if allUncovered (board (p1 g)) then (set_gameOver g, Some player2)
  else (g, None).

End Backend.

(** ** Vocabulary of the statements *)

(** The non-empty sub-lists of a list, in the order a depth-first walk that
    extends a combination before moving on meets them. *)
Fixpoint sublists_dfs (l : list Z) : list (list Z) :=
  match l with
  | [] => []
  | a :: rest => [a] :: map (cons a) (sublists_dfs rest) ++ sublists_dfs rest
  end.

(** A set of squares, written as a strictly ascending list. *)
Definition ascending (c : list Z) : Prop := StronglySorted Z.lt c.

(** [Math.max(...c)] for a non-empty combination. *)
Definition highest (c : list Z) : Z := fold_right Z.max 0 c.

(** A total of one die or of two dice. *)
Definition dice_total (t : Z) : Prop := 1 <= t <= 12.

(** The sum of the decimal digits of a non-negative integer. *)
Equations? digit_sum (n : Z) : Z by wf (Z.to_nat n) lt :=
  digit_sum n with Z_gt_dec n 0 => {
    | left _ := n mod 10 + digit_sum (n / 10);
    | right _ := 0 }.
Proof.
  assert (n / 10 < n) by (apply Z.div_lt; lia).
  assert (0 <= n / 10) by (apply Z.div_pos; lia).
  lia.
Qed.

Definition demo_board : Board.t :=
  Board.mk 9 [false; false; true; false; false; true; false; false; false; true].

Definition demo_params : Serializer.Params :=
  Serializer.mkParams demo_board (Board.mk 9 (repeat false 10)) 12 0 HUMAN COMPUTER
    "awaitingMove" (mkCurrentDice (Some 3) (Some 4) (Some 7))
    (Some (mkAdvantageLock COMPUTER 5 false))
    [mkQueuedRoll 3 (Some 4); mkQueuedRoll 5 None].

(** * Vocabulary of the statements *)

(** The [for] loop of [backtrack], over the candidates from [startIndex] on. *)
Definition loop (cands : list Z) (remaining : Z) (path : list Z) : list (list Z) :=
  (fix loop (l : list Z) : list (list Z) :=
     match l with
     | [] => []
     | n :: rest =>
         if n >? remaining then []
         else Board.backtrack rest (remaining - n) (path ++ [n]) ++ loop rest
     end) cands.

(** A combination that uses up [rem] with at most [room] squares. *)
Definition fits (rem : Z) (room : nat) (c : list Z) : bool :=
  (sum_list c =? rem) && (length c <=? room)%nat.

(** The least sum of [k] distinct integers from [lo] on. *)
Fixpoint least_sum (k : nat) (lo : Z) : Z :=
  match k with
  | O => 0
  | S k' => lo + least_sum k' (lo + 1)
  end.

(** The option sets of one roll: the combinations for total [t] over some
    ascending list of positive candidates. *)
Definition option_set (t : Z) (options : list (list Z)) : Prop :=
  exists cands, ascending cands /\ Forall (Z.lt 0) cands /\
                options = filter (fits t 4) (sublists_dfs cands).

(** The check run on every candidate set below 13. *)
Definition keeps_highest (options : list (list Z)) : bool :=
  let best := ComputerPlayer._pickBestCombo options in
  forallb (fun c => negb (length c =? length best)%nat || (highest c <=? highest best)) options.

(** [res] lists every set of candidate squares with sum [t], once each. *)
Definition lists_each_subset_once (candidate : Z -> Prop) (t : Z) (res : list (list Z)) : Prop :=
  NoDup res /\
  forall c, In c res <-> ascending c /\ (forall x, In x c -> candidate x) /\ sum_list c = t.

Definition uncovered_square (b : Board.t) (x : Z) : Prop :=
  1 <= x <= Board.size b /\ Board.covered_at b x = false.

Definition covered_square (b : Board.t) (x : Z) : Prop :=
  1 <= x <= Board.size b /\ Board.covered_at b x = true.

Definition fresh9 : Board.t := Board.mk 9 (repeat false 10).

(** A round of size 9 in which HUMAN holds a locked advantage on square 5 and
    has squares 2, 3 and 5 covered. *)
Definition locked_round : GameRound.t :=
  GameRound.mk 9
    (mkPlayer HUMAN "Human"
       (Board.mk 9 [false; false; true; true; false; true; false; false; false; false]) 0)
    (mkPlayer COMPUTER "Computer" fresh9 0)
    COMPUTER COMPUTER
    (Some (mkAdvantageInfo HUMAN 5)) (Some (mkAdvantageLock HUMAN 5 false))
    false None None 0 true false.

(** A round of size 9 in which HUMAN has squares 4, 5 and 8 covered. *)
Definition sparse_round : GameRound.t :=
  GameRound.mk 9
    (mkPlayer HUMAN "Human"
       (Board.mk 9 [false; false; false; false; true; true; false; false; true; false]) 0)
    (mkPlayer COMPUTER "Computer" fresh9 0)
    HUMAN HUMAN None None false None None 0 true false.

(** [c] is no better than [best]: it has fewer squares, or as many and no
    greater sum. *)
Definition no_better (best c : list Z) : Prop :=
  (length c < length best)%nat \/ (length c = length best /\ sum_list c <= sum_list best).

(** [best] is the earliest of the longest entries of [options]. *)
Definition earliest_longest (options : list (list Z)) (best : list Z) : Prop :=
  exists pre post,
    options = pre ++ best :: post /\
    (forall c, In c pre -> (length c < length best)%nat) /\
    (forall c, In c post -> (length c <= length best)%nat).

(** A finished round that HUMAN, who moved first, won with 23 points. *)
Definition won_round : GameRound.t :=
  GameRound.mk 9 (mkPlayer HUMAN "Human" fresh9 23) (mkPlayer COMPUTER "Computer" fresh9 0)
    HUMAN HUMAN None None true (Some HUMAN) (Some WinCover) 23 true false.

Definition won_tournament : Tournament.t :=
  Tournament.mk (mkPlayer HUMAN "Human" fresh9 23) (mkPlayer COMPUTER "Computer" fresh9 0)
    (Some won_round) None 1.

(** The array behind a board has one cell per square and the unused cell 0. *)
Definition board_ok (b : Board.t) : Prop :=
  length (Board._covered b) = Z.to_nat (Board.size b + 1).

(** [cover] when [v] is [true], [uncover] when it is [false]. *)
Definition mark (v : bool) (num : Z) : method Board.t unit :=
  if v then Board.cover num else Board.uncover num.

Definition markSquares (v : bool) (nums : list Z) : method Board.t unit :=
  if v then Board.coverSquares nums else Board.uncoverSquares nums.

(** A square that [mark v] accepts: inside the board and not yet in state [v]. *)
Definition markable (v : bool) (b : Board.t) (x : Z) : Prop :=
  1 <= x <= Board.size b /\ Board.covered_at b x = negb v.

Definition mark_all (v : bool) (nums : list Z) (b : Board.t) : Board.t :=
  fold_left (fun b' n => Board.set_covered n v b') nums b.

Definition round_ok (r : GameRound.t) : Prop :=
  board_ok (board (GameRound.human r)) /\ board_ok (board (GameRound.computer r)).

(** The board a move of type [mt] by [p] marks, and the state it marks with. *)
Definition move_target (mt : GameSession.MoveType) (p : PlayerId) : PlayerId :=
  match mt with
  | GameSession.MoveCover => p
  | GameSession.MoveUncover => GameRound.getOpponentId p
  end.

Definition move_state (mt : GameSession.MoveType) : bool :=
  match mt with
  | GameSession.MoveCover => true
  | GameSession.MoveUncover => false
  end.

(** The session after [startNewRound(9, "HUMAN")] on a new session, and after
    the human has then rolled 3 and 4. *)
Definition session_start : GameSession.t :=
  fst (GameSession.startNewRound 9 HUMAN GameSession.new).

Definition session_rolled : GameSession.t :=
  fst (GameSession.handleManualRoll 2 [3; 4] session_start).

Definition start_round : GameRound.t :=
  GameRound.mk 9 (mkPlayer HUMAN "Human" fresh9 0) (mkPlayer COMPUTER "Computer" fresh9 0)
    HUMAN HUMAN None None false None None 0 false false.

Definition blank (size : Z) : Board.t :=
  Board.mk size (repeat false (Z.to_nat (size + 1))).

(** A board that is blank, or blank but for one covered square. *)
Definition start_board (size : Z) (b : Board.t) : Prop :=
  b = blank size \/ exists sq, 1 <= sq <= size /\ b = Board.set_covered sq true (blank size).

(** The driver's calls on a session, and the turns each player has ended:
    a turn has ended once the session has passed the dice to the other
    player. *)
Inductive Op : Type :=
| OpRoll (numDice : Z) (values : list Z)
| OpMove (moveType : GameSession.MoveType) (squares : list Z)
| OpEndTurn.

Definition run_op (op : Op) (s : GameSession.t) : GameSession.t :=
  fst (match op with
       | OpRoll numDice values => GameSession.handleManualRoll numDice values s
       | OpMove moveType squares => GameSession.applyHumanMove moveType squares s
       | OpEndTurn => GameSession.endTurn s
       end).

Definition count_turn (before after : GameSession.t) (turns : nat * nat) : nat * nat :=
  if PlayerId_eqb (GameSession.currentPlayerId before) (GameSession.currentPlayerId after)
  then turns
  else match GameSession.currentPlayerId before with
       | HUMAN => (S (fst turns), snd turns)
       | COMPUTER => (fst turns, S (snd turns))
       end.

Fixpoint run (ops : list Op) (s : GameSession.t) (turns : nat * nat)
    : GameSession.t * (nat * nat) :=
  match ops with
  | [] => (s, turns)
  | op :: rest => run rest (run_op op s) (count_turn s (run_op op s) turns)
  end.

(** HUMAN covers the whole board of size 9 within the first turn. *)
Definition first_turn_win : list Op :=
  [ OpRoll 2 [6; 6]; OpMove GameSession.MoveCover [3; 9];
    OpRoll 2 [6; 6]; OpMove GameSession.MoveCover [4; 8];
    OpRoll 2 [6; 6]; OpMove GameSession.MoveCover [5; 7];
    OpRoll 2 [4; 5]; OpMove GameSession.MoveCover [1; 2; 6] ].

(** The entries of a board array from index [i] on: [0], or the number of
    the square. *)
Inductive entries_from : Z -> list Z -> Prop :=
| entries_nil (i : Z) : entries_from i []
| entries_cons (i v : Z) (rest : list Z) :
    v = 0 \/ v = i + 1 -> entries_from (i + 1) rest -> entries_from i (v :: rest).

(** The board [load_loop] leaves behind when no entry is rejected. *)
Fixpoint loaded (i : Z) (arr : list Z) (b : Board.t) : Board.t :=
  match arr with
  | [] => b
  | v :: rest => loaded (i + 1) rest (Board.set_covered (i + 1) (v =? 0) b)
  end.

(** A board array of a board of size [n]. *)
Definition board_array (n : Z) (arr : list Z) : Prop :=
  Z.of_nat (length arr) = n /\ entries_from 0 arr.

(** What a snapshot looks like when [_captureSnapshot] took it from a
    session whose round and tournament share their players: the board size
    is positive, both arrays are board arrays of that size, and the scores
    stored for the tournament are the scores stored for the round. *)
Definition snapshot_ok (snap : GameSession.Snapshot) : Prop :=
  let rd := GameSession.hs_round snap in
  let tn := GameSession.hs_tournament snap in
  1 <= GameSession.sr_boardSize rd /\
  board_array (GameSession.sr_boardSize rd) (GameSession.sr_humanBoard rd) /\
  board_array (GameSession.sr_boardSize rd) (GameSession.sr_computerBoard rd) /\
  GameSession.st_humanScore tn = GameSession.sr_humanScore rd /\
  GameSession.st_computerScore tn = GameSession.sr_computerScore rd.

(** The round's players are the tournament's players, and the boards have
    the round's size. *)
Definition session_ok (s : GameSession.t) : Prop :=
  forall r tn,
    GameSession.currentRound s = Some r -> GameSession.tournament s = Some tn ->
    1 <= GameRound.boardSize r /\
    Board.size (board (GameRound.human r)) = GameRound.boardSize r /\
    Board.size (board (GameRound.computer r)) = GameRound.boardSize r /\
    totalScore (Tournament.human tn) = totalScore (GameRound.human r) /\
    totalScore (Tournament.computer tn) = totalScore (GameRound.computer r).

(** A snapshot as the session resumes from it. *)
Definition resumed (snap : GameSession.Snapshot) (la : option GameSession.LastAction)
    : GameSession.Snapshot :=
  GameSession.mkSnapshot (GameSession.hs_gameMode snap) (GameSession.hs_currentPlayerId snap)
    GameSession.awaitingRoll no_dice la
    (GameSession.hs_tournament snap) (GameSession.hs_round snap).

(** The session after HUMAN has rolled 3 and 4 and covered square 7. *)
Definition session_moved : GameSession.t :=
  fst (GameSession.applyHumanMove GameSession.MoveCover [7] session_rolled).

(** The lock the constructor of a round sets for an advantage. *)
Definition pending_lock (size : Z) (adv : option AdvantageInfo) : option AdvantageLock :=
  match adv with
  | Some info =>
      if (1 <=? ai_digitSum info) && (ai_digitSum info <=? size)
      then Some (mkAdvantageLock (ai_playerId info) (ai_digitSum info) false)
      else None
  | None => None
  end.

(** The rolls, moves and ends of turn [ops], one after the other. *)
Definition play (ops : list Op) (s : GameSession.t) : GameSession.t :=
  fold_left (fun acc op => run_op op acc) ops s.

(** The tournament of the session does not hold a round. *)
Definition detached (s : GameSession.t) : Prop :=
  forall tn, GameSession.tournament s = Some tn -> Tournament.currentRound tn = None.

(** The tournament holds no round, and once the phase is "roundOver" it holds
    no advantage for the next round either. *)
Definition forfeited (s : GameSession.t) : Prop :=
  detached s /\
  (GameSession.phase s = GameSession.roundOver ->
   forall tn, GameSession.tournament s = Some tn -> Tournament.nextRoundAdvantage tn = None).

(** The session after a rewind to the start of the round of [session_start]. *)
Definition session_rewound : GameSession.t := fst (GameSession.rewindTo 0 session_start).

(** Every code unit of [s] satisfies [f]. *)
Fixpoint all_chars (f : ascii -> bool) (s : string) : bool :=
  match s with
  | EmptyString => true
  | String c rest => f c && all_chars f rest
  end.

(** Code units of a printed number. *)
Definition numch (c : ascii) : bool := Js.is_digit c || Ascii.eqb c "-".

(** Code units that are neither white space nor a line break. *)
Definition solid (c : ascii) : bool := negb (Js.is_white c).

Definition not_char (x : ascii) (c : ascii) : bool := negb (Ascii.eqb c x).

Definition starts_solid (s : string) : bool :=
  match s with
  | EmptyString => false
  | String c _ => solid c
  end.

Fixpoint ends_solid (s : string) : bool :=
  match s with
  | EmptyString => false
  | String c EmptyString => solid c
  | String _ rest => ends_solid rest
  end.

(** Put [s] in front of the first piece. *)
Definition prepend_first (s : string) (pieces : list string) : list string :=
  match pieces with
  | [] => [s]
  | h :: t => (s ++ h)%string :: t
  end.

(** Code units other than the two line breaks. *)
Definition plain (c : ascii) : bool := negb (Ascii.eqb c Js.LF) && negb (Ascii.eqb c Js.CR).

(** Lines, each followed by a line feed. *)
Fixpoint unlines (ls : list string) : string :=
  match ls with
  | [] => EmptyString
  | l :: rest => (l ++ String Js.LF (unlines rest))%string
  end.

Definition squares_text_of (b : Board.t) : string :=
  Js.join " " (map Js.print (Board.toNumberArrayFormat b)).

Definition dice_line (d : CurrentDice) : string :=
  ("# CurrentDice: " ++ Serializer.print_or_dash (cd_d1 d) ++ " " ++
   Serializer.print_or_dash (cd_d2 d) ++ " (sum=" ++
   Serializer.print_or_dash (cd_sum d) ++ ")")%string.

Definition lock_line (l : AdvantageLock) : string :=
  ("# AdvantageLock: " ++ PlayerId_string (lock_playerId l) ++ " " ++
   Js.print (lock_squareNumber l) ++ " unlocked=" ++ Js.print_bool (lock_unlocked l))%string.

Definition lock_lines (lock : option AdvantageLock) : list string :=
  match lock with
  | Some l => if negb (lock_squareNumber l =? 0) then [lock_line l] else []
  | None => []
  end.

Definition rolls_line (rolls : list QueuedRoll) : string :=
  ("# QueuedRolls: " ++ Js.join " | " (map Serializer.roll_text rolls))%string.

Definition rolls_lines (rolls : list QueuedRoll) : list string :=
  match rolls with
  | [] => []
  | _ :: _ => [rolls_line rolls]
  end.

(** The lines of the text [serializeSnapshot] writes. *)
Definition lines_of (p : Serializer.Params) : list string :=
  [ "Computer:";
    ("   Squares: " ++ squares_text_of (Serializer.computerBoard p))%string;
    ("   Score: " ++ Js.print (Serializer.computerScore p))%string;
    "";
    "Human:";
    ("   Squares: " ++ squares_text_of (Serializer.humanBoard p))%string;
    ("   Score: " ++ Js.print (Serializer.humanScore p))%string;
    "";
    ("First Turn: " ++ Serializer.turn_label (Serializer.firstTurnId p))%string;
    ("Next Turn: " ++ Serializer.turn_label (Serializer.nextTurnId p))%string;
    "";
    ("# Phase: " ++ Serializer.phase p)%string;
    dice_line (Serializer.currentDice p) ] ++
  lock_lines (Serializer.advantageLock p) ++
  rolls_lines (Serializer.queuedRolls p).

(** Code units of a line: solid ones and the space. *)
Definition textch (c : ascii) : bool := solid c || Ascii.eqb c " ".

(** What is asked of the arguments: boards with at least one square, and a
    phase of the session. *)
Definition params_ok (p : Serializer.Params) : Prop :=
  1 <= Board.size (Serializer.computerBoard p) /\
  1 <= Board.size (Serializer.humanBoard p) /\
  (exists ph, Serializer.phase p = GameSession.Phase_string ph).

(** The lines as [parseSnapshot] sees them after [trim]. *)
Definition trimmed_lines (p : Serializer.Params) : list string :=
  [ "Computer:";
    ("Squares: " ++ squares_text_of (Serializer.computerBoard p))%string;
    ("Score: " ++ Js.print (Serializer.computerScore p))%string;
    "";
    "Human:";
    ("Squares: " ++ squares_text_of (Serializer.humanBoard p))%string;
    ("Score: " ++ Js.print (Serializer.humanScore p))%string;
    "";
    ("First Turn: " ++ Serializer.turn_label (Serializer.firstTurnId p))%string;
    ("Next Turn: " ++ Serializer.turn_label (Serializer.nextTurnId p))%string;
    "";
    ("# Phase: " ++ Serializer.phase p)%string;
    dice_line (Serializer.currentDice p) ] ++
  lock_lines (Serializer.advantageLock p) ++
  rolls_lines (Serializer.queuedRolls p) ++ [""].

Definition not_s (c : ascii) : bool := negb (Ascii.eqb (Js.lower c) "s").

Definition expected_dice (d : CurrentDice) : Serializer.ParsedDice :=
  Serializer.mkParsedDice (option_map Js.Int (cd_d1 d)) (option_map Js.Int (cd_d2 d))
    (option_map Js.Int (cd_sum d)).

(** The player id as the text of a lock line has it. *)
Definition id_text (p : PlayerId) : string :=
  match p with
  | HUMAN => "HUMAN"
  | COMPUTER => "COMPUTER"
  end.

Definition expected_lock (l : AdvantageLock) : Serializer.ParsedLock :=
  Serializer.mkParsedLock (id_text (lock_playerId l)) (Js.Int (lock_squareNumber l))
    (lock_unlocked l).

Definition expected_roll (r : QueuedRoll) : Serializer.ParsedRoll :=
  Serializer.mkParsedRoll (Js.Int (q_d1 r)) (option_map Js.Int (q_d2 r)).

(** The squares of a board as a reader of the save text must find them:
    one entry for each square from 1 to the size, in order, 0 for a covered
    square and the number of the square for an uncovered one. *)
Definition square_entries (b : Board.t) : list Js.num :=
  map (fun k => Js.Int (if Board.covered_at b (Z.of_nat k + 1) then 0 else Z.of_nat k + 1))
      (seq 0 (Z.to_nat (Board.size b))).

(** The lock a reader must find: the lock itself, except that a lock on
    square 0 is not written. *)
Definition written_lock (lock : option AdvantageLock) : option Serializer.ParsedLock :=
  match lock with
  | Some l => if lock_squareNumber l =? 0 then None else Some (expected_lock l)
  | None => None
  end.

(** What [parseSnapshot] is expected to return for the text of [p]. *)
Definition expected (p : Serializer.Params) : Serializer.Snapshot :=
  Serializer.mkSnapshot
    (square_entries (Serializer.computerBoard p))
    (square_entries (Serializer.humanBoard p))
    (Serializer.computerScore p) (Serializer.humanScore p)
    (Serializer.firstTurnId p) (Serializer.nextTurnId p)
    (Serializer.phase p)
    (expected_dice (Serializer.currentDice p))
    (written_lock (Serializer.advantageLock p))
    (map expected_roll (Serializer.queuedRolls p)).

(** The lines [parseSnapshot] works on. *)
Definition trimmed (text : string) : list string := map Js.trim (Js.split_lines text).

(** An entry of a board array at index [i] that the loader accepts. *)
Definition entry_ok (i : Z) (v : Js.num) : bool :=
  Js.num_eqb v (Js.Int 0) || Js.num_eqb v (Js.Int (i + 1)).

(** A save text with a "Human:" block and the two turn lines, and no
    "Computer:" block. *)
Definition text_without_computer : string :=
  unlines [ "Human:"; "   Squares: 1 2 3"; "   Score: 0"; "";
            "First Turn: Human"; "Next Turn: Human" ].

Definition text_without_human : string :=
  unlines [ "Computer:"; "   Squares: 1 2 3"; "   Score: 0"; "";
            "First Turn: Human"; "Next Turn: Human" ].

(** What a combination offered for the total [t] must be: a strictly
    ascending list of one to four squares that satisfy [candidate], with sum
    [t]. *)
Definition legal_combo (candidate : Z -> Prop) (t : Z) (c : list Z) : Prop :=
  ascending c /\ (1 <= length c <= 4)%nat /\ (forall x, In x c -> candidate x) /\
  sum_list c = t.

(** The options of one kind for the player to move. *)
Definition options_of (mt : GameSession.MoveType) (r : GameRound.t) (p : PlayerId) (t : Z)
    : list (list Z) :=
  match mt with
  | GameSession.MoveCover => GameRound.getCoverOptions r p t
  | GameSession.MoveUncover => GameRound.getUncoverOptions r p t
  end.

(** The boards of the round have the round's size. *)
Definition round_fits (r : GameRound.t) : Prop :=
  round_ok r /\ 1 <= GameRound.boardSize r /\
  Board.size (board (GameRound.human r)) = GameRound.boardSize r /\
  Board.size (board (GameRound.computer r)) = GameRound.boardSize r.

(** A session with a round under way, as the driver's operations keep it. *)
Definition steady (s : GameSession.t) : Prop :=
  exists r tn,
    GameSession.currentRound s = Some r /\
    GameSession.tournament s = Some tn /\
    GameSession.dice s <> None /\
    round_fits r /\
    GameRound.currentPlayerId r = GameSession.currentPlayerId s /\
    totalScore (Tournament.human tn) = totalScore (GameRound.human r) /\
    totalScore (Tournament.computer tn) = totalScore (GameRound.computer r) /\
    (GameRound.roundOver r = true <-> GameSession.phase s = GameSession.roundOver) /\
    GameSession.phase s <> GameSession.idle /\
    (GameSession.phase s = GameSession.awaitingMove ->
     exists t, GameSession.sum_is_set (GameSession.currentDice s) = Some t /\ dice_total t).

(** The sessions the driver reaches: rounds are started with a positive
    board size, on a new session or on a session in play, and then rolls,
    moves, ends of turn and changes of mode follow in any order. *)
Inductive in_play : GameSession.t -> Prop :=
| play_first (size : Z) (first : PlayerId) :
    1 <= size -> in_play (fst (GameSession.startNewRound size first GameSession.new))
| play_next (size : Z) (first : PlayerId) (s : GameSession.t) :
    in_play s -> 1 <= size -> in_play (fst (GameSession.startNewRound size first s))
| play_op (op : Op) (s : GameSession.t) : in_play s -> in_play (run_op op s)
| play_mode (mode : GameSession.GameMode) (s : GameSession.t) :
    in_play s -> in_play (GameSession.setMode mode s).

(** The operations of a round. *)
Inductive RoundOp : Type :=
| RCover (playerId : PlayerId) (squares : list Z)
| RUncover (playerId : PlayerId) (squares : list Z)
| RNotify (playerId : PlayerId)
| RSwitch.

Definition round_step (r : GameRound.t) (op : RoundOp) : GameRound.t :=
  match op with
  | RCover p squares => fst (GameRound.applyCoverMove p squares r)
  | RUncover p squares => fst (GameRound.applyUncoverMove p squares r)
  | RNotify p => GameRound.notifyTurnEnded p r
  | RSwitch => GameRound.switchTurn r
  end.

(** The lock [l'] is the lock [l], possibly unlocked since. *)
Definition lock_follows (l l' : option AdvantageLock) : Prop :=
  match l, l' with
  | None, None => True
  | Some a, Some b =>
      lock_playerId b = lock_playerId a /\ lock_squareNumber b = lock_squareNumber a /\
      (lock_unlocked a = true -> lock_unlocked b = true)
  | _, _ => False
  end.

(** A snapshot with another phase and other dice. *)
Definition retag (ph : GameSession.Phase) (cd : CurrentDice) (sn : GameSession.Snapshot)
    : GameSession.Snapshot :=
  GameSession.mkSnapshot (GameSession.hs_gameMode sn) (GameSession.hs_currentPlayerId sn)
    ph cd (GameSession.hs_lastAction sn) (GameSession.hs_tournament sn)
    (GameSession.hs_round sn).

(** A queued entry that [_dequeue(numDice)] takes. *)
Definition serves (numDice : Z) (q : QueuedRoll) : bool :=
  match q_d2 q with
  | Some _ => numDice =? 2
  | None => numDice =? 1
  end.

(** The advantage a session holds for the next round it starts. *)
Definition pending_advantage (s : GameSession.t) : option AdvantageInfo :=
  match GameSession.tournament s, GameSession.dice s with
  | Some tn, Some _ => Tournament.nextRoundAdvantage tn
  | _, _ => None
  end.

(** What a load that returns leaves: the round and the session fields. *)
Definition loaded_as (s' : GameSession.t) (r' : GameRound.t) (target : GameSession.t)
    (hb cb : list Z) (hS cS : Z) (first next : PlayerId) (ph : GameSession.Phase)
    (cd : CurrentDice) (lock : option AdvantageLock) (rolls : list QueuedRoll) : Prop :=
  GameSession.currentRound s' = Some r' /\
  Board.toNumberArrayFormat (board (GameRound.human r')) = hb /\
  Board.toNumberArrayFormat (board (GameRound.computer r')) = cb /\
  round_fits r' /\
  GameRound.boardSize r' = Z.of_nat (length hb) /\
  GameSession.getScores s' = (hS, cS) /\
  totalScore (GameRound.human r') = hS /\
  totalScore (GameRound.computer r') = cS /\
  GameSession.currentPlayerId s' = next /\
  GameRound.currentPlayerId r' = next /\
  GameRound.firstPlayerId r' = first /\
  GameSession.phase s' = ph /\
  GameSession.currentDice s' = cd /\
  GameSession.queuedRolls s' = rolls /\
  GameSession.gameMode s' = GameSession.HvsC /\
  length (GameSession.history s') = 1%nat /\
  GameRound.roundOver r' = false /\
  GameRound.advantageLock r' =
    match lock with
    | Some l => Some l
    | None => pending_lock (Z.of_nat (length hb)) (pending_advantage target)
    end.

(** The lock that is in the text of a save: the lock of the round, unless it
    is on square 0. *)
Definition saved_lock (lock : option AdvantageLock) : option AdvantageLock :=
  match lock with
  | Some l => if lock_squareNumber l =? 0 then None else Some l
  | None => None
  end.

(** The session a load starts from: the session itself when it has a
    tournament and dice, a reset session otherwise. *)
Definition load_base (s : GameSession.t) : GameSession.t :=
  match GameSession.tournament s, GameSession.dice s with
  | Some _, Some _ => s
  | _, _ => GameSession.resetTournament s
  end.

(** A save text whose human board has 5 where 2 or 0 must stand. *)
Definition text_bad_board : string :=
  unlines [ "Computer:"; "   Squares: 1 2 3"; "   Score: 4"; "";
            "Human:"; "   Squares: 1 5 3"; "   Score: 6"; "";
            "First Turn: Human"; "Next Turn: Human" ].

(** The squares the player [p] has still to deal with: the uncovered squares
    of the own board and the covered squares of the opponent's. *)
Definition squares_to_go (r : GameRound.t) (p : PlayerId) : nat :=
  length (Board.getUncoveredNumbers (board (GameRound.getPlayerById r p))) +
  length (Board.getCoveredNumbers (board (GameRound.getOpponent r p))).

(** How a turn of the computer ends: with the round over, or with the turn
    passed on. *)
Definition turn_over (s s' : GameSession.t) (res : GameSession.AutoPlay) : Prop :=
  (GameSession.ap_roundOver res = true /\ GameSession.ap_switchedToHuman res = false /\
   GameSession.phase s' = GameSession.roundOver /\
   GameSession.currentPlayerId s' = GameSession.currentPlayerId s) \/
  (GameSession.ap_roundOver res = false /\ GameSession.ap_switchedToHuman res = true /\
   GameSession.phase s' = GameSession.awaitingRoll /\
   GameSession.currentPlayerId s' = GameRound.getOpponentId (GameSession.currentPlayerId s) /\
   GameSession.currentDice s' = no_dice).

(** What the turn leaves alone. *)
Definition same_record (s s' : GameSession.t) : Prop :=
  GameSession.history s' = GameSession.history s /\
  GameSession.queuedRolls s' = GameSession.queuedRolls s /\
  GameSession.gameMode s' = GameSession.gameMode s.

(** The test of the [while] loop. *)
Definition computer_to_roll (s : GameSession.t) : bool :=
  match GameSession.currentRound s with
  | None => false
  | Some round =>
      negb (GameRound.roundOver round) &&
      negb (GameSession.isPlayerHumanControlled s (GameSession.currentPlayerId s)) &&
      GameSession.Phase_eqb (GameSession.phase s) GameSession.awaitingRoll
  end.

(** Every entry of the history holds a snapshot that can be restored. *)
Definition history_ok (s : GameSession.t) : Prop :=
  Forall (fun e => snapshot_ok (GameSession.h_snapshot e)) (GameSession.history s) /\
  GameSession.history s <> [].

(** * The model at work *)

Example digitSum_23 : Tournament._digitSum 23 = 5.
Proof. reflexivity. Qed.

Example split_ws_ex : Js.split_ws "a  b c" = ["a"; "b"; "c"].
Proof. reflexivity. Qed.

Example split_lines_ex :
  Js.split_lines (String "a" (String Js.CR (String Js.LF "b"))) = ["a"; "b"].
Proof. reflexivity. Qed.

Example Number_ex : Js.Number " -42 " = Js.Int (-42) /\ Js.Number "-" = Js.NaN /\ Js.Number "" = Js.Int 0.
Proof. repeat split; reflexivity. Qed.

Example print_ex : Js.print 1205 = "1205" /\ Js.print (-7) = "-7" /\ Js.print 0 = "0".
Proof. repeat split; reflexivity. Qed.

Example match_sum_ex : Js.match_sum "CurrentDice: 3 4 (sum=7)" = Some "7".
Proof. reflexivity. Qed.

Example getCoverCombos_fresh9_7 :
  match Board.new 9 with
  | Ok b => Board.getCoverCombos b 7
  | Throw _ => []
  end = [[1; 2; 4]; [1; 6]; [2; 5]; [3; 4]; [7]].
Proof. reflexivity. Qed.

(** * Facts about the helpers *)

Lemma sum_list_acc (l : list Z) (a : Z) : fold_left Z.add l a = a + fold_left Z.add l 0.
Proof.
  revert a. induction l as [|x l IH]; intros a; simpl.
  - lia.
  - rewrite (IH (a + x)), (IH x). lia.
Qed.

Lemma sum_list_cons (x : Z) (l : list Z) : sum_list (x :: l) = x + sum_list l.
Proof. unfold sum_list. simpl. apply sum_list_acc. Qed.

Lemma sum_list_nil : sum_list [] = 0.
Proof. reflexivity. Qed.

Lemma sum_list_app (l1 l2 : list Z) : sum_list (l1 ++ l2) = sum_list l1 + sum_list l2.
Proof.
  induction l1 as [|x l1 IH]; cbn [app].
  - rewrite sum_list_nil. lia.
  - rewrite !sum_list_cons, IH. lia.
Qed.

Lemma includes_In (arr : list Z) (x : Z) : includes arr x = true <-> In x arr.
Proof.
  unfold includes. rewrite existsb_exists. split.
  - intros [y [Hy Heq]]. apply Z.eqb_eq in Heq. subst. exact Hy.
  - intros H. exists x. split; [exact H | apply Z.eqb_refl].
Qed.

(** Strictly ascending lists. *)

Lemma ascending_cons_inv (a : Z) (l : list Z) :
  ascending (a :: l) -> ascending l /\ Forall (Z.lt a) l.
Proof. intros H. inversion H; subst. split; assumption. Qed.

Lemma ascending_filter (f : Z -> bool) (l : list Z) : ascending l -> ascending (filter f l).
Proof.
  unfold ascending. induction 1 as [|a l Hs IH Hall]; simpl.
  - constructor.
  - destruct (f a).
    + constructor; [exact IH|]. rewrite Forall_forall in *. intros x Hx.
      apply filter_In in Hx. apply Hall. tauto.
    + exact IH.
Qed.

Lemma insert_asc_sorted (x : Z) (l : list Z) : Forall (Z.lt x) l -> insert_asc x l = x :: l.
Proof.
  destruct l as [|y l]; simpl; [reflexivity|].
  intros H. inversion H; subst. destruct (Z.ltb_spec x y); [reflexivity | lia].
Qed.

Lemma insert_asc_last (x : Z) (l : list Z) :
  Forall (fun y => y < x) l -> insert_asc x l = l ++ [x].
Proof.
  induction l as [|y l IH]; simpl; [reflexivity|].
  intros H. inversion H; subst. destruct (Z.ltb_spec x y); [lia|].
  rewrite IH by assumption. reflexivity.
Qed.

Lemma sort_asc_acc (l acc : list Z) :
  ascending (acc ++ l) ->
  fold_left (fun a x => insert_asc x a) l acc = acc ++ l.
Proof.
  revert acc. induction l as [|x l IH]; intros acc H; simpl.
  - now rewrite app_nil_r.
  - rewrite insert_asc_last.
    + rewrite IH; rewrite <- app_assoc; simpl; [reflexivity | exact H].
    + clear IH. induction acc as [|y acc IHa]; [constructor|].
      simpl in H. apply ascending_cons_inv in H. destruct H as [Hs Hall].
      constructor.
      * rewrite Forall_forall in Hall. apply Hall. apply in_or_app. right. now left.
      * apply IHa. exact Hs.
Qed.

(** Sorting leaves an ascending array as it is. *)
Lemma sort_asc_ascending (l : list Z) : ascending l -> sort_asc l = l.
Proof. intros H. unfold sort_asc. now rewrite sort_asc_acc. Qed.

Lemma range_incl_shift (lo : Z) (n : nat) :
  map (fun k => lo + Z.of_nat k) (seq 0 (S n)) =
  lo :: map (fun k => (lo + 1) + Z.of_nat k) (seq 0 n).
Proof.
  simpl. f_equal; [lia|]. rewrite <- seq_shift, map_map.
  apply map_ext. intros k. lia.
Qed.

Lemma range_incl_In (lo hi x : Z) : In x (range_incl lo hi) <-> lo <= x <= hi.
Proof.
  unfold range_incl. rewrite in_map_iff. split.
  - intros [k [Hk Hin]]. apply in_seq in Hin. lia.
  - intros H. exists (Z.to_nat (x - lo)). split; [lia|]. apply in_seq. lia.
Qed.

Lemma range_gen_ascending (n : nat) (lo : Z) :
  ascending (map (fun k => lo + Z.of_nat k) (seq 0 n)).
Proof.
  revert lo. induction n as [|n IH]; intros lo.
  - constructor.
  - rewrite range_incl_shift. constructor; [apply IH|].
    rewrite Forall_forall. intros x Hx. apply in_map_iff in Hx.
    destruct Hx as [k [Hk _]]. lia.
Qed.

Lemma range_incl_ascending (lo hi : Z) : ascending (range_incl lo hi).
Proof. apply range_gen_ascending. Qed.

Lemma range_incl_length (lo hi : Z) : length (range_incl lo hi) = Z.to_nat (hi + 1 - lo).
Proof. unfold range_incl. now rewrite length_map, length_seq. Qed.

Lemma range_incl_cons (lo hi : Z) : lo <= hi -> range_incl lo hi = lo :: range_incl (lo + 1) hi.
Proof.
  intros H. unfold range_incl.
  replace (Z.to_nat (hi + 1 - lo)) with (S (Z.to_nat (hi + 1 - (lo + 1)))) by lia.
  apply range_incl_shift.
Qed.

Lemma range_incl_empty (lo hi : Z) : hi < lo -> range_incl lo hi = [].
Proof.
  intros H. unfold range_incl. replace (Z.to_nat (hi + 1 - lo)) with O by lia. reflexivity.
Qed.

(** * The combination search *)

Lemma backtrack_unfold (cands : list Z) (remaining : Z) (path : list Z) :
  Board.backtrack cands remaining path =
  if (remaining =? 0) && (1 <=? length path)%nat && (length path <=? 4)%nat then [path]
  else if (remaining <? 0) || (length path =? 4)%nat then []
  else loop cands remaining path.
Proof. destruct cands; reflexivity. Qed.

Lemma loop_cons (n : Z) (rest : list Z) (remaining : Z) (path : list Z) :
  loop (n :: rest) remaining path =
  if n >? remaining then []
  else Board.backtrack rest (remaining - n) (path ++ [n]) ++ loop rest remaining path.
Proof. reflexivity. Qed.

Lemma filter_none {A} (f : A -> bool) (l : list A) :
  (forall x, In x l -> f x = false) -> filter f l = [].
Proof.
  induction l as [|x l IH]; intros H; simpl; [reflexivity|].
  rewrite (H x (or_introl eq_refl)). apply IH. intros y Hy. apply H. now right.
Qed.

Lemma filter_map_swap {A B} (f : B -> bool) (g : A -> B) (l : list A) :
  filter f (map g l) = map g (filter (fun x => f (g x)) l).
Proof.
  induction l as [|x l IH]; simpl; [reflexivity|].
  destruct (f (g x)); simpl; now rewrite IH.
Qed.

Lemma dfs_nonempty (l c : list Z) : In c (sublists_dfs l) -> c <> [].
Proof.
  revert c. induction l as [|a l IH]; intros c; simpl; [tauto|].
  intros [H | H]; [subst; discriminate|].
  apply in_app_or in H. destruct H as [H | H].
  - apply in_map_iff in H. destruct H as [c' [Heq _]]. subst. discriminate.
  - now apply IH.
Qed.

Lemma dfs_incl (l c : list Z) : In c (sublists_dfs l) -> incl c l.
Proof.
  revert c. induction l as [|a l IH]; intros c; simpl; [tauto|].
  intros [H | H].
  - subst. intros x [Hx | []]. now left.
  - apply in_app_or in H. destruct H as [H | H].
    + apply in_map_iff in H. destruct H as [c' [Heq Hin]]. subst.
      intros x [Hx | Hx]; [now left | right; now apply (IH c')].
    + intros x Hx. right. now apply (IH c).
Qed.

Lemma sum_list_lower (c : list Z) (lo : Z) :
  0 < lo -> c <> [] -> Forall (Z.le lo) c -> lo <= sum_list c.
Proof.
  intros Hlo. induction c as [|x c IH]; intros Hne Hall; [congruence|].
  rewrite sum_list_cons. inversion Hall; subst.
  destruct c as [|y c].
  - rewrite sum_list_nil. lia.
  - assert (lo <= sum_list (y :: c)) by (apply IH; [discriminate | assumption]). lia.
Qed.

Lemma dfs_sum_lower (l c : list Z) (lo : Z) :
  0 < lo -> Forall (Z.le lo) l -> In c (sublists_dfs l) -> lo <= sum_list c.
Proof.
  intros Hlo Hall Hin. apply sum_list_lower; [assumption | now apply dfs_nonempty with l |].
  rewrite Forall_forall in *. intros x Hx. apply Hall. now apply (dfs_incl l c).
Qed.

Lemma loop_spec (cands : list Z) :
  ascending cands -> Forall (Z.lt 0) cands ->
  forall remaining path, 0 < remaining -> (length path < 4)%nat ->
  loop cands remaining path =
  map (app path) (filter (fits remaining (4 - length path)) (sublists_dfs cands)).
Proof.
  induction cands as [|n rest IH]; intros Hasc Hpos remaining path Hrem Hlen.
  - reflexivity.
  - apply ascending_cons_inv in Hasc. destruct Hasc as [Hasc Hlt].
    inversion Hpos as [|? ? Hn Hpos']; subst.
    assert (Hge : Forall (Z.le (n + 1)) rest).
    { rewrite Forall_forall in *. intros x Hx. specialize (Hlt x Hx). lia. }
    rewrite loop_cons. destruct (Z.gtb_spec n remaining) as [Hgt | Hle].
    + symmetry. rewrite filter_none; [reflexivity|].
      intros c Hc. unfold fits.
      assert (n <= sum_list c).
      { apply dfs_sum_lower with (l := n :: rest); [lia | | exact Hc].
        constructor; [lia|]. rewrite Forall_forall in *. intros x Hx.
        specialize (Hlt x Hx). lia. }
      destruct (Z.eqb_spec (sum_list c) remaining); [lia | reflexivity].
    + change (sublists_dfs (n :: rest))
        with ([[n]] ++ map (cons n) (sublists_dfs rest) ++ sublists_dfs rest).
      rewrite !filter_app, !map_app.
      rewrite <- (IH Hasc Hpos' remaining path Hrem Hlen).
      cbn [filter].
      rewrite backtrack_unfold, length_app. cbn [length].
      replace (length path + 1)%nat with (S (length path)) by lia.
      assert (Htail : forall c', In c' (sublists_dfs rest) -> n + 1 <= sum_list c').
      { intros c' Hc'. apply dfs_sum_lower with (l := rest); [lia | exact Hge | exact Hc']. }
      destruct (Z.eqb_spec (remaining - n) 0) as [Hz | Hnz].
      * (* the path is complete *)
        replace ((1 <=? S (length path))%nat) with true by (symmetry; apply Nat.leb_le; lia).
        replace ((S (length path) <=? 4)%nat) with true by (symmetry; apply Nat.leb_le; lia).
        cbn [andb]. unfold fits at 1. rewrite sum_list_cons, sum_list_nil.
        replace (n + 0 =? remaining) with true by (symmetry; apply Z.eqb_eq; lia).
        replace ((length [n] <=? 4 - length path)%nat) with true
          by (symmetry; apply Nat.leb_le; cbn [length]; lia).
        cbn [andb map]. rewrite filter_none.
        -- reflexivity.
        -- intros c Hc. apply in_map_iff in Hc. destruct Hc as [c' [Heq Hc']]. subst c.
           unfold fits. rewrite sum_list_cons. specialize (Htail c' Hc').
           destruct (Z.eqb_spec (n + sum_list c') remaining); [lia | reflexivity].
      * cbn [andb]. unfold fits at 1. rewrite sum_list_cons, sum_list_nil.
        replace (n + 0 =? remaining) with false by (symmetry; apply Z.eqb_neq; lia).
        replace (remaining - n <? 0) with false by (symmetry; apply Z.ltb_ge; lia).
        cbn [andb orb map app].
        destruct (Nat.eqb_spec (S (length path)) 4) as [Hfull | Hroom].
        -- rewrite filter_none; [reflexivity|].
           intros c Hc. apply in_map_iff in Hc. destruct Hc as [c' [Heq Hc']]. subst c.
           unfold fits. apply dfs_nonempty in Hc'. destruct c' as [|y c']; [congruence|].
           replace ((length (n :: y :: c') <=? 4 - length path)%nat) with false
             by (symmetry; apply Nat.leb_gt; cbn [length]; lia).
           apply andb_false_r.
        -- rewrite (IH Hasc Hpos' (remaining - n) (path ++ [n])) by (rewrite ?length_app; cbn [length]; lia).
           rewrite filter_map_swap, map_map. rewrite length_app. cbn [length].
           rewrite (filter_ext (fits (remaining - n) (4 - (length path + 1)))
                      (fun x => fits remaining (4 - length path) (n :: x))).
           ++ f_equal. apply map_ext. intros c. now rewrite <- app_assoc.
           ++ intros c. unfold fits. rewrite sum_list_cons. cbn [length].
              f_equal.
              ** destruct (Z.eqb_spec (sum_list c) (remaining - n)),
                          (Z.eqb_spec (n + sum_list c) remaining);
                   try reflexivity; lia.
              ** destruct (Nat.leb_spec (length c) (4 - (length path + 1))),
                          (Nat.leb_spec (S (length c)) (4 - length path));
                   try reflexivity; lia.
Qed.

(** The search returns the sub-lists of the candidates that add up to the
    target with at most four squares, in depth-first order. *)
Lemma search_spec (cands : list Z) (t : Z) :
  ascending cands -> Forall (Z.lt 0) cands -> 0 < t ->
  Board._getCombosForSum cands t = filter (fits t 4) (sublists_dfs cands).
Proof.
  intros Hasc Hpos Ht. unfold Board._getCombosForSum.
  rewrite sort_asc_ascending by exact Hasc.
  rewrite backtrack_unfold.
  replace (t =? 0) with false by (symmetry; apply Z.eqb_neq; lia).
  replace (t <? 0) with false by (symmetry; apply Z.ltb_ge; lia).
  cbn [andb orb length Nat.eqb].
  rewrite loop_spec by (simpl; try assumption; lia).
  cbn [length Nat.sub]. rewrite map_id. reflexivity.
Qed.

(** The sub-lists of an ascending list are the non-empty ascending lists
    drawn from it. *)
Lemma dfs_ascending (l c : list Z) : ascending l -> In c (sublists_dfs l) -> ascending c.
Proof.
  revert c. induction l as [|a l IH]; intros c Hasc; simpl; [tauto|].
  apply ascending_cons_inv in Hasc. destruct Hasc as [Hasc Hlt].
  intros [H | H].
  - subst. repeat constructor.
  - apply in_app_or in H. destruct H as [H | H].
    + apply in_map_iff in H. destruct H as [c' [Heq Hin]]. subst.
      constructor; [now apply IH|].
      rewrite Forall_forall in *. intros x Hx. apply Hlt. now apply (dfs_incl l c').
    + now apply IH.
Qed.

Lemma dfs_complete (l c : list Z) :
  ascending l -> c <> [] -> ascending c -> incl c l -> In c (sublists_dfs l).
Proof.
  revert c. induction l as [|a l IH]; intros c Hasc Hne Hc Hincl.
  - destruct c as [|x c]; [congruence|]. destruct (Hincl x (or_introl eq_refl)).
  - apply ascending_cons_inv in Hasc. destruct Hasc as [Hasc Hlt].
    rewrite Forall_forall in Hlt.
    destruct c as [|x c]; [congruence|].
    apply ascending_cons_inv in Hc. destruct Hc as [Hc Hxc].
    rewrite Forall_forall in Hxc.
    assert (Htail : forall y, In y c -> a < y).
    { intros y Hy. specialize (Hxc y Hy).
      destruct (Hincl x (or_introl eq_refl)) as [Hx | Hx]; [lia | specialize (Hlt x Hx); lia]. }
    assert (Hcl : incl c l).
    { intros y Hy. destruct (Hincl y (or_intror Hy)) as [Hy' | Hy']; [|exact Hy'].
      specialize (Htail y Hy). lia. }
    simpl. destruct (Z.eq_dec x a) as [-> | Hxa].
    + destruct c as [|y c]; [now left|]. right. apply in_or_app. left.
      apply in_map. apply IH; [assumption | discriminate | assumption | assumption].
    + right. apply in_or_app. right. apply IH; [assumption | discriminate | |].
      * constructor; [assumption | now rewrite Forall_forall].
      * intros y [Hy | Hy]; [|now apply Hcl].
        subst y. destruct (Hincl x (or_introl eq_refl)); [congruence | assumption].
Qed.

Lemma dfs_In_iff (l c : list Z) :
  ascending l -> (In c (sublists_dfs l) <-> c <> [] /\ ascending c /\ incl c l).
Proof.
  intros Hasc. split.
  - intros H. repeat split; [now apply dfs_nonempty with l | now apply dfs_ascending with l
                            | now apply dfs_incl].
  - intros [Hne [Hc Hincl]]. now apply dfs_complete.
Qed.

Lemma ascending_not_In (a : Z) (l : list Z) : Forall (Z.lt a) l -> ~ In a l.
Proof. rewrite Forall_forall. intros H Hin. specialize (H a Hin). lia. Qed.

Lemma NoDup_map_cons (a : Z) (l : list (list Z)) : NoDup l -> NoDup (map (cons a) l).
Proof.
  induction 1 as [|x l Hx Hl IH]; simpl; constructor; [|exact IH].
  intros H. apply in_map_iff in H. destruct H as [y [Heq Hy]].
  injection Heq as Heq. now subst.
Qed.

(** Each sub-list is met once. *)
Lemma dfs_NoDup (l : list Z) : ascending l -> NoDup (sublists_dfs l).
Proof.
  induction l as [|a l IH]; intros Hasc; simpl; [constructor|].
  apply ascending_cons_inv in Hasc. destruct Hasc as [Hasc Hlt].
  pose proof (ascending_not_In a l Hlt) as Ha.
  constructor.
  - intros H. apply in_app_or in H. destruct H as [H | H].
    + apply in_map_iff in H. destruct H as [c' [Heq Hin]].
      apply dfs_nonempty in Hin. injection Heq as Heq. congruence.
    + apply dfs_incl in H. apply Ha. apply H. now left.
  - apply NoDup_app; [ | now apply IH | ].
    + now apply NoDup_map_cons, IH.
    + intros c Hc Hc'. apply in_map_iff in Hc. destruct Hc as [c' [Heq _]]. subst c.
      apply dfs_incl in Hc'. apply Ha. apply Hc'. now left.
Qed.

Lemma least_sum_mono (k : nat) (lo : Z) : 0 <= lo -> least_sum k lo <= least_sum (S k) lo.
Proof.
  revert lo. induction k as [|k IH]; intros lo Hlo.
  - simpl. lia.
  - change (least_sum (S (S k)) lo) with (lo + least_sum (S k) (lo + 1)).
    change (least_sum (S k) lo) with (lo + least_sum k (lo + 1)).
    specialize (IH (lo + 1) ltac:(lia)). lia.
Qed.

Lemma least_sum_le (j k : nat) (lo : Z) :
  0 <= lo -> (j <= k)%nat -> least_sum j lo <= least_sum k lo.
Proof.
  intros Hlo Hjk. induction Hjk as [|k Hjk IH]; [lia|].
  pose proof (least_sum_mono k lo Hlo). lia.
Qed.

Lemma ascending_sum_lower (c : list Z) (lo : Z) :
  ascending c -> Forall (Z.le lo) c -> least_sum (length c) lo <= sum_list c.
Proof.
  revert lo. induction c as [|x c IH]; intros lo Hasc Hall.
  - simpl. rewrite sum_list_nil. lia.
  - apply ascending_cons_inv in Hasc. destruct Hasc as [Hasc Hlt].
    inversion Hall; subst. rewrite sum_list_cons. cbn [length least_sum].
    assert (Hc : least_sum (length c) (x + 1) <= sum_list c).
    { apply IH; [assumption|]. rewrite Forall_forall in *. intros y Hy.
      specialize (Hlt y Hy). lia. }
    assert (Hm : forall k a b, a <= b -> least_sum k a <= least_sum k b).
    { clear. induction k as [|k IHk]; intros a b Hab; simpl; [lia|].
      specialize (IHk (a + 1) (b + 1) ltac:(lia)). lia. }
    specialize (Hm (length c) (lo + 1) (x + 1) ltac:(lia)). lia.
Qed.

(** What arithmetic implies: distinct positive squares that add up to at
    most 14 are at most four. *)
Lemma at_most_four (c : list Z) :
  ascending c -> Forall (Z.le 1) c -> sum_list c <= 14 -> (length c <= 4)%nat.
Proof.
  intros Hasc Hpos Hsum.
  destruct (Nat.le_gt_cases (length c) 4) as [H | H]; [exact H|].
  pose proof (ascending_sum_lower c 1 Hasc Hpos) as Hlow.
  pose proof (@least_sum_le 5 (length c) 1 ltac:(lia) ltac:(lia)) as Hfive.
  change (least_sum 5 1) with 15 in Hfive. lia.
Qed.

(** * Boards *)

Lemma getUncoveredNumbers_In (b : Board.t) (x : Z) :
  In x (Board.getUncoveredNumbers b) <-> 1 <= x <= Board.size b /\ Board.covered_at b x = false.
Proof.
  unfold Board.getUncoveredNumbers. rewrite filter_In, range_incl_In, negb_true_iff. tauto.
Qed.

Lemma getCoveredNumbers_In (b : Board.t) (x : Z) :
  In x (Board.getCoveredNumbers b) <-> 1 <= x <= Board.size b /\ Board.covered_at b x = true.
Proof.
  unfold Board.getCoveredNumbers. rewrite filter_In, range_incl_In. tauto.
Qed.

Lemma getUncoveredNumbers_ascending (b : Board.t) : ascending (Board.getUncoveredNumbers b).
Proof. apply ascending_filter, range_incl_ascending. Qed.

Lemma getCoveredNumbers_ascending (b : Board.t) : ascending (Board.getCoveredNumbers b).
Proof. apply ascending_filter, range_incl_ascending. Qed.

Lemma getUncoveredNumbers_positive (b : Board.t) : Forall (Z.lt 0) (Board.getUncoveredNumbers b).
Proof.
  rewrite Forall_forall. intros x Hx. apply getUncoveredNumbers_In in Hx. lia.
Qed.

Lemma getCoveredNumbers_positive (b : Board.t) : Forall (Z.lt 0) (Board.getCoveredNumbers b).
Proof.
  rewrite Forall_forall. intros x Hx. apply getCoveredNumbers_In in Hx. lia.
Qed.

(** The statement both halves of the search share: from ascending positive
    candidates and a total from 1 to 14, the search returns each set of
    candidates with that sum once. *)
Lemma search_exact (cands : list Z) (t : Z) :
  ascending cands -> Forall (Z.lt 0) cands -> 1 <= t <= 14 ->
  NoDup (Board._getCombosForSum cands t) /\
  forall c, In c (Board._getCombosForSum cands t) <->
            ascending c /\ incl c cands /\ sum_list c = t.
Proof.
  intros Hasc Hpos Ht. rewrite search_spec by (try assumption; lia). split.
  - apply NoDup_filter, dfs_NoDup, Hasc.
  - intros c. rewrite filter_In, dfs_In_iff by exact Hasc. unfold fits.
    rewrite andb_true_iff, Z.eqb_eq, Nat.leb_le. split.
    + tauto.
    + intros [Hc [Hincl Hsum]]. repeat split; try assumption.
      * intros ->. rewrite sum_list_nil in Hsum. lia.
      * apply at_most_four; [assumption | | lia].
        rewrite Forall_forall in *. intros x Hx. specialize (Hpos x (Hincl x Hx)). lia.
Qed.

(** Dropping candidates is the same as dropping the combinations that use
    them. *)
Lemma dfs_filter (q : Z -> bool) (l : list Z) :
  filter (forallb q) (sublists_dfs l) = sublists_dfs (filter q l).
Proof.
  induction l as [|a l IH]; [reflexivity|].
  change (sublists_dfs (a :: l))
    with ([[a]] ++ map (cons a) (sublists_dfs l) ++ sublists_dfs l).
  rewrite !filter_app, IH, filter_map_swap. cbn [filter forallb].
  destruct (q a) eqn:Hq; cbn [andb app].
  - rewrite (filter_ext (fun x => forallb q x) (forallb q)) by reflexivity.
    now rewrite IH.
  - rewrite filter_none by reflexivity. reflexivity.
Qed.

Lemma filter_through {A} (f g : A -> bool) (l : list A) :
  (forall x, In x l -> f x = true -> g x = true) ->
  filter f l = filter f (filter g l).
Proof.
  induction l as [|x l IH]; intros H; simpl; [reflexivity|].
  assert (IH' : filter f l = filter f (filter g l)).
  { apply IH. intros y Hy. apply H. now right. }
  destruct (f x) eqn:Hf.
  - rewrite (H x (or_introl eq_refl) Hf). simpl. rewrite Hf. now f_equal.
  - destruct (g x); simpl; rewrite ?Hf; exact IH'.
Qed.

Lemma filter_swap {A} (f g : A -> bool) (l : list A) :
  filter f (filter g l) = filter g (filter f l).
Proof.
  induction l as [|x l IH]; simpl; [reflexivity|].
  destruct (f x) eqn:Hf, (g x) eqn:Hg; simpl; rewrite ?Hf, ?Hg, IH; reflexivity.
Qed.

Lemma element_le_sum (c : list Z) (x : Z) :
  Forall (Z.lt 0) c -> In x c -> x <= sum_list c.
Proof.
  induction c as [|y c IH]; intros Hpos Hin; [destruct Hin|].
  inversion Hpos; subst. rewrite sum_list_cons.
  assert (0 <= sum_list c).
  { clear -H2. induction c as [|z c IHc]; [rewrite sum_list_nil; lia|].
    inversion H2; subst. rewrite sum_list_cons. specialize (IHc H3). lia. }
  destruct Hin as [-> | Hin]; [lia|]. specialize (IH H2 Hin). lia.
Qed.

Lemma getCoverOptions_option_set (r : GameRound.t) (playerId : PlayerId) (t : Z) :
  0 < t -> option_set t (GameRound.getCoverOptions r playerId t).
Proof.
  intros Ht. exists (Board.getUncoveredNumbers (board (GameRound.getPlayerById r playerId))).
  split; [apply getUncoveredNumbers_ascending|].
  split; [apply getUncoveredNumbers_positive|].
  unfold GameRound.getCoverOptions, Board.getCoverCombos.
  apply search_spec; [apply getUncoveredNumbers_ascending | apply getUncoveredNumbers_positive | exact Ht].
Qed.

Lemma excludes_forallb (k : Z) (c : list Z) :
  negb (includes c k) = forallb (fun x => negb (k =? x)) c.
Proof.
  unfold includes. induction c as [|x c IH]; [reflexivity|].
  simpl. rewrite negb_orb. now rewrite IH.
Qed.

Lemma getUncoverOptions_option_set (r : GameRound.t) (playerId : PlayerId) (t : Z) :
  0 < t -> option_set t (GameRound.getUncoverOptions r playerId t).
Proof.
  intros Ht. unfold GameRound.getUncoverOptions, Board.getUncoverCombos.
  set (cands := Board.getCoveredNumbers (board (GameRound.getOpponent r playerId))).
  assert (Hasc : ascending cands) by apply getCoveredNumbers_ascending.
  assert (Hpos : Forall (Z.lt 0) cands) by apply getCoveredNumbers_positive.
  assert (Hall : option_set t (Board._getCombosForSum cands t)).
  { exists cands. repeat split; try assumption. now apply search_spec. }
  destruct (GameRound.advantageLock r) as [l|]; [|exact Hall].
  destruct (negb (lock_unlocked l) && negb (PlayerId_eqb playerId (lock_playerId l)));
    [|exact Hall].
  exists (filter (fun x => negb (lock_squareNumber l =? x)) cands).
  split; [now apply ascending_filter|].
  split.
  { rewrite Forall_forall in *. intros x Hx. apply filter_In in Hx. apply Hpos. tauto. }
  rewrite search_spec by assumption.
  rewrite <- dfs_filter.
  rewrite (filter_swap (fits t 4) (forallb (fun x => negb (lock_squareNumber l =? x)))).
  apply filter_ext. intros c. apply excludes_forallb.
Qed.

(** * The choice among the options of one roll *)

Lemma pick_step_same_sum (best cand : list Z) :
  sum_list cand = sum_list best ->
  ComputerPlayer.pick_step best cand =
  if (length best <? length cand)%nat then cand else best.
Proof.
  intros Hs. unfold ComputerPlayer.pick_step. rewrite Hs.
  replace (sum_list best >? sum_list best) with false
    by (symmetry; rewrite Z.gtb_ltb; apply Z.ltb_irrefl).
  now destruct (length best <? length cand)%nat, (length cand =? length best)%nat.
Qed.

(** While every option has the same sum, the fold keeps the earliest of the
    longest options. *)
Lemma pick_fold_spec (s : Z) (rest done : list (list Z)) (acc : list Z)
    (pre mid : list (list Z)) :
  done = pre ++ acc :: mid ->
  (forall c, In c pre -> (length c < length acc)%nat) ->
  (forall c, In c mid -> (length c <= length acc)%nat) ->
  (forall c, In c (done ++ rest) -> sum_list c = s) ->
  exists pre' post',
    done ++ rest = pre' ++ fold_left ComputerPlayer.pick_step rest acc :: post' /\
    (forall c, In c pre' -> (length c < length (fold_left ComputerPlayer.pick_step rest acc))%nat) /\
    (forall c, In c post' -> (length c <= length (fold_left ComputerPlayer.pick_step rest acc))%nat).
Proof.
  revert done acc pre mid. induction rest as [|x rest IH]; intros done acc pre mid Hd Hpre Hmid Hsum.
  - exists pre, mid. rewrite app_nil_r. auto.
  - cbn [fold_left].
    assert (Hx : sum_list x = sum_list acc).
    { rewrite (Hsum x), (Hsum acc); [reflexivity | |].
      - apply in_or_app. left. subst done. apply in_or_app. right. now left.
      - apply in_or_app. right. now left. }
    rewrite (pick_step_same_sum acc x Hx).
    replace (done ++ x :: rest) with ((done ++ [x]) ++ rest) in * by (now rewrite <- app_assoc).
    destruct (Nat.ltb_spec (length acc) (length x)) as [Hlt | Hge].
    + apply (IH (done ++ [x]) x done []); auto.
      * intros c Hc. subst done. apply in_app_or in Hc. destruct Hc as [Hc | [Hc | Hc]].
        -- specialize (Hpre c Hc). lia.
        -- subst c. exact Hlt.
        -- specialize (Hmid c Hc). lia.
      * intros c [].
    + apply (IH (done ++ [x]) acc pre (mid ++ [x])); auto.
      * subst done. rewrite <- app_assoc. reflexivity.
      * intros c Hc. apply in_app_or in Hc. destruct Hc as [Hc | [Hc | []]]; [auto | now subst c].
Qed.

Lemma option_set_sum (t : Z) (options : list (list Z)) (c : list Z) :
  option_set t options -> In c options -> sum_list c = t.
Proof.
  intros [cands [_ [_ ->]]] Hc. apply filter_In in Hc. destruct Hc as [_ Hc].
  unfold fits in Hc. apply andb_true_iff in Hc. now apply Z.eqb_eq.
Qed.

(** [_pickBestCombo] on the options of one roll: the earliest of the longest. *)
Lemma pickBest_first_longest (t : Z) (options : list (list Z)) :
  option_set t options -> options <> [] ->
  exists pre post,
    options = pre ++ ComputerPlayer._pickBestCombo options :: post /\
    (forall c, In c pre -> (length c < length (ComputerPlayer._pickBestCombo options))%nat) /\
    (forall c, In c post -> (length c <= length (ComputerPlayer._pickBestCombo options))%nat).
Proof.
  intros Hset Hne. destruct options as [|first rest]; [congruence|].
  cbn [ComputerPlayer._pickBestCombo].
  apply (pick_fold_spec t rest [first] first [] []); auto.
  - intros c [].
  - intros c [].
  - intros c Hc. now apply (option_set_sum t (first :: rest)).
Qed.

Lemma keeps_highest_small :
  forallb (fun cands =>
             forallb (fun t => keeps_highest (filter (fits t 4) (sublists_dfs cands)))
                     (range_incl 1 12))
          ([] :: sublists_dfs (range_incl 1 12)) = true.
Proof. vm_compute. reflexivity. Qed.

Lemma forallb_le_small (t : Z) (cands c : list Z) :
  Forall (Z.lt 0) cands -> t <= 12 -> In c (sublists_dfs cands) ->
  fits t 4 c = true -> forallb (fun x => x <=? 12) c = true.
Proof.
  intros Hpos Ht Hin Hfit. apply forallb_forall. intros x Hx.
  unfold fits in Hfit. apply andb_true_iff in Hfit. destruct Hfit as [Hsum _].
  apply Z.eqb_eq in Hsum. apply Z.leb_le.
  assert (x <= sum_list c); [|lia].
  apply element_le_sum; [|exact Hx].
  rewrite Forall_forall in *. intros y Hy. apply Hpos. now apply (dfs_incl cands c).
Qed.

(** For a real dice total, the option [_pickBestCombo] keeps also has the
    greatest highest square among the longest options. *)
Lemma pick_keeps_highest (t : Z) (options : list (list Z)) :
  option_set t options -> dice_total t ->
  forall c, In c options ->
            length c = length (ComputerPlayer._pickBestCombo options) ->
            highest c <= highest (ComputerPlayer._pickBestCombo options).
Proof.
  intros [cands [Hasc [Hpos ->]]] [Ht1 Ht12] c Hc Hlen.
  set (small := filter (fun x => x <=? 12) cands).
  assert (Hsame : filter (fits t 4) (sublists_dfs cands) =
                  filter (fits t 4) (sublists_dfs small)).
  { unfold small. rewrite <- dfs_filter. apply filter_through.
    intros x Hx Hfit. now apply (forallb_le_small t cands). }
  rewrite Hsame in *.
  assert (Hsmall : In small ([] :: sublists_dfs (range_incl 1 12))).
  { destruct small as [|y ys] eqn:Hs; [now left|]. right. rewrite <- Hs.
    apply dfs_complete.
    - apply range_incl_ascending.
    - rewrite Hs. discriminate.
    - unfold small. now apply ascending_filter.
    - intros x Hx. unfold small in Hx. apply filter_In in Hx. destruct Hx as [Hx Hle].
      apply range_incl_In. apply Z.leb_le in Hle.
      rewrite Forall_forall in Hpos. specialize (Hpos x Hx). lia. }
  pose proof keeps_highest_small as Hall.
  rewrite forallb_forall in Hall. specialize (Hall small Hsmall).
  rewrite forallb_forall in Hall. specialize (Hall t).
  rewrite range_incl_In in Hall. specialize (Hall (conj Ht1 Ht12)).
  unfold keeps_highest in Hall. rewrite forallb_forall in Hall.
  specialize (Hall c Hc). rewrite Hlen, Nat.eqb_refl in Hall.
  cbn [negb orb] in Hall. now apply Z.leb_le.
Qed.

(** * Claims about the search and the move policy *)

(** Refutes membership in an explicit list of distinct values. *)
Ltac not_listed H :=
  simpl in H;
  repeat match type of H with
         | _ \/ _ => destruct H as [H | H]; [discriminate H |]
         end;
  first [destruct H | discriminate H].

(** C1, as amended.  For every board and every total [t] from 1 to 14, which
    covers every total of one or two dice, [getCoverCombos] returns exactly
    the sets of distinct uncovered squares with sum [t], and
    [getUncoverCombos] exactly the sets of distinct covered squares with sum
    [t], each set once; the cap of four squares in the source excludes
    nothing in that range.  On the fresh board of size 9 the cover options
    for 7 are {1,2,4}, {1,6}, {2,5}, {3,4} and {7}. *)
Theorem combination_search_exact (b : Board.t) (t : Z) :
  1 <= t <= 14 ->
  lists_each_subset_once (uncovered_square b) t (Board.getCoverCombos b t) /\
  lists_each_subset_once (covered_square b) t (Board.getUncoverCombos b t) /\
  Board.new 9 = Ok fresh9 /\
  Board.getCoverCombos fresh9 7 = [[1; 2; 4]; [1; 6]; [2; 5]; [3; 4]; [7]].
Proof.
  intros Ht. split; [|split; [|split; reflexivity]].
  - destruct (search_exact (Board.getUncoveredNumbers b) t
                (getUncoveredNumbers_ascending b) (getUncoveredNumbers_positive b) Ht)
      as [Hnd Hin].
    split; [exact Hnd|]. intros c. unfold Board.getCoverCombos. rewrite Hin.
    split; intros [Hasc [Hc Hsum]]; (split; [exact Hasc | split; [|exact Hsum]]);
      intros y Hy; apply getUncoveredNumbers_In; now apply Hc.
  - destruct (search_exact (Board.getCoveredNumbers b) t
                (getCoveredNumbers_ascending b) (getCoveredNumbers_positive b) Ht)
      as [Hnd Hin].
    split; [exact Hnd|]. intros c. unfold Board.getUncoverCombos. rewrite Hin.
    split; intros [Hasc [Hc Hsum]]; (split; [exact Hasc | split; [|exact Hsum]]);
      intros y Hy; apply getCoveredNumbers_In; now apply Hc.
Qed.

Lemma combination_search_exact_witness :
  1 <= 7 <= 14 /\
  lists_each_subset_once (uncovered_square fresh9) 7 (Board.getCoverCombos fresh9 7).
Proof.
  split; [lia|]. apply (combination_search_exact fresh9 7). lia.
Defined.

(** C1 as stated fails twice: on the fresh board of size 9 the set {1,2,4}
    is a cover option for 7 beside the four the claim lists, and for the
    total 15 the set {1,2,3,4,5} of uncovered squares is not returned. *)
Lemma combination_search_counterexample :
  Board.new 9 = Ok fresh9 /\
  In [1; 2; 4] (Board.getCoverCombos fresh9 7) /\
  ~ In [1; 2; 4] [[7]; [1; 6]; [2; 5]; [3; 4]] /\
  ascending [1; 2; 3; 4; 5] /\
  (forall x, In x [1; 2; 3; 4; 5] -> uncovered_square fresh9 x) /\
  sum_list [1; 2; 3; 4; 5] = 15 /\
  ~ In [1; 2; 3; 4; 5] (Board.getCoverCombos fresh9 15).
Proof.
  split; [reflexivity|]. split; [vm_compute; tauto|].
  split. { intros H. not_listed H. }
  split. { repeat constructor. }
  split. { intros x Hx. simpl in Hx. unfold uncovered_square.
           destruct Hx as [<-|[<-|[<-|[<-|[<-|[]]]]]]; (split; [simpl; lia | reflexivity]). }
  split; [reflexivity|].
  intros H. vm_compute in H. not_listed H.
Qed.

(** C9.  While a lock is in place and not yet unlocked, no combination that
    [getUncoverOptions] returns to the holder's opponent, whose uncover
    moves target the holder's board, contains the locked square. *)
Theorem locked_square_never_offered (r : GameRound.t) (l : AdvantageLock)
    (playerId : PlayerId) (sum : Z) (combo : list Z) :
  GameRound.advantageLock r = Some l ->
  lock_unlocked l = false ->
  GameRound.getOpponentId playerId = lock_playerId l ->
  In combo (GameRound.getUncoverOptions r playerId sum) ->
  ~ In (lock_squareNumber l) combo.
Proof.
  intros Hlock Hun Hopp Hin. unfold GameRound.getUncoverOptions in Hin.
  rewrite Hlock, Hun in Hin.
  assert (Hne : PlayerId_eqb playerId (lock_playerId l) = false).
  { rewrite <- Hopp. now destruct playerId. }
  rewrite Hne in Hin. cbn [negb andb] in Hin.
  apply filter_In in Hin. destruct Hin as [_ Hex].
  apply negb_true_iff in Hex. intros Hk. apply includes_In in Hk. congruence.
Qed.

Lemma locked_square_never_offered_witness :
  GameRound.advantageLock locked_round = Some (mkAdvantageLock HUMAN 5 false) /\
  In [2; 3] (GameRound.getUncoverOptions locked_round COMPUTER 5) /\
  ~ In 5 [2; 3].
Proof.
  split; [reflexivity|]. split; [vm_compute; tauto|].
  apply (locked_square_never_offered locked_round (mkAdvantageLock HUMAN 5 false)
           COMPUTER 5 [2; 3]).
  - reflexivity.
  - reflexivity.
  - reflexivity.
  - vm_compute. tauto.
Defined.

Lemma find_length_Some (n : nat) (options : list (list Z)) (combo : list Z) :
  ComputerPlayer.find_length n options = Some combo -> In combo options /\ length combo = n.
Proof.
  unfold ComputerPlayer.find_length. intros H. apply find_some in H.
  destruct H as [Hin Hlen]. split; [exact Hin | now apply Nat.eqb_eq].
Qed.

Lemma find_length_None (n : nat) (options : list (list Z)) :
  ComputerPlayer.find_length n options = None <-> forall c, In c options -> length c <> n.
Proof.
  unfold ComputerPlayer.find_length. split.
  - intros H c Hc Hlen. pose proof (find_none _ _ H c Hc) as Hf. simpl in Hf.
    rewrite Hlen, Nat.eqb_refl in Hf. discriminate.
  - intros H. destruct (find _ options) as [c|] eqn:Hf; [|reflexivity].
    apply find_some in Hf. destruct Hf as [Hin Hlen]. apply Nat.eqb_eq in Hlen.
    now destruct (H c Hin).
Qed.

Lemma length_zero_nil {A} (l : list A) : (length l =? 0)%nat = true <-> l = [].
Proof. destruct l; simpl; split; intros; congruence. Qed.

Lemma no_better_refl (c : list Z) : no_better c c.
Proof. right. split; [reflexivity | lia]. Qed.

Lemma no_better_trans (a b c : list Z) : no_better a b -> no_better b c -> no_better a c.
Proof. unfold no_better. intros [H1 | [H1 H1']] [H2 | [H2 H2']]; [left | left | left | right]; lia. Qed.

Lemma pick_step_spec (best cand : list Z) :
  (ComputerPlayer.pick_step best cand = best \/ ComputerPlayer.pick_step best cand = cand) /\
  no_better (ComputerPlayer.pick_step best cand) best /\
  no_better (ComputerPlayer.pick_step best cand) cand.
Proof.
  unfold ComputerPlayer.pick_step, no_better. cbv zeta.
  destruct (Nat.ltb_spec (length best) (length cand)) as [Hlt | Hge].
  - split; [now right|]. split; [left; lia | right; split; [reflexivity | lia]].
  - destruct (Nat.eqb_spec (length cand) (length best)) as [Heq | Hne].
    + destruct (Z.gtb_spec (sum_list cand) (sum_list best)) as [Hgt | Hle].
      * split; [now right|]. split; right; split; try lia.
      * split; [now left|]. split; right; split; try lia.
    + split; [now left|]. split; [right; split; [reflexivity | lia] | left; lia].
Qed.

Lemma pick_fold_best (rest : list (list Z)) (acc : list Z) :
  (fold_left ComputerPlayer.pick_step rest acc = acc \/
   In (fold_left ComputerPlayer.pick_step rest acc) rest) /\
  no_better (fold_left ComputerPlayer.pick_step rest acc) acc /\
  forall c, In c rest -> no_better (fold_left ComputerPlayer.pick_step rest acc) c.
Proof.
  revert acc. induction rest as [|x rest IH]; intros acc.
  - cbn [fold_left]. split; [now left|]. split; [apply no_better_refl | intros c []].
  - cbn [fold_left].
    destruct (IH (ComputerPlayer.pick_step acc x)) as [Hmem [Hacc Hrest]].
    destruct (pick_step_spec acc x) as [Hpick [Hpa Hpx]].
    split; [|split].
    + destruct Hmem as [Hmem | Hmem]; [|right; now right].
      rewrite Hmem. destruct Hpick as [-> | ->]; [now left | right; now left].
    + exact (no_better_trans _ _ _ Hacc Hpa).
    + intros c [<- | Hc]; [exact (no_better_trans _ _ _ Hacc Hpx) | now apply Hrest].
Qed.

Lemma pickBest_member (options : list (list Z)) :
  options <> [] -> In (ComputerPlayer._pickBestCombo options) options.
Proof.
  destruct options as [|first rest]; [congruence|]. intros _.
  cbn [ComputerPlayer._pickBestCombo].
  destruct (pick_fold_best rest first) as [[H | H] _]; [left; now rewrite H | now right].
Qed.

(** C6.  [decideMove] answers "none" only when there is no cover and no
    uncover option, and then it does.  It returns a cover option as long as
    the actor's uncovered squares when there is one (this check comes before
    the uncover win); failing that, an uncover option as long as the
    opponent's covered squares when there is one; failing both, it covers
    when a cover option exists and uncovers otherwise, with the combination
    [_pickBestCombo] keeps from the chosen options.  For every total of one
    or two dice that combination is one of the options with the most
    squares, and among these it has the greatest highest square.  The code
    gets there by comparing sums: from any non-empty list [_pickBestCombo]
    returns a member that no member exceeds in length, nor, at equal length,
    in sum, and the options of one total all have the same sum, so that the
    earliest enumerated of the longest options is kept. *)
Theorem decideMove_policy (r : GameRound.t) (playerId : PlayerId) (t : Z) :
  let d := ComputerPlayer.decideMove r playerId t in
  let coverOptions := GameRound.getCoverOptions r playerId t in
  let uncoverOptions := GameRound.getUncoverOptions r playerId t in
  let ownLeft := length (Board.getUncoveredNumbers (board (GameRound.getPlayerById r playerId))) in
  let oppCovered := length (Board.getCoveredNumbers (board (GameRound.getOpponent r playerId))) in
  (ComputerPlayer.action d = ComputerPlayer.ActNone <->
     coverOptions = [] /\ uncoverOptions = []) /\
  ((exists c, In c coverOptions /\ length c = ownLeft) ->
     ComputerPlayer.action d = ComputerPlayer.ActCover /\
     In (ComputerPlayer.squares d) coverOptions /\
     length (ComputerPlayer.squares d) = ownLeft) /\
  ((forall c, In c coverOptions -> length c <> ownLeft) ->
   (exists c, In c uncoverOptions /\ length c = oppCovered) ->
     ComputerPlayer.action d = ComputerPlayer.ActUncover /\
     In (ComputerPlayer.squares d) uncoverOptions /\
     length (ComputerPlayer.squares d) = oppCovered) /\
  ((forall c, In c coverOptions -> length c <> ownLeft) ->
   (forall c, In c uncoverOptions -> length c <> oppCovered) ->
     (coverOptions <> [] ->
        ComputerPlayer.action d = ComputerPlayer.ActCover /\
        ComputerPlayer.squares d = ComputerPlayer._pickBestCombo coverOptions) /\
     (coverOptions = [] -> uncoverOptions <> [] ->
        ComputerPlayer.action d = ComputerPlayer.ActUncover /\
        ComputerPlayer.squares d = ComputerPlayer._pickBestCombo uncoverOptions)) /\
  (0 < t ->
   forall options, options = coverOptions \/ options = uncoverOptions -> options <> [] ->
     earliest_longest options (ComputerPlayer._pickBestCombo options)) /\
  (dice_total t ->
   forall options, options = coverOptions \/ options = uncoverOptions -> options <> [] ->
     In (ComputerPlayer._pickBestCombo options) options /\
     forall c, In c options ->
       (length c <= length (ComputerPlayer._pickBestCombo options))%nat /\
       (length c = length (ComputerPlayer._pickBestCombo options) ->
        highest c <= highest (ComputerPlayer._pickBestCombo options))) /\
  (forall options, options <> [] ->
     In (ComputerPlayer._pickBestCombo options) options /\
     forall c, In c options ->
       no_better (ComputerPlayer._pickBestCombo options) c).
Proof.
  intros d coverOptions uncoverOptions ownLeft oppCovered.
  assert (Hsets : 0 < t -> forall options,
             options = coverOptions \/ options = uncoverOptions -> option_set t options).
  { intros Ht options [-> | ->];
      [now apply getCoverOptions_option_set | now apply getUncoverOptions_option_set]. }
  assert (Hd : d =
    if (length coverOptions =? 0)%nat && (length uncoverOptions =? 0)%nat then
      ComputerPlayer.mkDecision ComputerPlayer.ActNone []
        "No valid cover or uncover moves available for this dice sum." [] []
    else
      match ComputerPlayer.find_length ownLeft coverOptions with
      | Some combo =>
          ComputerPlayer.mkDecision ComputerPlayer.ActCover combo
            "This move COVERS all your remaining squares and wins the round immediately."
            coverOptions uncoverOptions
      | None =>
          match ComputerPlayer.find_length oppCovered uncoverOptions with
          | Some combo =>
              ComputerPlayer.mkDecision ComputerPlayer.ActUncover combo
                "This move UNCOVERS all opponent squares and wins the round immediately."
                coverOptions uncoverOptions
          | None =>
              if (0 <? length coverOptions)%nat then
                ComputerPlayer.mkDecision ComputerPlayer.ActCover
                  (ComputerPlayer._pickBestCombo coverOptions)
                  "No immediate win available. Chose to COVER own squares using the combination that makes the most progress (more / larger squares)."
                  coverOptions uncoverOptions
              else
                ComputerPlayer.mkDecision ComputerPlayer.ActUncover
                  (ComputerPlayer._pickBestCombo uncoverOptions)
                  "No immediate win available and no cover move. Chose to UNCOVER opponent's squares using the strongest combination (more / larger squares)."
                  coverOptions uncoverOptions
          end
      end) by reflexivity.
  clearbody d coverOptions uncoverOptions ownLeft oppCovered.
  split; [|split; [|split; [|split; [|split; [|split]]]]].
  - destruct coverOptions as [|c0 cs], uncoverOptions as [|u0 us];
      cbn [length Nat.eqb andb] in Hd.
    + subst d. simpl. tauto.
    + split; [|intros [_ H]; discriminate H]. intros Hact. exfalso. revert Hact. subst d.
      destruct (ComputerPlayer.find_length ownLeft []);
        [simpl; discriminate|].
      destruct (ComputerPlayer.find_length oppCovered (u0 :: us)); simpl; discriminate.
    + split; [|intros [H _]; discriminate H]. intros Hact. exfalso. revert Hact. subst d.
      destruct (ComputerPlayer.find_length ownLeft (c0 :: cs));
        [simpl; discriminate|].
      destruct (ComputerPlayer.find_length oppCovered []); simpl; discriminate.
    + split; [|intros [H _]; discriminate H]. intros Hact. exfalso. revert Hact. subst d.
      destruct (ComputerPlayer.find_length ownLeft (c0 :: cs));
        [simpl; discriminate|].
      destruct (ComputerPlayer.find_length oppCovered (u0 :: us)); simpl; discriminate.
  - intros [c [Hc Hlen]].
    assert (Hne : (length coverOptions =? 0)%nat = false).
    { destruct coverOptions; [destruct Hc | reflexivity]. }
    rewrite Hne in Hd. cbn [andb] in Hd.
    destruct (ComputerPlayer.find_length ownLeft coverOptions) as [combo|] eqn:Hf.
    + apply find_length_Some in Hf. subst d. simpl. tauto.
    + exfalso. rewrite find_length_None in Hf. now apply (Hf c Hc).
  - intros Hnowin [c [Hc Hlen]].
    assert (Hne : (length uncoverOptions =? 0)%nat = false).
    { destruct uncoverOptions; [destruct Hc | reflexivity]. }
    rewrite Hne, andb_false_r in Hd.
    apply find_length_None in Hnowin. rewrite Hnowin in Hd.
    destruct (ComputerPlayer.find_length oppCovered uncoverOptions) as [combo|] eqn:Hf.
    + apply find_length_Some in Hf. subst d. simpl. tauto.
    + exfalso. rewrite find_length_None in Hf. now apply (Hf c Hc).
  - intros Hnowin Hnowin'. apply find_length_None in Hnowin, Hnowin'.
    rewrite Hnowin, Hnowin' in Hd. split.
    + intros Hne. destruct coverOptions as [|c0 cs]; [congruence|].
      cbn [length Nat.eqb andb Nat.ltb Nat.leb] in Hd. subst d. simpl. tauto.
    + intros Hc Hne. rewrite Hc in Hd. destruct uncoverOptions as [|u0 us]; [congruence|].
      cbn [length Nat.eqb andb Nat.ltb Nat.leb] in Hd. subst d. simpl. tauto.
  - intros Ht options Hopt Hne. unfold earliest_longest.
    apply (pickBest_first_longest t); [now apply Hsets | exact Hne].
  - intros Ht options Hopt Hne.
    assert (Hset : option_set t options) by (apply Hsets; [destruct Ht; lia | exact Hopt]).
    split; [now apply pickBest_member|]. intros c Hc.
    destruct (pickBest_first_longest t options Hset Hne)
      as [pre [post [Heq [Hpre Hpost]]]].
    split.
    + rewrite Heq in Hc. apply in_app_or in Hc. destruct Hc as [Hc | [<- | Hc]].
      * specialize (Hpre c Hc). lia.
      * lia.
      * now apply Hpost.
    + intros Hlen. now apply (pick_keeps_highest t).
  - intros options Hne. split; [now apply pickBest_member|].
    destruct options as [|first rest]; [congruence|].
    cbn [ComputerPlayer._pickBestCombo].
    destruct (pick_fold_best rest first) as [_ [Hfirst Hrest]].
    intros c [<- | Hc]; [exact Hfirst | now apply Hrest].
Qed.

Lemma decideMove_policy_witness :
  dice_total 10 /\
  GameRound.getCoverOptions sparse_round HUMAN 10 = [[1; 2; 7]; [1; 3; 6]; [1; 9]; [3; 7]] /\
  ComputerPlayer._pickBestCombo (GameRound.getCoverOptions sparse_round HUMAN 10) = [1; 2; 7] /\
  highest [1; 3; 6] <=
  highest (ComputerPlayer._pickBestCombo (GameRound.getCoverOptions sparse_round HUMAN 10)).
Proof.
  assert (Ht : dice_total 10) by (unfold dice_total; lia).
  assert (Hin : In [1; 3; 6] (GameRound.getCoverOptions sparse_round HUMAN 10))
    by (vm_compute; tauto).
  assert (Hlen : length [1; 3; 6] =
                 length (ComputerPlayer._pickBestCombo
                           (GameRound.getCoverOptions sparse_round HUMAN 10)))
    by reflexivity.
  split; [exact Ht|]. split; [reflexivity|]. split; [reflexivity|].
  destruct (decideMove_policy sparse_round HUMAN 10) as [_ [_ [_ [_ [_ [H _]]]]]].
  destruct (H Ht (GameRound.getCoverOptions sparse_round HUMAN 10) (or_introl eq_refl))
    as [_ Hbest]; [vm_compute; discriminate|].
  exact (proj2 (Hbest [1; 3; 6] Hin) Hlen).
Defined.

(** The bound on the total matters.  No roll of one or two dice gives 14,
    and for 14 the options {1,6,7} and {2,3,9} have as many squares;
    [decideMove] keeps the earlier {1,6,7}, whose highest square is 7. *)
Example decideMove_total_14 :
  let d := ComputerPlayer.decideMove sparse_round HUMAN 14 in
  ComputerPlayer.action d = ComputerPlayer.ActCover /\
  ComputerPlayer.squares d = [1; 6; 7] /\
  ComputerPlayer.allCoverOptions d = [[1; 6; 7]; [2; 3; 9]] /\
  length [2; 3; 9] = length (ComputerPlayer.squares d) /\
  highest (ComputerPlayer.squares d) < highest [2; 3; 9].
Proof. vm_compute. repeat split; reflexivity. Qed.

(** * The advantage lock *)

(** C3, as amended.  [notifyTurnEnded(playerId)] sets the lock's [unlocked]
    flag exactly when a lock exists, is not yet unlocked and [playerId] is
    the lock's holder; it changes nothing else, and in every other case it
    changes nothing at all.  The protection therefore lasts until the holder
    has ended a turn. *)
Theorem notifyTurnEnded_unlocks_for_holder (r : GameRound.t) (playerId : PlayerId) :
  (forall l, GameRound.advantageLock r = Some l ->
             lock_unlocked l = false -> lock_playerId l = playerId ->
             GameRound.notifyTurnEnded playerId r =
             GameRound.set_advantageLock
               (Some (mkAdvantageLock (lock_playerId l) (lock_squareNumber l) true)) r) /\
  ((forall l, GameRound.advantageLock r = Some l ->
              lock_unlocked l = true \/ lock_playerId l <> playerId) ->
   GameRound.notifyTurnEnded playerId r = r).
Proof.
  unfold GameRound.notifyTurnEnded. split.
  - intros l Hl Hun Hp. rewrite Hl, Hun, Hp.
    replace (PlayerId_eqb playerId playerId) with true by (now destruct playerId).
    reflexivity.
  - intros H. destruct (GameRound.advantageLock r) as [l|]; [|reflexivity].
    destruct (H l eq_refl) as [Hun | Hp].
    + rewrite Hun, andb_false_r. reflexivity.
    + replace (PlayerId_eqb (lock_playerId l) playerId) with false; [reflexivity|].
      destruct (lock_playerId l), playerId; try reflexivity; congruence.
Qed.

Lemma notifyTurnEnded_unlocks_for_holder_witness :
  GameRound.advantageLock locked_round = Some (mkAdvantageLock HUMAN 5 false) /\
  GameRound.notifyTurnEnded HUMAN locked_round =
  GameRound.set_advantageLock (Some (mkAdvantageLock HUMAN 5 true)) locked_round.
Proof.
  split; [reflexivity|].
  apply (proj1 (notifyTurnEnded_unlocks_for_holder locked_round HUMAN)
           (mkAdvantageLock HUMAN 5 false)); reflexivity.
Defined.

(** C3 as stated fails: with HUMAN holding a locked square, the end of the
    opponent's turn leaves the lock as it is, and the end of the holder's own
    turn unlocks it. *)
Lemma notifyTurnEnded_counterexample :
  GameRound.advantageLock locked_round = Some (mkAdvantageLock HUMAN 5 false) /\
  GameRound.getOpponentId HUMAN = COMPUTER /\
  GameRound.advantageLock (GameRound.notifyTurnEnded COMPUTER locked_round) =
    Some (mkAdvantageLock HUMAN 5 false) /\
  GameRound.advantageLock (GameRound.notifyTurnEnded HUMAN locked_round) =
    Some (mkAdvantageLock HUMAN 5 true).
Proof. repeat split; reflexivity. Qed.

(** * The advantage for the next round *)

Lemma digit_sum_step (n : Z) :
  digit_sum n = if n >? 0 then n mod 10 + digit_sum (n / 10) else 0.
Proof.
  funelim (digit_sum n); destruct (Z.gtb_spec n 0); try reflexivity; lia.
Qed.

Lemma digits_loop_digit_sum (sum x : Z) : Tournament.digits_loop sum x = sum + digit_sum x.
Proof.
  funelim (Tournament.digits_loop sum x); rewrite (digit_sum_step x);
    destruct (Z.gtb_spec x 0); lia.
Qed.

Lemma digitSum_step (n : Z) :
  Tournament._digitSum n =
  if Z.abs n =? 0 then 0
  else if digit_sum (Z.abs n) >=? 10 then Tournament._digitSum (digit_sum (Z.abs n))
  else digit_sum (Z.abs n).
Proof.
  assert (Hl : Tournament.digits_loop 0 (Z.abs n) = digit_sum (Z.abs n))
    by (rewrite digits_loop_digit_sum; lia).
  rewrite <- Hl. clear Hl.
  funelim (Tournament._digitSum n);
    destruct (Z.eqb_spec (Z.abs n) 0); try lia;
    destruct (Z.geb_spec (Tournament.digits_loop 0 (Z.abs n)) 10); try reflexivity; lia.
Qed.

Lemma digit_sum_bounds (n : Z) :
  0 <= n -> 0 <= digit_sum n <= n /\ (0 < n -> 0 < digit_sum n) /\ (10 <= n -> digit_sum n < n).
Proof.
  intros Hn. remember (Z.to_nat n) as m eqn:Hm. revert n Hn Hm.
  induction m as [m IH] using lt_wf_ind. intros n Hn Hm.
  rewrite digit_sum_step. destruct (Z.gtb_spec n 0) as [Hpos | Hz]; [|lia].
  assert (Hd : 0 <= n / 10) by (apply Z.div_pos; lia).
  assert (Hlt : n / 10 < n) by (apply Z.div_lt; lia).
  destruct (IH (Z.to_nat (n / 10)) ltac:(lia) (n / 10) Hd eq_refl) as [Hr [Hp Hl]].
  pose proof (Z.mod_pos_bound n 10 ltac:(lia)) as Hmod.
  pose proof (Z.div_mod n 10 ltac:(lia)) as Hq.
  destruct (Z.eq_dec (n / 10) 0) as [Hz | Hnz].
  - rewrite Hz in *. repeat split; lia.
  - specialize (Hp ltac:(lia)). repeat split; lia.
Qed.

(** [_digitSum] sums the digits once and again until one digit is left. *)
Lemma digitSum_reduces (n : Z) :
  0 <= n ->
  exists k, (1 <= k)%nat /\
            Tournament._digitSum n = Nat.iter k digit_sum n /\
            0 <= Tournament._digitSum n < 10 /\
            forall j, (1 <= j < k)%nat -> 10 <= Nat.iter j digit_sum n.
Proof.
  intros Hn. remember (Z.to_nat n) as m eqn:Hm. revert n Hn Hm.
  induction m as [m IH] using lt_wf_ind. intros n Hn Hm.
  rewrite digitSum_step, Z.abs_eq by exact Hn.
  destruct (digit_sum_bounds n Hn) as [Hr [Hpos Hlt]].
  destruct (Z.eqb_spec n 0) as [-> | Hnz].
  - exists 1%nat. repeat split; try reflexivity; lia.
  - destruct (Z.geb_spec (digit_sum n) 10) as [Hbig | Hsmall].
    + assert (Hn10 : 10 <= n) by lia. specialize (Hlt Hn10).
      destruct (IH (Z.to_nat (digit_sum n)) ltac:(lia) (digit_sum n) ltac:(lia) eq_refl)
        as [k [Hk [Heq [Hd Hall]]]].
      exists (S k). split; [lia|]. split; [|split; [exact Hd|]].
      * rewrite Heq. now rewrite Nat.iter_succ_r.
      * intros j Hj. destruct j as [|j]; [lia|]. rewrite Nat.iter_succ_r.
        destruct j as [|j].
        -- simpl. lia.
        -- apply Hall. lia.
    + exists 1%nat. split; [lia|]. split; [reflexivity|]. split; [lia|].
      intros j Hj. lia.
Qed.

Lemma digitSum_positive (n : Z) : 0 < n -> 1 <= Tournament._digitSum n <= 9.
Proof.
  intros Hn. remember (Z.to_nat n) as m eqn:Hm. revert n Hn Hm.
  induction m as [m IH] using lt_wf_ind. intros n Hn Hm.
  rewrite digitSum_step, Z.abs_eq by lia.
  destruct (digit_sum_bounds n ltac:(lia)) as [Hr [Hpos Hlt]]. specialize (Hpos Hn).
  destruct (Z.eqb_spec n 0); [lia|].
  destruct (Z.geb_spec (digit_sum n) 10) as [Hbig | Hsmall]; [|lia].
  apply (IH (Z.to_nat (digit_sum n))); try lia.
Qed.

Lemma PlayerId_eqb_eq (a b : PlayerId) : PlayerId_eqb a b = true <-> a = b.
Proof. destruct a, b; simpl; split; intros; congruence. Qed.

(** * Covering and uncovering several squares *)

Lemma array_set_length {A} (arr : list A) (i : nat) (v : A) :
  length (array_set arr i v) = length arr.
Proof.
  revert i. induction arr as [|x arr IH]; intros [|i]; simpl; try reflexivity.
  now rewrite IH.
Qed.

Lemma array_set_same {A} (arr : list A) (i : nat) (v d : A) :
  (i < length arr)%nat -> nth i (array_set arr i v) d = v.
Proof.
  revert i. induction arr as [|x arr IH]; intros [|i] H; simpl in *; try lia; try reflexivity.
  apply IH. lia.
Qed.

Lemma array_set_other {A} (arr : list A) (i j : nat) (v d : A) :
  i <> j -> nth j (array_set arr i v) d = nth j arr d.
Proof.
  revert i j. induction arr as [|x arr IH]; intros [|i] [|j] H; simpl; try reflexivity; try lia.
  apply IH. lia.
Qed.

Lemma set_covered_ok (num : Z) (v : bool) (b : Board.t) :
  board_ok b -> board_ok (Board.set_covered num v b).
Proof. unfold board_ok. simpl. now rewrite array_set_length. Qed.

Lemma set_covered_size (num : Z) (v : bool) (b : Board.t) :
  Board.size (Board.set_covered num v b) = Board.size b.
Proof. reflexivity. Qed.

Lemma covered_at_set_same (num : Z) (v : bool) (b : Board.t) :
  board_ok b -> 1 <= num <= Board.size b ->
  Board.covered_at (Board.set_covered num v b) num = v.
Proof.
  intros Hok Hr. unfold Board.covered_at, Board.set_covered. simpl.
  apply array_set_same. rewrite Hok. lia.
Qed.

Lemma covered_at_set_other (num x : Z) (v : bool) (b : Board.t) :
  1 <= num -> 1 <= x -> num <> x ->
  Board.covered_at (Board.set_covered num v b) x = Board.covered_at b x.
Proof.
  intros Hn Hx Hne. unfold Board.covered_at, Board.set_covered. simpl.
  apply array_set_other. lia.
Qed.

Lemma markSquares_forEach (v : bool) (nums : list Z) :
  markSquares v nums = forEach (mark v) nums.
Proof. now destruct v. Qed.

Lemma mark_accepts (v : bool) (b : Board.t) (x : Z) :
  markable v b x -> mark v x b = (Board.set_covered x v b, Ok tt).
Proof.
  intros [Hr Hc]. destruct v; simpl in Hc;
    unfold mark, Board.cover, Board.uncover, bind, Board._validateSquareNumber, get, modify, throw;
    replace (x <? 1) with false by (symmetry; apply Z.ltb_ge; lia);
    replace (x >? Board.size b) with false by (symmetry; rewrite Z.gtb_ltb; apply Z.ltb_ge; lia);
    cbn [orb]; rewrite Hc; reflexivity.
Qed.

Lemma mark_rejects (v : bool) (b : Board.t) (x : Z) :
  ~ markable v b x -> exists msg, mark v x b = (b, Throw msg).
Proof.
  intros Hno. unfold markable in Hno.
  destruct v;
    unfold mark, Board.cover, Board.uncover, bind, Board._validateSquareNumber, get, modify, throw;
    destruct (Z.ltb_spec x 1); cbn [orb]; eauto;
    destruct (Z.gtb_spec x (Board.size b)); eauto;
    destruct (Board.covered_at b x) eqn:Hc; cbn [negb]; eauto;
    exfalso; apply Hno; (split; [lia | reflexivity]).
Qed.

Lemma mark_all_size (v : bool) (nums : list Z) (b : Board.t) :
  Board.size (mark_all v nums b) = Board.size b.
Proof.
  revert b. induction nums as [|n nums IH]; intros b; [reflexivity|].
  unfold mark_all in *. simpl. now rewrite IH.
Qed.

Lemma mark_all_ok (v : bool) (nums : list Z) (b : Board.t) :
  board_ok b -> board_ok (mark_all v nums b).
Proof.
  revert b. induction nums as [|n nums IH]; intros b Hok; [exact Hok|].
  unfold mark_all in *. simpl. apply IH. now apply set_covered_ok.
Qed.

(** After marking [nums], a square is in state [v] if it is one of [nums]
    and as before otherwise. *)
Lemma mark_all_covered_at (v : bool) (nums : list Z) (b : Board.t) (x : Z) :
  board_ok b -> (forall n, In n nums -> 1 <= n <= Board.size b) -> 1 <= x ->
  Board.covered_at (mark_all v nums b) x =
  if includes nums x then v else Board.covered_at b x.
Proof.
  revert b. induction nums as [|n nums IH]; intros b Hok Hr Hx; [reflexivity|].
  unfold mark_all in *. cbn [fold_left]. rewrite IH.
  - unfold includes. cbn [existsb]. fold (includes nums x).
    destruct (includes nums x); [now rewrite orb_true_r|]. rewrite orb_false_r.
    destruct (Z.eqb_spec x n) as [-> | Hne].
    + apply covered_at_set_same; [exact Hok | apply Hr; now left].
    + apply covered_at_set_other; try lia. specialize (Hr n (or_introl eq_refl)). lia.
  - now apply set_covered_ok.
  - intros m Hm. rewrite set_covered_size. apply Hr. now right.
  - exact Hx.
Qed.

(** A list of distinct markable squares is marked as a whole. *)
Lemma markSquares_legal (v : bool) (nums : list Z) (b : Board.t) :
  board_ok b -> NoDup nums -> (forall x, In x nums -> markable v b x) ->
  markSquares v nums b = (mark_all v nums b, Ok tt).
Proof.
  rewrite markSquares_forEach. revert b.
  induction nums as [|n nums IH]; intros b Hok Hnd Hall; [reflexivity|].
  inversion Hnd as [|? ? Hn Hnd']; subst.
  cbn [forEach]. unfold bind. rewrite mark_accepts by (apply Hall; now left).
  unfold mark_all. cbn [fold_left]. apply IH.
  - now apply set_covered_ok.
  - exact Hnd'.
  - intros x Hx. destruct (Hall x (or_intror Hx)) as [Hr Hc]. split; [exact Hr|].
    rewrite covered_at_set_other; try lia.
    + exact Hc.
    + destruct (Hall n (or_introl eq_refl)). lia.
    + intros ->. contradiction.
Qed.

(** The walk stops at the first square that cannot be marked, and the
    squares before it stay marked. *)
Lemma markSquares_stops (v : bool) (good : list Z) (bad : Z) (rest : list Z) (b : Board.t) :
  board_ok b -> NoDup good -> (forall x, In x good -> markable v b x) ->
  ~ markable v (mark_all v good b) bad ->
  exists msg, markSquares v (good ++ bad :: rest) b = (mark_all v good b, Throw msg).
Proof.
  rewrite markSquares_forEach. revert b.
  induction good as [|n good IH]; intros b Hok Hnd Hall Hbad.
  - cbn [app forEach]. unfold bind. destruct (mark_rejects v b bad Hbad) as [msg Hm].
    exists msg. rewrite Hm. reflexivity.
  - inversion Hnd as [|? ? Hn Hnd']; subst.
    cbn [app forEach]. unfold bind. rewrite mark_accepts by (apply Hall; now left).
    apply IH.
    + now apply set_covered_ok.
    + exact Hnd'.
    + intros x Hx. destruct (Hall x (or_intror Hx)) as [Hr Hc]. split; [exact Hr|].
      rewrite covered_at_set_other; try lia.
      * exact Hc.
      * destruct (Hall n (or_introl eq_refl)). lia.
      * intros ->. contradiction.
    + exact Hbad.
Qed.

(** * Applying a selected move *)

Lemma loop_no_room (cands : list Z) (path : list Z) :
  Forall (Z.lt 0) cands -> loop cands 0 path = [].
Proof.
  intros Hpos. destruct cands as [|n rest]; [reflexivity|].
  rewrite loop_cons. inversion Hpos; subst.
  now replace (n >? 0) with true by (symmetry; rewrite Z.gtb_ltb; apply Z.ltb_lt; lia).
Qed.

(** Whatever the target, the search only returns ascending combinations of
    candidates with the target as their sum. *)
Lemma combos_members (cands : list Z) (t : Z) (c : list Z) :
  ascending cands -> Forall (Z.lt 0) cands ->
  In c (Board._getCombosForSum cands t) ->
  ascending c /\ incl c cands /\ sum_list c = t.
Proof.
  intros Hasc Hpos Hin. destruct (Z.lt_trichotomy t 0) as [Hneg | [Hz | Hp]].
  - exfalso. unfold Board._getCombosForSum in Hin. rewrite backtrack_unfold in Hin.
    replace (t =? 0) with false in Hin by (symmetry; apply Z.eqb_neq; lia).
    replace (t <? 0) with true in Hin by (symmetry; apply Z.ltb_lt; lia).
    exact Hin.
  - exfalso. subst t. unfold Board._getCombosForSum in Hin.
    rewrite backtrack_unfold in Hin. cbn in Hin.
    rewrite sort_asc_ascending, loop_no_room in Hin by assumption. exact Hin.
  - rewrite search_spec in Hin by assumption.
    apply filter_In in Hin. destruct Hin as [Hin Hfit].
    unfold fits in Hfit. apply andb_true_iff in Hfit. destruct Hfit as [Hs _].
    apply Z.eqb_eq in Hs. apply dfs_In_iff in Hin; [|exact Hasc]. tauto.
Qed.

Lemma insert_asc_perm (x : Z) (l : list Z) : Permutation (insert_asc x l) (x :: l).
Proof.
  induction l as [|y l IH]; simpl; [reflexivity|].
  destruct (x <? y); [reflexivity|].
  rewrite IH. apply perm_swap.
Qed.

Lemma sort_asc_perm (l : list Z) : Permutation (sort_asc l) l.
Proof.
  unfold sort_asc. rewrite <- (app_nil_l l) at 2.
  generalize (@nil Z) as acc. induction l as [|x l IH]; intros acc; simpl.
  - now rewrite app_nil_r.
  - rewrite IH. rewrite insert_asc_perm. apply Permutation_middle.
Qed.

Lemma same_numbers_eq (a b : list Z) : GameSession.same_numbers a b = true -> a = b.
Proof.
  revert b. induction a as [|x a IH]; intros [|y b] H; simpl in H; try discriminate;
    [reflexivity|].
  apply andb_true_iff in H. destruct H as [Hxy Hab]. apply Z.eqb_eq in Hxy.
  f_equal; [exact Hxy | now apply IH].
Qed.

Lemma ascending_NoDup (l : list Z) : ascending l -> NoDup l.
Proof.
  induction 1 as [|a l Hs IH Hall]; constructor; [|exact IH].
  now apply ascending_not_In.
Qed.

(** A selection that matches an ascending option has the option's squares,
    each once. *)
Lemma option_exists_perm (options : list (list Z)) (squares : list Z) :
  (forall c, In c options -> ascending c) ->
  GameSession.option_exists options squares = true ->
  exists combo, In combo options /\ Permutation squares combo.
Proof.
  intros Hasc Hex. unfold GameSession.option_exists in Hex.
  apply existsb_exists in Hex. destruct Hex as [combo [Hin Hsame]].
  apply same_numbers_eq in Hsame. exists combo. split; [exact Hin|].
  rewrite (sort_asc_ascending combo (Hasc combo Hin)) in Hsame.
  rewrite Hsame. symmetry. apply sort_asc_perm.
Qed.

Lemma selection_markable (v : bool) (b : Board.t) (cands : list Z) (t : Z)
    (options : list (list Z)) (squares : list Z) :
  ascending cands -> Forall (Z.lt 0) cands ->
  (forall x, In x cands -> markable v b x) ->
  incl options (Board._getCombosForSum cands t) ->
  GameSession.option_exists options squares = true ->
  NoDup squares /\ forall x, In x squares -> markable v b x.
Proof.
  intros Hasc Hpos Hmark Hincl Hex.
  destruct (option_exists_perm options squares) as [combo [Hin Hperm]]; [|exact Hex|].
  { intros c Hc. apply (combos_members cands t c Hasc Hpos). now apply Hincl. }
  destruct (combos_members cands t combo Hasc Hpos (Hincl combo Hin)) as [Hc [Hsub _]].
  split.
  - apply (Permutation_NoDup (l := combo)); [now symmetry | now apply ascending_NoDup].
  - intros x Hx. apply Hmark, Hsub. now apply (Permutation_in (l := squares)).
Qed.

Lemma checkForRoundEnd_boards (r : GameRound.t) (p : PlayerId) :
  board (GameRound.getPlayerById (GameRound._checkForRoundEnd r) p) =
  board (GameRound.getPlayerById r p).
Proof.
  unfold GameRound._checkForRoundEnd.
  destruct (GameRound.round_end_verdict r) as [[w wt]|]; [|reflexivity].
  destruct w, p; reflexivity.
Qed.

(** Running a method on a legal selection for board [target]. *)
Lemma on_board_markSquares (v : bool) (target : PlayerId) (squares : list Z) (r : GameRound.t) :
  round_ok r -> NoDup squares ->
  (forall x, In x squares -> markable v (board (GameRound.getPlayerById r target)) x) ->
  GameRound.on_board target (markSquares v squares) r =
  (GameRound.set_player target
     (with_board (GameRound.getPlayerById r target)
        (mark_all v squares (board (GameRound.getPlayerById r target)))) r, Ok tt).
Proof.
  intros [Hh Hc] Hnd Hall. unfold GameRound.on_board.
  rewrite markSquares_legal; [reflexivity | | exact Hnd | exact Hall].
  destruct target; assumption.
Qed.

Lemma currentRound_store_round (r : GameRound.t) (s : GameSession.t) :
  GameSession.currentRound (GameSession.store_round r s) = Some r.
Proof. reflexivity. Qed.

Lemma currentRound_pushHistory (label : string) (la : option GameSession.LastAction)
    (s : GameSession.t) :
  GameSession.currentRound (GameSession._pushHistory label la s) = GameSession.currentRound s.
Proof.
  unfold GameSession._pushHistory. now destruct (GameSession._captureSnapshot s la).
Qed.

Lemma getUncoverOptions_incl (r : GameRound.t) (p : PlayerId) (t : Z) :
  incl (GameRound.getUncoverOptions r p t)
       (Board._getCombosForSum (Board.getCoveredNumbers (board (GameRound.getOpponent r p))) t).
Proof.
  unfold GameRound.getUncoverOptions, Board.getUncoverCombos.
  destruct (GameRound.advantageLock r) as [l|]; [|apply incl_refl].
  destruct (negb (lock_unlocked l) && negb (PlayerId_eqb p (lock_playerId l)));
    [|apply incl_refl].
  intros c Hc. apply filter_In in Hc. tauto.
Qed.

(** A selection the session accepts can be marked as a whole on its target. *)
Lemma accepted_selection_markable (mt : GameSession.MoveType) (r : GameRound.t)
    (p : PlayerId) (t : Z) (squares : list Z) :
  GameSession.option_exists
    (match mt with
     | GameSession.MoveCover => GameRound.getCoverOptions r p t
     | GameSession.MoveUncover => GameRound.getUncoverOptions r p t
     end) squares = true ->
  NoDup squares /\
  forall x, In x squares ->
            markable (move_state mt) (board (GameRound.getPlayerById r (move_target mt p))) x.
Proof.
  destruct mt; cbn [move_state move_target]; intros Hex.
  - apply (selection_markable true _
             (Board.getUncoveredNumbers (board (GameRound.getPlayerById r p))) t
             (GameRound.getCoverOptions r p t) squares);
      [apply getUncoveredNumbers_ascending | apply getUncoveredNumbers_positive | |
       apply incl_refl | exact Hex].
    intros x Hx. apply getUncoveredNumbers_In in Hx. exact Hx.
  - apply (selection_markable false _
             (Board.getCoveredNumbers (board (GameRound.getOpponent r p))) t
             (GameRound.getUncoverOptions r p t) squares);
      [apply getCoveredNumbers_ascending | apply getCoveredNumbers_positive | |
       apply getUncoverOptions_incl | exact Hex].
    intros x Hx. apply getCoveredNumbers_In in Hx. exact Hx.
Qed.

(** What the round's move methods do with a selection that can be marked. *)
Lemma apply_move_marks (mt : GameSession.MoveType) (p : PlayerId) (squares : list Z)
    (r : GameRound.t) :
  round_ok r -> NoDup squares ->
  (forall x, In x squares ->
             markable (move_state mt) (board (GameRound.getPlayerById r (move_target mt p))) x) ->
  exists r',
    (match mt with
     | GameSession.MoveCover => GameRound.applyCoverMove p squares
     | GameSession.MoveUncover => GameRound.applyUncoverMove p squares
     end) r = (r', Ok tt) /\
    board (GameRound.getPlayerById r' (move_target mt p)) =
      mark_all (move_state mt) squares (board (GameRound.getPlayerById r (move_target mt p))) /\
    board (GameRound.getPlayerById r' (GameRound.getOpponentId (move_target mt p))) =
      board (GameRound.getPlayerById r (GameRound.getOpponentId (move_target mt p))).
Proof.
  intros Hok Hnd Hall.
  pose proof (on_board_markSquares (move_state mt) (move_target mt p) squares r Hok Hnd Hall)
    as Hon.
  destruct mt; cbn [move_state move_target markSquares] in *;
    unfold GameRound.applyCoverMove, GameRound.applyUncoverMove, bind, modify;
    rewrite Hon; eexists; (split; [reflexivity|]);
    rewrite !checkForRoundEnd_boards; destruct p; split; reflexivity.
Qed.

(** The session's move operation is all or nothing: it answers with an error
    and leaves the session as it was, or it marks every selected square on
    the target board and leaves the other board as it was. *)
Lemma applyHumanMove_all_or_nothing (mt : GameSession.MoveType) (squares : list Z)
    (s s' : GameSession.t) (c : completion GameSession.Reply) :
  (forall r, GameSession.currentRound s = Some r -> round_ok r) ->
  GameSession.applyHumanMove mt squares s = (s', c) ->
  (exists msg, c = Ok (GameSession.Error msg) /\ s' = s) \/
  (exists r r' over,
     GameSession.currentRound s = Some r /\ GameSession.currentRound s' = Some r' /\
     c = Ok (GameSession.Done over false false) /\
     let target := move_target mt (GameSession.currentPlayerId s) in
     board (GameRound.getPlayerById r' target) =
       mark_all (move_state mt) squares (board (GameRound.getPlayerById r target)) /\
     board (GameRound.getPlayerById r' (GameRound.getOpponentId target)) =
       board (GameRound.getPlayerById r (GameRound.getOpponentId target))).
Proof.
  intros Hok. unfold GameSession.applyHumanMove.
  destruct (GameSession.currentRound s) as [round|] eqn:Hround;
    [|intros H; injection H as <- <-; left; eauto].
  destruct (negb (GameSession.Phase_eqb (GameSession.phase s) GameSession.awaitingMove));
    [intros H; injection H as <- <-; left; eauto|].
  destruct (GameSession.sum_is_set (GameSession.currentDice s)) as [sum|];
    [|intros H; injection H as <- <-; left; eauto].
  match goal with |- context [GameSession.option_exists ?o squares] =>
    destruct (GameSession.option_exists o squares) eqn:Hex end;
    cbn [negb]; [|intros H; injection H as <- <-; left; eauto].
  destruct (accepted_selection_markable mt round (GameSession.currentPlayerId s) sum squares)
    as [Hnd Hall].
  { destruct mt; exact Hex. }
  destruct (apply_move_marks mt (GameSession.currentPlayerId s) squares round
              (Hok round eq_refl) Hnd Hall) as [r' [Happly [Htarget Hother]]].
  unfold GameSession.on_round.
  replace (match mt with
           | GameSession.MoveCover =>
               GameRound.applyCoverMove (GameSession.currentPlayerId s) squares
           | GameSession.MoveUncover =>
               GameRound.applyUncoverMove (GameSession.currentPlayerId s) squares
           end round) with (r', @Ok unit tt) by (destruct mt; now rewrite <- Happly).
  rewrite currentRound_pushHistory, currentRound_store_round.
  intros H. right. exists round, r'.
  destruct (GameRound.roundOver r'); injection H as <- <-; eexists;
    (split; [reflexivity|]); (split; [|split; [reflexivity|split; assumption]]).
  - unfold GameSession.update_advantage.
    match goal with |- context [GameSession.tournament ?x] =>
      destruct (GameSession.tournament x) end; cbn;
      now rewrite currentRound_pushHistory.
  - cbn. now rewrite currentRound_pushHistory.
Qed.

Example session_start_round : GameSession.currentRound session_start = Some start_round.
Proof. reflexivity. Qed.

Example session_rolled_phase :
  GameSession.phase session_rolled = GameSession.awaitingMove /\
  GameSession.currentRound session_rolled = Some start_round.
Proof. split; reflexivity. Qed.

(** C7, as amended.  The session's move operation is all or nothing: it
    answers with an error and leaves the whole session as it was, or it marks
    every selected square on the target board and leaves the other board as
    it was.  [Board.coverSquares] and [Board.uncoverSquares] themselves walk
    the list from the left and throw at the first square that is out of range
    or already in the requested state; the squares before it stay marked. *)
Theorem move_application_all_or_nothing :
  (forall (mt : GameSession.MoveType) (squares : list Z) (s s' : GameSession.t)
          (c : completion GameSession.Reply),
     (forall r, GameSession.currentRound s = Some r -> round_ok r) ->
     GameSession.applyHumanMove mt squares s = (s', c) ->
     (exists msg, c = Ok (GameSession.Error msg) /\ s' = s) \/
     (exists r r' over,
        GameSession.currentRound s = Some r /\ GameSession.currentRound s' = Some r' /\
        c = Ok (GameSession.Done over false false) /\
        let target := move_target mt (GameSession.currentPlayerId s) in
        board (GameRound.getPlayerById r' target) =
          mark_all (move_state mt) squares (board (GameRound.getPlayerById r target)) /\
        board (GameRound.getPlayerById r' (GameRound.getOpponentId target)) =
          board (GameRound.getPlayerById r (GameRound.getOpponentId target)))) /\
  (forall (v : bool) (good : list Z) (bad : Z) (rest : list Z) (b : Board.t),
     board_ok b -> NoDup good -> (forall x, In x good -> markable v b x) ->
     ~ markable v (mark_all v good b) bad ->
     exists msg,
       (if v then Board.coverSquares (good ++ bad :: rest) b
        else Board.uncoverSquares (good ++ bad :: rest) b) =
       (mark_all v good b, Throw msg)).
Proof.
  split.
  - intros mt squares s s' c. apply applyHumanMove_all_or_nothing.
  - intros v good bad rest b Hok Hnd Hall Hbad.
    destruct (markSquares_stops v good bad rest b Hok Hnd Hall Hbad) as [msg Hm].
    exists msg. rewrite <- Hm. now destruct v.
Qed.

Lemma move_application_all_or_nothing_witness :
  (forall r, GameSession.currentRound session_rolled = Some r -> round_ok r) /\
  (exists msg,
     GameSession.applyHumanMove GameSession.MoveCover [1; 12] session_rolled =
     (session_rolled, Ok (GameSession.Error msg))) /\
  (exists s' over,
     GameSession.applyHumanMove GameSession.MoveCover [6; 1] session_rolled =
     (s', Ok (GameSession.Done over false false)) /\
     exists r', GameSession.currentRound s' = Some r' /\
                board (GameRound.human r') = mark_all true [6; 1] fresh9).
Proof.
  assert (Hok : forall r, GameSession.currentRound session_rolled = Some r -> round_ok r).
  { intros r H. injection H as <-. split; reflexivity. }
  split; [exact Hok|]. split.
  - destruct (proj1 move_application_all_or_nothing GameSession.MoveCover [1; 12]
                session_rolled
                (fst (GameSession.applyHumanMove GameSession.MoveCover [1; 12] session_rolled))
                (snd (GameSession.applyHumanMove GameSession.MoveCover [1; 12] session_rolled))
                Hok (surjective_pairing _))
      as [[msg [Hc Hs]] | [r [r' [over [_ [_ [Hc _]]]]]]].
    + exists msg. rewrite (surjective_pairing (GameSession.applyHumanMove _ _ _)).
      now rewrite Hc, Hs.
    + exfalso. vm_compute in Hc. discriminate Hc.
  - destruct (proj1 move_application_all_or_nothing GameSession.MoveCover [6; 1]
                session_rolled
                (fst (GameSession.applyHumanMove GameSession.MoveCover [6; 1] session_rolled))
                (snd (GameSession.applyHumanMove GameSession.MoveCover [6; 1] session_rolled))
                Hok (surjective_pairing _))
      as [[msg [Hc Hs]] | [r [r' [over [Hr [Hr' [Hc [Ht _]]]]]]]].
    + exfalso. vm_compute in Hc. discriminate Hc.
    + eexists. exists over. split.
      * rewrite (surjective_pairing (GameSession.applyHumanMove _ _ _)). now rewrite Hc.
      * exists r'. split; [exact Hr'|]. injection Hr as <-. exact Ht.
Defined.

(** C7 as stated fails: covering squares 1 and 12 on a fresh board of size 9
    throws at 12 and leaves square 1 covered, and so does covering 1 and 2 on
    a board whose square 2 is already covered. *)
Lemma cover_not_atomic_counterexample :
  Board.covered_at (board (GameRound.human start_round)) 1 = false /\
  (exists msg,
     snd (GameRound.applyCoverMove HUMAN [1; 12] start_round) = Throw msg) /\
  Board.covered_at
    (board (GameRound.human (fst (GameRound.applyCoverMove HUMAN [1; 12] start_round)))) 1
    = true /\
  Board.covered_at (Board.set_covered 2 true fresh9) 1 = false /\
  (exists msg,
     snd (Board.coverSquares [1; 2] (Board.set_covered 2 true fresh9)) = Throw msg) /\
  Board.covered_at
    (fst (Board.coverSquares [1; 2] (Board.set_covered 2 true fresh9))) 1 = true.
Proof.
  split; [reflexivity|]. split; [eexists; reflexivity|]. split; [reflexivity|].
  split; [reflexivity|]. split; [eexists; reflexivity|]. reflexivity.
Qed.

(** * The round-end check *)

Lemma Board_new_blank (size : Z) : 1 <= size -> Board.new size = Ok (blank size).
Proof.
  intros H. unfold Board.new.
  now replace (size <? 1) with false by (symmetry; apply Z.ltb_ge; lia).
Qed.

Lemma blank_ok (size : Z) : board_ok (blank size).
Proof. unfold board_ok, blank. simpl. apply repeat_length. Qed.

Lemma blank_covered_at (size x : Z) : Board.covered_at (blank size) x = false.
Proof. unfold Board.covered_at, blank. simpl. apply nth_repeat. Qed.

Lemma start_board_not_all_covered (size : Z) (b : Board.t) :
  2 <= size -> start_board size b -> Board.areAllCovered b = false.
Proof.
  intros Hsize Hb. unfold Board.areAllCovered.
  assert (Hex : exists x, In x (Board.getUncoveredNumbers b)).
  { destruct Hb as [-> | [sq [Hsq ->]]].
    - exists 1. apply getUncoveredNumbers_In. simpl. split; [lia | apply blank_covered_at].
    - exists (if sq =? 1 then 2 else 1). apply getUncoveredNumbers_In.
      rewrite set_covered_size. simpl.
      destruct (Z.eqb_spec sq 1); (split; [lia|]);
        (rewrite covered_at_set_other by lia); apply blank_covered_at. }
  destruct Hex as [x Hx]. destruct (Board.getUncoveredNumbers b); [destruct Hx | reflexivity].
Qed.

Lemma start_board_all_uncovered (size : Z) : Board.areAllUncovered (blank size) = true.
Proof.
  unfold Board.areAllUncovered, Board.getCoveredNumbers.
  rewrite filter_none; [reflexivity|]. intros x _. apply blank_covered_at.
Qed.

Lemma new_round_shape (size : Z) (hp cp : Player) (first : PlayerId)
    (adv : option AdvantageInfo) (r : GameRound.t) :
  GameRound.new size hp cp first adv = Ok r ->
  1 <= size /\
  start_board size (board (GameRound.human r)) /\
  start_board size (board (GameRound.computer r)) /\
  id (GameRound.human r) = id hp /\ id (GameRound.computer r) = id cp /\
  GameRound.humanEverCovered r =
    (0 <? length (Board.getCoveredNumbers (board (GameRound.human r))))%nat /\
  GameRound.computerEverCovered r =
    (0 <? length (Board.getCoveredNumbers (board (GameRound.computer r))))%nat /\
  (adv = None -> board (GameRound.human r) = blank size /\
                 board (GameRound.computer r) = blank size).
Proof.
  unfold GameRound.new. destruct (Z.ltb_spec size 1) as [|Hsize]; [discriminate|].
  rewrite Board_new_blank by exact Hsize.
  unfold GameRound._applyAdvantageIfAny. cbn [GameRound.advantageInfo].
  destruct adv as [info|].
  - cbn [GameRound.boardSize].
    destruct (Z.ltb_spec (ai_digitSum info) 1) as [Hlow | Hlow]; cbn [orb].
    { intros H. injection H as <-. cbn. repeat split; try reflexivity; try lia;
        try (left; reflexivity); try discriminate. }
    destruct (Z.gtb_spec (ai_digitSum info) size) as [Hhigh | Hhigh].
    { intros H. injection H as <-. cbn. repeat split; try reflexivity; try lia;
        try (left; reflexivity); try discriminate. }
    unfold bind, modify, GameRound.on_board.
    assert (Hcov : Board.coverSquares [ai_digitSum info] (blank size) =
                   (Board.set_covered (ai_digitSum info) true (blank size), Ok tt)).
    { apply (markSquares_legal true [ai_digitSum info] (blank size)).
      - apply blank_ok.
      - repeat constructor. intros [].
      - intros x [<- | []]. split; [simpl; lia | apply blank_covered_at]. }
    destruct (ai_playerId info); cbn [GameRound.getPlayerById GameRound.human GameRound.computer
                                      board with_board];
      rewrite Hcov; intros H; injection H as <-; cbn;
      (repeat split; try reflexivity; try lia; try (left; reflexivity);
       try (right; exists (ai_digitSum info); split; [lia | reflexivity]); try discriminate).
  - intros H. injection H as <-. cbn. repeat split; try reflexivity; try lia;
      try (left; reflexivity).
Qed.

Lemma never_zero_and_positive (n : nat) : ((n =? 0) && (0 <? n))%nat = false.
Proof. now destruct n. Qed.

(** C2, as amended.  A round that has just been constructed (board size at
    least 2) has no winner according to the round-end check, although a board
    without advantage square is fully uncovered: a fully uncovered board
    counts as an uncover win only once its owner has had a square covered in
    the round.  In general the check of the web round declares no winner
    exactly when no board is fully covered and no board whose owner has had a
    square covered is fully uncovered; it does not look at completed turns.
    The backend's [isGameOver] answers [null] while either player's
    [hasFirstTurnBeenPlayed] flag is unset. *)
Theorem round_end_check :
  (forall (size : Z) (hp cp : Player) (first : PlayerId) (adv : option AdvantageInfo)
          (r : GameRound.t),
     2 <= size -> id hp = HUMAN -> id cp = COMPUTER ->
     GameRound.new size hp cp first adv = Ok r ->
     GameRound.round_end_verdict r = None /\ GameRound._checkForRoundEnd r = r /\
     GameRound.roundOver r = false /\
     (adv = None -> Board.areAllUncovered (board (GameRound.human r)) = true /\
                    Board.areAllUncovered (board (GameRound.computer r)) = true)) /\
  (forall r : GameRound.t,
     id (GameRound.human r) = HUMAN -> id (GameRound.computer r) = COMPUTER ->
     (GameRound.round_end_verdict r = None <->
      Board.areAllCovered (board (GameRound.human r)) = false /\
      Board.areAllCovered (board (GameRound.computer r)) = false /\
      (Board.areAllUncovered (board (GameRound.computer r)) = true ->
       GameRound.computerEverCovered r = false) /\
      (Board.areAllUncovered (board (GameRound.human r)) = true ->
       GameRound.humanEverCovered r = false))) /\
  (forall g : Backend.Game,
     Backend.hasFirstTurnBeenPlayed (Backend.p1 g) = false \/
     Backend.hasFirstTurnBeenPlayed (Backend.p2 g) = false ->
     Backend.isGameOver g = (g, None)).
Proof.
  split; [|split].
  - intros size hp cp first adv r Hsize Hh Hc Hnew.
    assert (Hover : GameRound.roundOver r = false).
    { revert Hnew. unfold GameRound.new. destruct (size <? 1); [discriminate|].
      destruct (Board.new size); [|discriminate].
      destruct (GameRound._applyAdvantageIfAny _) as [r1 [u|msg]]; [|discriminate].
      intros H. injection H as <-. reflexivity. }
    destruct (new_round_shape size hp cp first adv r Hnew)
      as [_ [Hbh [Hbc [Hidh [Hidc [Hfh [Hfc Hblank]]]]]]].
    assert (Hv : GameRound.round_end_verdict r = None).
    { unfold GameRound.round_end_verdict, GameRound._hadAnyCovered.
      rewrite (start_board_not_all_covered size _ Hsize Hbh).
      rewrite (start_board_not_all_covered size _ Hsize Hbc).
      rewrite Hidh, Hidc, Hh, Hc, Hfh, Hfc.
      now rewrite !never_zero_and_positive. }
    split; [exact Hv|]. split; [|split; [exact Hover|]].
    + unfold GameRound._checkForRoundEnd. now rewrite Hv.
    + intros Hadv. destruct (Hblank Hadv) as [-> ->].
      split; apply start_board_all_uncovered.
  - intros r Hh Hc. unfold GameRound.round_end_verdict, GameRound._hadAnyCovered.
    rewrite Hh, Hc. unfold Board.areAllUncovered.
    destruct (Board.areAllCovered (board (GameRound.human r)));
      [split; [discriminate | intros [H _]; discriminate H]|].
    destruct (Board.areAllCovered (board (GameRound.computer r)));
      [split; [discriminate | intros [_ [H _]]; discriminate H]|].
    destruct (length (Board.getCoveredNumbers (board (GameRound.computer r))) =? 0)%nat,
             (GameRound.computerEverCovered r),
             (length (Board.getCoveredNumbers (board (GameRound.human r))) =? 0)%nat,
             (GameRound.humanEverCovered r); cbn [andb];
      (split; [try discriminate; intros _; repeat split; try reflexivity; auto
              | try reflexivity; intros [_ [_ [H1 H2]]];
                try (specialize (H1 eq_refl); discriminate H1);
                try (specialize (H2 eq_refl); discriminate H2)]).
  - intros g H. unfold Backend.isGameOver.
    destruct H as [H | H]; rewrite H; cbn [negb orb]; [reflexivity|].
    now rewrite orb_true_r.
Qed.

Lemma round_end_check_witness :
  2 <= 9 /\
  GameRound.new 9 (Player_new HUMAN "Human") (Player_new COMPUTER "Computer") HUMAN None =
    Ok start_round /\
  Board.areAllUncovered (board (GameRound.human start_round)) = true /\
  GameRound._checkForRoundEnd start_round = start_round.
Proof.
  split; [lia|]. split; [reflexivity|]. split; [reflexivity|].
  exact (proj1 (proj2 (proj1 round_end_check 9 (Player_new HUMAN "Human")
                         (Player_new COMPUTER "Computer") HUMAN None start_round
                         ltac:(lia) eq_refl eq_refl eq_refl))).
Defined.

(** C2 as stated fails: in the round that starts with HUMAN, HUMAN rolls and
    covers four times in a row; no player has ended a turn, and the round is
    over with HUMAN as the winner by cover and 45 points. *)
Lemma round_end_before_opponent_played :
  exists s r,
    run first_turn_win session_start (0%nat, 0%nat) = (s, (0%nat, 0%nat)) /\
    GameSession.currentRound s = Some r /\
    GameSession.phase s = GameSession.roundOver /\
    GameRound.roundOver r = true /\
    GameRound.roundWinnerId r = Some HUMAN /\
    GameRound.winType r = Some WinCover /\
    GameRound.roundScore r = 45.
Proof.
  eexists. eexists. split; [vm_compute; reflexivity|].
  split; [reflexivity|]. repeat split.
Qed.

(** * History and rewind *)

Lemma load_loop_accepts (arr : list Z) (i : Z) (b : Board.t) :
  0 <= i -> entries_from i arr ->
  Board.load_loop (map Js.Int arr) i b = (loaded i arr b, Ok tt).
Proof.
  revert i b. induction arr as [|v rest IH]; intros i b Hi Hent; [reflexivity|].
  inversion Hent as [|? ? ? Hv Hrest]; subst.
  cbn [map Board.load_loop loaded Js.num_eqb]. unfold bind, modify, throw.
  destruct (Z.eqb_spec v 0) as [-> | Hnz].
  - apply IH; [lia | exact Hrest].
  - destruct Hv as [Hv | Hv]; [contradiction|].
    replace (v =? i + 1) with true by (symmetry; apply Z.eqb_eq; exact Hv).
    cbn [negb]. apply IH; [lia | exact Hrest].
Qed.

Lemma loaded_size (arr : list Z) (i : Z) (b : Board.t) :
  Board.size (loaded i arr b) = Board.size b.
Proof.
  revert i b. induction arr as [|v rest IH]; intros i b; [reflexivity|].
  cbn [loaded]. now rewrite IH.
Qed.

Lemma loaded_ok (arr : list Z) (i : Z) (b : Board.t) : board_ok b -> board_ok (loaded i arr b).
Proof.
  revert i b. induction arr as [|v rest IH]; intros i b Hok; [exact Hok|].
  cbn [loaded]. apply IH. now apply set_covered_ok.
Qed.

Lemma loaded_frame (arr : list Z) (i x : Z) (b : Board.t) :
  0 <= i -> 1 <= x <= i -> Board.covered_at (loaded i arr b) x = Board.covered_at b x.
Proof.
  revert i b. induction arr as [|v rest IH]; intros i b Hi Hx; [reflexivity|].
  cbn [loaded]. rewrite IH by lia. apply covered_at_set_other; lia.
Qed.

(** Reading the loaded board back gives the array. *)
Lemma loaded_reads_back (arr : list Z) (i : Z) (b : Board.t) :
  0 <= i -> board_ok b -> i + Z.of_nat (length arr) <= Board.size b ->
  entries_from i arr ->
  map (fun x => if Board.covered_at (loaded i arr b) x then 0 else x)
      (range_incl (i + 1) (i + Z.of_nat (length arr))) = arr.
Proof.
  revert i b. induction arr as [|v rest IH]; intros i b Hi Hok Hlen Hent.
  - cbn [length]. rewrite range_incl_empty by lia. reflexivity.
  - inversion Hent as [|? ? ? Hv Hrest]; subst.
    cbn [length] in *. rewrite range_incl_cons by lia. cbn [map loaded].
    f_equal.
    + rewrite loaded_frame by lia.
      rewrite covered_at_set_same by (try assumption; lia).
      destruct (Z.eqb_spec v 0); lia.
    + replace (i + Z.of_nat (S (length rest))) with ((i + 1) + Z.of_nat (length rest)) by lia.
      apply IH; [lia | now apply set_covered_ok | rewrite set_covered_size; lia | exact Hrest].
Qed.

Lemma toNumberArrayFormat_entries (b : Board.t) (lo : Z) (k : nat) :
  entries_from (lo - 1)
    (map (fun i => if Board.covered_at b i then 0 else i)
         (map (fun j => lo + Z.of_nat j) (seq 0 k))).
Proof.
  revert lo. induction k as [|k IH]; intros lo; [constructor|].
  rewrite range_incl_shift. cbn [map]. constructor.
  - destruct (Board.covered_at b lo); [now left | right; lia].
  - replace (lo - 1 + 1) with ((lo + 1) - 1) by lia. apply IH.
Qed.

Lemma toNumberArrayFormat_board_array (b : Board.t) :
  0 <= Board.size b -> board_array (Board.size b) (Board.toNumberArrayFormat b).
Proof.
  intros Hs. unfold board_array, Board.toNumberArrayFormat. split.
  - rewrite length_map, range_incl_length. lia.
  - apply (toNumberArrayFormat_entries b 1).
Qed.

(** Loading a board array into a board of its size succeeds, and the board
    then reads back as the array. *)
Lemma load_board_array (arr : list Z) (b : Board.t) :
  board_ok b -> board_array (Board.size b) arr ->
  Board.loadFromNumberArrayFormat (map Js.Int arr) b = (loaded 0 arr b, Ok tt) /\
  Board.toNumberArrayFormat (loaded 0 arr b) = arr.
Proof.
  intros Hok [Hlen Hent]. split.
  - unfold Board.loadFromNumberArrayFormat. rewrite length_map, Hlen, Z.eqb_refl.
    cbn [negb]. apply load_loop_accepts; [lia | exact Hent].
  - unfold Board.toNumberArrayFormat. rewrite loaded_size, <- Hlen.
    apply (loaded_reads_back arr 0 b); [lia | exact Hok | lia | exact Hent].
Qed.

Lemma captureSnapshot_ok (s : GameSession.t) (la : option GameSession.LastAction)
    (snap : GameSession.Snapshot) :
  session_ok s -> GameSession._captureSnapshot s la = Some snap -> snapshot_ok snap.
Proof.
  intros Hok. unfold GameSession._captureSnapshot.
  destruct (GameSession.currentRound s) as [r|] eqn:Hr; [|discriminate].
  destruct (GameSession.tournament s) as [tn|] eqn:Ht; [|discriminate].
  destruct (Hok r tn Hr Ht) as [Hsize [Hh [Hc [Hsh Hsc]]]].
  intros H. injection H as <-. unfold snapshot_ok.
  cbn [GameSession.hs_round GameSession.hs_tournament GameSession.sr_boardSize
       GameSession.sr_humanBoard GameSession.sr_computerBoard GameSession.sr_humanScore
       GameSession.sr_computerScore GameSession.st_humanScore GameSession.st_computerScore].
  split; [exact Hsize|].
  split; [rewrite <- Hh; apply toNumberArrayFormat_board_array; lia|].
  split; [rewrite <- Hc; apply toNumberArrayFormat_board_array; lia|].
  split; assumption.
Qed.

(** The round constructor succeeds for every positive size, with boards of
    that size. *)
Lemma new_round_total (size : Z) (hp cp : Player) (first : PlayerId)
    (adv : option AdvantageInfo) :
  1 <= size ->
  exists bh bc lock,
    GameRound.new size hp cp first adv =
      Ok (GameRound.mk size (with_board hp bh) (with_board cp bc) first first adv lock
            false None None 0
            (0 <? length (Board.getCoveredNumbers bh))%nat
            (0 <? length (Board.getCoveredNumbers bc))%nat) /\
    board_ok bh /\ Board.size bh = size /\ board_ok bc /\ Board.size bc = size.
Proof.
  intros Hsize. unfold GameRound.new.
  replace (size <? 1) with false by (symmetry; apply Z.ltb_ge; lia).
  rewrite Board_new_blank by exact Hsize.
  unfold GameRound._applyAdvantageIfAny. cbn [GameRound.advantageInfo GameRound.boardSize].
  pose proof (blank_ok size) as Hb.
  destruct adv as [info|].
  - destruct (Z.ltb_spec (ai_digitSum info) 1) as [Hlow | Hlow]; cbn [orb].
    { exists (blank size), (blank size), None. repeat split; assumption. }
    destruct (Z.gtb_spec (ai_digitSum info) size) as [Hhigh | Hhigh].
    { exists (blank size), (blank size), None. repeat split; assumption. }
    unfold bind, modify, GameRound.on_board.
    assert (Hcov : Board.coverSquares [ai_digitSum info] (blank size) =
                   (Board.set_covered (ai_digitSum info) true (blank size), Ok tt)).
    { apply (markSquares_legal true [ai_digitSum info] (blank size)).
      - exact Hb.
      - repeat constructor. intros [].
      - intros x [<- | []]. split; [simpl; lia | apply blank_covered_at]. }
    destruct (ai_playerId info) eqn:Hp;
      cbn [GameRound.getPlayerById GameRound.human GameRound.computer board with_board];
      rewrite Hcov.
    + exists (Board.set_covered (ai_digitSum info) true (blank size)), (blank size),
        (Some (mkAdvantageLock HUMAN (ai_digitSum info) false)).
      repeat split; try assumption. now apply set_covered_ok.
    + exists (blank size), (Board.set_covered (ai_digitSum info) true (blank size)),
        (Some (mkAdvantageLock COMPUTER (ai_digitSum info) false)).
      repeat split; try assumption. now apply set_covered_ok.
  - exists (blank size), (blank size), None. repeat split; assumption.
Qed.

Lemma bind_modify {S B : Type} (f : S -> S) (k : method S B) (s : S) :
  bind (modify f) (fun _ => k) s = k (f s).
Proof. reflexivity. Qed.

Lemma bind_modify_last {S : Type} (f g : S -> S) (s : S) :
  bind (modify f) (fun _ => modify g) s = (g (f s), Ok tt).
Proof. reflexivity. Qed.

Lemma bind_ok {S A B : Type} (m : method S A) (k : A -> method S B) (s s' : S) (a : A) :
  m s = (s', Ok a) -> bind m k s = k a s'.
Proof. intros H. unfold bind. rewrite H. reflexivity. Qed.

Lemma on_board_ok {A : Type} (id : PlayerId) (m : method Board.t A) (r : GameRound.t)
    (b' : Board.t) (a : A) :
  m (board (GameRound.getPlayerById r id)) = (b', Ok a) ->
  GameRound.on_board id m r =
    (GameRound.set_player id (with_board (GameRound.getPlayerById r id) b') r, Ok a).
Proof. intros H. unfold GameRound.on_board. rewrite H. reflexivity. Qed.

Ltac round_fields :=
  cbn [GameRound.getPlayerById GameRound.set_advantageLock GameRound.set_player
       GameRound.set_everCovered GameRound.set_currentPlayerId GameRound.set_result
       GameRound.boardSize GameRound.human GameRound.computer GameRound.firstPlayerId
       GameRound.currentPlayerId GameRound.advantageInfo GameRound.advantageLock
       GameRound.roundOver GameRound.roundWinnerId GameRound.winType GameRound.roundScore
       GameRound.humanEverCovered GameRound.computerEverCovered
       board totalScore id name with_board with_totalScore].

Lemma restoreSnapshot_spec (snap : GameSession.Snapshot) (s : GameSession.t) :
  snapshot_ok snap ->
  exists s',
    GameSession._restoreSnapshot snap s = (s', Ok tt) /\
    GameSession.history s' = GameSession.history s /\
    GameSession.queuedRolls s' = GameSession.queuedRolls s /\
    GameSession.dice s' = GameSession.dice s /\
    GameSession.phase s' = GameSession.hs_phase snap /\
    GameSession.currentDice s' = GameSession.hs_currentDice snap /\
    session_ok s' /\
    forall la,
      GameSession._captureSnapshot
        (GameSession.set_currentDice no_dice (GameSession.set_phase GameSession.awaitingRoll s'))
        la = Some (resumed snap la).
Proof.
  intros [Hsize [Hha [Hca [Hsh Hsc]]]].
  destruct snap as [mode cur ph dice la0 [thS tcS tadv trn]
                    [size first rcur info lock over winner wt score hb cb hS cS]].
  cbn in Hsize, Hha, Hca, Hsh, Hsc. subst thS tcS.
  unfold GameSession._restoreSnapshot.
  cbn [GameSession.hs_gameMode GameSession.hs_tournament GameSession.hs_round
       GameSession.hs_phase GameSession.hs_currentDice GameSession.hs_currentPlayerId
       GameSession.st_humanScore GameSession.st_computerScore
       GameSession.st_nextRoundAdvantage GameSession.st_roundNumber
       GameSession.sr_boardSize GameSession.sr_firstPlayerId GameSession.sr_currentPlayerId
       GameSession.sr_advantageInfo GameSession.sr_advantageLock GameSession.sr_roundOver
       GameSession.sr_roundWinnerId GameSession.sr_winType GameSession.sr_roundScore
       GameSession.sr_humanBoard GameSession.sr_computerBoard
       GameSession.sr_humanScore GameSession.sr_computerScore
       Tournament.human Tournament.computer].
  match goal with |- context [GameRound.new size ?hp ?cp first info] =>
    destruct (new_round_total size hp cp first info Hsize)
      as [bh [bc [lock0 [Hnew [Hokh [Hsh [Hokc Hsc]]]]]]] end.
  rewrite Hnew. clear Hnew.
  destruct (load_board_array hb bh Hokh) as [Hloadh Hreadh]; [now rewrite Hsh|].
  destruct (load_board_array cb bc Hokc) as [Hloadc Hreadc]; [now rewrite Hsc|].
  pose proof (loaded_size hb 0 bh) as Hlsh.
  pose proof (loaded_size cb 0 bc) as Hlsc.
  set (lh := loaded 0 hb bh) in *. set (lc := loaded 0 cb bc) in *.
  cbn [Tournament.new Tournament.human Tournament.computer Player_new with_totalScore
       with_board id name board totalScore].
  unfold GameSession.on_round.
  rewrite bind_modify. round_fields.
  erewrite bind_ok; [| apply on_board_ok; round_fields; exact Hloadh]. round_fields.
  erewrite bind_ok; [| apply on_board_ok; round_fields; exact Hloadc]. round_fields.
  rewrite bind_modify. round_fields.
  rewrite bind_modify. round_fields.
  rewrite bind_modify. round_fields.
  rewrite bind_modify. round_fields.
  rewrite bind_modify_last. round_fields.
  eexists. split; [reflexivity|].
  split; [reflexivity|]. split; [reflexivity|]. split; [reflexivity|].
  split; [reflexivity|]. split; [reflexivity|]. split.
  - intros r tn Hr Ht. cbn in Hr, Ht. injection Hr as <-. injection Ht as <-.
    round_fields. cbn [Tournament.human Tournament.computer]. round_fields.
    rewrite Hlsh, Hlsc. repeat split; try assumption; reflexivity.
  - intros la. unfold GameSession._captureSnapshot. cbn. rewrite Hreadh, Hreadc. reflexivity.
Qed.

(** C10.  For every history and every valid index, [rewindTo] makes the
    snapshot of that entry the live state: capturing the session again gives
    the snapshot back, except that the phase is "awaitingRoll" and the dice
    are cleared whatever the snapshot recorded.  The history itself is left
    as it was, entries after the index included. *)
Theorem rewindTo_restores (s : GameSession.t) (index : Z) (entry : GameSession.HistoryEntry) :
  0 <= index ->
  nth_error (GameSession.history s) (Z.to_nat index) = Some entry ->
  snapshot_ok (GameSession.h_snapshot entry) ->
  exists s',
    GameSession.rewindTo index s =
      (s', Ok (GameSession.Rewound (GameSession.h_lastAction entry) no_dice
                 GameSession.awaitingRoll)) /\
    GameSession.history s' = GameSession.history s /\
    GameSession.phase s' = GameSession.awaitingRoll /\
    GameSession.currentDice s' = no_dice /\
    forall la, GameSession._captureSnapshot s' la =
               Some (resumed (GameSession.h_snapshot entry) la).
Proof.
  intros Hidx Hnth Hok. unfold GameSession.rewindTo.
  assert (Hlt : (Z.to_nat index < length (GameSession.history s))%nat).
  { apply nth_error_Some. rewrite Hnth. discriminate. }
  replace (index <? 0) with false by (symmetry; apply Z.ltb_ge; lia).
  replace (index >=? Z.of_nat (length (GameSession.history s))) with false
    by (symmetry; rewrite Z.geb_leb; apply Z.leb_gt; lia).
  cbn [orb]. rewrite Hnth.
  destruct (restoreSnapshot_spec (GameSession.h_snapshot entry) s Hok)
    as [s1 [Hres [Hhist [_ [_ [_ [_ [_ Hcap]]]]]]]].
  rewrite Hres. eexists. split; [reflexivity|].
  split; [exact Hhist|]. split; [reflexivity|]. split; [reflexivity|]. exact Hcap.
Qed.

Lemma rewindTo_restores_witness :
  exists entry s',
    nth_error (GameSession.history session_moved) (Z.to_nat 0) = Some entry /\
    snapshot_ok (GameSession.h_snapshot entry) /\
    fst (GameSession.rewindTo 0 session_moved) = s' /\
    GameSession.history s' = GameSession.history session_moved /\
    GameSession.phase s' = GameSession.awaitingRoll.
Proof.
  destruct (nth_error (GameSession.history session_moved) (Z.to_nat 0)) as [entry|] eqn:Hnth;
    [| vm_compute in Hnth; discriminate Hnth].
  assert (Hok : snapshot_ok (GameSession.h_snapshot entry)).
  { vm_compute in Hnth. injection Hnth as <-.
    unfold snapshot_ok, board_array. cbn.
    repeat split; try lia; repeat (constructor; [auto|]); constructor. }
  destruct (rewindTo_restores session_moved 0 entry ltac:(lia) Hnth Hok)
    as [s' [Hrew [Hhist [Hphase _]]]].
  exists entry, s'. split; [reflexivity|]. split; [exact Hok|].
  split; [now rewrite Hrew|]. split; [exact Hhist | exact Hphase].
Defined.

Lemma new_round_lock (size : Z) (hp cp : Player) (first : PlayerId)
    (adv : option AdvantageInfo) :
  1 <= size ->
  exists bh bc,
    GameRound.new size hp cp first adv =
      Ok (GameRound.mk size (with_board hp bh) (with_board cp bc) first first adv
            (pending_lock size adv) false None None 0
            (0 <? length (Board.getCoveredNumbers bh))%nat
            (0 <? length (Board.getCoveredNumbers bc))%nat) /\
    board_ok bh /\ Board.size bh = size /\ board_ok bc /\ Board.size bc = size.
Proof.
  intros Hsize. unfold GameRound.new, pending_lock.
  replace (size <? 1) with false by (symmetry; apply Z.ltb_ge; lia).
  rewrite Board_new_blank by exact Hsize.
  unfold GameRound._applyAdvantageIfAny. cbn [GameRound.advantageInfo GameRound.boardSize].
  pose proof (blank_ok size) as Hb.
  destruct adv as [info|].
  - destruct (Z.ltb_spec (ai_digitSum info) 1) as [Hlow | Hlow]; cbn [orb].
    { replace (1 <=? ai_digitSum info) with false by (symmetry; apply Z.leb_gt; lia).
      exists (blank size), (blank size). repeat split; assumption. }
    replace (1 <=? ai_digitSum info) with true by (symmetry; apply Z.leb_le; lia).
    destruct (Z.gtb_spec (ai_digitSum info) size) as [Hhigh | Hhigh].
    { replace (ai_digitSum info <=? size) with false by (symmetry; apply Z.leb_gt; lia).
      exists (blank size), (blank size). repeat split; assumption. }
    replace (ai_digitSum info <=? size) with true by (symmetry; apply Z.leb_le; lia).
    cbn [andb]. unfold bind, modify, GameRound.on_board.
    assert (Hcov : Board.coverSquares [ai_digitSum info] (blank size) =
                   (Board.set_covered (ai_digitSum info) true (blank size), Ok tt)).
    { apply (markSquares_legal true [ai_digitSum info] (blank size)).
      - exact Hb.
      - repeat constructor. intros [].
      - intros x [<- | []]. split; [simpl; lia | apply blank_covered_at]. }
    destruct (ai_playerId info) eqn:Hp;
      cbn [GameRound.getPlayerById GameRound.human GameRound.computer board with_board];
      rewrite Hcov.
    + exists (Board.set_covered (ai_digitSum info) true (blank size)), (blank size).
      repeat split; try assumption. now apply set_covered_ok.
    + exists (blank size), (Board.set_covered (ai_digitSum info) true (blank size)).
      repeat split; try assumption. now apply set_covered_ok.
  - exists (blank size), (blank size). repeat split; assumption.
Qed.

(** * The advantage for the next round *)

Ltac session_fields :=
  cbn [GameSession.currentRound GameSession.tournament GameSession.dice
       GameSession.currentPlayerId GameSession.history GameSession.queuedRolls
       GameSession.gameMode GameSession.phase GameSession.currentDice
       GameSession.set_currentRound GameSession.set_tournament GameSession.set_history
       GameSession.set_phase GameSession.set_currentDice GameSession.set_currentPlayerId
       GameSession.set_queuedRolls GameSession.set_gameMode GameSession.set_dice] in *.

Lemma detached_same (s s' : GameSession.t) :
  GameSession.tournament s' = GameSession.tournament s -> detached s -> detached s'.
Proof. unfold detached. now intros ->. Qed.

Lemma detached_store_round (r : GameRound.t) (s : GameSession.t) :
  detached s -> detached (GameSession.store_round r s).
Proof.
  intros Hd tn. unfold GameSession.store_round. session_fields.
  destruct (GameSession.tournament s) as [tn0|] eqn:Htn; [|discriminate].
  intros H. injection H as <-. cbn [Tournament.currentRound]. now rewrite (Hd tn0 Htn).
Qed.

Lemma tournament_pushHistory (label : string) (la : option GameSession.LastAction)
    (s : GameSession.t) :
  GameSession.tournament (GameSession._pushHistory label la s) = GameSession.tournament s /\
  GameSession.phase (GameSession._pushHistory label la s) = GameSession.phase s.
Proof.
  unfold GameSession._pushHistory.
  destruct (GameSession._captureSnapshot s la); split; reflexivity.
Qed.

Lemma forfeited_open (s : GameSession.t) :
  detached s -> GameSession.phase s <> GameSession.roundOver -> forfeited s.
Proof. intros Hd Hph. split; [exact Hd | intros H; contradiction]. Qed.

Lemma forfeited_over (s : GameSession.t) :
  detached s -> forfeited (GameSession.update_advantage s).
Proof.
  intros Hd. unfold GameSession.update_advantage.
  destruct (GameSession.tournament s) as [tn0|] eqn:Htn.
  - pose proof (Hd tn0 Htn) as Hnone.
    assert (Hup : Tournament.updateAdvantageForNextRound tn0 =
                  Tournament.set_nextRoundAdvantage None tn0).
    { unfold Tournament.updateAdvantageForNextRound. now rewrite Hnone. }
    rewrite Hup. split.
    + intros tn H. session_fields. injection H as <-. exact Hnone.
    + intros _ tn H. session_fields. injection H as <-. reflexivity.
  - split; [exact Hd|]. intros _ tn H. rewrite Htn in H. discriminate H.
Qed.

Lemma phase_store_round (r : GameRound.t) (s : GameSession.t) :
  GameSession.phase (GameSession.store_round r s) = GameSession.phase s.
Proof. reflexivity. Qed.

Lemma phase_is (s : GameSession.t) (ph : GameSession.Phase) :
  GameSession.Phase_eqb (GameSession.phase s) ph = true -> GameSession.phase s = ph.
Proof. now destruct (GameSession.phase s), ph. Qed.

(** The end of an operation once a move is on the board. *)
Lemma after_move_forfeited (over : bool) (s : GameSession.t) :
  detached s ->
  forfeited (if over
             then GameSession.update_advantage (GameSession.set_phase GameSession.roundOver s)
             else GameSession.set_phase GameSession.awaitingRoll
                    (GameSession.set_currentDice no_dice s)).
Proof.
  intros Hd. destruct over.
  - apply forfeited_over. revert Hd. now apply detached_same.
  - apply forfeited_open; [revert Hd; now apply detached_same | discriminate].
Qed.

Lemma pushed_move_detached (label : string) (la : option GameSession.LastAction)
    (r : GameRound.t) (s : GameSession.t) :
  detached s -> detached (GameSession._pushHistory label la (GameSession.store_round r s)).
Proof.
  intros Hd. apply (detached_same (GameSession.store_round r s)).
  - apply tournament_pushHistory.
  - now apply detached_store_round.
Qed.

Lemma endTurn_forfeited (s : GameSession.t) :
  forfeited s -> forfeited (fst (GameSession.endTurn s)).
Proof.
  intros Hf. pose proof Hf as [Hd _]. unfold GameSession.endTurn.
  destruct (GameSession.currentRound s) as [round|]; [|exact Hf]. cbv zeta.
  destruct (GameRound.roundOver _); cbn [fst].
  - apply forfeited_over.
    apply (detached_same (GameSession.store_round
                            (GameRound.notifyTurnEnded (GameSession.currentPlayerId s) round) s));
      [reflexivity | now apply detached_store_round].
  - apply forfeited_open; [|discriminate].
    match goal with
    | |- detached (GameSession.set_phase _ (GameSession.set_currentDice _
                     (GameSession.set_currentPlayerId _ (GameSession.store_round ?r2 ?s1)))) =>
        apply (detached_same (GameSession.store_round r2 s1)); [reflexivity|]
    end.
    now apply detached_store_round, detached_store_round.
Qed.

Lemma applyHumanMove_forfeited (mt : GameSession.MoveType) (squares : list Z)
    (s : GameSession.t) :
  forfeited s -> forfeited (fst (GameSession.applyHumanMove mt squares s)).
Proof.
  intros Hf. pose proof Hf as [Hd _]. unfold GameSession.applyHumanMove.
  destruct (GameSession.currentRound s) as [round|]; [|exact Hf].
  destruct (GameSession.Phase_eqb (GameSession.phase s) GameSession.awaitingMove) eqn:Hph;
    cbn [negb]; [|exact Hf].
  apply phase_is in Hph.
  destruct (GameSession.sum_is_set (GameSession.currentDice s)) as [sum|]; [|exact Hf].
  cbv zeta.
  match goal with |- context [GameSession.option_exists ?o squares] =>
    destruct (GameSession.option_exists o squares) end; cbn [negb]; [|exact Hf].
  unfold GameSession.on_round.
  match goal with |- context [let (r', c) := ?m round in _] =>
    destruct (m round) as [r' [[]|msg]] end.
  - rewrite currentRound_pushHistory, currentRound_store_round.
    match goal with |- context [GameSession._pushHistory ?L ?LA (GameSession.store_round r' s)] =>
      pose proof (pushed_move_detached L LA r' s Hd) as Hd2;
      pose proof (after_move_forfeited (GameRound.roundOver r') _ Hd2) as H
    end.
    destruct (GameRound.roundOver r'); exact H.
  - cbn [fst]. apply forfeited_open; [now apply detached_store_round|].
    rewrite phase_store_round, Hph. discriminate.
Qed.

Lemma handleManualRoll_forfeited (numDice : Z) (values : list Z) (s : GameSession.t) :
  forfeited s -> forfeited (fst (GameSession.handleManualRoll numDice values s)).
Proof.
  intros Hf. pose proof Hf as [Hd _]. unfold GameSession.handleManualRoll.
  destruct (GameSession.currentRound s) as [round|]; [|exact Hf].
  destruct (GameSession.Phase_eqb (GameSession.phase s) GameSession.awaitingRoll) eqn:Hph;
    cbn [negb]; [|exact Hf].
  apply phase_is in Hph.
  destruct (negb (numDice =? 1) && negb (numDice =? 2)); [exact Hf|].
  destruct (Z.of_nat (length values) <? numDice); [exact Hf|].
  cbv zeta.
  match goal with |- context [if ?c then (s, Ok (GameSession.Error _)) else _] =>
    destruct c; [exact Hf|] end.
  match goal with |- context [if ?c then (s, Ok (GameSession.Error _)) else _] =>
    destruct c; [exact Hf|] end.
  match goal with |- context [GameSession.set_currentDice ?d s] =>
    set (s1 := GameSession.set_currentDice d s) end.
  assert (Hd1 : detached s1) by (revert Hd; now apply detached_same).
  assert (Hph1 : GameSession.phase s1 = GameSession.awaitingRoll) by exact Hph.
  clearbody s1.
  destruct (GameSession.isPlayerHumanControlled s1 (GameSession.currentPlayerId s1)).
  - match goal with |- context [if ?c then _ else _] => destruct c end; cbn [fst].
    + apply forfeited_open; [exact Hd1 | rewrite Hph1; discriminate].
    + apply forfeited_open; [revert Hd1; now apply detached_same | discriminate].
  - match goal with |- context [if ?c then _ else _] => destruct c end.
    + unfold GameSession.computer_no_moves. cbv zeta.
      destruct (GameRound.roundOver _); cbn [fst].
      * match goal with |- forfeited (GameSession._pushHistory ?L ?LA ?X) =>
          assert (Hx : forfeited X)
        end.
        { apply forfeited_over.
          match goal with |- detached (GameSession.set_phase _ (GameSession.store_round ?r ?s0)) =>
            apply (detached_same (GameSession.store_round r s0)); [reflexivity|] end.
          now apply detached_store_round. }
        destruct Hx as [Hxd Hxo].
        match goal with |- forfeited (GameSession._pushHistory ?L ?LA ?X) =>
          destruct (tournament_pushHistory L LA X) as [Ht Hp] end.
        split; [revert Hxd; now apply detached_same|].
        rewrite Ht, Hp. exact Hxo.
      * apply forfeited_open; [|discriminate].
        match goal with
        | |- detached (GameSession.set_phase _ (GameSession.set_currentDice _
                         (GameSession.set_currentPlayerId _
                            (GameSession.store_round ?r2 ?s2)))) =>
            apply (detached_same (GameSession.store_round r2 s2)); [reflexivity|]
        end.
        now apply detached_store_round, detached_store_round.
    + unfold GameSession.computer_moves. cbv zeta. unfold GameSession.on_round.
      match goal with |- context [let (r', c) := ?m round in _] =>
        destruct (m round) as [r' [[]|msg]] end.
      * rewrite currentRound_pushHistory, currentRound_store_round.
        match goal with
        | |- context [GameSession._pushHistory ?L ?LA (GameSession.store_round r' s1)] =>
            pose proof (pushed_move_detached L LA r' s1 Hd1) as Hd2;
            set (s2 := GameSession._pushHistory L LA (GameSession.store_round r' s1)) in *
        end.
        destruct (GameRound.roundOver r'); cbn [fst].
        -- apply forfeited_over.
           match goal with |- detached (GameSession.set_phase _ (GameSession.store_round ?r ?s0)) =>
             apply (detached_same (GameSession.store_round r s0)); [reflexivity|] end.
           now apply detached_store_round.
        -- apply forfeited_open; [revert Hd2; now apply detached_same | discriminate].
      * cbn [fst]. apply forfeited_open; [now apply detached_store_round|].
        rewrite phase_store_round, Hph1. discriminate.
Qed.

Lemma play_forfeited (ops : list Op) (s : GameSession.t) :
  forfeited s -> forfeited (play ops s).
Proof.
  revert s. induction ops as [|op ops IH]; intros s Hf; [exact Hf|].
  cbn [play fold_left]. apply IH. destruct op; unfold run_op.
  - now apply handleManualRoll_forfeited.
  - now apply applyHumanMove_forfeited.
  - now apply endTurn_forfeited.
Qed.

Lemma restoreSnapshot_detached (snap : GameSession.Snapshot) (s s' : GameSession.t) :
  GameSession._restoreSnapshot snap s = (s', Ok tt) -> detached s'.
Proof.
  unfold GameSession._restoreSnapshot. cbv zeta.
  destruct (GameRound.new _ _ _ _ _) as [r0|msg]; [|discriminate].
  unfold GameSession.on_round.
  match goal with |- context [let (r', c) := ?m r0 in _] =>
    destruct (m r0) as [r' [[]|msg]] end; [|discriminate].
  intros H. injection H as <-.
  match goal with
  | |- detached (GameSession.set_currentDice _ (GameSession.set_phase _
                   (GameSession.set_currentPlayerId _ (GameSession.store_round r' ?s2)))) =>
      apply (detached_same (GameSession.store_round r' s2)); [reflexivity|];
      apply detached_store_round
  end.
  intros tn H. cbn in H. injection H as <-. reflexivity.
Qed.

Lemma rewindTo_forfeited (index : Z) (s s' : GameSession.t)
    (la : option GameSession.LastAction) (d : CurrentDice) (ph : GameSession.Phase) :
  GameSession.rewindTo index s = (s', Ok (GameSession.Rewound la d ph)) ->
  forfeited s' /\ GameSession.tournament s' <> None.
Proof.
  unfold GameSession.rewindTo.
  destruct ((index <? 0) || (index >=? Z.of_nat (length (GameSession.history s))));
    [discriminate|].
  destruct (nth_error (GameSession.history s) (Z.to_nat index)) as [entry|]; [|discriminate].
  destruct (GameSession._restoreSnapshot (GameSession.h_snapshot entry) s)
    as [s1 [[]|msg]] eqn:Hres; [|discriminate].
  cbv zeta. intros H. injection H as <- _ _ _.
  pose proof (restoreSnapshot_detached _ _ _ Hres) as Hd. split.
  - apply forfeited_open; [revert Hd; now apply detached_same | discriminate].
  - revert Hres. unfold GameSession._restoreSnapshot. cbv zeta.
    destruct (GameRound.new _ _ _ _ _) as [r0|msg]; [|discriminate].
    unfold GameSession.on_round.
    match goal with |- context [let (r', c) := ?m r0 in _] =>
      destruct (m r0) as [r' [[]|msg]] end; [|discriminate].
    intros H. injection H as <-. cbn. discriminate.
Qed.

(** C4.  The advantage rule is the rule of [updateAdvantageForNextRound]
    for a finished round that the tournament holds as its current round: no
    advantage when the round has no winner or its score is not positive;
    otherwise the advantage square is the digit sum of the score, summed
    again until one digit from 1 to 9 is left (a reduction that ends for
    every non-negative integer; the digit sum of 23 is 5), and it goes to the
    other player when the winner moved first in the round and to the winner
    otherwise.  But the tournament does not hold every finished round.
    [rewindTo] builds a new tournament and a new round and never makes the
    round the current round of the tournament; through every roll, move and
    end of turn that follows, the tournament holds no round, and when the
    round ends no advantage is recorded.  HUMAN, moving first, wins the round
    of size 9 within the first turn with 45 points: COMPUTER gets square 9
    for the next round, and gets nothing when the same round is played after
    a rewind to its start. *)
Theorem next_round_advantage :
  (forall tn round,
     Tournament.currentRound tn = Some round ->
     GameRound.roundOver round = true ->
     let tn' := Tournament.updateAdvantageForNextRound tn in
     let score := GameRound.roundScore round in
     (GameRound.roundWinnerId round = None \/ score <= 0 ->
        Tournament.nextRoundAdvantage tn' = None) /\
     (forall w, GameRound.roundWinnerId round = Some w -> 0 < score ->
        exists recipient,
          Tournament.nextRoundAdvantage tn' =
            Some (mkAdvantageInfo recipient (Tournament._digitSum score)) /\
          (w = GameRound.firstPlayerId round -> recipient <> w) /\
          (w <> GameRound.firstPlayerId round -> recipient = w) /\
          1 <= Tournament._digitSum score <= 9 /\
          exists k, (1 <= k)%nat /\
                    Tournament._digitSum score = Nat.iter k digit_sum score /\
                    forall j, (1 <= j < k)%nat -> 10 <= Nat.iter j digit_sum score)) /\
  (forall n, 0 <= n -> 0 <= Tournament._digitSum n < 10) /\
  Tournament._digitSum 23 = 5 /\
  (forall tn, Tournament.currentRound tn = None ->
     Tournament.nextRoundAdvantage (Tournament.updateAdvantageForNextRound tn) = None) /\
  (forall index s s' la d ph ops,
     GameSession.rewindTo index s = (s', Ok (GameSession.Rewound la d ph)) ->
     GameSession.tournament s' <> None /\
     forall tn,
       GameSession.tournament (play ops s') = Some tn ->
       Tournament.currentRound tn = None /\
       (GameSession.phase (play ops s') = GameSession.roundOver ->
        Tournament.nextRoundAdvantage tn = None)) /\
  (exists r tn,
     GameSession.currentRound (play first_turn_win session_rewound) = Some r /\
     GameSession.tournament (play first_turn_win session_rewound) = Some tn /\
     GameSession.phase (play first_turn_win session_rewound) = GameSession.roundOver /\
     GameRound.roundOver r = true /\
     GameRound.roundWinnerId r = Some HUMAN /\
     GameRound.firstPlayerId r = HUMAN /\
     GameRound.roundScore r = 45 /\
     Tournament.nextRoundAdvantage tn = None) /\
  (exists r tn,
     GameSession.currentRound (play first_turn_win session_start) = Some r /\
     GameSession.tournament (play first_turn_win session_start) = Some tn /\
     GameRound.roundWinnerId r = Some HUMAN /\
     GameRound.firstPlayerId r = HUMAN /\
     GameRound.roundScore r = 45 /\
     Tournament.nextRoundAdvantage tn = Some (mkAdvantageInfo COMPUTER 9)).
Proof.
  split; [|split; [|split; [|split; [|split; [|split]]]]].
  - intros tn round Hround Hover tn' score. subst tn'.
    unfold Tournament.updateAdvantageForNextRound. rewrite Hround, Hover. cbn [negb].
    fold score. split.
    + intros [Hnone | Hscore].
      * rewrite Hnone. reflexivity.
      * destruct (GameRound.roundWinnerId round); [|reflexivity].
        replace (score <=? 0) with true by (symmetry; apply Z.leb_le; lia). reflexivity.
    + intros w Hw Hscore. rewrite Hw.
      replace (score <=? 0) with false by (symmetry; apply Z.leb_gt; lia).
      exists (if PlayerId_eqb w (GameRound.firstPlayerId round)
              then GameRound.getOpponentId w else w).
      split; [reflexivity|]. split; [|split; [|split]].
      * intros Heq. apply PlayerId_eqb_eq in Heq. rewrite Heq. now destruct w.
      * intros Hne. destruct (PlayerId_eqb w (GameRound.firstPlayerId round)) eqn:He;
          [apply PlayerId_eqb_eq in He; congruence | reflexivity].
      * now apply digitSum_positive.
      * destruct (digitSum_reduces score ltac:(lia)) as [k [Hk [Heq [_ Hall]]]].
        exists k. auto.
  - intros n Hn. destruct (digitSum_reduces n Hn) as [k [_ [_ [Hd _]]]]. exact Hd.
  - reflexivity.
  - intros tn Hnone. unfold Tournament.updateAdvantageForNextRound. now rewrite Hnone.
  - intros index s s' la d ph ops Hre.
    destruct (rewindTo_forfeited index s s' la d ph Hre) as [Hf Hsome].
    split; [exact Hsome|]. intros tn Htn.
    destruct (play_forfeited ops s' Hf) as [Hd Hover].
    split; [now apply Hd | intros Hph; now apply Hover].
  - eexists. eexists. split; [vm_compute; reflexivity|].
    split; [vm_compute; reflexivity|]. split; [vm_compute; reflexivity|].
    repeat split.
  - eexists. eexists. split; [vm_compute; reflexivity|].
    split; [vm_compute; reflexivity|]. repeat split.
Qed.

Lemma next_round_advantage_witness :
  Tournament.currentRound won_tournament = Some won_round /\
  GameRound.roundOver won_round = true /\
  Tournament.nextRoundAdvantage (Tournament.updateAdvantageForNextRound won_tournament) =
    Some (mkAdvantageInfo COMPUTER 5).
Proof.
  split; [reflexivity|]. split; [reflexivity|].
  destruct (proj2 (proj1 next_round_advantage won_tournament won_round eq_refl eq_refl)
              HUMAN eq_refl ltac:(cbn; lia))
    as [recipient [Hadv [Hother _]]].
  rewrite Hadv. specialize (Hother eq_refl).
  destruct recipient; [contradiction | reflexivity].
Defined.

(** * Strings *)

Arguments Js.digit_char : simpl never.

Arguments Js.digits_of : simpl never.

Lemma append_nil_r (s : string) : (s ++ "")%string = s.
Proof. induction s as [|c s IH]; simpl; [reflexivity | now rewrite IH]. Qed.

Lemma append_assoc (a b c : string) : ((a ++ b) ++ c)%string = (a ++ (b ++ c))%string.
Proof. induction a as [|x a IH]; simpl; [reflexivity | now rewrite IH]. Qed.

Lemma all_chars_app (f : ascii -> bool) (a b : string) :
  all_chars f (a ++ b) = all_chars f a && all_chars f b.
Proof. induction a as [|c a IH]; simpl; [reflexivity | now rewrite IH, andb_assoc]. Qed.

Lemma all_chars_weaken (f g : ascii -> bool) (s : string) :
  (forall c, f c = true -> g c = true) -> all_chars f s = true -> all_chars g s = true.
Proof.
  intros H. induction s as [|c s IH]; simpl; [reflexivity|].
  intros Hs. apply andb_true_iff in Hs. destruct Hs as [Hc Hs].
  now rewrite (H c Hc), IH.
Qed.

Ltac by_cases_on_char c :=
  destruct c as [[] [] [] [] [] [] [] []]; try reflexivity; try discriminate.

Lemma numch_solid (c : ascii) : numch c = true -> solid c = true.
Proof. by_cases_on_char c. Qed.

Lemma numch_not (x : ascii) (c : ascii) :
  numch x = false -> numch c = true -> not_char x c = true.
Proof.
  intros Hx Hc. unfold not_char. destruct (Ascii.eqb_spec c x) as [-> | Hne]; [congruence|].
  reflexivity.
Qed.

Lemma solid_not_break (c : ascii) :
  solid c = true -> Ascii.eqb c Js.LF = false /\ Ascii.eqb c Js.CR = false.
Proof. by_cases_on_char c; intros _; split; reflexivity. Qed.

(** ** Decimal numerals *)

Lemma digits_of_step (n : Z) :
  Js.digits_of n =
  if n <? 10 then String (Js.digit_char n) EmptyString
  else (Js.digits_of (n / 10) ++ String (Js.digit_char (n mod 10)) EmptyString)%string.
Proof.
  funelim (Js.digits_of n); destruct (Z.ltb_spec n 10); try reflexivity; lia.
Qed.

Lemma digit_char_is_digit (d : Z) : 0 <= d < 10 -> Js.is_digit (Js.digit_char d) = true.
Proof.
  intros H. assert (Hc : d = 0 \/ d = 1 \/ d = 2 \/ d = 3 \/ d = 4 \/ d = 5 \/ d = 6 \/
                         d = 7 \/ d = 8 \/ d = 9) by lia.
  repeat destruct Hc as [-> | Hc]; try reflexivity. subst. reflexivity.
Qed.

Lemma digit_char_value (d : Z) : 0 <= d < 10 -> Js.digit_value (Js.digit_char d) = d.
Proof.
  intros H. assert (Hc : d = 0 \/ d = 1 \/ d = 2 \/ d = 3 \/ d = 4 \/ d = 5 \/ d = 6 \/
                         d = 7 \/ d = 8 \/ d = 9) by lia.
  repeat destruct Hc as [-> | Hc]; try reflexivity. subst. reflexivity.
Qed.

Lemma digits_of_digits (n : Z) : 0 <= n -> all_chars Js.is_digit (Js.digits_of n) = true.
Proof.
  intros Hn. remember (Z.to_nat n) as m eqn:Hm. revert n Hn Hm.
  induction m as [m IH] using lt_wf_ind. intros n Hn Hm.
  rewrite digits_of_step. destruct (Z.ltb_spec n 10) as [Hs | Hb].
  - cbn [all_chars]. rewrite digit_char_is_digit by lia. reflexivity.
  - rewrite all_chars_app. cbn [all_chars].
    assert (Hd : 0 <= n / 10) by (apply Z.div_pos; lia).
    assert (Hlt : n / 10 < n) by (apply Z.div_lt; lia).
    rewrite (IH (Z.to_nat (n / 10)) ltac:(lia) (n / 10) Hd eq_refl).
    rewrite digit_char_is_digit; [reflexivity|]. apply Z.mod_pos_bound. lia.
Qed.

Lemma digits_of_nonempty (n : Z) : Js.is_empty (Js.digits_of n) = false.
Proof.
  rewrite digits_of_step. destruct (n <? 10); [reflexivity|].
  destruct (Js.digits_of (n / 10)); reflexivity.
Qed.

Lemma digits_value_app (acc : Z) (s : string) (c : ascii) :
  Js.is_digit c = true ->
  Js.digits_value acc (s ++ String c EmptyString) =
  option_map (fun v => 10 * v + Js.digit_value c) (Js.digits_value acc s).
Proof.
  intros Hc. revert acc. induction s as [|x s IH]; intros acc; simpl.
  - now rewrite Hc.
  - destruct (Js.is_digit x); [apply IH | reflexivity].
Qed.

Lemma digits_value_digits_of (n : Z) : 0 <= n -> Js.digits_value 0 (Js.digits_of n) = Some n.
Proof.
  intros Hn. remember (Z.to_nat n) as m eqn:Hm. revert n Hn Hm.
  induction m as [m IH] using lt_wf_ind. intros n Hn Hm.
  rewrite digits_of_step. destruct (Z.ltb_spec n 10) as [Hs | Hb].
  - cbn [Js.digits_value]. rewrite digit_char_is_digit, digit_char_value by lia. f_equal; lia.
  - assert (Hd : 0 <= n / 10) by (apply Z.div_pos; lia).
    assert (Hlt : n / 10 < n) by (apply Z.div_lt; lia).
    pose proof (Z.mod_pos_bound n 10 ltac:(lia)) as Hmod.
    rewrite digits_value_app by (apply digit_char_is_digit; lia).
    rewrite (IH (Z.to_nat (n / 10)) ltac:(lia) (n / 10) Hd eq_refl).
    cbn [option_map]. rewrite digit_char_value by lia. f_equal.
    pose proof (Z.div_mod n 10 ltac:(lia)). lia.
Qed.

(** A printed integer consists of digits after an optional minus sign. *)
Lemma print_numeric (n : Z) : all_chars numch (Js.print n) = true.
Proof.
  unfold Js.print. destruct (Z.ltb_spec n 0).
  - simpl. apply (all_chars_weaken Js.is_digit); [|apply digits_of_digits; lia].
    intros c Hc. unfold numch. now rewrite Hc.
  - apply (all_chars_weaken Js.is_digit); [|apply digits_of_digits; lia].
    intros c Hc. unfold numch. now rewrite Hc.
Qed.

Lemma print_nonempty (n : Z) : Js.is_empty (Js.print n) = false.
Proof. unfold Js.print. destruct (n <? 0); [reflexivity | apply digits_of_nonempty]. Qed.

(** ** Trimming *)

Lemma ltrim_id (s : string) : starts_solid s = true -> Js.ltrim s = s.
Proof.
  destruct s as [|c s]; simpl; [reflexivity|]. unfold solid.
  intros H. apply negb_true_iff in H. now rewrite H.
Qed.

Lemma rtrim_id (s : string) : ends_solid s = true -> Js.rtrim s = s.
Proof.
  induction s as [|c s IH]; [reflexivity|].
  intros H. cbn [Js.rtrim]. destruct s as [|d s].
  - simpl in *. unfold solid in H. apply negb_true_iff in H. now rewrite H.
  - change (ends_solid (String c (String d s))) with (ends_solid (String d s)) in H.
    rewrite (IH H). reflexivity.
Qed.

Lemma trim_id (s : string) : starts_solid s = true -> ends_solid s = true -> Js.trim s = s.
Proof. intros Hs He. unfold Js.trim. now rewrite ltrim_id, rtrim_id. Qed.

Lemma ends_solid_app (a b : string) :
  Js.is_empty b = false -> ends_solid (a ++ b) = ends_solid b.
Proof.
  intros Hb. induction a as [|c a IH]; [reflexivity|].
  simpl. destruct (a ++ b)%string eqn:Hab.
  - destruct a, b; simpl in *; discriminate.
  - exact IH.
Qed.

Lemma all_solid_ends (s : string) :
  all_chars solid s = true -> Js.is_empty s = false -> ends_solid s = true.
Proof.
  induction s as [|c s IH]; [discriminate|].
  intros H _. simpl in H. apply andb_true_iff in H. destruct H as [Hc Hs].
  destruct s as [|d s]; [exact Hc|]. apply IH; [exact Hs | reflexivity].
Qed.

Lemma all_solid_starts (s : string) :
  all_chars solid s = true -> Js.is_empty s = false -> starts_solid s = true.
Proof.
  destruct s as [|c s]; [discriminate|]. simpl. intros H _.
  apply andb_true_iff in H. tauto.
Qed.

Lemma trim_solid (s : string) : all_chars solid s = true -> Js.trim s = s.
Proof.
  intros H. destruct (Js.is_empty s) eqn:He.
  - destruct s; [reflexivity | discriminate].
  - apply trim_id; [apply all_solid_starts | apply all_solid_ends]; assumption.
Qed.

(** White space around a solid core is trimmed away. *)
Lemma trim_pad_left (s : string) : Js.trim (String " " s) = Js.trim s.
Proof. reflexivity. Qed.

(** ** Printed numbers read back *)

Lemma print_solid (n : Z) : all_chars solid (Js.print n) = true.
Proof. apply (all_chars_weaken numch); [apply numch_solid | apply print_numeric]. Qed.

Lemma unsigned_value_digits_of (n : Z) : 0 <= n -> Js.unsigned_value (Js.digits_of n) = Js.Int n.
Proof.
  intros Hn. unfold Js.unsigned_value.
  now rewrite digits_of_nonempty, digits_value_digits_of.
Qed.

Lemma digits_first (n : Z) :
  0 <= n -> exists c rest, Js.digits_of n = String c rest /\ Js.is_digit c = true.
Proof.
  intros Hn. pose proof (digits_of_digits n Hn) as Hd.
  pose proof (digits_of_nonempty n) as Hne.
  destruct (Js.digits_of n) as [|c rest]; [discriminate|].
  simpl in Hd. apply andb_true_iff in Hd. exists c, rest. tauto.
Qed.

Lemma digit_not_sign (c : ascii) :
  Js.is_digit c = true -> Ascii.eqb c "-" = false /\ Ascii.eqb c "+" = false.
Proof. by_cases_on_char c; intros _; split; reflexivity. Qed.

Lemma Number_print (n : Z) : Js.Number (Js.print n) = Js.Int n.
Proof.
  unfold Js.Number. rewrite (trim_solid _ (print_solid n)).
  unfold Js.print. destruct (Z.ltb_spec n 0) as [Hneg | Hpos].
  - cbn. rewrite unsigned_value_digits_of by lia. f_equal. lia.
  - destruct (digits_first n Hpos) as [c [rest [Heq Hc]]].
    pose proof (unsigned_value_digits_of n Hpos) as Hv. rewrite Heq in *.
    destruct (digit_not_sign c Hc) as [H1 H2]. now rewrite H1, H2.
Qed.

Lemma print_not_dash (n : Z) : String.eqb (Js.print n) "-" = false.
Proof.
  unfold Js.print. destruct (Z.ltb_spec n 0) as [Hneg | Hpos].
  - pose proof (digits_of_nonempty (- n)) as Hne.
    destruct (Js.digits_of (- n)); [discriminate | reflexivity].
  - destruct (digits_first n Hpos) as [c [rest [Heq Hc]]]. rewrite Heq.
    destruct (digit_not_sign c Hc) as [H1 _]. simpl. now rewrite H1.
Qed.

(** ** Splitting *)

Lemma cons_first_prepend (c : ascii) (s : string) (pieces : list string) :
  Js.cons_first c (prepend_first s pieces) = prepend_first (String c s) pieces.
Proof. destruct pieces; reflexivity. Qed.

Lemma prepend_first_empty (pieces : list string) :
  pieces <> [] -> prepend_first "" pieces = pieces.
Proof. destruct pieces; [congruence | reflexivity]. Qed.

Lemma split_char_nonempty (sep : ascii) (s : string) : Js.split_char sep s <> [].
Proof.
  induction s as [|c s IH]; simpl; [discriminate|].
  destruct (Ascii.eqb c sep); [discriminate|].
  destruct (Js.split_char sep s); [congruence | discriminate].
Qed.

Lemma split_char_app (sep : ascii) (a rest : string) :
  all_chars (not_char sep) a = true ->
  Js.split_char sep (a ++ rest) = prepend_first a (Js.split_char sep rest).
Proof.
  induction a as [|c a IH]; intros H.
  - simpl. symmetry. apply prepend_first_empty, split_char_nonempty.
  - simpl in H. apply andb_true_iff in H. destruct H as [Hc Ha].
    unfold not_char in Hc. apply negb_true_iff in Hc.
    cbn [append Js.split_char]. rewrite Hc, (IH Ha). apply cons_first_prepend.
Qed.

Lemma split_char_whole (sep : ascii) (a : string) :
  all_chars (not_char sep) a = true -> Js.split_char sep a = [a].
Proof.
  intros H. rewrite <- (append_nil_r a) at 1. rewrite split_char_app by exact H.
  simpl. now rewrite append_nil_r.
Qed.

Lemma split_lines_nonempty (s : string) : Js.split_lines s <> [].
Proof.
  induction s as [|c s IH]; simpl; [discriminate|].
  destruct (Ascii.eqb c Js.LF); [discriminate|].
  destruct s as [|d s].
  - discriminate.
  - destruct (Ascii.eqb c Js.CR && Ascii.eqb d Js.LF); [discriminate|].
    destruct (Js.split_lines (String d s)); [congruence | discriminate].
Qed.

Lemma split_lines_app (a rest : string) :
  all_chars plain a = true ->
  Js.split_lines (a ++ rest) = prepend_first a (Js.split_lines rest).
Proof.
  induction a as [|c a IH]; intros H.
  - simpl. symmetry. apply prepend_first_empty, split_lines_nonempty.
  - simpl in H. apply andb_true_iff in H. destruct H as [Hc Ha].
    unfold plain in Hc. apply andb_true_iff in Hc. destruct Hc as [Hlf Hcr].
    apply negb_true_iff in Hlf, Hcr.
    cbn [append]. specialize (IH Ha).
    change (Js.split_lines (String c (a ++ rest)))
      with (if Ascii.eqb c Js.LF then EmptyString :: Js.split_lines (a ++ rest)
            else match (a ++ rest)%string with
                 | String c' rest' =>
                     if Ascii.eqb c Js.CR && Ascii.eqb c' Js.LF
                     then EmptyString :: Js.split_lines rest'
                     else Js.cons_first c (Js.split_lines (a ++ rest))
                 | EmptyString => Js.cons_first c (Js.split_lines (a ++ rest))
                 end).
    rewrite Hlf, Hcr. cbn [andb].
    destruct (a ++ rest)%string eqn:Hab; rewrite <- ?Hab in *;
      rewrite IH; apply cons_first_prepend.
Qed.

Lemma split_lines_break (rest : string) :
  Js.split_lines (String Js.LF rest) = EmptyString :: Js.split_lines rest.
Proof. reflexivity. Qed.

Lemma split_lines_unlines (ls : list string) :
  Forall (fun l => all_chars plain l = true) ls ->
  Js.split_lines (unlines ls) = ls ++ [EmptyString].
Proof.
  induction 1 as [|l ls Hl Hls IH]; [reflexivity|].
  cbn [unlines]. rewrite split_lines_app by exact Hl.
  rewrite split_lines_break. cbn [prepend_first]. rewrite append_nil_r, IH. reflexivity.
Qed.

Lemma split_ws_from_nonempty (b : bool) (s : string) : Js.split_ws_from b s <> [].
Proof.
  revert b. induction s as [|c s IH]; intros b; simpl; [discriminate|].
  destruct (Js.is_white c).
  - destruct b; [apply IH | discriminate].
  - specialize (IH false). destruct (Js.split_ws_from false s); [congruence | discriminate].
Qed.

Lemma split_ws_from_solid (b : bool) (tok rest : string) :
  all_chars solid tok = true -> Js.is_empty tok = false ->
  Js.split_ws_from b (tok ++ rest) = prepend_first tok (Js.split_ws_from false rest).
Proof.
  revert b. induction tok as [|c tok IH]; intros b H Hne; [discriminate|].
  simpl in H. apply andb_true_iff in H. destruct H as [Hc Ht].
  unfold solid in Hc. apply negb_true_iff in Hc.
  cbn [append Js.split_ws_from]. rewrite Hc.
  destruct tok as [|d tok].
  - cbn [append]. destruct (Js.split_ws_from false rest) eqn:Hr.
    + now destruct (split_ws_from_nonempty false rest).
    + reflexivity.
  - rewrite (IH false Ht eq_refl). apply cons_first_prepend.
Qed.

(** Solid tokens joined by single spaces split back into the tokens. *)
Lemma split_ws_join (tokens : list string) :
  tokens <> [] ->
  Forall (fun t => all_chars solid t = true /\ Js.is_empty t = false) tokens ->
  forall b, Js.split_ws_from b (Js.join " " tokens) = tokens.
Proof.
  intros Hne Hall. induction Hall as [|t ts [Ht Htne] Hts IH]; [congruence|].
  intros b. destruct ts as [|t2 ts].
  - cbn [Js.join String.concat]. rewrite <- (append_nil_r t) at 1.
    rewrite split_ws_from_solid by assumption. simpl. now rewrite append_nil_r.
  - change (Js.join " " (t :: t2 :: ts))
      with (t ++ String " " (Js.join " " (t2 :: ts)))%string.
    rewrite split_ws_from_solid by assumption.
    cbn [Js.split_ws_from Js.is_white]. 
    change (Js.is_white " ") with true. cbn [prepend_first].
    rewrite append_nil_r. f_equal. apply IH. discriminate.
Qed.

(** * The snapshot text *)

Lemma unlines_app (a b : list string) : unlines (a ++ b) = (unlines a ++ unlines b)%string.
Proof.
  induction a as [|l a IH]; [reflexivity|].
  cbn [app unlines]. rewrite IH, append_assoc. reflexivity.
Qed.

Lemma join_unlines (meta : list string) :
  meta <> [] ->
  (Js.join Serializer.nl meta ++ Serializer.nl)%string = unlines meta.
Proof.
  induction meta as [|l meta IH]; [congruence|]. intros _.
  destruct meta as [|l2 meta].
  - reflexivity.
  - change (Js.join Serializer.nl (l :: l2 :: meta))
      with (l ++ Serializer.nl ++ Js.join Serializer.nl (l2 :: meta))%string.
    rewrite !append_assoc, IH by discriminate. reflexivity.
Qed.

Lemma serialize_unlines (p : Serializer.Params) :
  Serializer.serializeSnapshot p = unlines (lines_of p).
Proof.
  unfold Serializer.serializeSnapshot, lines_of.
  set (meta := match Serializer.queuedRolls p with
               | [] => _
               | _ :: _ => _
               end).
  assert (Hmeta : meta =
            [ ("# Phase: " ++ Serializer.phase p)%string; dice_line (Serializer.currentDice p) ] ++
            lock_lines (Serializer.advantageLock p) ++ rolls_lines (Serializer.queuedRolls p)).
  { unfold meta, lock_lines, rolls_lines, lock_line, rolls_line, dice_line.
    destruct (Serializer.advantageLock p) as [l|];
      [destruct (negb (lock_squareNumber l =? 0))|];
      destruct (Serializer.queuedRolls p); reflexivity. }
  assert (Hlen : (0 <? length meta)%nat = true) by (rewrite Hmeta; reflexivity).
  rewrite Hlen. clearbody meta.
  match goal with |- _ = unlines (?l ++ ?x ++ ?y) =>
    replace (l ++ x ++ y) with (firstn 11 l ++ meta) by (rewrite Hmeta; reflexivity) end.
  cbn [firstn].
  match goal with |- _ = unlines (?base ++ meta) => rewrite (unlines_app base meta) end.
  rewrite <- (join_unlines meta) by (rewrite Hmeta; discriminate).
  unfold squares_text_of, Serializer.nl. cbn [unlines].
  cbn [append]. repeat (rewrite append_assoc; cbn [append]). reflexivity.
Qed.

Lemma textch_plain (c : ascii) : textch c = true -> plain c = true.
Proof. by_cases_on_char c. Qed.

Lemma numch_textch (c : ascii) : numch c = true -> textch c = true.
Proof. by_cases_on_char c. Qed.

Lemma all_chars_join (f : ascii -> bool) (sep : string) (l : list string) :
  all_chars f sep = true -> Forall (fun s => all_chars f s = true) l ->
  all_chars f (Js.join sep l) = true.
Proof.
  intros Hsep Hall. induction Hall as [|s l Hs Hl IH]; [reflexivity|].
  destruct l as [|s2 l]; [exact Hs|].
  change (Js.join sep (s :: s2 :: l)) with (s ++ sep ++ Js.join sep (s2 :: l))%string.
  now rewrite !all_chars_app, Hs, Hsep, IH.
Qed.

Lemma print_textch (n : Z) : all_chars textch (Js.print n) = true.
Proof. apply (all_chars_weaken numch); [apply numch_textch | apply print_numeric]. Qed.

Lemma print_or_dash_numeric (v : option Z) :
  all_chars numch (Serializer.print_or_dash v) = true.
Proof. destruct v; [apply print_numeric | reflexivity]. Qed.

Lemma print_or_dash_textch (v : option Z) :
  all_chars textch (Serializer.print_or_dash v) = true.
Proof. apply (all_chars_weaken numch); [apply numch_textch | apply print_or_dash_numeric]. Qed.

Lemma print_or_dash_solid (v : option Z) :
  all_chars solid (Serializer.print_or_dash v) = true.
Proof. apply (all_chars_weaken numch); [apply numch_solid | apply print_or_dash_numeric]. Qed.

Lemma print_or_dash_nonempty (v : option Z) :
  Js.is_empty (Serializer.print_or_dash v) = false.
Proof. destruct v; [apply print_nonempty | reflexivity]. Qed.

Lemma squares_text_textch (b : Board.t) : all_chars textch (squares_text_of b) = true.
Proof.
  apply all_chars_join; [reflexivity|]. apply Forall_forall. intros s Hs.
  apply in_map_iff in Hs. destruct Hs as [n [<- _]]. apply print_textch.
Qed.

Lemma roll_text_solid (r : QueuedRoll) : all_chars solid (Serializer.roll_text r) = true.
Proof.
  unfold Serializer.roll_text. destruct (q_d2 r).
  - now rewrite !all_chars_app, !print_solid.
  - apply print_solid.
Qed.

Lemma solid_textch (c : ascii) : solid c = true -> textch c = true.
Proof. unfold textch. now intros ->. Qed.

Lemma rolls_text_textch (rolls : list QueuedRoll) :
  all_chars textch (Js.join " | " (map Serializer.roll_text rolls)) = true.
Proof.
  apply all_chars_join; [reflexivity|]. apply Forall_forall. intros s Hs.
  apply in_map_iff in Hs. destruct Hs as [r [<- _]].
  apply (all_chars_weaken solid); [apply solid_textch | apply roll_text_solid].
Qed.

Lemma lines_of_plain (p : Serializer.Params) :
  params_ok p -> Forall (fun l => all_chars plain l = true) (lines_of p).
Proof.
  intros [_ [_ [ph Hph]]].
  assert (Htext : Forall (fun l => all_chars textch l = true) (lines_of p)).
  { unfold lines_of. rewrite Hph. apply Forall_app. split; [|apply Forall_app; split].
    - repeat constructor;
        rewrite ?all_chars_app, ?squares_text_textch, ?print_textch; try reflexivity.
      + now destruct (Serializer.firstTurnId p).
      + now destruct (Serializer.nextTurnId p).
      + now destruct ph.
      + unfold dice_line. now rewrite !all_chars_app, !print_or_dash_textch.
    - unfold lock_lines. destruct (Serializer.advantageLock p) as [l|]; [|constructor].
      destruct (negb (lock_squareNumber l =? 0)); [|constructor].
      repeat constructor. unfold lock_line.
      rewrite !all_chars_app, print_textch.
      now destruct (lock_playerId l), (lock_unlocked l).
    - unfold rolls_lines. destruct (Serializer.queuedRolls p) as [|r rs] eqn:Hr; [constructor|].
      repeat constructor. unfold rolls_line. rewrite all_chars_app, rolls_text_textch.
      reflexivity. }
  eapply Forall_impl; [|exact Htext].
  intros l. apply all_chars_weaken, textch_plain.
Qed.

Lemma ends_solid_nonempty (s : string) : ends_solid s = true -> Js.is_empty s = false.
Proof. destruct s; [discriminate | reflexivity]. Qed.

Lemma ends_solid_cons (c : ascii) (rest : string) :
  ends_solid rest = true -> ends_solid (String c rest) = true.
Proof. intros H. destruct rest; [discriminate | exact H]. Qed.

Lemma ends_solid_app_r (a b : string) : ends_solid b = true -> ends_solid (a ++ b) = true.
Proof.
  intros H. rewrite ends_solid_app; [exact H | now apply ends_solid_nonempty].
Qed.

Lemma ends_solid_join (sep : string) (tokens : list string) :
  tokens <> [] ->
  Forall (fun t => all_chars solid t = true /\ Js.is_empty t = false) tokens ->
  ends_solid (Js.join sep tokens) = true.
Proof.
  intros Hne Hall. induction Hall as [|t ts [Ht Htne] Hts IH]; [congruence|].
  destruct ts as [|t2 ts].
  - now apply all_solid_ends.
  - change (Js.join sep (t :: t2 :: ts)) with (t ++ sep ++ Js.join sep (t2 :: ts))%string.
    apply ends_solid_app_r, ends_solid_app_r, IH. discriminate.
Qed.

Lemma printed_tokens (l : list Z) :
  Forall (fun t => all_chars solid t = true /\ Js.is_empty t = false) (map Js.print l).
Proof.
  apply Forall_forall. intros s Hs. apply in_map_iff in Hs. destruct Hs as [n [<- _]].
  split; [apply print_solid | apply print_nonempty].
Qed.

Lemma toNumberArrayFormat_nonempty (b : Board.t) :
  1 <= Board.size b -> map Js.print (Board.toNumberArrayFormat b) <> [].
Proof.
  intros H. unfold Board.toNumberArrayFormat. rewrite range_incl_cons by lia. discriminate.
Qed.

Lemma squares_text_ends (b : Board.t) : 1 <= Board.size b -> ends_solid (squares_text_of b) = true.
Proof.
  intros H. apply ends_solid_join; [now apply toNumberArrayFormat_nonempty | apply printed_tokens].
Qed.

Lemma print_ends (n : Z) : ends_solid (Js.print n) = true.
Proof. apply all_solid_ends; [apply print_solid | apply print_nonempty]. Qed.

Lemma roll_texts_tokens (rolls : list QueuedRoll) :
  Forall (fun t => all_chars solid t = true /\ Js.is_empty t = false)
         (map Serializer.roll_text rolls).
Proof.
  apply Forall_forall. intros s Hs. apply in_map_iff in Hs. destruct Hs as [r [<- _]].
  split; [apply roll_text_solid|].
  unfold Serializer.roll_text. destruct (q_d2 r).
  - pose proof (print_nonempty (q_d1 r)). destruct (Js.print (q_d1 r)); [discriminate | reflexivity].
  - apply print_nonempty.
Qed.

Ltac ends_tac :=
  repeat match goal with
         | |- ends_solid (String _ EmptyString) = true => reflexivity
         | |- ends_solid (String _ _) = true => apply ends_solid_cons
         | |- ends_solid (append _ _) = true => apply ends_solid_app_r
         end.

Lemma lines_trimmed (p : Serializer.Params) :
  params_ok p ->
  map Js.trim (Js.split_lines (Serializer.serializeSnapshot p)) = trimmed_lines p.
Proof.
  intros Hok. rewrite serialize_unlines, split_lines_unlines by (now apply lines_of_plain).
  destruct Hok as [Hc [Hh [ph Hph]]].
  unfold lines_of, trimmed_lines. rewrite <- !app_assoc, !map_app. cbn [map app].
  assert (Hsq : forall b, 1 <= Board.size b ->
            Js.trim ("   Squares: " ++ squares_text_of b) = ("Squares: " ++ squares_text_of b)%string).
  { intros b Hb. cbn [append]. rewrite !trim_pad_left.
    apply trim_id; [reflexivity|]. ends_tac. now apply squares_text_ends. }
  assert (Hsc : forall n,
            Js.trim ("   Score: " ++ Js.print n) = ("Score: " ++ Js.print n)%string).
  { intros n. cbn [append]. rewrite !trim_pad_left.
    apply trim_id; [reflexivity|]. ends_tac. apply print_ends. }
  rewrite !Hsq, !Hsc by assumption.
  repeat (f_equal; []).
  f_equal; [now destruct (Serializer.firstTurnId p)|].
  f_equal; [now destruct (Serializer.nextTurnId p)|].
  f_equal. f_equal; [rewrite Hph; now destruct ph|].
  f_equal.
  { unfold dice_line. apply trim_id; [reflexivity|]. cbn [append]. ends_tac. }
  f_equal.
  - unfold lock_lines. destruct (Serializer.advantageLock p) as [l|]; [|reflexivity].
    destruct (negb (lock_squareNumber l =? 0)); [|reflexivity].
    cbn [map]. f_equal. unfold lock_line. apply trim_id; [reflexivity|].
    cbn [append]. ends_tac. now destruct (lock_unlocked l).
  - f_equal. unfold rolls_lines. destruct (Serializer.queuedRolls p) as [|r rs]; [reflexivity|].
    cbn [map]. f_equal. unfold rolls_line. apply trim_id; [reflexivity|].
    cbn [append]. ends_tac. apply ends_solid_join; [discriminate | apply roll_texts_tokens].
Qed.

(** ** Reading the pieces back *)

Lemma print_without (x : ascii) (n : Z) :
  numch x = false -> all_chars (not_char x) (Js.print n) = true.
Proof.
  intros Hx. apply (all_chars_weaken numch); [|apply print_numeric].
  intros c. now apply numch_not.
Qed.

Lemma textch_without (x : ascii) (c : ascii) :
  textch x = true -> numch x = false -> Ascii.eqb x " " = false ->
  numch c = true \/ Ascii.eqb c " " = true -> not_char x c = true.
Proof.
  intros _ Hx Hsp [Hc | Hc].
  - now apply numch_not.
  - unfold not_char. apply Ascii.eqb_eq in Hc. subst c.
    destruct (Ascii.eqb_spec " "%char x) as [<- | Hne]; [|reflexivity].
    rewrite Ascii.eqb_refl in Hsp. discriminate.
Qed.

(** [key + ":" + rest] has [rest] after its first colon. *)
Lemma afterColon_key (key rest : string) :
  all_chars (not_char ":") key = true -> all_chars (not_char ":") rest = true ->
  Serializer.afterColon (key ++ String ":" rest) = Some rest.
Proof.
  intros Hk Hr. unfold Serializer.afterColon.
  rewrite split_char_app by exact Hk.
  cbn [Js.split_char]. rewrite Ascii.eqb_refl.
  rewrite (split_char_whole ":" rest Hr). reflexivity.
Qed.

Lemma starts_solid_app (a b : string) : starts_solid a = true -> starts_solid (a ++ b) = true.
Proof. destruct a; [discriminate | intros H; exact H]. Qed.

Lemma starts_solid_join (sep : string) (tokens : list string) :
  tokens <> [] ->
  Forall (fun t => all_chars solid t = true /\ Js.is_empty t = false) tokens ->
  starts_solid (Js.join sep tokens) = true.
Proof.
  intros Hne Hall. destruct Hall as [|t ts [Ht Htne] Hts]; [congruence|].
  destruct ts as [|t2 ts].
  - now apply all_solid_starts.
  - change (Js.join sep (t :: t2 :: ts)) with (t ++ sep ++ Js.join sep (t2 :: ts))%string.
    apply starts_solid_app. now apply all_solid_starts.
Qed.

Lemma squares_text_without_colon (b : Board.t) :
  all_chars (not_char ":") (squares_text_of b) = true.
Proof.
  apply all_chars_join; [reflexivity|]. apply Forall_forall. intros s Hs.
  apply in_map_iff in Hs. destruct Hs as [n [<- _]]. now apply print_without.
Qed.

Lemma filter_non_empty_tokens (tokens : list string) :
  Forall (fun t => all_chars solid t = true /\ Js.is_empty t = false) tokens ->
  filter Serializer.non_empty tokens = tokens.
Proof.
  induction 1 as [|t ts [_ Hne] _ IH]; [reflexivity|].
  cbn [filter]. unfold Serializer.non_empty at 1. rewrite Hne. cbn [negb]. now rewrite IH.
Qed.

Lemma parseSquares_line (b : Board.t) :
  1 <= Board.size b ->
  Serializer.parseSquares ("Squares: " ++ squares_text_of b) =
  Ok (map Js.Int (Board.toNumberArrayFormat b)).
Proof.
  intros Hb. unfold Serializer.parseSquares.
  change ("Squares: " ++ squares_text_of b)%string
    with ("Squares" ++ String ":" (String " " (squares_text_of b)))%string.
  rewrite afterColon_key;
    [| reflexivity | cbn [all_chars]; now rewrite squares_text_without_colon].
  cbn [Js.is_empty]. rewrite trim_pad_left.
  pose proof (printed_tokens (Board.toNumberArrayFormat b)) as Htok.
  pose proof (toNumberArrayFormat_nonempty b Hb) as Hne.
  rewrite trim_id;
    [| now apply starts_solid_join | now apply ends_solid_join].
  unfold Js.split_ws, squares_text_of. rewrite split_ws_join by assumption.
  rewrite filter_non_empty_tokens by exact Htok.
  rewrite map_map. f_equal. apply map_ext. intros n. apply Number_print.
Qed.

Lemma parseScore_line (n : Z) :
  Serializer.parseScore ("Score: " ++ Js.print n) = Ok n.
Proof.
  unfold Serializer.parseScore.
  change ("Score: " ++ Js.print n)%string
    with ("Score" ++ String ":" (String " " (Js.print n)))%string.
  rewrite afterColon_key;
    [| reflexivity | cbn [all_chars]; now rewrite print_without].
  cbn [Js.is_empty]. rewrite trim_pad_left, (trim_solid _ (print_solid n)), Number_print.
  reflexivity.
Qed.

Lemma dash_or_number_print (v : option Z) :
  Serializer.dash_or_number (Some (Serializer.print_or_dash v)) = option_map Js.Int v.
Proof.
  destruct v as [n|]; cbn [Serializer.print_or_dash Serializer.dash_or_number option_map].
  - now rewrite print_not_dash, Number_print.
  - reflexivity.
Qed.

(** ** The [sum=] pattern *)

Lemma match_sum_skip (pre rest : string) :
  all_chars not_s pre = true -> Js.match_sum (pre ++ rest) = Js.match_sum rest.
Proof.
  induction pre as [|c pre IH]; intros H; [reflexivity|].
  simpl in H. apply andb_true_iff in H. destruct H as [Hc Hp].
  cbn [append Js.match_sum]. unfold Js.prefix_ci. cbn [Js.toLowerCase String.prefix].
  unfold not_s in Hc. apply negb_true_iff in Hc.
  destruct (ascii_dec "s" (Js.lower c)) as [He | Hne].
  - rewrite <- He in Hc. discriminate.
  - now apply IH.
Qed.

Lemma numch_not_s (c : ascii) : numch c = true -> not_s c = true.
Proof. by_cases_on_char c. Qed.

Lemma take_while_numeric (c rest : string) :
  all_chars numch c = true ->
  Js.take_while Js.sum_class (c ++ String ")" rest) = c.
Proof.
  induction c as [|x c IH]; intros H; [reflexivity|].
  simpl in H. apply andb_true_iff in H. destruct H as [Hx Hc].
  cbn [append Js.take_while].
  replace (Js.sum_class x) with true by (symmetry; exact Hx).
  now rewrite IH.
Qed.

Lemma match_sum_here (c rest : string) :
  all_chars numch c = true -> Js.is_empty c = false ->
  Js.match_sum ("sum=" ++ c ++ String ")" rest) = Some c.
Proof.
  intros Hc Hne. cbn [append].
  change (Js.match_sum (String "s" (String "u" (String "m" (String "=" (c ++ String ")" rest))))))
    with (match (if Js.prefix_ci "sum=" (String "s" (String "u" (String "m" (String "=" (c ++ String ")" rest)))))
                 then let run := Js.take_while Js.sum_class (c ++ String ")" rest) in
                      if Js.is_empty run then None else Some run
                 else None) with
          | Some run => Some run
          | None => Js.match_sum (String "u" (String "m" (String "=" (c ++ String ")" rest))))
          end).
  unfold Js.prefix_ci. cbn [Js.toLowerCase String.prefix].
  change (Js.lower "s") with "s"%char. change (Js.lower "u") with "u"%char.
  change (Js.lower "m") with "m"%char. change (Js.lower "=") with "="%char.
  destruct (ascii_dec "s" "s"); [|congruence].
  destruct (ascii_dec "u" "u"); [|congruence].
  destruct (ascii_dec "m" "m"); [|congruence].
  destruct (ascii_dec "=" "="); [|congruence].
  cbv zeta. rewrite take_while_numeric by exact Hc.
  match goal with |- context [String.prefix EmptyString ?x] =>
    replace (String.prefix EmptyString x) with true by (now destruct x) end.
  now rewrite Hne.
Qed.

(** ** The metadata lines *)

Lemma print_or_dash_token (v : option Z) :
  all_chars solid (Serializer.print_or_dash v) = true /\
  Js.is_empty (Serializer.print_or_dash v) = false.
Proof. split; [apply print_or_dash_solid | apply print_or_dash_nonempty]. Qed.

Lemma print_or_dash_not_s (v : option Z) :
  all_chars not_s (Serializer.print_or_dash v) = true.
Proof.
  apply (all_chars_weaken numch); [apply numch_not_s | apply print_or_dash_numeric].
Qed.

Lemma meta_step_phase (m : Serializer.Meta) (ph : GameSession.Phase) :
  Serializer.meta_step m ("# Phase: " ++ GameSession.Phase_string ph) =
  Serializer.mkMeta (GameSession.Phase_string ph) (Serializer.m_currentDice m)
    (Serializer.m_advantageLock m) (Serializer.m_queuedRolls m).
Proof. destruct ph; reflexivity. Qed.

Lemma meta_step_dice (m : Serializer.Meta) (d : CurrentDice) :
  Serializer.meta_step m (dice_line d) =
  Serializer.mkMeta (Serializer.m_phase m) (expected_dice d)
    (Serializer.m_advantageLock m) (Serializer.m_queuedRolls m).
Proof.
  unfold dice_line, expected_dice.
  set (a := Serializer.print_or_dash (cd_d1 d)).
  set (b := Serializer.print_or_dash (cd_d2 d)).
  set (c := Serializer.print_or_dash (cd_sum d)).
  destruct (print_or_dash_token (cd_d1 d)) as [Ha Hane].
  destruct (print_or_dash_token (cd_d2 d)) as [Hb Hbne].
  destruct (print_or_dash_token (cd_sum d)) as [Hc Hcne].
  fold a in Ha, Hane. fold b in Hb, Hbne. fold c in Hc, Hcne.
  set (t3 := ("(sum=" ++ c ++ ")")%string).
  assert (Ht3 : all_chars solid t3 = true /\ Js.is_empty t3 = false).
  { unfold t3. split; [|reflexivity]. cbn [append all_chars].
    rewrite all_chars_app, Hc. reflexivity. }
  set (core := (a ++ String " " (b ++ String " " t3))%string).
  assert (Hcore_start : starts_solid core = true).
  { unfold core. apply starts_solid_app. now apply all_solid_starts. }
  assert (Hcore_end : ends_solid core = true).
  { unfold core, t3. cbn [append]. ends_tac. }
  unfold Serializer.meta_step.
  assert (Hbody : Js.trim (Js.drop 1 ("# CurrentDice: " ++ a ++ " " ++ b ++ " (sum=" ++ c ++ ")")) =
                  ("CurrentDice: " ++ core)%string).
  { change (Js.drop 1 ("# CurrentDice: " ++ a ++ " " ++ b ++ " (sum=" ++ c ++ ")"))
      with (String " " ("CurrentDice: " ++ core))%string.
    rewrite trim_pad_left. apply trim_id; [reflexivity|].
    cbn [append]. ends_tac. exact Hcore_end. }
  rewrite Hbody.
  replace (Serializer.startsWith "Phase:" ("CurrentDice: " ++ core)) with false by reflexivity.
  replace (Serializer.startsWith "CurrentDice:" ("CurrentDice: " ++ core)) with true by reflexivity.
  replace (Js.replace_first "CurrentDice:" "" ("CurrentDice: " ++ core))
    with (String " " core) by reflexivity.
  rewrite trim_pad_left, (trim_id core Hcore_start Hcore_end).
  assert (Hsplit : Js.split_ws core = [a; b; t3]).
  { change core with (Js.join " " [a; b; t3]). apply split_ws_join; [discriminate|].
    repeat first [apply Forall_nil | apply Forall_cons]; first [assumption | split; assumption]. }
  rewrite Hsplit. cbn [nth_error].
  unfold a at 1, b at 1. rewrite !dash_or_number_print.
  assert (Hsum : Js.match_sum ("CurrentDice: " ++ core) = Some c).
  { unfold core, t3.
    change ("CurrentDice: " ++ a ++ String " " (b ++ String " " ("(sum=" ++ c ++ ")")))%string
      with ("CurrentDice: " ++ (a ++ (" " ++ (b ++ (" (" ++ ("sum=" ++ c ++ String ")" ""))))))%string.
    rewrite (match_sum_skip "CurrentDice: ") by reflexivity.
    rewrite (match_sum_skip a) by apply print_or_dash_not_s.
    rewrite (match_sum_skip " ") by reflexivity.
    rewrite (match_sum_skip b) by apply print_or_dash_not_s.
    rewrite (match_sum_skip " (") by reflexivity.
    apply match_sum_here; [apply print_or_dash_numeric | exact Hcne]. }
  rewrite Hsum.
  pose proof (dash_or_number_print (cd_sum d)) as Hd.
  unfold Serializer.dash_or_number in Hd. fold c in Hd.
  now rewrite Hd.
Qed.

Lemma meta_step_lock (m : Serializer.Meta) (l : AdvantageLock) :
  Serializer.meta_step m (lock_line l) =
  Serializer.mkMeta (Serializer.m_phase m) (Serializer.m_currentDice m)
    (Some (expected_lock l)) (Serializer.m_queuedRolls m).
Proof.
  unfold lock_line, expected_lock.
  set (P := PlayerId_string (lock_playerId l)).
  set (n := Js.print (lock_squareNumber l)).
  set (t3 := ("unlocked=" ++ Js.print_bool (lock_unlocked l))%string).
  assert (HP : all_chars solid P = true /\ Js.is_empty P = false)
    by (unfold P; now destruct (lock_playerId l)).
  assert (Hn : all_chars solid n = true /\ Js.is_empty n = false)
    by (split; [apply print_solid | apply print_nonempty]).
  assert (Ht3 : all_chars solid t3 = true /\ Js.is_empty t3 = false)
    by (unfold t3; now destruct (lock_unlocked l)).
  set (core := (P ++ String " " (n ++ String " " t3))%string).
  assert (Hcore_start : starts_solid core = true).
  { unfold core. apply starts_solid_app. now apply all_solid_starts. }
  assert (Hcore_end : ends_solid core = true).
  { unfold core. ends_tac. now apply all_solid_ends. }
  unfold Serializer.meta_step.
  assert (Hbody : Js.trim (Js.drop 1 ("# AdvantageLock: " ++ P ++ " " ++ n ++ " unlocked=" ++
                                      Js.print_bool (lock_unlocked l))) =
                  ("AdvantageLock: " ++ core)%string).
  { change (Js.drop 1 ("# AdvantageLock: " ++ P ++ " " ++ n ++ " unlocked=" ++
                       Js.print_bool (lock_unlocked l)))
      with (String " " ("AdvantageLock: " ++ core))%string.
    rewrite trim_pad_left. apply trim_id; [reflexivity|].
    cbn [append]. ends_tac. exact Hcore_end. }
  rewrite Hbody.
  replace (Serializer.startsWith "Phase:" ("AdvantageLock: " ++ core)) with false by reflexivity.
  replace (Serializer.startsWith "CurrentDice:" ("AdvantageLock: " ++ core)) with false
    by reflexivity.
  replace (Serializer.startsWith "AdvantageLock:" ("AdvantageLock: " ++ core)) with true
    by reflexivity.
  replace (Js.replace_first "AdvantageLock:" "" ("AdvantageLock: " ++ core))
    with (String " " core) by reflexivity.
  rewrite trim_pad_left, (trim_id core Hcore_start Hcore_end).
  assert (Hsplit : Js.split_ws core = [P; n; t3]).
  { change core with (Js.join " " [P; n; t3]). apply split_ws_join; [discriminate|].
    repeat first [apply Forall_nil | apply Forall_cons]; first [assumption | split; assumption]. }
  rewrite Hsplit. unfold n at 1. rewrite Number_print.
  replace (Js.contains_ci "true" t3) with (lock_unlocked l)
    by (unfold t3; now destruct (lock_unlocked l)).
  replace P with (id_text (lock_playerId l)) by (unfold P; now destruct (lock_playerId l)).
  reflexivity.
Qed.

(** ** Queued rolls *)

Lemma rtrim_space (s : string) : Js.rtrim (s ++ " ") = Js.rtrim s.
Proof.
  induction s as [|c s IH]; [reflexivity|].
  cbn [append Js.rtrim]. now rewrite IH.
Qed.

Lemma trim_space_around (t : string) :
  all_chars solid t = true -> Js.is_empty t = false ->
  Js.trim (t ++ " ") = t /\ Js.trim (String " " (t ++ " ")) = t /\ Js.trim (String " " t) = t.
Proof.
  intros Ht Hne.
  assert (Hs : starts_solid (t ++ " ") = true)
    by (apply starts_solid_app; now apply all_solid_starts).
  assert (H1 : Js.trim (t ++ " ") = t).
  { unfold Js.trim. rewrite ltrim_id by exact Hs. rewrite rtrim_space.
    apply rtrim_id. now apply all_solid_ends. }
  repeat split; [exact H1 | now rewrite trim_pad_left | rewrite trim_pad_left].
  now apply trim_solid.
Qed.

Lemma roll_text_without (x : ascii) (r : QueuedRoll) :
  numch x = false -> Ascii.eqb x "," = false ->
  all_chars (not_char x) (Serializer.roll_text r) = true.
Proof.
  intros Hx Hcomma. unfold Serializer.roll_text. destruct (q_d2 r).
  - rewrite !all_chars_app, !print_without by exact Hx. cbn [all_chars andb].
    unfold not_char. rewrite Ascii.eqb_sym, Hcomma. reflexivity.
  - now apply print_without.
Qed.

(** Splitting the joined roll texts at the bars. *)
Lemma split_rolls (rolls : list QueuedRoll) (lead : bool) :
  rolls <> [] ->
  map Js.trim
    (Js.split_char "|"
       ((if lead then " " else "") ++ Js.join " | " (map Serializer.roll_text rolls))) =
  map Serializer.roll_text rolls.
Proof.
  revert lead. induction rolls as [|r rolls IH]; intros lead Hne; [congruence|].
  pose proof (roll_texts_tokens [r]) as Htok. inversion Htok as [|? ? [Hs Hn] _]; subst.
  destruct (trim_space_around (Serializer.roll_text r) Hs Hn) as [T1 [T2 T3]].
  assert (Hbar : all_chars (not_char "|") (Serializer.roll_text r) = true)
    by (now apply roll_text_without).
  destruct rolls as [|r2 rolls].
  - cbn [map Js.join String.concat].
    rewrite split_char_whole.
    + cbn [map]. f_equal. destruct lead; [exact T3 | now apply trim_solid].
    + destruct lead; cbn [append all_chars]; now rewrite Hbar.
  - change (Js.join " | " (map Serializer.roll_text (r :: r2 :: rolls)))
      with (Serializer.roll_text r ++
            String " " (String "|"
              (String " " (Js.join " | " (map Serializer.roll_text (r2 :: rolls))))))%string.
    replace ((if lead then " " else "") ++ Serializer.roll_text r ++
             String " " (String "|" (String " "
               (Js.join " | " (map Serializer.roll_text (r2 :: rolls))))))%string
      with (((if lead then " " else "") ++ Serializer.roll_text r ++ " ") ++
            String "|" (String " "
               (Js.join " | " (map Serializer.roll_text (r2 :: rolls)))))%string
      by (rewrite !append_assoc; reflexivity).
    rewrite split_char_app.
    + cbn [Js.split_char]. rewrite Ascii.eqb_refl. cbn [prepend_first map].
      rewrite append_nil_r. f_equal.
      * destruct lead; [exact T2 | exact T1].
      * apply (IH true). discriminate.
    + destruct lead; cbn [append all_chars]; rewrite all_chars_app, Hbar; reflexivity.
Qed.

Lemma parse_roll_text (r : QueuedRoll) :
  Serializer.parse_roll (Serializer.roll_text r) = expected_roll r.
Proof.
  unfold Serializer.parse_roll, Serializer.roll_text, expected_roll.
  destruct (q_d2 r) as [b|].
  - change (Js.print (q_d1 r) ++ "," ++ Js.print b)%string
      with (Js.print (q_d1 r) ++ String "," (Js.print b))%string.
    rewrite split_char_app by (now apply print_without).
    cbn [Js.split_char]. rewrite Ascii.eqb_refl.
    rewrite split_char_whole by (now apply print_without).
    cbn [prepend_first map length Nat.eqb nth]. rewrite append_nil_r.
    rewrite !(trim_solid _ (print_solid _)), !Number_print. reflexivity.
  - rewrite split_char_whole by (now apply print_without).
    cbn [map length Nat.eqb nth]. rewrite (trim_solid _ (print_solid _)), Number_print.
    reflexivity.
Qed.

Lemma meta_step_rolls (m : Serializer.Meta) (rolls : list QueuedRoll) :
  rolls <> [] ->
  Serializer.meta_step m (rolls_line rolls) =
  Serializer.mkMeta (Serializer.m_phase m) (Serializer.m_currentDice m)
    (Serializer.m_advantageLock m) (map expected_roll rolls).
Proof.
  intros Hne. unfold rolls_line.
  set (J := Js.join " | " (map Serializer.roll_text rolls)).
  pose proof (roll_texts_tokens rolls) as Htok.
  assert (Hmap : map Serializer.roll_text rolls <> []) by (destruct rolls; [congruence | discriminate]).
  assert (HJs : starts_solid J = true) by (now apply starts_solid_join).
  assert (HJe : ends_solid J = true) by (now apply ends_solid_join).
  unfold Serializer.meta_step.
  assert (Hbody : Js.trim (Js.drop 1 ("# QueuedRolls: " ++ J)) = ("QueuedRolls: " ++ J)%string).
  { change (Js.drop 1 ("# QueuedRolls: " ++ J)) with (String " " ("QueuedRolls: " ++ J))%string.
    rewrite trim_pad_left. apply trim_id; [reflexivity|]. cbn [append]. ends_tac. exact HJe. }
  rewrite Hbody.
  replace (Serializer.startsWith "Phase:" ("QueuedRolls: " ++ J)) with false by reflexivity.
  replace (Serializer.startsWith "CurrentDice:" ("QueuedRolls: " ++ J)) with false by reflexivity.
  replace (Serializer.startsWith "AdvantageLock:" ("QueuedRolls: " ++ J)) with false
    by reflexivity.
  replace (Serializer.startsWith "QueuedRolls:" ("QueuedRolls: " ++ J)) with true by reflexivity.
  replace (Js.replace_first "QueuedRolls:" "" ("QueuedRolls: " ++ J))
    with (String " " J) by reflexivity.
  rewrite trim_pad_left, (trim_id J HJs HJe).
  pose proof (split_rolls rolls false Hne) as Hsplit. cbn [append] in Hsplit. fold J in Hsplit.
  rewrite Hsplit, filter_non_empty_tokens by exact Htok.
  rewrite map_map. f_equal. apply map_ext. intros r. apply parse_roll_text.
Qed.

(** * The snapshot text read back *)

Lemma square_entries_array (b : Board.t) :
  map Js.Int (Board.toNumberArrayFormat b) = square_entries b.
Proof.
  unfold Board.toNumberArrayFormat, square_entries, range_incl. rewrite !map_map.
  replace (Z.to_nat (Board.size b + 1 - 1)) with (Z.to_nat (Board.size b)) by lia.
  apply map_ext. intros k. now replace (1 + Z.of_nat k) with (Z.of_nat k + 1) by lia.
Qed.

Lemma square_entries_nth (b : Board.t) (i : Z) :
  1 <= i <= Board.size b ->
  nth_error (square_entries b) (Z.to_nat (i - 1)) =
  Some (Js.Int (if Board.covered_at b i then 0 else i)).
Proof.
  intros Hi. unfold square_entries.
  rewrite nth_error_map, nth_error_seq.
  replace (Z.to_nat (i - 1) <? Z.to_nat (Board.size b))%nat with true
    by (symmetry; apply Nat.ltb_lt; lia).
  cbn [option_map Nat.add]. now replace (Z.of_nat (Z.to_nat (i - 1)) + 1) with i by lia.
Qed.

Lemma filter_skip {A : Type} (f : A -> bool) (x : A) (l : list A) :
  f x = false -> filter f (x :: l) = filter f l.
Proof. intros H. cbn [filter]. now rewrite H. Qed.

Lemma filter_keep {A : Type} (f : A -> bool) (x : A) (l : list A) :
  f x = true -> filter f (x :: l) = x :: filter f l.
Proof. intros H. cbn [filter]. now rewrite H. Qed.

Lemma meta_lines (p : Serializer.Params) :
  params_ok p ->
  filter (Serializer.startsWith "#") (trimmed_lines p) =
  [ ("# Phase: " ++ Serializer.phase p)%string; dice_line (Serializer.currentDice p) ] ++
  lock_lines (Serializer.advantageLock p) ++ rolls_lines (Serializer.queuedRolls p).
Proof.
  intros _. unfold trimmed_lines. cbn [app].
  do 11 (rewrite filter_skip by reflexivity).
  do 2 (rewrite filter_keep by reflexivity). do 2 f_equal.
  rewrite !filter_app. cbn [filter]. 
  replace (Serializer.startsWith "#" "") with false by reflexivity.
  rewrite app_nil_r. f_equal.
  - unfold lock_lines. destruct (Serializer.advantageLock p) as [l|]; [|reflexivity].
    destruct (negb (lock_squareNumber l =? 0)); reflexivity.
  - unfold rolls_lines. destruct (Serializer.queuedRolls p); reflexivity.
Qed.

Lemma meta_fold (p : Serializer.Params) :
  params_ok p ->
  fold_left Serializer.meta_step (filter (Serializer.startsWith "#") (trimmed_lines p))
    Serializer.meta_default =
  Serializer.mkMeta (Serializer.phase p) (expected_dice (Serializer.currentDice p))
    (written_lock (Serializer.advantageLock p))
    (map expected_roll (Serializer.queuedRolls p)).
Proof.
  intros Hok. rewrite meta_lines by exact Hok.
  destruct Hok as [_ [_ [ph Hph]]].
  cbn [app fold_left]. rewrite Hph, meta_step_phase, meta_step_dice.
  rewrite fold_left_app.
  cbn [Serializer.m_phase Serializer.m_currentDice Serializer.m_advantageLock
       Serializer.m_queuedRolls Serializer.meta_default].
  assert (Hl : forall m,
            fold_left Serializer.meta_step (lock_lines (Serializer.advantageLock p)) m =
            Serializer.mkMeta (Serializer.m_phase m) (Serializer.m_currentDice m)
              (match written_lock (Serializer.advantageLock p) with
               | Some l => Some l
               | None => Serializer.m_advantageLock m
               end) (Serializer.m_queuedRolls m)).
  { intros m. unfold lock_lines, written_lock.
    destruct (Serializer.advantageLock p) as [l|]; [|now destruct m].
    destruct (lock_squareNumber l =? 0); cbn [negb fold_left]; [now destruct m|].
    apply meta_step_lock. }
  rewrite Hl.
  cbn [Serializer.m_phase Serializer.m_currentDice Serializer.m_advantageLock
       Serializer.m_queuedRolls].
  unfold rolls_lines. destruct (Serializer.queuedRolls p) as [|r rs] eqn:Hr.
  - cbn [fold_left map]. now destruct (written_lock (Serializer.advantageLock p)).
  - cbn [fold_left]. rewrite meta_step_rolls by discriminate.
    cbn [Serializer.m_phase Serializer.m_currentDice Serializer.m_advantageLock
         Serializer.m_queuedRolls].
    now destruct (written_lock (Serializer.advantageLock p)).
Qed.

Lemma label_of_turn (key : string) (id : PlayerId) :
  all_chars (not_char ":") key = true ->
  cbind (Serializer.label_of (key ++ String ":" (String " " (Serializer.turn_label id))))
        Serializer.mapLabel = Ok id.
Proof.
  intros Hk. unfold Serializer.label_of. rewrite afterColon_key; [now destruct id | exact Hk |].
  now destruct id.
Qed.

(** The text of a snapshot reads back as the snapshot. *)
Lemma snapshot_text_reads_back (p : Serializer.Params) :
  params_ok p ->
  Serializer.parseSnapshot (Serializer.serializeSnapshot p) = Ok (expected p).
Proof.
  intros Hok. unfold Serializer.parseSnapshot. cbv zeta.
  rewrite (lines_trimmed p Hok). rewrite (meta_fold p Hok).
  destruct Hok as [Hc [Hh _]].
  unfold trimmed_lines. cbn [app].
  set (tail := lock_lines _ ++ _).
  set (cl := ("Squares: " ++ squares_text_of (Serializer.computerBoard p))%string).
  set (cs := ("Score: " ++ Js.print (Serializer.computerScore p))%string).
  set (hl := ("Squares: " ++ squares_text_of (Serializer.humanBoard p))%string).
  set (hs := ("Score: " ++ Js.print (Serializer.humanScore p))%string).
  set (ft := ("First Turn: " ++ Serializer.turn_label (Serializer.firstTurnId p))%string).
  set (nt := ("Next Turn: " ++ Serializer.turn_label (Serializer.nextTurnId p))%string).
  match goal with |- context [Serializer.findLine ?L "Squares:"] =>
    replace (Serializer.findLine L "Squares:") with (Ok cl) by reflexivity;
    replace (Serializer.findLine L "Score:") with (Ok cs) by reflexivity;
    replace (Serializer.findIndex (fun l => String.eqb l "Human:") L) with (Some 4%nat)
      by reflexivity;
    replace (Serializer.findLine L "First Turn:") with (Ok ft) by reflexivity;
    replace (Serializer.findLine L "Next Turn:") with (Ok nt) by reflexivity
  end.
  cbn [cbind Nat.add skipn].
  match goal with |- context [find (Serializer.startsWith "Squares:") ?L] =>
    replace (find (Serializer.startsWith "Squares:") L) with (Some hl) by reflexivity;
    replace (find (Serializer.startsWith "Score:") L) with (Some hs) by reflexivity
  end.
  unfold cl, hl, cs, hs.
  rewrite !parseSquares_line by assumption. rewrite !parseScore_line.
  cbn [cbind].
  pose proof (label_of_turn "First Turn" (Serializer.firstTurnId p) eq_refl) as Hft.
  pose proof (label_of_turn "Next Turn" (Serializer.nextTurnId p) eq_refl) as Hnt.
  change ("First Turn" ++ String ":" (String " " (Serializer.turn_label (Serializer.firstTurnId p))))%string
    with ft in Hft.
  change ("Next Turn" ++ String ":" (String " " (Serializer.turn_label (Serializer.nextTurnId p))))%string
    with nt in Hnt.
  destruct (Serializer.label_of ft) as [fl|] eqn:Efl; [|discriminate Hft].
  destruct (Serializer.label_of nt) as [nl|] eqn:Enl; [|discriminate Hnt].
  cbn [cbind] in Hft, Hnt |- *. rewrite Hft, Hnt. cbn [cbind].
  now rewrite !square_entries_array.
Qed.

(** C5.  The text of a snapshot reads back as the snapshot: the board
    arrays, with 0 at the place of each covered square and the number of the
    square at the place of each uncovered one, the scores, the first and the
    next turn, the phase, the pending dice, the advantage lock and the queued
    rolls.  The boards have at least one square and the phase is one of the
    session's four phases, as in every round.  A lock is read back as it is,
    unless it is on square 0: such a lock is not written, and the constructor
    of a round never sets one, its lock being on a square from 1 to the
    size of the board. *)
Theorem parse_serialize_round_trip (p : Serializer.Params) :
  params_ok p ->
  exists snap,
    Serializer.parseSnapshot (Serializer.serializeSnapshot p) = Ok snap /\
    length (Serializer.s_computerSquares snap) =
      Z.to_nat (Board.size (Serializer.computerBoard p)) /\
    length (Serializer.s_humanSquares snap) =
      Z.to_nat (Board.size (Serializer.humanBoard p)) /\
    (forall i, 1 <= i <= Board.size (Serializer.computerBoard p) ->
       nth_error (Serializer.s_computerSquares snap) (Z.to_nat (i - 1)) =
       Some (Js.Int (if Board.covered_at (Serializer.computerBoard p) i then 0 else i))) /\
    (forall i, 1 <= i <= Board.size (Serializer.humanBoard p) ->
       nth_error (Serializer.s_humanSquares snap) (Z.to_nat (i - 1)) =
       Some (Js.Int (if Board.covered_at (Serializer.humanBoard p) i then 0 else i))) /\
    Serializer.s_computerScore snap = Serializer.computerScore p /\
    Serializer.s_humanScore snap = Serializer.humanScore p /\
    Serializer.s_firstTurnId snap = Serializer.firstTurnId p /\
    Serializer.s_nextTurnId snap = Serializer.nextTurnId p /\
    Serializer.s_phase snap = Serializer.phase p /\
    Serializer.s_currentDice snap =
      Serializer.mkParsedDice (option_map Js.Int (cd_d1 (Serializer.currentDice p)))
        (option_map Js.Int (cd_d2 (Serializer.currentDice p)))
        (option_map Js.Int (cd_sum (Serializer.currentDice p))) /\
    Serializer.s_advantageLock snap =
      match Serializer.advantageLock p with
      | Some l =>
          if lock_squareNumber l =? 0 then None
          else Some (Serializer.mkParsedLock
                       (match lock_playerId l with
                        | HUMAN => "HUMAN"
                        | COMPUTER => "COMPUTER"
                        end)
                       (Js.Int (lock_squareNumber l)) (lock_unlocked l))
      | None => None
      end /\
    Serializer.s_queuedRolls snap =
      map (fun r => Serializer.mkParsedRoll (Js.Int (q_d1 r)) (option_map Js.Int (q_d2 r)))
          (Serializer.queuedRolls p) /\
    snap = expected p /\
    (forall size hp cp first adv r l,
       GameRound.new size hp cp first adv = Ok r ->
       GameRound.advantageLock r = Some l -> 1 <= lock_squareNumber l <= size).
Proof.
  intros Hok. exists (expected p).
  split; [now apply snapshot_text_reads_back|].
  unfold expected.
  cbn [Serializer.s_computerSquares Serializer.s_humanSquares Serializer.s_computerScore
       Serializer.s_humanScore Serializer.s_firstTurnId Serializer.s_nextTurnId
       Serializer.s_phase Serializer.s_currentDice Serializer.s_advantageLock
       Serializer.s_queuedRolls].
  split; [unfold square_entries; now rewrite length_map, length_seq|].
  split; [unfold square_entries; now rewrite length_map, length_seq|].
  split; [intros i Hi; now apply square_entries_nth|].
  split; [intros i Hi; now apply square_entries_nth|].
  do 6 (split; [reflexivity|]).
  split; [unfold written_lock; destruct (Serializer.advantageLock p) as [l|]; reflexivity|].
  split; [reflexivity|]. split; [reflexivity|].
  intros size hp cp first adv r l Hnew Hl.
  destruct (Z.ltb_spec size 1) as [Hsmall | Hsize].
  - unfold GameRound.new in Hnew.
    replace (size <? 1) with true in Hnew by (symmetry; apply Z.ltb_lt; lia).
    discriminate Hnew.
  - destruct (new_round_lock size hp cp first adv Hsize) as [bh [bc [Hshape _]]].
    rewrite Hshape in Hnew. injection Hnew as <-. cbn [GameRound.advantageLock] in Hl.
    unfold pending_lock in Hl. destruct adv as [info|]; [|discriminate Hl].
    destruct (Z.leb_spec 1 (ai_digitSum info)); [|discriminate Hl].
    destruct (Z.leb_spec (ai_digitSum info) size); [|discriminate Hl].
    cbn [andb] in Hl. injection Hl as <-. cbn [lock_squareNumber]. lia.
Qed.

Lemma parse_serialize_round_trip_witness :
  params_ok demo_params /\
  exists snap,
    Serializer.parseSnapshot (Serializer.serializeSnapshot demo_params) = Ok snap /\
    Serializer.s_computerSquares snap =
      [Js.Int 1; Js.Int 0; Js.Int 3; Js.Int 4; Js.Int 0; Js.Int 6; Js.Int 7; Js.Int 8;
       Js.Int 0] /\
    Serializer.s_advantageLock snap =
      Some (Serializer.mkParsedLock "COMPUTER" (Js.Int 5) false).
Proof.
  assert (H : params_ok demo_params).
  { unfold params_ok, demo_params; cbn.
    repeat split; try lia. exists GameSession.awaitingMove. reflexivity. }
  split; [exact H|].
  destruct (parse_serialize_round_trip demo_params H)
    as [snap [Hparse [_ [_ [_ [_ [_ [_ [_ [_ [_ [_ [Hlock [_ [Hsnap _]]]]]]]]]]]]]]].
  exists snap. split; [exact Hparse|]. split; [|exact Hlock].
  rewrite Hsnap. reflexivity.
Defined.

(** * Rejected and accepted save texts *)

Lemma parse_needs_human (text : string) :
  Serializer.findIndex (fun l => String.eqb l "Human:") (trimmed text) = None ->
  exists msg, Serializer.parseSnapshot text = Throw msg.
Proof.
  intros H. unfold Serializer.parseSnapshot. cbv zeta. fold (trimmed text).
  destruct (Serializer.findLine (trimmed text) "Squares:"); [|eexists; reflexivity].
  destruct (Serializer.findLine (trimmed text) "Score:"); [|eexists; reflexivity].
  cbn [cbind]. rewrite H. eexists; reflexivity.
Qed.

Lemma findLine_none (lines : list string) (prefix : string) :
  find (Serializer.startsWith prefix) lines = None ->
  Serializer.findLine lines prefix =
  Throw ("Cannot find line starting with " ++ Js.quoted prefix).
Proof. intros H. unfold Serializer.findLine. now rewrite H. Qed.

Lemma parse_needs_first_turn (text : string) :
  find (Serializer.startsWith "First Turn:") (trimmed text) = None ->
  exists msg, Serializer.parseSnapshot text = Throw msg.
Proof.
  intros H. unfold Serializer.parseSnapshot. cbv zeta. fold (trimmed text).
  destruct (Serializer.findLine (trimmed text) "Squares:"); [|eexists; reflexivity].
  destruct (Serializer.findLine (trimmed text) "Score:"); [|eexists; reflexivity].
  cbn [cbind].
  destruct (Serializer.findIndex _ (trimmed text)); [|eexists; reflexivity].
  destruct (find (Serializer.startsWith "Squares:") _); [|eexists; reflexivity].
  destruct (find (Serializer.startsWith "Score:") _); [|eexists; reflexivity].
  rewrite (findLine_none _ _ H). eexists; reflexivity.
Qed.

Lemma parse_needs_next_turn (text : string) :
  find (Serializer.startsWith "Next Turn:") (trimmed text) = None ->
  exists msg, Serializer.parseSnapshot text = Throw msg.
Proof.
  intros H. unfold Serializer.parseSnapshot. cbv zeta. fold (trimmed text).
  destruct (Serializer.findLine (trimmed text) "Squares:"); [|eexists; reflexivity].
  destruct (Serializer.findLine (trimmed text) "Score:"); [|eexists; reflexivity].
  cbn [cbind].
  destruct (Serializer.findIndex _ (trimmed text)); [|eexists; reflexivity].
  destruct (find (Serializer.startsWith "Squares:") _); [|eexists; reflexivity].
  destruct (find (Serializer.startsWith "Score:") _); [|eexists; reflexivity].
  destruct (Serializer.findLine (trimmed text) "First Turn:"); [|eexists; reflexivity].
  rewrite (findLine_none _ _ H). eexists; reflexivity.
Qed.

Lemma parse_defaults (text : string) (snap : Serializer.Snapshot) :
  filter (Serializer.startsWith "#") (trimmed text) = [] ->
  Serializer.parseSnapshot text = Ok snap ->
  Serializer.s_phase snap = "awaitingRoll" /\
  Serializer.s_currentDice snap = Serializer.mkParsedDice None None None /\
  Serializer.s_advantageLock snap = None /\
  Serializer.s_queuedRolls snap = [].
Proof.
  intros Hmeta. unfold Serializer.parseSnapshot. cbv zeta. fold (trimmed text).
  rewrite Hmeta. cbn [fold_left].
  repeat match goal with
         | |- context [cbind ?m _] => destruct m; cbn [cbind]; [|discriminate]
         | |- context [match ?o with Some _ => _ | None => _ end] => destruct o; [|discriminate]
         end.
  intros H. injection H as <-. repeat split; reflexivity.
Qed.

Lemma load_loop_rejects (arr : list Js.num) (k : Z) (b : Board.t) (i : nat) (v : Js.num) :
  nth_error arr i = Some v -> entry_ok (k + Z.of_nat i) v = false ->
  exists msg, snd (Board.load_loop arr k b) = Throw msg.
Proof.
  revert k b i. induction arr as [|x rest IH]; intros k b i Hn Hv.
  - destruct i; discriminate.
  - cbn [Board.load_loop]. destruct i as [|i].
    + injection Hn as ->. unfold entry_ok in Hv. rewrite Z.add_0_r in Hv.
      apply orb_false_iff in Hv. destruct Hv as [H0 H1]. rewrite H0, H1.
      eexists; reflexivity.
    + cbn [nth_error] in Hn.
      assert (Hrest : forall b', exists msg, snd (Board.load_loop rest (k + 1) b') = Throw msg).
      { intros b'. apply (IH (k + 1) b' i Hn).
        replace (k + 1 + Z.of_nat i) with (k + Z.of_nat (S i)) by lia. exact Hv. }
      destruct (Js.num_eqb x (Js.Int 0)).
      * unfold bind, modify. apply Hrest.
      * destruct (negb (Js.num_eqb x (Js.Int (k + 1)))); [eexists; reflexivity|].
        unfold bind, modify. apply Hrest.
Qed.

Lemma load_rejects (arr : list Js.num) (b : Board.t) :
  Z.of_nat (length arr) <> Board.size b \/
  (exists i v, nth_error arr i = Some v /\ entry_ok (Z.of_nat i) v = false) ->
  exists msg, snd (Board.loadFromNumberArrayFormat arr b) = Throw msg.
Proof.
  intros H. unfold Board.loadFromNumberArrayFormat.
  destruct (Z.eqb_spec (Z.of_nat (length arr)) (Board.size b)) as [He | Hne]; cbn [negb].
  - destruct H as [H | [i [v [Hn Hv]]]]; [contradiction|].
    apply (load_loop_rejects arr 0 b i v Hn). exact Hv.
  - eexists; reflexivity.
Qed.

(** C8.  [parseSnapshot] rejects a text with no "Human:" line, with no
    "First Turn:" line or with no "Next Turn:" line; the loader rejects an
    array of the wrong length or with an entry that is neither 0 nor its
    1-based index; a text without [#] lines gives the default phase, dice,
    lock and queue.  A text with no "Computer:" block is not rejected: the
    first "Squares:" and "Score:" lines of the text, here the human's, are
    read as the computer's. *)
Theorem parseSnapshot_mandatory_blocks :
  (forall text,
     Serializer.findIndex (fun l => String.eqb l "Human:") (trimmed text) = None \/
     find (Serializer.startsWith "First Turn:") (trimmed text) = None \/
     find (Serializer.startsWith "Next Turn:") (trimmed text) = None ->
     exists msg, Serializer.parseSnapshot text = Throw msg) /\
  (forall arr b,
     Z.of_nat (length arr) <> Board.size b \/
     (exists i v, nth_error arr i = Some v /\ entry_ok (Z.of_nat i) v = false) ->
     exists msg, snd (Board.loadFromNumberArrayFormat arr b) = Throw msg) /\
  (forall text snap,
     filter (Serializer.startsWith "#") (trimmed text) = [] ->
     Serializer.parseSnapshot text = Ok snap ->
     Serializer.s_phase snap = "awaitingRoll" /\
     Serializer.s_currentDice snap = Serializer.mkParsedDice None None None /\
     Serializer.s_advantageLock snap = None /\
     Serializer.s_queuedRolls snap = []) /\
  Serializer.parseSnapshot text_without_human =
    Throw ("Missing " ++ Js.quoted "Human:" ++ " section") /\
  find (String.eqb "Computer:") (trimmed text_without_computer) = None /\
  Serializer.parseSnapshot text_without_computer =
    Ok (Serializer.mkSnapshot [Js.Int 1; Js.Int 2; Js.Int 3] [Js.Int 1; Js.Int 2; Js.Int 3]
          0 0 HUMAN HUMAN "awaitingRoll" (Serializer.mkParsedDice None None None) None []).
Proof.
  split; [|split; [|split; [|split; [|split]]]].
  - intros text [H | [H | H]].
    + now apply parse_needs_human.
    + now apply parse_needs_first_turn.
    + now apply parse_needs_next_turn.
  - apply load_rejects.
  - apply parse_defaults.
  - vm_compute. reflexivity.
  - vm_compute. reflexivity.
  - vm_compute. reflexivity.
Qed.

(** * Further properties of the board *)

Lemma search_nothing (cands : list Z) (t : Z) :
  ascending cands -> Forall (Z.lt 0) cands -> t <= 0 -> Board._getCombosForSum cands t = [].
Proof.
  intros Hasc Hpos Ht. unfold Board._getCombosForSum.
  rewrite (sort_asc_ascending cands Hasc), backtrack_unfold.
  cbn [length Nat.leb andb]. rewrite andb_false_r. cbn [Nat.eqb orb].
  destruct (Z.ltb_spec t 0) as [Hneg | Hzero]; [reflexivity|].
  cbn [orb]. replace t with 0 by lia. now apply loop_no_room.
Qed.

Lemma search_legal (cands : list Z) (t : Z) (c : list Z) :
  ascending cands -> Forall (Z.lt 0) cands ->
  In c (Board._getCombosForSum cands t) ->
  ascending c /\ (1 <= length c <= 4)%nat /\ incl c cands /\ sum_list c = t.
Proof.
  intros Hasc Hpos Hin.
  destruct (Z.ltb_spec 0 t) as [Ht | Ht].
  - rewrite (search_spec cands t Hasc Hpos Ht) in Hin.
    apply filter_In in Hin. destruct Hin as [Hdfs Hfits].
    unfold fits in Hfits. apply andb_true_iff in Hfits. destruct Hfits as [Hsum Hlen].
    apply Z.eqb_eq in Hsum. apply Nat.leb_le in Hlen.
    pose proof (dfs_nonempty cands c Hdfs) as Hne.
    repeat split.
    + now apply (dfs_ascending cands).
    + destruct c; [congruence | cbn [length]; lia].
    + exact Hlen.
    + now apply dfs_incl.
    + exact Hsum.
  - rewrite (search_nothing cands t Hasc Hpos Ht) in Hin. destruct Hin.
Qed.

Lemma search_NoDup (cands : list Z) (t : Z) :
  ascending cands -> Forall (Z.lt 0) cands -> NoDup (Board._getCombosForSum cands t).
Proof.
  intros Hasc Hpos. destruct (Z.ltb_spec 0 t) as [Ht | Ht].
  - rewrite (search_spec cands t Hasc Hpos Ht). apply NoDup_filter. now apply dfs_NoDup.
  - rewrite (search_nothing cands t Hasc Hpos Ht). constructor.
Qed.

Lemma search_legal_combo (candidate : Z -> Prop) (cands : list Z) (t : Z) (c : list Z) :
  ascending cands -> Forall (Z.lt 0) cands -> (forall x, In x cands -> candidate x) ->
  In c (Board._getCombosForSum cands t) -> legal_combo candidate t c.
Proof.
  intros Hasc Hpos Hcand Hin.
  destruct (search_legal cands t c Hasc Hpos Hin) as [Ha [Hlen [Hincl Hsum]]].
  split; [exact Ha|]. split; [exact Hlen|]. split; [|exact Hsum].
  intros x Hx. apply Hcand, Hincl, Hx.
Qed.

(** X1.  Whatever the board and the total, every combination that
    [getCoverCombos] returns is a strictly ascending list of one to four
    uncovered squares of the board with the total as its sum, and every
    combination of [getUncoverCombos] is such a list of covered squares; no
    combination is returned twice, and a total of 0 or less has none. *)
Theorem combos_are_legal_sets (b : Board.t) (t : Z) :
  (forall c, In c (Board.getCoverCombos b t) -> legal_combo (uncovered_square b) t c) /\
  (forall c, In c (Board.getUncoverCombos b t) -> legal_combo (covered_square b) t c) /\
  NoDup (Board.getCoverCombos b t) /\
  NoDup (Board.getUncoverCombos b t) /\
  (t <= 0 -> Board.getCoverCombos b t = [] /\ Board.getUncoverCombos b t = []).
Proof.
  pose proof (getUncoveredNumbers_ascending b) as Hau.
  pose proof (getUncoveredNumbers_positive b) as Hpu.
  pose proof (getCoveredNumbers_ascending b) as Hac.
  pose proof (getCoveredNumbers_positive b) as Hpc.
  unfold Board.getCoverCombos, Board.getUncoverCombos.
  split; [|split; [|split; [|split; [|split]]]].
  - intros c. apply search_legal_combo; try assumption.
    intros x Hx. now apply getUncoveredNumbers_In.
  - intros c. apply search_legal_combo; try assumption.
    intros x Hx. now apply getCoveredNumbers_In.
  - now apply search_NoDup.
  - now apply search_NoDup.
  - now apply search_nothing.
  - now apply search_nothing.
Qed.

(** ** One square *)

Lemma result_is_ok_dec {A : Type} (c : completion A) :
  (exists v, c = Ok v) \/ (exists msg, c = Throw msg).
Proof. destruct c; [left | right]; eexists; reflexivity. Qed.

Lemma markable_dec (v : bool) (b : Board.t) (x : Z) : markable v b x \/ ~ markable v b x.
Proof.
  unfold markable.
  destruct (Z_le_dec 1 x); [|right; lia].
  destruct (Z_le_dec x (Board.size b)); [|right; lia].
  destruct (bool_dec (Board.covered_at b x) (negb v)); [left | right]; tauto.
Qed.

Lemma mark_one_square (v : bool) (n : Z) (b : Board.t) :
  board_ok b ->
  (snd (mark v n b) = Ok tt <-> 1 <= n <= Board.size b /\ Board.covered_at b n = negb v) /\
  (snd (mark v n b) <> Ok tt -> fst (mark v n b) = b) /\
  (snd (mark v n b) = Ok tt ->
     Board.covered_at (fst (mark v n b)) n = v /\
     forall x, 1 <= x -> x <> n ->
               Board.covered_at (fst (mark v n b)) x = Board.covered_at b x) /\
  Board.size (fst (mark v n b)) = Board.size b.
Proof.
  intros Hok. destruct (markable_dec v b n) as [Hm | Hm].
  - rewrite (mark_accepts v b n Hm). cbn [fst snd].
    split; [split; [intros _; exact Hm | reflexivity]|].
    split; [congruence|]. split; [|apply set_covered_size].
    intros _. destruct Hm as [Hrange _]. split.
    + now apply covered_at_set_same.
    + intros x Hx Hne. apply covered_at_set_other; [lia | exact Hx | congruence].
  - destruct (mark_rejects v b n Hm) as [msg Hr]. rewrite Hr. cbn [fst snd].
    split; [split; [discriminate | intros H; contradiction]|].
    split; [reflexivity|]. split; [discriminate | reflexivity].
Qed.

(** X2.  [cover(n)] succeeds exactly when [n] is a square of the board that
    is not covered; it then covers [n] and changes no other square.  When it
    throws, the board is as it was.  Likewise for [uncover(n)] and a covered
    square.  The size never changes. *)
Theorem cover_and_uncover_one_square (n : Z) (b : Board.t) :
  board_ok b ->
  ((snd (Board.cover n b) = Ok tt <->
      1 <= n <= Board.size b /\ Board.covered_at b n = false) /\
   (snd (Board.cover n b) <> Ok tt -> fst (Board.cover n b) = b) /\
   (snd (Board.cover n b) = Ok tt ->
      Board.covered_at (fst (Board.cover n b)) n = true /\
      forall x, 1 <= x -> x <> n ->
                Board.covered_at (fst (Board.cover n b)) x = Board.covered_at b x) /\
   Board.size (fst (Board.cover n b)) = Board.size b) /\
  ((snd (Board.uncover n b) = Ok tt <->
      1 <= n <= Board.size b /\ Board.covered_at b n = true) /\
   (snd (Board.uncover n b) <> Ok tt -> fst (Board.uncover n b) = b) /\
   (snd (Board.uncover n b) = Ok tt ->
      Board.covered_at (fst (Board.uncover n b)) n = false /\
      forall x, 1 <= x -> x <> n ->
                Board.covered_at (fst (Board.uncover n b)) x = Board.covered_at b x) /\
   Board.size (fst (Board.uncover n b)) = Board.size b).
Proof.
  intros Hok. split.
  - exact (mark_one_square true n b Hok).
  - exact (mark_one_square false n b Hok).
Qed.

Lemma cover_and_uncover_one_square_witness :
  board_ok fresh9 /\
  snd (Board.cover 3 fresh9) = Ok tt /\
  Board.covered_at (fst (Board.cover 3 fresh9)) 3 = true /\
  fst (Board.uncover 3 fresh9) = fresh9.
Proof.
  assert (Hok : board_ok fresh9) by reflexivity.
  destruct (cover_and_uncover_one_square 3 fresh9 Hok)
    as [[Hc [_ [Hc2 _]]] [[Hu _] [Hu2 _]]].
  split; [exact Hok|].
  assert (H3 : snd (Board.cover 3 fresh9) = Ok tt).
  { apply Hc. split; [cbn; lia | reflexivity]. }
  split; [exact H3|]. split; [apply (Hc2 H3)|].
  apply Hu2. intros H. apply Hu in H. destruct H as [_ H]. discriminate H.
Defined.

Lemma array_set_twice {A : Type} (arr : list A) (i : nat) (v w : A) :
  array_set (array_set arr i v) i w = array_set arr i w.
Proof.
  revert i. induction arr as [|x arr IH]; intros [|i]; cbn [array_set]; try reflexivity.
  now rewrite IH.
Qed.

Lemma array_set_nth {A : Type} (arr : list A) (i : nat) (d : A) :
  (i < length arr)%nat -> array_set arr i (nth i arr d) = arr.
Proof.
  revert i. induction arr as [|x arr IH]; intros [|i] H; cbn [array_set nth length] in *;
    try reflexivity; try lia.
  rewrite IH by lia. reflexivity.
Qed.

Lemma set_covered_undo (n : Z) (v : bool) (b : Board.t) :
  board_ok b -> 1 <= n <= Board.size b ->
  Board.set_covered n (Board.covered_at b n) (Board.set_covered n v b) = b.
Proof.
  intros Hok Hn. unfold Board.set_covered, Board.covered_at. cbn [Board._covered Board.size].
  rewrite array_set_twice, array_set_nth.
  - now destruct b.
  - unfold board_ok in Hok. rewrite Hok. lia.
Qed.

(** X3.  Covering a square and uncovering it again gives back the board the
    first call started from, covered array included, and so does uncovering
    and covering again. *)
Theorem cover_uncover_inverse (n : Z) (b b1 : Board.t) :
  board_ok b ->
  (Board.cover n b = (b1, Ok tt) -> Board.uncover n b1 = (b, Ok tt)) /\
  (Board.uncover n b = (b1, Ok tt) -> Board.cover n b1 = (b, Ok tt)).
Proof.
  intros Hok.
  assert (Hgen : forall v, mark v n b = (b1, Ok tt) -> mark (negb v) n b1 = (b, Ok tt)).
  { intros v H. destruct (markable_dec v b n) as [Hm | Hm].
    - rewrite (mark_accepts v b n Hm) in H. injection H as <-.
      destruct Hm as [Hrange Hstate].
      rewrite mark_accepts.
      + f_equal. replace (negb v) with (Board.covered_at b n) by exact Hstate.
        now apply set_covered_undo.
      + split; [now rewrite set_covered_size|].
        rewrite covered_at_set_same by assumption. now rewrite negb_involutive.
    - destruct (mark_rejects v b n Hm) as [msg Hr]. rewrite Hr in H. discriminate H. }
  split; [exact (Hgen true) | exact (Hgen false)].
Qed.

Lemma cover_uncover_inverse_witness :
  board_ok fresh9 /\
  Board.cover 4 fresh9 = (Board.set_covered 4 true fresh9, Ok tt) /\
  Board.uncover 4 (Board.set_covered 4 true fresh9) = (fresh9, Ok tt).
Proof.
  assert (Hok : board_ok fresh9) by reflexivity.
  assert (Hc : Board.cover 4 fresh9 = (Board.set_covered 4 true fresh9, Ok tt)) by reflexivity.
  split; [exact Hok|]. split; [exact Hc|].
  exact (proj1 (cover_uncover_inverse 4 fresh9 _ Hok) Hc).
Defined.

(** ** Covered and uncovered squares *)

Lemma filter_partition {A : Type} (f : A -> bool) (l : list A) :
  Permutation (filter f l ++ filter (fun x => negb (f x)) l) l.
Proof.
  induction l as [|x l IH]; [constructor|].
  cbn [filter]. destruct (f x); cbn [negb app].
  - now constructor.
  - etransitivity; [symmetry; apply Permutation_middle|]. now constructor.
Qed.

Lemma filter_all {A : Type} (f : A -> bool) (l : list A) :
  filter (fun x => negb (f x)) l = [] <-> filter f l = l.
Proof.
  induction l as [|x l IH]; [tauto|].
  cbn [filter]. destruct (f x) eqn:Hx; cbn [negb].
  - rewrite IH. split; [intros ->; reflexivity | intros H; now injection H].
  - split; [discriminate|]. intros H.
    assert (Hlen : (length (filter f l) <= length l)%nat) by apply filter_length_le.
    rewrite H in Hlen. cbn [length] in Hlen. lia.
Qed.

Lemma length_zero_iff_nil_b {A : Type} (l : list A) : (length l =? 0)%nat = true <-> l = [].
Proof. destruct l; cbn; split; congruence. Qed.

(** X4.  The covered and the uncovered squares of a board together are the
    squares 1 to [size], each once; [areAllCovered] holds exactly when the
    covered squares are all of them, and [areAllUncovered] exactly when the
    uncovered squares are. *)
Theorem covered_and_uncovered_partition (b : Board.t) :
  Permutation (Board.getCoveredNumbers b ++ Board.getUncoveredNumbers b)
              (range_incl 1 (Board.size b)) /\
  (length (Board.getCoveredNumbers b) + length (Board.getUncoveredNumbers b))%nat =
    Z.to_nat (Board.size b) /\
  (forall x, In x (Board.getCoveredNumbers b) -> ~ In x (Board.getUncoveredNumbers b)) /\
  (Board.areAllCovered b = true <->
     Board.getCoveredNumbers b = range_incl 1 (Board.size b)) /\
  (Board.areAllUncovered b = true <->
     Board.getUncoveredNumbers b = range_incl 1 (Board.size b)).
Proof.
  unfold Board.getCoveredNumbers, Board.getUncoveredNumbers,
         Board.areAllCovered, Board.areAllUncovered.
  unfold Board.getCoveredNumbers, Board.getUncoveredNumbers.
  pose proof (filter_partition (fun i => Board.covered_at b i) (range_incl 1 (Board.size b)))
    as Hperm.
  split; [exact Hperm|]. split.
  - apply Permutation_length in Hperm. rewrite length_app, range_incl_length in Hperm.
    rewrite Hperm. f_equal. lia.
  - split.
    + intros x Hc Hu. apply filter_In in Hc. apply filter_In in Hu.
      destruct Hc as [_ Hc]. destruct Hu as [_ Hu]. rewrite Hc in Hu. discriminate.
    + split.
      * rewrite length_zero_iff_nil_b. apply filter_all.
      * rewrite length_zero_iff_nil_b.
        rewrite <- (filter_all (fun i => negb (Board.covered_at b i))).
        erewrite (filter_ext (fun x => negb (negb (Board.covered_at b x))));
          [reflexivity|]. intros x. apply negb_involutive.
Qed.

(** ** Board arrays *)

Lemma load_loop_accepts_ok (arr : list Js.num) (k : Z) (b : Board.t) :
  (forall i v, nth_error arr i = Some v -> entry_ok (k + Z.of_nat i) v = true) ->
  snd (Board.load_loop arr k b) = Ok tt.
Proof.
  revert k b. induction arr as [|x rest IH]; intros k b H; [reflexivity|].
  cbn [Board.load_loop].
  pose proof (H 0%nat x eq_refl) as Hx. unfold entry_ok in Hx. rewrite Z.add_0_r in Hx.
  assert (Hrest : forall b', snd (Board.load_loop rest (k + 1) b') = Ok tt).
  { intros b'. apply IH. intros i v Hi.
    replace (k + 1 + Z.of_nat i) with (k + Z.of_nat (S i)) by lia. now apply H. }
  destruct (Js.num_eqb x (Js.Int 0)).
  - unfold bind, modify. apply Hrest.
  - cbn [orb] in Hx. rewrite Hx. cbn [negb]. unfold bind, modify. apply Hrest.
Qed.

Lemma entries_all_or_bad (arr : list Js.num) (k : Z) :
  (forall i v, nth_error arr i = Some v -> entry_ok (k + Z.of_nat i) v = true) \/
  (exists i v, nth_error arr i = Some v /\ entry_ok (k + Z.of_nat i) v = false).
Proof.
  revert k. induction arr as [|x rest IH]; intros k.
  - left. intros [|i] v H; discriminate H.
  - destruct (entry_ok k x) eqn:Hx.
    + destruct (IH (k + 1)) as [Hall | [i [v [Hi Hv]]]].
      * left. intros [|i] v Hi.
        -- injection Hi as <-. now rewrite Z.add_0_r.
        -- replace (k + Z.of_nat (S i)) with (k + 1 + Z.of_nat i) by lia. now apply Hall.
      * right. exists (S i), v. split; [exact Hi|].
        replace (k + Z.of_nat (S i)) with (k + 1 + Z.of_nat i) by lia. exact Hv.
    + right. exists 0%nat, x. split; [reflexivity|]. now rewrite Z.add_0_r.
Qed.

Lemma load_accepts_iff (arr : list Js.num) (b : Board.t) :
  snd (Board.loadFromNumberArrayFormat arr b) = Ok tt <->
  Z.of_nat (length arr) = Board.size b /\
  forall i v, nth_error arr i = Some v -> entry_ok (Z.of_nat i) v = true.
Proof.
  unfold Board.loadFromNumberArrayFormat.
  destruct (Z.eqb_spec (Z.of_nat (length arr)) (Board.size b)) as [He | Hne]; cbn [negb].
  - split.
    + intros H. split; [exact He|].
      destruct (entries_all_or_bad arr 0) as [Hall | [i [v [Hi Hv]]]]; [exact Hall|].
      destruct (load_loop_rejects arr 0 b i v Hi Hv) as [msg Hmsg].
      rewrite Hmsg in H. discriminate H.
    + intros [_ Hall]. now apply load_loop_accepts_ok.
  - cbn [snd]. split; [discriminate | intros [H _]; contradiction].
Qed.

(** X5.  [loadFromNumberArrayFormat] returns normally exactly for an array
    that has as many entries as the board has squares and whose entry at
    every index [i] is 0 or [i + 1]. *)
Theorem loadFromNumberArrayFormat_accepts_iff (arr : list Js.num) (b : Board.t) :
  snd (Board.loadFromNumberArrayFormat arr b) = Ok tt <->
  Z.of_nat (length arr) = Board.size b /\
  forall i v, nth_error arr i = Some v -> entry_ok (Z.of_nat i) v = true.
Proof. exact (load_accepts_iff arr b). Qed.

Lemma covered_at_from_entries (b1 b2 : Board.t) (n : Z) :
  Board.size b1 = n -> Board.size b2 = n ->
  Board.toNumberArrayFormat b1 = Board.toNumberArrayFormat b2 ->
  forall x, 1 <= x <= n -> Board.covered_at b1 x = Board.covered_at b2 x.
Proof.
  intros H1 H2 Heq x Hx. unfold Board.toNumberArrayFormat in Heq. rewrite H1, H2 in Heq.
  assert (Hin : In x (range_incl 1 n)) by (apply range_incl_In; lia).
  pose proof (proj1 map_ext_in_iff Heq x Hin) as Hcell. cbv beta in Hcell.
  destruct (Board.covered_at b1 x), (Board.covered_at b2 x); try reflexivity; lia.
Qed.

(** X6.  Writing a board as a number array and loading the array into any
    board of the same size gives a board with the same covered squares,
    which writes the same array; and an accepted array is the array that the
    loaded board writes. *)
Theorem toNumberArrayFormat_load_inverse (b target : Board.t) :
  board_ok target -> Board.size target = Board.size b -> 0 <= Board.size b ->
  (exists b',
     Board.loadFromNumberArrayFormat (map Js.Int (Board.toNumberArrayFormat b)) target =
       (b', Ok tt) /\
     Board.toNumberArrayFormat b' = Board.toNumberArrayFormat b /\
     Board.size b' = Board.size b /\
     forall x, 1 <= x <= Board.size b -> Board.covered_at b' x = Board.covered_at b x) /\
  (forall arr b',
     Board.loadFromNumberArrayFormat (map Js.Int arr) target = (b', Ok tt) ->
     Board.toNumberArrayFormat b' = arr).
Proof.
  intros Hok Hsize Hpos. split.
  - assert (Harr : board_array (Board.size target) (Board.toNumberArrayFormat b)).
    { rewrite Hsize. now apply toNumberArrayFormat_board_array. }
    destruct (load_board_array _ target Hok Harr) as [Hload Hread].
    exists (loaded 0 (Board.toNumberArrayFormat b) target).
    split; [exact Hload|]. split; [exact Hread|].
    assert (Hs : Board.size (loaded 0 (Board.toNumberArrayFormat b) target) = Board.size b)
      by (now rewrite loaded_size).
    split; [exact Hs|]. now apply covered_at_from_entries.
  - intros arr b' Hload.
    assert (Hacc : snd (Board.loadFromNumberArrayFormat (map Js.Int arr) target) = Ok tt)
      by (now rewrite Hload).
    apply load_accepts_iff in Hacc. destruct Hacc as [Hlen Hall].
    assert (Harr : board_array (Board.size target) arr).
    { split; [now rewrite length_map in Hlen|].
      assert (Hgen : forall k (l : list Z),
                 (forall i v, nth_error (map Js.Int l) i = Some v ->
                              entry_ok (k + Z.of_nat i) v = true) -> entries_from k l).
      { intros k l. revert k. induction l as [|x l IH]; intros k H; constructor.
        - pose proof (H 0%nat (Js.Int x) eq_refl) as Hx. unfold entry_ok in Hx.
          rewrite Z.add_0_r in Hx. cbn [Js.num_eqb] in Hx.
          apply orb_true_iff in Hx. destruct Hx as [Hx | Hx]; apply Z.eqb_eq in Hx; lia.
        - apply IH. intros i v Hi.
          replace (k + 1 + Z.of_nat i) with (k + Z.of_nat (S i)) by lia. now apply H. }
      apply (Hgen 0). intros i v Hi. rewrite Z.add_0_l. now apply Hall. }
    destruct (load_board_array arr target Hok Harr) as [Hload' Hread].
    rewrite Hload' in Hload. injection Hload as <-. exact Hread.
Qed.

Lemma toNumberArrayFormat_load_inverse_witness :
  exists b',
    Board.loadFromNumberArrayFormat (map Js.Int (Board.toNumberArrayFormat demo_board)) fresh9 =
      (b', Ok tt) /\
    Board.toNumberArrayFormat b' = Board.toNumberArrayFormat demo_board.
Proof.
  destruct (toNumberArrayFormat_load_inverse demo_board fresh9 eq_refl eq_refl
              ltac:(cbn; lia)) as [[b' [H1 [H2 _]]] _].
  exists b'. split; assumption.
Defined.

Lemma load_loop_stops (good : list Z) (bad : Js.num) (rest : list Js.num) (k : Z)
    (b : Board.t) :
  entries_from k good -> entry_ok (k + Z.of_nat (length good)) bad = false ->
  exists msg,
    Board.load_loop (map Js.Int good ++ bad :: rest) k b = (loaded k good b, Throw msg).
Proof.
  revert k b. induction good as [|x good IH]; intros k b Hgood Hbad.
  - cbn [map app Board.load_loop loaded]. cbn [length] in Hbad. rewrite Z.add_0_r in Hbad.
    unfold entry_ok in Hbad. apply orb_false_iff in Hbad. destruct Hbad as [H0 H1].
    rewrite H0, H1. eexists; reflexivity.
  - inversion Hgood as [|i v r Hx Hrest]; subst.
    cbn [map app Board.load_loop loaded].
    assert (Hnext : entry_ok (k + 1 + Z.of_nat (length good)) bad = false).
    { replace (k + 1 + Z.of_nat (length good)) with (k + Z.of_nat (length (x :: good)))
        by (cbn [length]; lia). exact Hbad. }
    cbn [Js.num_eqb]. destruct (Z.eqb_spec x 0) as [Hz | Hnz].
    + unfold bind, modify. apply (IH (k + 1) _ Hrest Hnext).
    + replace (x =? k + 1) with true by (symmetry; apply Z.eqb_eq; lia).
      cbn [negb]. unfold bind, modify. apply (IH (k + 1) _ Hrest Hnext).
Qed.

(** X7.  A rejected array is not rejected as a whole: when the array has the
    right length and its first unacceptable entry comes after the entries
    [good], [loadFromNumberArrayFormat] throws with the squares of [good]
    already set on the board. *)
Theorem load_stops_at_first_bad_entry (good : list Z) (bad : Js.num) (rest : list Js.num)
    (b : Board.t) :
  Z.of_nat (length good + S (length rest)) = Board.size b ->
  entries_from 0 good ->
  entry_ok (Z.of_nat (length good)) bad = false ->
  exists msg,
    Board.loadFromNumberArrayFormat (map Js.Int good ++ bad :: rest) b =
      (loaded 0 good b, Throw msg).
Proof.
  intros Hlen Hgood Hbad. unfold Board.loadFromNumberArrayFormat.
  rewrite length_app, length_map. cbn [length]. rewrite Hlen, Z.eqb_refl. cbn [negb].
  now apply load_loop_stops.
Qed.

Lemma load_stops_at_first_bad_entry_witness :
  (exists msg,
     Board.loadFromNumberArrayFormat
       (map Js.Int [0; 2] ++ Js.Int 7 :: map Js.Int [4; 5; 6; 7; 8; 9]) fresh9 =
     (loaded 0 [0; 2] fresh9, Throw msg)) /\
  Board.covered_at fresh9 1 = false /\
  Board.covered_at (loaded 0 [0; 2] fresh9) 1 = true.
Proof.
  split; [|split; reflexivity].
  apply (load_stops_at_first_bad_entry [0; 2] (Js.Int 7) (map Js.Int [4; 5; 6; 7; 8; 9]) fresh9).
  - reflexivity.
  - repeat constructor; lia.
  - reflexivity.
Defined.

(** * One die or two *)

Lemma forallb_same {A : Type} (f g : A -> bool) (l : list A) :
  (forall x, In x l -> f x = g x) -> forallb f l = forallb g l.
Proof.
  intros H. induction l as [|x l IH]; [reflexivity|].
  cbn [forallb]. rewrite (H x (or_introl eq_refl)), IH; [reflexivity|].
  intros y Hy. apply H. now right.
Qed.

(** X8.  The computer asks for one die exactly when the board allows one:
    [chooseNumDice] answers 1 when [canUseOneDie] holds and 2 otherwise. *)
Theorem chooseNumDice_follows_canUseOneDie (b : Board.t) :
  ComputerPlayer.chooseNumDice b = if Board.canUseOneDie b then 1 else 2.
Proof.
  unfold ComputerPlayer.chooseNumDice, Board.canUseOneDie. cbv zeta.
  destruct (Z.ltb_spec (Board.size b) 7) as [Hsmall | Hbig].
  - now rewrite range_incl_empty by lia.
  - rewrite (forallb_same _ (fun i => Board.covered_at b i)); [reflexivity|].
    intros x Hx. apply range_incl_In in Hx.
    replace (1 <=? x) with true by (symmetry; apply Z.leb_le; lia).
    replace (x <=? Board.size b) with true by (symmetry; apply Z.leb_le; lia).
    cbn [andb]. apply negb_involutive.
Qed.

(** * The computer's choice *)

Lemma decideMove_member (r : GameRound.t) (playerId : PlayerId) (t : Z) :
  let d := ComputerPlayer.decideMove r playerId t in
  match ComputerPlayer.action d with
  | ComputerPlayer.ActCover =>
      In (ComputerPlayer.squares d) (GameRound.getCoverOptions r playerId t)
  | ComputerPlayer.ActUncover =>
      In (ComputerPlayer.squares d) (GameRound.getUncoverOptions r playerId t)
  | ComputerPlayer.ActNone =>
      ComputerPlayer.squares d = [] /\
      GameRound.getCoverOptions r playerId t = [] /\
      GameRound.getUncoverOptions r playerId t = []
  end.
Proof.
  unfold ComputerPlayer.decideMove. cbv zeta.
  set (co := GameRound.getCoverOptions r playerId t).
  set (uo := GameRound.getUncoverOptions r playerId t).
  destruct (Nat.eqb_spec (length co) 0) as [Hc | Hc]; cbn [andb].
  - destruct (Nat.eqb_spec (length uo) 0) as [Hu | Hu].
    + cbn [ComputerPlayer.action ComputerPlayer.squares].
      split; [reflexivity|]. split; now apply length_zero_iff_nil.
    + destruct (ComputerPlayer.find_length _ co) as [combo|] eqn:Hfc.
      * cbn. now apply find_length_Some in Hfc.
      * destruct (ComputerPlayer.find_length _ uo) as [combo|] eqn:Hfu.
        -- cbn. now apply find_length_Some in Hfu.
        -- rewrite Hc. cbn. apply pickBest_member. intros H. now rewrite H in Hu.
  - destruct (ComputerPlayer.find_length _ co) as [combo|] eqn:Hfc.
    + cbn. now apply find_length_Some in Hfc.
    + destruct (ComputerPlayer.find_length _ uo) as [combo|] eqn:Hfu.
      * cbn. now apply find_length_Some in Hfu.
      * replace (0 <? length co)%nat with true by (symmetry; apply Nat.ltb_lt; lia).
        cbn. apply pickBest_member. intros H. now rewrite H in Hc.
Qed.

(** X9.  The move [decideMove] returns is one of the options of its kind:
    a cover decision is a cover option, an uncover decision an uncover
    option, and "none" comes with no squares and only when there is no
    option at all. *)
Theorem decideMove_picks_an_option (r : GameRound.t) (playerId : PlayerId) (t : Z) :
  (ComputerPlayer.action (ComputerPlayer.decideMove r playerId t) = ComputerPlayer.ActCover ->
   In (ComputerPlayer.squares (ComputerPlayer.decideMove r playerId t))
      (GameRound.getCoverOptions r playerId t)) /\
  (ComputerPlayer.action (ComputerPlayer.decideMove r playerId t) = ComputerPlayer.ActUncover ->
   In (ComputerPlayer.squares (ComputerPlayer.decideMove r playerId t))
      (GameRound.getUncoverOptions r playerId t)) /\
  (ComputerPlayer.action (ComputerPlayer.decideMove r playerId t) = ComputerPlayer.ActNone ->
   ComputerPlayer.squares (ComputerPlayer.decideMove r playerId t) = [] /\
   GameRound.getCoverOptions r playerId t = [] /\
   GameRound.getUncoverOptions r playerId t = []).
Proof.
  pose proof (decideMove_member r playerId t) as H. cbv zeta in H.
  destruct (ComputerPlayer.action (ComputerPlayer.decideMove r playerId t));
    (split; [|split]); intros Heq; try discriminate Heq; exact H.
Qed.

(** * The session *)

Lemma same_numbers_refl (a : list Z) : GameSession.same_numbers a a = true.
Proof. induction a as [|x a IH]; [reflexivity|]. cbn. now rewrite Z.eqb_refl. Qed.

Lemma option_exists_member (options : list (list Z)) (c : list Z) :
  In c options -> GameSession.option_exists options c = true.
Proof.
  intros H. unfold GameSession.option_exists. cbv zeta. apply existsb_exists.
  exists c. split; [exact H | apply same_numbers_refl].
Qed.

Lemma option_exists_nil (squares : list Z) : GameSession.option_exists [] squares = false.
Proof. reflexivity. Qed.

Lemma applyHumanMove_accepts (mt : GameSession.MoveType) (squares : list Z)
    (s : GameSession.t) (round : GameRound.t) (sum : Z) :
  GameSession.currentRound s = Some round -> round_ok round ->
  GameSession.phase s = GameSession.awaitingMove ->
  GameSession.sum_is_set (GameSession.currentDice s) = Some sum ->
  In squares (options_of mt round (GameSession.currentPlayerId s) sum) ->
  exists s' over,
    GameSession.applyHumanMove mt squares s = (s', Ok (GameSession.Done over false false)).
Proof.
  intros Hround Hok Hphase Hsum Hin.
  destruct (GameSession.applyHumanMove mt squares s) as [s' c] eqn:Happly.
  destruct (applyHumanMove_all_or_nothing mt squares s s' c) as [[msg [Hc Hs]] | Hdone].
  - intros r Hr. rewrite Hround in Hr. now injection Hr as <-.
  - exact Happly.
  - exfalso. subst c. unfold GameSession.applyHumanMove in Happly.
    rewrite Hround, Hphase, Hsum in Happly. cbn [GameSession.Phase_eqb negb] in Happly.
    replace (GameSession.option_exists _ squares) with true in Happly
      by (symmetry; destruct mt; now apply option_exists_member).
    cbn [negb] in Happly.
    destruct (accepted_selection_markable mt round (GameSession.currentPlayerId s) sum squares)
      as [Hnd Hall].
    { destruct mt; now apply option_exists_member. }
    destruct (apply_move_marks mt (GameSession.currentPlayerId s) squares round Hok Hnd Hall)
      as [r' [Hmove _]].
    unfold GameSession.on_round in Happly.
    replace (match mt with
             | GameSession.MoveCover =>
                 GameRound.applyCoverMove (GameSession.currentPlayerId s) squares
             | GameSession.MoveUncover =>
                 GameRound.applyUncoverMove (GameSession.currentPlayerId s) squares
             end round) with (r', @Ok unit tt) in Happly by (destruct mt; now rewrite <- Hmove).
    rewrite currentRound_pushHistory, currentRound_store_round in Happly.
    destruct (GameRound.roundOver r'); discriminate Happly.
  - destruct Hdone as [r [r' [over [_ [_ [Hc _]]]]]]. subst c. now exists s', over.
Qed.

(** X10.  What the help suggests is accepted: with a roll awaiting its move,
    a suggested cover or uncover is applied by [applyHumanMove] and not
    answered with an error; and when the suggestion is "none", every
    selection of squares is answered with an error. *)
Theorem suggested_move_is_accepted (s : GameSession.t) (d : ComputerPlayer.Decision) :
  (forall r, GameSession.currentRound s = Some r -> round_ok r) ->
  GameSession.phase s = GameSession.awaitingMove ->
  GameSession.getHelpSuggestion s = Ok (Some d) ->
  match ComputerPlayer.action d with
  | ComputerPlayer.ActCover =>
      exists s' over,
        GameSession.applyHumanMove GameSession.MoveCover (ComputerPlayer.squares d) s =
        (s', Ok (GameSession.Done over false false))
  | ComputerPlayer.ActUncover =>
      exists s' over,
        GameSession.applyHumanMove GameSession.MoveUncover (ComputerPlayer.squares d) s =
        (s', Ok (GameSession.Done over false false))
  | ComputerPlayer.ActNone =>
      forall mt squares,
        exists msg,
          GameSession.applyHumanMove mt squares s = (s, Ok (GameSession.Error msg))
  end.
Proof.
  intros Hok Hphase Hhelp. unfold GameSession.getHelpSuggestion in Hhelp.
  destruct (GameSession.currentRound s) as [round|] eqn:Hround; [|discriminate Hhelp].
  destruct (GameSession.sum_is_set (GameSession.currentDice s)) as [sum|] eqn:Hsum;
    [|discriminate Hhelp].
  destruct (GameSession.tournament s); [|discriminate Hhelp].
  injection Hhelp as <-. unfold ComputerPlayer.getHelpSuggestion.
  pose proof (decideMove_member round (GameSession.currentPlayerId s) sum) as Hmem.
  cbv zeta in Hmem.
  destruct (ComputerPlayer.action
              (ComputerPlayer.decideMove round (GameSession.currentPlayerId s) sum)).
  - apply (applyHumanMove_accepts GameSession.MoveCover _ s round sum); auto.
  - apply (applyHumanMove_accepts GameSession.MoveUncover _ s round sum); auto.
  - destruct Hmem as [_ [Hco Huo]]. intros mt squares.
    unfold GameSession.applyHumanMove. rewrite Hround, Hphase, Hsum.
    cbn [GameSession.Phase_eqb negb].
    destruct mt; rewrite ?Hco, ?Huo, option_exists_nil; cbn [negb]; eexists; reflexivity.
Qed.

Lemma suggested_move_is_accepted_witness :
  exists d s' over,
    GameSession.getHelpSuggestion session_rolled = Ok (Some d) /\
    ComputerPlayer.action d = ComputerPlayer.ActCover /\
    GameSession.applyHumanMove GameSession.MoveCover (ComputerPlayer.squares d) session_rolled =
      (s', Ok (GameSession.Done over false false)).
Proof.
  assert (Hok : forall r, GameSession.currentRound session_rolled = Some r -> round_ok r).
  { intros r Hr. vm_compute in Hr. injection Hr as <-. split; reflexivity. }
  assert (Hphase : GameSession.phase session_rolled = GameSession.awaitingMove)
    by (vm_compute; reflexivity).
  destruct (GameSession.getHelpSuggestion session_rolled) as [[d|]|] eqn:Hhelp;
    [| vm_compute in Hhelp; discriminate Hhelp | vm_compute in Hhelp; discriminate Hhelp].
  pose proof (suggested_move_is_accepted session_rolled d Hok Hphase Hhelp) as H.
  assert (Hact : ComputerPlayer.action d = ComputerPlayer.ActCover).
  { vm_compute in Hhelp. injection Hhelp as <-. reflexivity. }
  rewrite Hact in H. destruct H as [s' [over H]].
  exists d, s', over. split; [reflexivity|]. split; [exact Hact | exact H].
Defined.





Lemma computer_moves_cannot_move (round : GameRound.t) (rollInfo : CurrentDice) (sum : Z)
    (co uo : list (list Z)) (s s' : GameSession.t) (over auto : bool) :
  GameSession.computer_moves round rollInfo sum co uo s <>
  (s', Ok (GameSession.Done over true auto)).
Proof.
  unfold GameSession.computer_moves. cbv zeta.
  match goal with |- context [GameSession.on_round ?m ?r ?st] =>
    destruct (GameSession.on_round m r st) as [s1 [u|msg]] end; [|discriminate].
  match goal with |- context [match GameSession.currentRound ?x with _ => _ end] =>
    destruct (GameSession.currentRound x) as [r2|] end; [|discriminate].
  destruct (GameRound.roundOver r2); discriminate.
Qed.

Lemma manual_roll_awaits_move (numDice : Z) (values : list Z)
    (s s' : GameSession.t) (over auto : bool) :
  GameSession.handleManualRoll numDice values s =
    (s', Ok (GameSession.Done over true auto)) ->
  GameSession.phase s = GameSession.awaitingRoll /\
  GameSession.phase s' = GameSession.awaitingMove /\
  GameSession.currentRound s' = GameSession.currentRound s /\
  GameSession.history s' = GameSession.history s /\
  (numDice = 1 \/ numDice = 2) /\
  exists round t,
    GameSession.currentRound s = Some round /\
    GameSession.sum_is_set (GameSession.currentDice s') = Some t /\
    numDice <= t <= 6 * numDice /\ dice_total t /\
    (numDice = 1 ->
     Board.canUseOneDie
       (board (GameRound.getPlayerById round (GameSession.currentPlayerId s))) = true) /\
    (GameRound.getCoverOptions round (GameSession.currentPlayerId s) t <> [] \/
     GameRound.getUncoverOptions round (GameSession.currentPlayerId s) t <> []).
Proof.
  unfold GameSession.handleManualRoll.
  destruct (GameSession.currentRound s) as [round|] eqn:Hround; [|discriminate].
  destruct (GameSession.Phase_eqb (GameSession.phase s) GameSession.awaitingRoll) eqn:Hphase;
    cbn [negb]; [|discriminate].
  destruct (Z.eqb_spec numDice 1) as [H1 | H1]; cbn [negb andb].
  - (* one die *)
    destruct (Z.ltb_spec (Z.of_nat (length values)) numDice) as [Hshort | Hlen]; [discriminate|].
    replace (numDice =? 2) with false by (symmetry; apply Z.eqb_neq; lia).
    destruct (Dice._isValidDie (nth 0 values 0)) eqn:Hd1; cbn [negb orb]; [|discriminate].
    destruct (Board.canUseOneDie _) eqn:Hone; cbn [negb]; [|discriminate].
    cbv zeta.
    destruct (GameSession.isPlayerHumanControlled _ _).
    + destruct ((length _ =? 0)%nat && (length _ =? 0)%nat) eqn:Hnone; [discriminate|].
      intros Hres. injection Hres as <- _ _.
      unfold Dice._isValidDie in Hd1. apply andb_true_iff in Hd1.
      destruct Hd1 as [Hlo Hhi]. apply Z.leb_le in Hlo. apply Z.leb_le in Hhi.
      split; [now destruct (GameSession.phase s)|]. split; [reflexivity|].
      split; [now cbn|]. split; [reflexivity|]. split; [now left|].
      exists round, (nth 0 values 0 + 0). split; [reflexivity|].
      split.
      { cbn. destruct (Z.eqb_spec (nth 0 values 0 + 0) 0); [lia | reflexivity]. }
      split; [lia|]. split; [unfold dice_total; lia|]. split; [intros _; exact Hone|].
      apply andb_false_iff in Hnone. cbn [GameSession.currentPlayerId] in Hnone.
      destruct Hnone as [Hn | Hn]; apply Nat.eqb_neq in Hn; [left | right];
        intros Hnil; apply Hn; cbn in Hnil |- *; now rewrite Hnil.
    + destruct ((length _ =? 0)%nat && (length _ =? 0)%nat).
      * unfold GameSession.computer_no_moves. cbv zeta.
        destruct (GameRound.roundOver _); discriminate.
      * intros Hres. exfalso.
        exact (computer_moves_cannot_move _ _ _ _ _ _ _ _ _ Hres).
  - destruct (Z.eqb_spec numDice 2) as [H2 | H2]; cbn [negb]; [|discriminate].
    destruct (Z.ltb_spec (Z.of_nat (length values)) numDice) as [Hshort | Hlen]; [discriminate|].
    destruct (Dice._isValidDie (nth 0 values 0)) eqn:Hd1; cbn [negb orb]; [|discriminate].
    destruct (Dice._isValidDie (nth 1 values 0)) eqn:Hd2; cbn [negb]; [|discriminate].
    cbv zeta.
    destruct (GameSession.isPlayerHumanControlled _ _).
    + destruct ((length _ =? 0)%nat && (length _ =? 0)%nat) eqn:Hnone; [discriminate|].
      intros Hres. injection Hres as <- _ _.
      unfold Dice._isValidDie in Hd1, Hd2.
      apply andb_true_iff in Hd1. apply andb_true_iff in Hd2.
      destruct Hd1 as [Hlo1 Hhi1]. destruct Hd2 as [Hlo2 Hhi2].
      apply Z.leb_le in Hlo1. apply Z.leb_le in Hhi1.
      apply Z.leb_le in Hlo2. apply Z.leb_le in Hhi2.
      split; [now destruct (GameSession.phase s)|]. split; [reflexivity|].
      split; [now cbn|]. split; [reflexivity|]. split; [now right|].
      exists round, (nth 0 values 0 + nth 1 values 0). split; [reflexivity|].
      split.
      { cbn. destruct (Z.eqb_spec (nth 0 values 0 + nth 1 values 0) 0); [lia | reflexivity]. }
      split; [lia|]. split; [unfold dice_total; lia|]. split; [intros; lia|].
      apply andb_false_iff in Hnone. cbn [GameSession.currentPlayerId] in Hnone.
      destruct Hnone as [Hn | Hn]; apply Nat.eqb_neq in Hn; [left | right];
        intros Hnil; apply Hn; cbn in Hnil |- *; now rewrite Hnil.
    + destruct ((length _ =? 0)%nat && (length _ =? 0)%nat).
      * unfold GameSession.computer_no_moves. cbv zeta.
        destruct (GameRound.roundOver _); discriminate.
      * intros Hres. exfalso.
        exact (computer_moves_cannot_move _ _ _ _ _ _ _ _ _ Hres).
Qed.

(** X12.  A roll that is handed to the player for a move ([canMove] is
    true), whether its values were given to [handleManualRoll] or came from
    the dice or the queue through [handleRandomRoll], leaves the session
    waiting for the move, and the recorded total is the sum of one or two
    valid dice: between [numDice] and [6 * numDice], hence a total from 1 to
    12.  For [handleManualRoll] the round and the history are untouched, one
    die is accepted only on a board for which [canUseOneDie] holds, and at
    least one cover or uncover option exists for the total. *)
Theorem roll_for_a_move_is_a_dice_total (numDice : Z) (s s' : GameSession.t)
    (over auto : bool) :
  (forall values,
     GameSession.handleManualRoll numDice values s =
       (s', Ok (GameSession.Done over true auto)) ->
     GameSession.phase s = GameSession.awaitingRoll /\
     GameSession.phase s' = GameSession.awaitingMove /\
     GameSession.currentRound s' = GameSession.currentRound s /\
     GameSession.history s' = GameSession.history s /\
     (numDice = 1 \/ numDice = 2) /\
     exists round t,
       GameSession.currentRound s = Some round /\
       GameSession.sum_is_set (GameSession.currentDice s') = Some t /\
       numDice <= t <= 6 * numDice /\ dice_total t /\
       (numDice = 1 ->
        Board.canUseOneDie
          (board (GameRound.getPlayerById round (GameSession.currentPlayerId s))) = true) /\
       (GameRound.getCoverOptions round (GameSession.currentPlayerId s) t <> [] \/
        GameRound.getUncoverOptions round (GameSession.currentPlayerId s) t <> [])) /\
  (forall face1 face2,
     GameSession.handleRandomRoll numDice face1 face2 s =
       (s', Ok (GameSession.Done over true auto)) ->
     GameSession.phase s' = GameSession.awaitingMove /\
     (numDice = 1 \/ numDice = 2) /\
     exists t,
       GameSession.sum_is_set (GameSession.currentDice s') = Some t /\
       numDice <= t <= 6 * numDice /\ dice_total t).
Proof.
  split.
  - intros values. apply manual_roll_awaits_move.
  - intros face1 face2. unfold GameSession.handleRandomRoll. cbv zeta.
    destruct (Dice.rollRandom numDice face1 face2 _) as [queue2 [roll|msg]]; [|discriminate].
    intros H. apply manual_roll_awaits_move in H.
    destruct H as [_ [Hp [_ [_ [Hn [round [t [_ [Ht [Hr [Hd _]]]]]]]]]]].
    split; [exact Hp|]. split; [exact Hn|]. exists t. tauto.
Qed.

Lemma roll_for_a_move_is_a_dice_total_witness :
  GameSession.handleManualRoll 2 [3; 4] session_start =
    (session_rolled, Ok (GameSession.Done false true false)) /\
  GameSession.phase session_rolled = GameSession.awaitingMove /\
  GameSession.sum_is_set (GameSession.currentDice session_rolled) = Some 7.
Proof.
  assert (H : GameSession.handleManualRoll 2 [3; 4] session_start =
              (session_rolled, Ok (GameSession.Done false true false)))
    by (vm_compute; reflexivity).
  destruct (roll_for_a_move_is_a_dice_total 2 session_start session_rolled false false)
    as [Hmanual _].
  destruct (Hmanual [3; 4] H) as [_ [Hp _]].
  split; [exact H|]. split; [exact Hp | vm_compute; reflexivity].
Defined.

(** X13.  The roll buttons agree with the roll handler: when
    [getRollButtonState] disables the buttons, every roll is answered with
    an error, and when it does not offer the single die, every roll of one
    die is answered with an error; in both cases the session stays as it
    is. *)
Theorem roll_buttons_match_rolls (s : GameSession.t) (values : list Z) :
  (snd (GameSession.getRollButtonState s) = false ->
   forall numDice,
     exists msg,
       GameSession.handleManualRoll numDice values s = (s, Ok (GameSession.Error msg))) /\
  (fst (GameSession.getRollButtonState s) = false ->
   exists msg, GameSession.handleManualRoll 1 values s = (s, Ok (GameSession.Error msg))).
Proof.
  unfold GameSession.getRollButtonState, GameSession.handleManualRoll.
  destruct (GameSession.currentRound s) as [round|];
    [|split; intros; eexists; reflexivity].
  destruct (negb (GameSession.Phase_eqb (GameSession.phase s) GameSession.awaitingRoll));
    [split; intros; eexists; reflexivity|].
  cbn [fst snd]. split; [discriminate|]. intros Hone.
  cbn [Z.eqb negb andb Pos.eqb].
  destruct (Z.of_nat (length values) <? 1); [eexists; reflexivity|].
  destruct (negb (Dice._isValidDie (nth 0 values 0)) || false); [eexists; reflexivity|].
  rewrite Hone. cbn [negb]. eexists; reflexivity.
Qed.

(** ** What stays true while a round is played *)

Lemma checkForRoundEnd_frame (r : GameRound.t) :
  GameRound.currentPlayerId (GameRound._checkForRoundEnd r) = GameRound.currentPlayerId r /\
  GameRound.boardSize (GameRound._checkForRoundEnd r) = GameRound.boardSize r /\
  GameRound.advantageLock (GameRound._checkForRoundEnd r) = GameRound.advantageLock r /\
  GameRound.firstPlayerId (GameRound._checkForRoundEnd r) = GameRound.firstPlayerId r.
Proof.
  unfold GameRound._checkForRoundEnd.
  destruct (GameRound.round_end_verdict r) as [[w wt]|]; [|repeat split].
  destruct w; repeat split.
Qed.

Lemma round_fits_boards (r r' : GameRound.t) :
  round_fits r ->
  GameRound.boardSize r' = GameRound.boardSize r ->
  (forall p, board_ok (board (GameRound.getPlayerById r' p)) /\
             Board.size (board (GameRound.getPlayerById r' p)) =
             Board.size (board (GameRound.getPlayerById r p))) ->
  round_fits r'.
Proof.
  intros [[Hh Hc] [Hsize [Hsh Hsc]]] Hbs Hb. unfold round_fits, round_ok.
  destruct (Hb HUMAN) as [Hh' Hsh']. destruct (Hb COMPUTER) as [Hc' Hsc'].
  cbn [GameRound.getPlayerById] in *. rewrite Hbs, Hsh', Hsc'. tauto.
Qed.

Lemma apply_move_fits (mt : GameSession.MoveType) (p : PlayerId) (squares : list Z)
    (r : GameRound.t) :
  round_fits r -> NoDup squares ->
  (forall x, In x squares ->
             markable (move_state mt) (board (GameRound.getPlayerById r (move_target mt p))) x) ->
  exists r',
    (match mt with
     | GameSession.MoveCover => GameRound.applyCoverMove p squares
     | GameSession.MoveUncover => GameRound.applyUncoverMove p squares
     end) r = (r', Ok tt) /\
    round_fits r' /\ GameRound.currentPlayerId r' = GameRound.currentPlayerId r.
Proof.
  intros Hfit Hnd Hall. pose proof Hfit as [Hok _].
  destruct (apply_move_marks mt p squares r Hok Hnd Hall) as [r' [Hmove [Htarget Hother]]].
  exists r'. split; [exact Hmove|].
  assert (Hshape : r' = GameRound._checkForRoundEnd
                          (fst ((match mt with
                                 | GameSession.MoveCover =>
                                     (GameRound.on_board p (Board.coverSquares squares) ;;;
                                      modify (GameRound.set_everCovered p true))%method
                                 | GameSession.MoveUncover =>
                                     GameRound.on_board (GameRound.getOpponentId p)
                                       (Board.uncoverSquares squares)
                                 end) r))).
  { pose proof (on_board_markSquares (move_state mt) (move_target mt p) squares r Hok Hnd Hall)
      as Hon.
    destruct mt; cbn [move_state move_target markSquares] in Hon;
      unfold GameRound.applyCoverMove, GameRound.applyUncoverMove, bind, modify in Hmove |- *;
      rewrite Hon in Hmove |- *; cbn [fst]; now injection Hmove as <-. }
  split.
  - apply (round_fits_boards r r' Hfit).
    + rewrite Hshape. destruct (checkForRoundEnd_frame
        (fst ((match mt with
               | GameSession.MoveCover =>
                   (GameRound.on_board p (Board.coverSquares squares) ;;;
                    modify (GameRound.set_everCovered p true))%method
               | GameSession.MoveUncover =>
                   GameRound.on_board (GameRound.getOpponentId p)
                     (Board.uncoverSquares squares)
               end) r))) as [_ [Hbs _]].
      rewrite Hbs.
      pose proof (on_board_markSquares (move_state mt) (move_target mt p) squares r Hok Hnd Hall)
        as Hon.
      destruct mt; cbn [move_state move_target markSquares] in Hon;
        unfold bind, modify; rewrite Hon; cbn [fst]; now destruct p.
    + intros q.
      destruct (PlayerId_eqb q (move_target mt p)) eqn:Hq.
      * apply PlayerId_eqb_eq in Hq. subst q. rewrite Htarget.
        split; [apply mark_all_ok; destruct Hok; now destruct (move_target mt p)
               | apply mark_all_size].
      * assert (Hqo : q = GameRound.getOpponentId (move_target mt p)).
        { destruct q, (move_target mt p); try reflexivity; discriminate Hq. }
        subst q. rewrite Hother. split; [|reflexivity].
        destruct Hok. now destruct (move_target mt p).
  - rewrite Hshape. destruct (checkForRoundEnd_frame
      (fst ((match mt with
             | GameSession.MoveCover =>
                 (GameRound.on_board p (Board.coverSquares squares) ;;;
                  modify (GameRound.set_everCovered p true))%method
             | GameSession.MoveUncover =>
                 GameRound.on_board (GameRound.getOpponentId p)
                   (Board.uncoverSquares squares)
             end) r))) as [Hcur _].
    rewrite Hcur.
    pose proof (on_board_markSquares (move_state mt) (move_target mt p) squares r Hok Hnd Hall)
      as Hon.
    destruct mt; cbn [move_state move_target markSquares] in Hon;
      unfold bind, modify; rewrite Hon; cbn [fst]; now destruct p.
Qed.

Lemma steady_after_move (s : GameSession.t) (r r' : GameRound.t) (label : string)
    (la : option GameSession.LastAction) :
  steady s -> GameSession.currentRound s = Some r -> round_fits r' ->
  GameRound.currentPlayerId r' = GameRound.currentPlayerId r ->
  steady (if GameRound.roundOver r'
          then GameSession.update_advantage
                 (GameSession.set_phase GameSession.roundOver
                    (GameSession._pushHistory label la (GameSession.store_round r' s)))
          else GameSession.set_phase GameSession.awaitingRoll
                 (GameSession.set_currentDice no_dice
                    (GameSession._pushHistory label la (GameSession.store_round r' s)))).
Proof.
  intros [r0 [tn [Hr0 [Htn [Hdice [_ [Hcur [_ [_ [_ [_ _]]]]]]]]]]] Hr Hfit Hcur'.
  rewrite Hr in Hr0. injection Hr0 as <-.
  destruct s as [tnS diceS crS hist q mode cur ph cd].
  cbn [GameSession.currentRound GameSession.tournament GameSession.dice
       GameSession.currentPlayerId] in *.
  subst tnS crS.
  unfold GameSession._pushHistory, GameSession._captureSnapshot, GameSession.store_round,
         GameSession.update_advantage.
  cbn [GameSession.currentRound GameSession.tournament GameSession.dice
       GameSession.currentPlayerId GameSession.history GameSession.queuedRolls
       GameSession.gameMode GameSession.phase GameSession.currentDice
       GameSession.set_currentRound GameSession.set_tournament GameSession.set_history
       GameSession.set_phase GameSession.set_currentDice].
  destruct (GameRound.roundOver r') eqn:Hover.
  - cbn [GameSession.currentRound GameSession.tournament GameSession.dice
         GameSession.currentPlayerId GameSession.history GameSession.queuedRolls
         GameSession.gameMode GameSession.phase GameSession.currentDice
         GameSession.set_currentRound GameSession.set_tournament GameSession.set_history
         GameSession.set_phase GameSession.set_currentDice].
    eexists. eexists.
    split; [reflexivity|]. split; [reflexivity|]. split; [exact Hdice|].
    split; [exact Hfit|]. split; [cbn; congruence|].
    split; [now destruct (Tournament.updateAdvantageForNextRound _) eqn:Hu;
            unfold Tournament.updateAdvantageForNextRound in Hu; cbn in Hu;
            repeat match type of Hu with
                   | context [if ?c then _ else _] => destruct c
                   | context [match ?c with Some _ => _ | None => _ end] => destruct c
                   end; injection Hu as <- <- _ _ _|].
    split; [now destruct (Tournament.updateAdvantageForNextRound _) eqn:Hu;
            unfold Tournament.updateAdvantageForNextRound in Hu; cbn in Hu;
            repeat match type of Hu with
                   | context [if ?c then _ else _] => destruct c
                   | context [match ?c with Some _ => _ | None => _ end] => destruct c
                   end; injection Hu as <- <- _ _ _|].
    split; [cbn; tauto|]. split; [cbn; discriminate | cbn; discriminate].
  - eexists. eexists.
    split; [reflexivity|]. split; [reflexivity|]. split; [exact Hdice|].
    split; [exact Hfit|]. split; [cbn; congruence|].
    split; [reflexivity|]. split; [reflexivity|].
    split; [cbn; rewrite Hover; split; discriminate|].
    split; [cbn; discriminate | cbn; discriminate].
Qed.

Lemma steady_make (tn : Tournament.t) (dice : option (list QueuedRoll)) (r : GameRound.t)
    (hist : list GameSession.HistoryEntry) (q : list QueuedRoll) (mode : GameSession.GameMode)
    (cur : PlayerId) (ph : GameSession.Phase) (cd : CurrentDice) :
  dice <> None -> round_fits r -> GameRound.currentPlayerId r = cur ->
  totalScore (Tournament.human tn) = totalScore (GameRound.human r) ->
  totalScore (Tournament.computer tn) = totalScore (GameRound.computer r) ->
  (GameRound.roundOver r = true <-> ph = GameSession.roundOver) ->
  ph <> GameSession.idle ->
  (ph = GameSession.awaitingMove ->
   exists t, GameSession.sum_is_set cd = Some t /\ dice_total t) ->
  steady (GameSession.mk (Some tn) dice (Some r) hist q mode cur ph cd).
Proof.
  intros. exists r, tn. session_fields. repeat (split; [assumption || reflexivity|]).
  assumption.
Qed.

Lemma updateAdvantage_players (tn : Tournament.t) :
  Tournament.human (Tournament.updateAdvantageForNextRound tn) = Tournament.human tn /\
  Tournament.computer (Tournament.updateAdvantageForNextRound tn) = Tournament.computer tn.
Proof.
  unfold Tournament.updateAdvantageForNextRound.
  destruct (Tournament.currentRound tn) as [round|]; [|split; reflexivity].
  destruct (negb (GameRound.roundOver round)); [split; reflexivity|].
  destruct (GameRound.roundWinnerId round); [|split; reflexivity].
  destruct (GameRound.roundScore round <=? 0); split; reflexivity.
Qed.

Lemma notifyTurnEnded_frame (p : PlayerId) (r : GameRound.t) :
  GameRound.human (GameRound.notifyTurnEnded p r) = GameRound.human r /\
  GameRound.computer (GameRound.notifyTurnEnded p r) = GameRound.computer r /\
  GameRound.boardSize (GameRound.notifyTurnEnded p r) = GameRound.boardSize r /\
  GameRound.currentPlayerId (GameRound.notifyTurnEnded p r) = GameRound.currentPlayerId r /\
  GameRound.roundOver (GameRound.notifyTurnEnded p r) = GameRound.roundOver r.
Proof.
  unfold GameRound.notifyTurnEnded. destruct (GameRound.advantageLock r) as [l|]; [|tauto].
  destruct (PlayerId_eqb (lock_playerId l) p && negb (lock_unlocked l)); repeat split.
Qed.

Lemma round_fits_same_players (r r' : GameRound.t) :
  round_fits r -> GameRound.human r' = GameRound.human r ->
  GameRound.computer r' = GameRound.computer r ->
  GameRound.boardSize r' = GameRound.boardSize r -> round_fits r'.
Proof.
  unfold round_fits, round_ok. intros H Hh Hc Hb. rewrite Hh, Hc, Hb. exact H.
Qed.

Lemma endTurn_steady (s : GameSession.t) : steady s -> steady (fst (GameSession.endTurn s)).
Proof.
  intros [r [tn [Hr [Htn [Hdice [Hfit [Hcur [Hth [Htc [Hover [Hidle Hmove]]]]]]]]]]].
  destruct s as [tnS diceS crS hist q mode cur ph cd]. session_fields. subst tnS crS.
  unfold GameSession.endTurn. session_fields.
  destruct (notifyTurnEnded_frame cur r) as [Hh [Hc [Hb [Hp Ho]]]].
  rewrite Ho. unfold GameSession.store_round, GameSession.update_advantage.
  session_fields.
  assert (Hfit1 : round_fits (GameRound.notifyTurnEnded cur r))
    by (now apply (round_fits_same_players r)).
  destruct (GameRound.roundOver r) eqn:Hro; cbn [fst]; session_fields.
  - apply steady_make; session_fields; try assumption.
    + congruence.
    + now destruct (updateAdvantage_players
                      (Tournament.mk (GameRound.human (GameRound.notifyTurnEnded cur r))
                         (GameRound.computer (GameRound.notifyTurnEnded cur r))
                         (match Tournament.currentRound tn with
                          | Some _ => Some (GameRound.notifyTurnEnded cur r)
                          | None => None
                          end) (Tournament.nextRoundAdvantage tn) (Tournament.roundNumber tn)))
        as [-> _].
    + now destruct (updateAdvantage_players
                      (Tournament.mk (GameRound.human (GameRound.notifyTurnEnded cur r))
                         (GameRound.computer (GameRound.notifyTurnEnded cur r))
                         (match Tournament.currentRound tn with
                          | Some _ => Some (GameRound.notifyTurnEnded cur r)
                          | None => None
                          end) (Tournament.nextRoundAdvantage tn) (Tournament.roundNumber tn)))
        as [_ ->].
    + rewrite Ho. tauto.
    + discriminate.
    + discriminate.
  - apply steady_make; session_fields; try assumption; try discriminate; try reflexivity.
    cbn. rewrite Ho. split; discriminate.
Qed.

Lemma applyHumanMove_steady (mt : GameSession.MoveType) (squares : list Z)
    (s : GameSession.t) :
  steady s -> steady (fst (GameSession.applyHumanMove mt squares s)).
Proof.
  intros Hst. pose proof Hst as [r [tn [Hr [Htn [Hdice [Hfit _]]]]]].
  unfold GameSession.applyHumanMove. rewrite Hr.
  destruct (negb (GameSession.Phase_eqb (GameSession.phase s) GameSession.awaitingMove));
    [exact Hst|].
  destruct (GameSession.sum_is_set (GameSession.currentDice s)) as [sum|]; [|exact Hst].
  match goal with |- context [GameSession.option_exists ?o squares] =>
    destruct (GameSession.option_exists o squares) eqn:Hex end; cbn [negb]; [|exact Hst].
  destruct (accepted_selection_markable mt r (GameSession.currentPlayerId s) sum squares)
    as [Hnd Hall]; [destruct mt; exact Hex|].
  destruct (apply_move_fits mt (GameSession.currentPlayerId s) squares r Hfit Hnd Hall)
    as [r' [Hmove [Hfit' Hcur']]].
  unfold GameSession.on_round.
  replace (match mt with
           | GameSession.MoveCover =>
               GameRound.applyCoverMove (GameSession.currentPlayerId s) squares
           | GameSession.MoveUncover =>
               GameRound.applyUncoverMove (GameSession.currentPlayerId s) squares
           end r) with (r', @Ok unit tt) by (destruct mt; now rewrite <- Hmove).
  rewrite currentRound_pushHistory, currentRound_store_round.
  match goal with |- context [GameSession._pushHistory ?L ?LA (GameSession.store_round r' s)] =>
    pose proof (steady_after_move s r r' L LA Hst Hr Hfit' Hcur') as H end.
  destruct (GameRound.roundOver r'); exact H.
Qed.

Lemma handleManualRoll_steady (numDice : Z) (values : list Z) (s : GameSession.t) :
  steady s -> steady (fst (GameSession.handleManualRoll numDice values s)).
Proof.
  intros Hst.
  pose proof Hst as [r [tn [Hr [Htn [Hdice [Hfit [Hcur [Hth [Htc [Hover [Hidle Hmove]]]]]]]]]]].
  unfold GameSession.handleManualRoll. rewrite Hr.
  destruct (GameSession.Phase_eqb (GameSession.phase s) GameSession.awaitingRoll) eqn:Hphase;
    cbn [negb]; [|exact Hst].
  assert (Hph : GameSession.phase s = GameSession.awaitingRoll)
    by (now destruct (GameSession.phase s)).
  assert (Hnot : GameRound.roundOver r = false).
  { destruct (GameRound.roundOver r); [|reflexivity].
    destruct Hover as [Ho _]. rewrite (Ho eq_refl) in Hph. discriminate Hph. }
  destruct (negb (numDice =? 1) && negb (numDice =? 2)) eqn:Hnum; [exact Hst|].
  destruct (Z.of_nat (length values) <? numDice); [exact Hst|].
  set (d1 := nth 0 values 0). set (d2 := if numDice =? 2 then Some (nth 1 values 0) else None).
  destruct (negb (Dice._isValidDie d1) ||
            match d2 with Some v => negb (Dice._isValidDie v) | None => false end) eqn:Hvalid;
    [exact Hst|].
  destruct ((numDice =? 1) && negb (Board.canUseOneDie _)); [exact Hst|].
  cbv zeta.
  set (sum := d1 + match d2 with Some v => v | None => 0 end).
  assert (Hsum : dice_total sum).
  { apply orb_false_iff in Hvalid. destruct Hvalid as [Hv1 Hv2].
    apply negb_false_iff in Hv1. unfold Dice._isValidDie in Hv1.
    apply andb_true_iff in Hv1. destruct Hv1 as [Hlo Hhi].
    apply Z.leb_le in Hlo. apply Z.leb_le in Hhi.
    unfold dice_total, sum. destruct d2 as [v|]; [|lia].
    apply negb_false_iff in Hv2. unfold Dice._isValidDie in Hv2.
    apply andb_true_iff in Hv2. destruct Hv2 as [Hlo2 Hhi2].
    apply Z.leb_le in Hlo2. apply Z.leb_le in Hhi2. lia. }
  assert (Hset : GameSession.sum_is_set (mkCurrentDice (Some d1) d2 (Some sum)) = Some sum).
  { unfold GameSession.sum_is_set. cbn [cd_sum].
    destruct (Z.eqb_spec sum 0) as [Hz | Hnz]; [unfold dice_total in Hsum; lia | reflexivity]. }
  destruct s as [tnS diceS crS hist q mode cur ph cd]. session_fields. subst tnS crS ph.
  destruct (GameSession.isPlayerHumanControlled _ _).
  - destruct ((length _ =? 0)%nat && (length _ =? 0)%nat); cbn [fst]; session_fields.
    + apply steady_make; try assumption; discriminate.
    + apply steady_make; try assumption; try discriminate.
      * rewrite Hnot. split; discriminate.
      * intros _. exists sum. split; assumption.
  - destruct ((length _ =? 0)%nat && (length _ =? 0)%nat).
    + unfold GameSession.computer_no_moves. cbv zeta. session_fields.
      destruct (notifyTurnEnded_frame cur r) as [Hh [Hc [Hb [Hp Ho]]]].
      rewrite Ho, Hnot. cbn [fst]. unfold GameSession.store_round. session_fields.
      apply steady_make; session_fields; try assumption; try discriminate; try reflexivity.
      * now apply (round_fits_same_players r).
      * cbn. rewrite Ho, Hnot. split; discriminate.
    + unfold GameSession.computer_moves. cbv zeta. session_fields.
      pose proof (decideMove_member r cur sum) as Hmem. cbv zeta in Hmem.
      set (d := ComputerPlayer.decideMove r cur sum) in *.
      assert (Happly : exists r',
                 (match ComputerPlayer.action d with
                  | ComputerPlayer.ActCover =>
                      GameRound.applyCoverMove cur (ComputerPlayer.squares d)
                  | ComputerPlayer.ActUncover =>
                      GameRound.applyUncoverMove cur (ComputerPlayer.squares d)
                  | ComputerPlayer.ActNone => ret tt
                  end) r = (r', Ok tt) /\
                 round_fits r' /\ GameRound.currentPlayerId r' = GameRound.currentPlayerId r).
      { destruct (ComputerPlayer.action d).
        - destruct (accepted_selection_markable GameSession.MoveCover r cur sum
                      (ComputerPlayer.squares d)) as [Hnd Hall];
            [now apply option_exists_member|].
          exact (apply_move_fits GameSession.MoveCover cur _ r Hfit Hnd Hall).
        - destruct (accepted_selection_markable GameSession.MoveUncover r cur sum
                      (ComputerPlayer.squares d)) as [Hnd Hall];
            [now apply option_exists_member|].
          exact (apply_move_fits GameSession.MoveUncover cur _ r Hfit Hnd Hall).
        - exists r. split; [reflexivity|]. split; [exact Hfit | reflexivity]. }
      destruct Happly as [r' [Hr' [Hfit' Hcur']]].
      unfold GameSession.on_round. rewrite Hr'.
      unfold GameSession._pushHistory, GameSession._captureSnapshot, GameSession.store_round.
      session_fields.
      destruct (GameRound.roundOver r') eqn:Hover'; cbn [fst].
      * unfold GameSession.update_advantage, GameSession.store_round. session_fields.
        destruct (notifyTurnEnded_frame cur r') as [Hh [Hc [Hb [Hp Ho]]]].
        apply steady_make; session_fields; try assumption; try discriminate.
        -- now apply (round_fits_same_players r').
        -- congruence.
        -- match goal with |- context [Tournament.updateAdvantageForNextRound ?x] =>
             destruct (updateAdvantage_players x) as [-> _] end. reflexivity.
        -- match goal with |- context [Tournament.updateAdvantageForNextRound ?x] =>
             destruct (updateAdvantage_players x) as [_ ->] end. reflexivity.
        -- rewrite Ho, Hover'. tauto.
      * apply steady_make; session_fields; try assumption; try discriminate;
          try reflexivity.
        -- congruence.
        -- rewrite Hover'. split; discriminate.
Qed.

Lemma startNewRound_steady (size : Z) (first : PlayerId) (s0 : GameSession.t) :
  1 <= size -> steady (fst (GameSession.startNewRound size first s0)).
Proof.
  intros Hsize. unfold GameSession.startNewRound. cbv zeta.
  set (s := match GameSession.tournament s0, GameSession.dice s0 with
            | Some _, Some _ => s0
            | _, _ => GameSession.resetTournament s0
            end).
  assert (Hdice : GameSession.dice s <> None).
  { unfold s. destruct (GameSession.tournament s0); [|discriminate].
    destruct (GameSession.dice s0) eqn:Hd; [|discriminate]. rewrite Hd. discriminate. }
  clearbody s. unfold Tournament.startNewRound. cbv zeta.
  cbn [Tournament.human Tournament.computer Tournament.nextRoundAdvantage
       Tournament.roundNumber].
  destruct (new_round_total size (Tournament.human (GameSession.tournament_or_fresh s))
              (Tournament.computer (GameSession.tournament_or_fresh s)) first
              (Tournament.nextRoundAdvantage (GameSession.tournament_or_fresh s)) Hsize)
    as [bh [bc [lock [Hnew [Hokh [Hsh [Hokc Hsc]]]]]]].
  rewrite Hnew. clear Hnew.
  destruct s as [tnS diceS crS hist q mode cur ph cd].
  unfold GameSession._pushHistory, GameSession._captureSnapshot. session_fields.
  cbn [fst GameRound.currentPlayerId GameRound.human GameRound.computer].
  apply steady_make; try assumption; try discriminate; try reflexivity.
  - unfold round_fits, round_ok.
    cbn [GameRound.human GameRound.computer GameRound.boardSize board with_board].
    tauto.
  - cbn. split; discriminate.
Qed.

Lemma setMode_steady (mode : GameSession.GameMode) (s : GameSession.t) :
  steady s -> steady (GameSession.setMode mode s).
Proof.
  intros [r [tn H]]. exists r, tn. destruct s. exact H.
Qed.

Lemma in_play_steady (s : GameSession.t) : in_play s -> steady s.
Proof.
  induction 1 as [size first Hsize | size first s _ _ Hsize | op s _ IH | mode s _ IH].
  - now apply startNewRound_steady.
  - now apply startNewRound_steady.
  - destruct op; unfold run_op.
    + now apply handleManualRoll_steady.
    + now apply applyHumanMove_steady.
    + now apply endTurn_steady.
  - now apply setMode_steady.
Qed.




(** * The advantage square *)

Lemma digit_sum_mod9 (n : Z) : 0 <= n -> digit_sum n mod 9 = n mod 9.
Proof.
  intros Hn. remember (Z.to_nat n) as m eqn:Hm. revert n Hn Hm.
  induction m as [m IH] using lt_wf_ind. intros n Hn Hm.
  rewrite digit_sum_step. destruct (Z.gtb_spec n 0) as [Hpos | Hzero].
  - assert (Hd : 0 <= n / 10) by (apply Z.div_pos; lia).
    assert (Hlt : n / 10 < n) by (apply Z.div_lt; lia).
    rewrite Z.add_mod by lia.
    rewrite (IH (Z.to_nat (n / 10)) ltac:(lia) (n / 10) Hd eq_refl).
    rewrite <- Z.add_mod by lia.
    rewrite (Z.div_mod n 10) at 3 by lia.
    replace (10 * (n / 10) + n mod 10) with (n mod 10 + n / 10 + (n / 10) * 9) by lia.
    now rewrite Z.mod_add by lia.
  - replace n with 0 by lia. reflexivity.
Qed.

Lemma digit_sum_nonneg (n : Z) : 0 <= n -> 0 <= digit_sum n.
Proof. intros H. now destruct (digit_sum_bounds n H) as [[H0 _] _]. Qed.

Lemma iter_digit_sum_mod9 (k : nat) (n : Z) :
  0 <= n -> 0 <= Nat.iter k digit_sum n /\ Nat.iter k digit_sum n mod 9 = n mod 9.
Proof.
  intros Hn. induction k as [|k [IH0 IH]]; [split; [exact Hn | reflexivity]|].
  change (Nat.iter (S k) digit_sum n) with (digit_sum (Nat.iter k digit_sum n)).
  split; [now apply digit_sum_nonneg|].
  now rewrite digit_sum_mod9.
Qed.

Lemma digitSum_abs (n : Z) : Tournament._digitSum n = Tournament._digitSum (Z.abs n).
Proof. rewrite (digitSum_step n), (digitSum_step (Z.abs n)), Z.abs_idemp. reflexivity. Qed.

(** X15.  [_digitSum] is the digital root: 0 for 0, and for every other
    integer [n], negative ones included, [1 + (|n| - 1) mod 9]. *)
Theorem digitSum_is_digital_root (n : Z) :
  Tournament._digitSum n = if n =? 0 then 0 else 1 + (Z.abs n - 1) mod 9.
Proof.
  destruct (Z.eqb_spec n 0) as [-> | Hne]; [reflexivity|].
  rewrite digitSum_abs.
  assert (Hpos : 0 < Z.abs n) by lia.
  destruct (digitSum_positive (Z.abs n) Hpos) as [Hlo Hhi].
  destruct (digitSum_reduces (Z.abs n) ltac:(lia)) as [k [_ [Hk _]]].
  destruct (iter_digit_sum_mod9 k (Z.abs n) ltac:(lia)) as [_ Hmod].
  rewrite <- Hk in Hmod.
  set (d := Tournament._digitSum (Z.abs n)) in *. set (a := Z.abs n) in *.
  assert (Hd : (d - 1) mod 9 = d - 1) by (apply Z.mod_small; lia).
  assert (Heq : (d - 1) mod 9 = (a - 1) mod 9).
  { rewrite <- (Zminus_mod_idemp_l d 1 9), <- (Zminus_mod_idemp_l a 1 9), Hmod.
    reflexivity. }
  lia.
Qed.

Lemma covered_numbers_blank (size : Z) : Board.getCoveredNumbers (blank size) = [].
Proof.
  unfold Board.getCoveredNumbers. apply filter_none. intros x _. apply blank_covered_at.
Qed.

Lemma covered_numbers_single (size d : Z) :
  1 <= d <= size ->
  Board.getCoveredNumbers (Board.set_covered d true (blank size)) = [d].
Proof.
  intros Hd.
  assert (Hasc : ascending (Board.getCoveredNumbers (Board.set_covered d true (blank size))))
    by apply getCoveredNumbers_ascending.
  assert (Hin : forall x, In x (Board.getCoveredNumbers (Board.set_covered d true (blank size)))
                          <-> x = d).
  { intros x. rewrite getCoveredNumbers_In, set_covered_size. cbn [Board.size blank].
    split.
    - intros [Hx Hc]. destruct (Z.eq_dec x d) as [-> | Hne]; [reflexivity|].
      rewrite covered_at_set_other in Hc by lia. rewrite blank_covered_at in Hc. discriminate.
    - intros ->. split; [exact Hd|]. apply covered_at_set_same; [apply blank_ok | exact Hd]. }
  destruct (Board.getCoveredNumbers (Board.set_covered d true (blank size))) as [|a l].
  - exfalso. now apply (proj2 (Hin d)).
  - assert (Ha : a = d) by (apply Hin; now left). subst a.
    destruct l as [|b l]; [reflexivity|]. exfalso.
    assert (Hb : b = d) by (apply Hin; right; now left). subst b.
    apply ascending_cons_inv in Hasc. destruct Hasc as [_ Hall].
    inversion Hall; lia.
Qed.

(** X16.  A round constructed with an advantage whose digit sum [d] is a
    square of the board starts with [d] covered on the recipient's board and
    nothing else covered, with the lock on [d] in place; the recipient
    counts as having covered a square, the other player does not.  A digit
    sum outside the board gives a round without lock and without covered
    squares. *)
Theorem advantage_applied_at_round_start (size d : Z) (hp cp : Player) (first pid : PlayerId) :
  1 <= size ->
  exists r,
    GameRound.new size hp cp first (Some (mkAdvantageInfo pid d)) = Ok r /\
    (1 <= d <= size ->
     GameRound.advantageLock r = Some (mkAdvantageLock pid d false) /\
     GameRound.getLockedAdvantageSquare r pid = Some d /\
     Board.getCoveredNumbers (board (GameRound.getPlayerById r pid)) = [d] /\
     Board.getCoveredNumbers (board (GameRound.getOpponent r pid)) = [] /\
     GameRound.humanEverCovered r = PlayerId_eqb pid HUMAN /\
     GameRound.computerEverCovered r = PlayerId_eqb pid COMPUTER) /\
    (d < 1 \/ size < d ->
     GameRound.advantageLock r = None /\
     Board.getCoveredNumbers (board (GameRound.human r)) = [] /\
     Board.getCoveredNumbers (board (GameRound.computer r)) = [] /\
     GameRound.humanEverCovered r = false /\ GameRound.computerEverCovered r = false).
Proof.
  intros Hsize. unfold GameRound.new.
  replace (size <? 1) with false by (symmetry; apply Z.ltb_ge; lia).
  rewrite Board_new_blank by exact Hsize.
  unfold GameRound._applyAdvantageIfAny.
  cbn [GameRound.advantageInfo GameRound.boardSize ai_digitSum ai_playerId].
  destruct (Z.ltb_spec d 1) as [Hlow | Hlow]; cbn [orb].
  - eexists. split; [reflexivity|]. split; [lia|]. intros _.
    cbn. rewrite covered_numbers_blank. repeat split.
  - destruct (Z.gtb_spec d size) as [Hhigh | Hhigh].
    + eexists. split; [reflexivity|]. split; [lia|]. intros _.
      cbn. rewrite covered_numbers_blank. repeat split.
    + unfold bind, modify.
      assert (Hcov : Board.coverSquares [d] (blank size) =
                     (Board.set_covered d true (blank size), Ok tt)).
      { apply (markSquares_legal true [d] (blank size)).
        - apply blank_ok.
        - repeat constructor. intros [].
        - intros x [<- | []]. split; [cbn; lia | apply blank_covered_at]. }
      rewrite (on_board_ok pid (Board.coverSquares [d]) _ (Board.set_covered d true (blank size))
                 tt) by (destruct pid; exact Hcov).
      eexists. split; [reflexivity|]. split; [|lia]. intros _.
      destruct pid; cbn;
        rewrite ?covered_numbers_blank, ?covered_numbers_single by lia;
        repeat split; now rewrite Z.eqb_refl.
Qed.

Lemma advantage_applied_at_round_start_witness :
  exists r,
    GameRound.new 9 (Player_new HUMAN "Human") (Player_new COMPUTER "Computer") HUMAN
      (Some (mkAdvantageInfo COMPUTER 5)) = Ok r /\
    GameRound.advantageLock r = Some (mkAdvantageLock COMPUTER 5 false) /\
    Board.getCoveredNumbers (board (GameRound.computer r)) = [5].
Proof.
  destruct (advantage_applied_at_round_start 9 5 (Player_new HUMAN "Human")
              (Player_new COMPUTER "Computer") HUMAN COMPUTER ltac:(lia))
    as [r [Hnew [Hin _]]].
  destruct (Hin ltac:(lia)) as [Hlock [_ [Hcov _]]].
  exists r. split; [exact Hnew|]. split; [exact Hlock | exact Hcov].
Defined.

(** ** The lock over a round *)

Lemma lock_follows_refl (l : option AdvantageLock) : lock_follows l l.
Proof. destruct l; cbn; tauto. Qed.

Lemma lock_follows_trans (a b c : option AdvantageLock) :
  lock_follows a b -> lock_follows b c -> lock_follows a c.
Proof.
  destruct a, b, c; cbn; try tauto. intros [H1 [H2 H3]] [H4 [H5 H6]].
  repeat split; try congruence. tauto.
Qed.

Lemma on_board_lock {A : Type} (p : PlayerId) (m : method Board.t A) (r : GameRound.t) :
  GameRound.advantageLock (fst (GameRound.on_board p m r)) = GameRound.advantageLock r.
Proof.
  unfold GameRound.on_board. destruct (m _) as [b' c]. now destruct p.
Qed.

Lemma round_step_lock (r : GameRound.t) (op : RoundOp) :
  lock_follows (GameRound.advantageLock r) (GameRound.advantageLock (round_step r op)).
Proof.
  destruct op as [p squares | p squares | p |]; cbn [round_step].
  - unfold GameRound.applyCoverMove, bind, modify.
    pose proof (on_board_lock p (Board.coverSquares squares) r) as Hl.
    destruct (GameRound.on_board p (Board.coverSquares squares) r) as [r1 [u|msg]];
      cbn [fst] in *.
    + destruct (checkForRoundEnd_frame (GameRound.set_everCovered p true r1)) as [_ [_ [-> _]]].
      replace (GameRound.advantageLock (GameRound.set_everCovered p true r1))
        with (GameRound.advantageLock r1) by (now destruct p).
      rewrite Hl. apply lock_follows_refl.
    + rewrite Hl. apply lock_follows_refl.
  - unfold GameRound.applyUncoverMove, bind, modify.
    pose proof (on_board_lock (GameRound.getOpponentId p) (Board.uncoverSquares squares) r)
      as Hl.
    destruct (GameRound.on_board _ (Board.uncoverSquares squares) r) as [r1 [u|msg]];
      cbn [fst] in *.
    + destruct (checkForRoundEnd_frame r1) as [_ [_ [-> _]]].
      rewrite Hl. apply lock_follows_refl.
    + rewrite Hl. apply lock_follows_refl.
  - unfold GameRound.notifyTurnEnded.
    destruct (GameRound.advantageLock r) as [l|] eqn:Hlock; [|now rewrite Hlock].
    destruct (PlayerId_eqb (lock_playerId l) p && negb (lock_unlocked l));
      [|rewrite Hlock; apply (lock_follows_refl (Some l))].
    cbn. tauto.
  - apply lock_follows_refl.
Qed.

(** X17.  No operation of a round moves the lock or locks it again: after
    any sequence of moves, ends of turn and changes of turn the lock has the
    holder and the square it started with, a round without lock stays
    without one, and a lock that was unlocked stays unlocked.  From then on
    [getUncoverOptions] returns every uncover combination of the target
    board, for every player and total. *)
Theorem lock_is_never_renewed (ops : list RoundOp) (r : GameRound.t) :
  lock_follows (GameRound.advantageLock r)
               (GameRound.advantageLock (fold_left round_step ops r)) /\
  ((forall l, GameRound.advantageLock r = Some l -> lock_unlocked l = true) ->
   forall p t,
     GameRound.getUncoverOptions (fold_left round_step ops r) p t =
     Board.getUncoverCombos (board (GameRound.getOpponent (fold_left round_step ops r) p)) t).
Proof.
  assert (Hfollow : lock_follows (GameRound.advantageLock r)
                      (GameRound.advantageLock (fold_left round_step ops r))).
  { revert r. induction ops as [|op ops IH]; intros r; [apply lock_follows_refl|].
    cbn [fold_left]. eapply lock_follows_trans; [apply round_step_lock | apply IH]. }
  split; [exact Hfollow|].
  intros Hopen p t. unfold GameRound.getUncoverOptions. cbv zeta.
  destruct (GameRound.advantageLock (fold_left round_step ops r)) as [l'|]; [|reflexivity].
  destruct (GameRound.advantageLock r) as [l|]; [|destruct Hfollow].
  destruct Hfollow as [_ [_ Hun]]. now rewrite (Hun (Hopen l eq_refl)).
Qed.

(** * The score of a round *)

Lemma sum_list_filter_le (f : Z -> bool) (l : list Z) :
  Forall (Z.lt 0) l -> 0 <= sum_list (filter f l) <= sum_list l.
Proof.
  induction 1 as [|x l Hx _ IH]; [cbn [filter]; rewrite !sum_list_nil; lia|].
  cbn [filter]. destruct (f x); rewrite ?sum_list_cons; lia.
Qed.

Lemma sum_list_span (m : nat) (lo : Z) :
  2 * sum_list (map (fun k => lo + Z.of_nat k) (seq 0 m)) =
  Z.of_nat m * (2 * lo + Z.of_nat m - 1).
Proof.
  revert lo. induction m as [|m IH]; intros lo; [reflexivity|].
  rewrite range_incl_shift, sum_list_cons, Z.mul_add_distr_l, IH. lia.
Qed.

Lemma sum_list_range (n : Z) : 0 <= n -> 2 * sum_list (range_incl 1 n) = n * (n + 1).
Proof.
  intros Hn. unfold range_incl. rewrite sum_list_span. lia.
Qed.

Lemma range_positive (n : Z) : Forall (Z.lt 0) (range_incl 1 n).
Proof. apply Forall_forall. intros x Hx. apply range_incl_In in Hx. lia. Qed.

Lemma sum_list_positive_zero (l : list Z) :
  Forall (Z.lt 0) l -> (sum_list l = 0 <-> l = []).
Proof.
  intros H. split; [|intros ->; reflexivity].
  destruct H as [|x l Hx Hl]; [reflexivity|].
  rewrite sum_list_cons.
  pose proof (sum_list_filter_le (fun _ => false) l Hl) as Hb.
  rewrite (filter_none (fun _ : Z => false) l) in Hb by reflexivity.
  rewrite sum_list_nil in Hb. lia.
Qed.

(** X18.  When [_checkForRoundEnd] finds a winner, the round is marked
    over with that winner and win type; the round score is the sum of the
    loser's uncovered squares for a win by cover and the sum of the winner's
    covered squares for a win by uncover; it lies between 0 and
    [n (n + 1) / 2] for the board size [n]; it is added to the winner's total
    and the loser's total stays.  A win by cover scores 0 exactly when the
    loser's board is fully covered as well. *)
Theorem round_end_scores (r : GameRound.t) (w : PlayerId) (wt : WinType) :
  round_fits r ->
  GameRound.round_end_verdict r = Some (w, wt) ->
  GameRound.roundOver (GameRound._checkForRoundEnd r) = true /\
  GameRound.roundWinnerId (GameRound._checkForRoundEnd r) = Some w /\
  GameRound.winType (GameRound._checkForRoundEnd r) = Some wt /\
  GameRound.roundScore (GameRound._checkForRoundEnd r) =
    match wt with
    | WinCover => sum_list (Board.getUncoveredNumbers (board (GameRound.getOpponent r w)))
    | WinUncover => sum_list (Board.getCoveredNumbers (board (GameRound.getPlayerById r w)))
    end /\
  0 <= GameRound.roundScore (GameRound._checkForRoundEnd r) <=
    GameRound.boardSize r * (GameRound.boardSize r + 1) / 2 /\
  totalScore (GameRound.getPlayerById (GameRound._checkForRoundEnd r) w) =
    totalScore (GameRound.getPlayerById r w) +
    GameRound.roundScore (GameRound._checkForRoundEnd r) /\
  totalScore (GameRound.getOpponent (GameRound._checkForRoundEnd r) w) =
    totalScore (GameRound.getOpponent r w) /\
  (wt = WinCover ->
   (GameRound.roundScore (GameRound._checkForRoundEnd r) = 0 <->
    Board.areAllCovered (board (GameRound.getOpponent r w)) = true)).
Proof.
  intros [_ [Hsize [Hsh Hsc]]] Hv. unfold GameRound._checkForRoundEnd. rewrite Hv.
  assert (Hscore : GameRound._computeRoundScore r w wt =
                   match wt with
                   | WinCover =>
                       sum_list (Board.getUncoveredNumbers (board (GameRound.getOpponent r w)))
                   | WinUncover =>
                       sum_list (Board.getCoveredNumbers (board (GameRound.getPlayerById r w)))
                   end) by (now destruct wt).
  assert (Hbound : 0 <= GameRound._computeRoundScore r w wt <=
                   GameRound.boardSize r * (GameRound.boardSize r + 1) / 2).
  { rewrite Hscore.
    assert (Hany : forall (f : Z -> bool),
               0 <= sum_list (filter f (range_incl 1 (GameRound.boardSize r))) <=
               GameRound.boardSize r * (GameRound.boardSize r + 1) / 2).
    { intros f.
      pose proof (sum_list_filter_le f _ (range_positive (GameRound.boardSize r))) as Hle.
      pose proof (sum_list_range (GameRound.boardSize r) ltac:(lia)) as Hsum.
      split; [lia|]. apply Z.div_le_lower_bound; lia. }
    destruct wt, w; unfold Board.getUncoveredNumbers, Board.getCoveredNumbers;
      cbn [GameRound.getOpponent GameRound.getOpponentId GameRound.getPlayerById];
      rewrite ?Hsh, ?Hsc; apply Hany. }
  split; [now destruct w|]. split; [now destruct w|]. split; [now destruct w|].
  split; [destruct w; cbn; exact Hscore|].
  split; [destruct w; cbn; exact Hbound|].
  split; [destruct w; cbn; reflexivity|].
  split; [destruct w; cbn; reflexivity|].
  intros ->. replace (GameRound.roundScore _) with (GameRound._computeRoundScore r w WinCover)
    by (now destruct w).
  rewrite Hscore. unfold Board.areAllCovered.
  rewrite sum_list_positive_zero by apply getUncoveredNumbers_positive.
  now rewrite length_zero_iff_nil_b.
Qed.

Lemma round_end_scores_witness :
  exists r,
    GameRound.round_end_verdict r = Some (HUMAN, WinCover) /\
    GameRound.roundScore (GameRound._checkForRoundEnd r) = 45 /\
    totalScore (GameRound.human (GameRound._checkForRoundEnd r)) = 45.
Proof.
  set (r := GameRound.mk 9 (mkPlayer HUMAN "Human" (Board.mk 9 (false :: repeat true 9)) 0)
              (mkPlayer COMPUTER "Computer" fresh9 0)
              HUMAN HUMAN None None false None None 0 true false).
  assert (Hfit : round_fits r) by (repeat split; cbn; lia).
  assert (Hv : GameRound.round_end_verdict r = Some (HUMAN, WinCover)) by reflexivity.
  destruct (round_end_scores r HUMAN WinCover Hfit Hv) as [_ [_ [_ [Hs [_ [Ht _]]]]]].
  exists r. split; [exact Hv|]. split.
  - rewrite Hs. reflexivity.
  - cbn [GameRound.getPlayerById] in Ht. rewrite Ht, Hs. reflexivity.
Defined.

(** * Snapshots *)

Lemma capture_retag (s : GameSession.t) (ph : GameSession.Phase) (cd : CurrentDice)
    (la : option GameSession.LastAction) :
  GameSession._captureSnapshot
    (GameSession.set_currentDice cd (GameSession.set_phase ph s)) la =
  option_map (retag ph cd) (GameSession._captureSnapshot s la).
Proof.
  destruct s as [tnS diceS crS hist q mode cur ph0 cd0].
  unfold GameSession._captureSnapshot. session_fields.
  destruct crS; [|reflexivity]. destruct tnS; reflexivity.
Qed.

Lemma capture_shape (s : GameSession.t) (la : option GameSession.LastAction)
    (x : GameSession.Snapshot) :
  GameSession._captureSnapshot s la = Some x ->
  GameSession.hs_phase x = GameSession.phase s /\
  GameSession.hs_currentDice x = GameSession.currentDice s /\
  GameSession.hs_lastAction x = la.
Proof.
  unfold GameSession._captureSnapshot.
  destruct (GameSession.currentRound s); [|discriminate].
  destruct (GameSession.tournament s); [|discriminate].
  intros H. injection H as <-. repeat split.
Qed.

Lemma steady_session_ok (s : GameSession.t) : steady s -> session_ok s.
Proof.
  intros [r [tn [Hr [Htn [_ [[_ [Hsize [Hsh Hsc]]] [_ [Hth [Htc _]]]]]]]]] r' tn' Hr' Htn'.
  rewrite Hr in Hr'. rewrite Htn in Htn'. injection Hr' as <-. injection Htn' as <-. tauto.
Qed.

(** X19.  A snapshot captured from a session in play can always be
    restored, into any session, and capturing the restored session gives the
    same snapshot again, phase and dice included; restoring leaves the
    history and the queued rolls of the session it is restored into as they
    are. *)
Theorem captured_snapshot_restores (s target : GameSession.t)
    (la : option GameSession.LastAction) (snap : GameSession.Snapshot) :
  in_play s ->
  GameSession._captureSnapshot s la = Some snap ->
  exists s',
    GameSession._restoreSnapshot snap target = (s', Ok tt) /\
    GameSession._captureSnapshot s' la = Some snap /\
    GameSession.history s' = GameSession.history target /\
    GameSession.queuedRolls s' = GameSession.queuedRolls target.
Proof.
  intros Hplay Hcap.
  pose proof (steady_session_ok s (in_play_steady s Hplay)) as Hok.
  pose proof (captureSnapshot_ok s la snap Hok Hcap) as Hsnap.
  destruct (restoreSnapshot_spec snap target Hsnap)
    as [s' [Hres [Hhist [Hq [_ [Hph [Hcd [_ Hback]]]]]]]].
  exists s'. split; [exact Hres|]. split; [|split; assumption].
  specialize (Hback la). rewrite capture_retag in Hback.
  destruct (GameSession._captureSnapshot s' la) as [x|] eqn:Hx; [|discriminate Hback].
  destruct (capture_shape s' la x Hx) as [Hxp [Hxd Hxl]].
  destruct (capture_shape s la snap Hcap) as [_ [_ Hsl]].
  cbn [option_map] in Hback. unfold retag, resumed in Hback.
  destruct x as [xm xc xp xd xl xt xr]. destruct snap as [m c p d l t r].
  cbn [GameSession.hs_gameMode GameSession.hs_currentPlayerId GameSession.hs_phase
       GameSession.hs_currentDice GameSession.hs_lastAction GameSession.hs_tournament
       GameSession.hs_round] in *.
  inversion Hback. congruence.
Qed.

Lemma captured_snapshot_restores_witness :
  exists snap s',
    GameSession._captureSnapshot session_rolled None = Some snap /\
    GameSession._restoreSnapshot snap GameSession.new = (s', Ok tt) /\
    GameSession._captureSnapshot s' None = Some snap.
Proof.
  assert (Hplay : in_play session_rolled).
  { apply (play_op (OpRoll 2 [3; 4]) session_start). apply (play_first 9 HUMAN). lia. }
  destruct (GameSession._captureSnapshot session_rolled None) as [snap|] eqn:Hcap;
    [|vm_compute in Hcap; discriminate Hcap].
  destruct (captured_snapshot_restores session_rolled GameSession.new None snap Hplay Hcap)
    as [s' [Hres [Hback _]]].
  exists snap, s'. split; [reflexivity|]. split; assumption.
Defined.

(** * The dice *)

Lemma dequeue_spec (numDice : Z) (queue : list QueuedRoll) :
  match Dice._dequeue numDice queue with
  | (queue', Some q) =>
      exists pre post,
        queue = pre ++ q :: post /\ queue' = pre ++ post /\ serves numDice q = true /\
        forall x, In x pre -> serves numDice x = false
  | (queue', None) => queue' = queue /\ forall x, In x queue -> serves numDice x = false
  end.
Proof.
  induction queue as [|q rest IH]; cbn [Dice._dequeue].
  - split; [reflexivity | intros x []].
  - assert (Hs : ((numDice =? 1) && negb (match q_d2 q with Some _ => true | None => false end)
                  || (numDice =? 2) && match q_d2 q with Some _ => true | None => false end)
                 = serves numDice q).
    { unfold serves. destruct (q_d2 q), (numDice =? 1), (numDice =? 2); reflexivity. }
    cbv zeta. rewrite Hs. destruct (serves numDice q) eqn:Hq.
    + exists [], rest. split; [reflexivity|]. split; [reflexivity|].
      split; [exact Hq|]. intros x [].
    + destruct (Dice._dequeue numDice rest) as [rest' [found|]].
      * destruct IH as [pre [post [Hrest [Hrest' [Hf Hpre]]]]].
        exists (q :: pre), post. rewrite Hrest, Hrest'.
        split; [reflexivity|]. split; [reflexivity|]. split; [exact Hf|].
        intros x [<- | Hx]; [exact Hq | now apply Hpre].
      * destruct IH as [Hrest' Hall]. rewrite Hrest'. split; [reflexivity|].
        intros x [<- | Hx]; [exact Hq | now apply Hall].
Qed.

(** X20.  [_dequeue(numDice)] takes the first queued entry that has
    [numDice] values and leaves the other entries in their order; when no
    entry has [numDice] values it returns [null] and the queue is as it
    was.  [rollRandom] returns a queued entry as it stands, with the sum of
    its values and without a look at their range; without such an entry it
    throws for a number of dice other than 1 and 2 and otherwise rolls, and
    faces from 1 to 6 then give a sum from [numDice] to [6 * numDice]. *)
Theorem rollRandom_serves_the_queue_first (numDice face1 face2 : Z) (queue : list QueuedRoll) :
  (forall q queue',
     Dice._dequeue numDice queue = (queue', Some q) ->
     (exists pre post,
        queue = pre ++ q :: post /\ queue' = pre ++ post /\ serves numDice q = true /\
        forall x, In x pre -> serves numDice x = false) /\
     Dice.rollRandom numDice face1 face2 queue =
       (queue', Ok (Dice.mkRoll (q_d1 q) (q_d2 q)
                      (q_d1 q + match q_d2 q with Some v => v | None => 0 end)))) /\
  (forall queue',
     Dice._dequeue numDice queue = (queue', None) ->
     queue' = queue /\ (forall x, In x queue -> serves numDice x = false) /\
     (numDice <> 1 -> numDice <> 2 ->
      exists msg, Dice.rollRandom numDice face1 face2 queue = (queue, Throw msg)) /\
     (numDice = 1 \/ numDice = 2 ->
      exists roll,
        Dice.rollRandom numDice face1 face2 queue = (queue, Ok roll) /\
        Dice.d1 roll = face1 /\
        (1 <= face1 <= 6 -> 1 <= face2 <= 6 ->
         numDice <= Dice.sum roll <= 6 * numDice))).
Proof.
  pose proof (dequeue_spec numDice queue) as Hspec. unfold Dice.rollRandom.
  destruct (Dice._dequeue numDice queue) as [queue0 [q0|]].
  - split; [|intros queue' H; discriminate H].
    intros q queue' H. injection H as <- <-. split; [exact Hspec | reflexivity].
  - split; [intros q queue' H; discriminate H|].
    intros queue' H. injection H as <-. destruct Hspec as [-> Hall].
    split; [reflexivity|]. split; [exact Hall|]. split.
    + intros H1 H2.
      replace (numDice =? 1) with false by (symmetry; now apply Z.eqb_neq).
      replace (numDice =? 2) with false by (symmetry; now apply Z.eqb_neq).
      eexists; reflexivity.
    + intros [-> | ->]; cbn [Z.eqb Pos.eqb negb andb]; cbv zeta;
        eexists; (split; [reflexivity|]); (split; [reflexivity|]); cbn [Dice.sum]; lia.
Qed.

(** X21.  A queued roll is used up even when it is refused: when the first
    queued entry for [numDice] has a first value outside 1..6,
    [handleRandomRoll] answers with the error of [handleManualRoll], and the
    entry is gone from the queue of the dice and from the queued rolls of
    the session. *)
Theorem refused_queued_roll_is_lost (numDice face1 face2 : Z) (s : GameSession.t)
    (round : GameRound.t) (q : QueuedRoll) (rest : list QueuedRoll) :
  GameSession.currentRound s = Some round ->
  GameSession.phase s = GameSession.awaitingRoll ->
  GameSession.queuedRolls s = q :: rest ->
  serves numDice q = true ->
  Dice._isValidDie (q_d1 q) = false ->
  GameSession.handleRandomRoll numDice face1 face2 s =
    (GameSession.set_queuedRolls rest (GameSession.set_dice (Some rest) s),
     Ok (GameSession.Error "Dice values must be between 1 and 6.")).
Proof.
  intros Hround Hphase Hq Hserves Hbad. unfold GameSession.handleRandomRoll. cbv zeta.
  rewrite Hq. unfold Dice.rollRandom. cbn [Dice._dequeue]. cbv zeta.
  assert (Hs : ((numDice =? 1) && negb (match q_d2 q with Some _ => true | None => false end)
                || (numDice =? 2) && match q_d2 q with Some _ => true | None => false end)
               = true).
  { unfold serves in Hserves. destruct (q_d2 q), (numDice =? 1), (numDice =? 2);
      try reflexivity; discriminate Hserves. }
  rewrite Hs. cbn [Dice.d1 Dice.d2].
  unfold GameSession.handleManualRoll.
  destruct s as [tnS diceS crS hist qs mode cur ph cd]. session_fields. subst crS ph qs.
  cbn [GameSession.Phase_eqb negb].
  unfold serves in Hserves. destruct (q_d2 q) as [v|].
  - apply Z.eqb_eq in Hserves. subst numDice. cbn [Z.eqb Pos.eqb negb andb length Z.of_nat].
    cbn [Z.ltb Z.compare Pos.compare Pos.compare_cont Pos.of_succ_nat Pos.succ nth].
    rewrite Hbad. reflexivity.
  - apply Z.eqb_eq in Hserves. subst numDice. cbn [Z.eqb Pos.eqb negb andb length Z.of_nat].
    cbn [Z.ltb Z.compare Pos.compare Pos.compare_cont Pos.of_succ_nat Pos.succ nth].
    rewrite Hbad. reflexivity.
Qed.

Lemma refused_queued_roll_is_lost_witness :
  exists s,
    GameSession.queuedRolls s = [mkQueuedRoll 7 (Some 7)] /\
    GameSession.handleRandomRoll 2 1 1 s =
      (GameSession.set_queuedRolls [] (GameSession.set_dice (Some []) s),
       Ok (GameSession.Error "Dice values must be between 1 and 6.")).
Proof.
  exists (GameSession.set_queuedRolls [mkQueuedRoll 7 (Some 7)] session_start).
  split; [reflexivity|].
  apply (refused_queued_roll_is_lost 2 1 1 _ start_round (mkQueuedRoll 7 (Some 7)) []);
    reflexivity.
Defined.

(** * The server backend *)

Lemma backend_fresh_board (size : Z) :
  1 <= size ->
  Backend.allCovered (Backend.Board_new size) = false /\
  Backend.allUncovered (Backend.Board_new size) = true.
Proof.
  intros Hsize. unfold Backend.allCovered, Backend.allUncovered, Backend.Board_new.
  cbn [Backend.squares]. split.
  - rewrite range_incl_cons by lia. reflexivity.
  - apply forallb_forall. intros x Hx. apply in_map_iff in Hx.
    destruct Hx as [i [<- Hi]]. apply range_incl_In in Hi.
    apply negb_true_iff, Z.eqb_neq. lia.
Qed.

(** X22.  In the server's game two calls of [switchTurn] give the turn back
    to the player who had it and mark both players as having played, and
    they touch no board.  [isGameOver] does not ask whether a square was
    ever covered: when both players pass their first turn without a move on
    fresh boards of at least one square, it names player 1 the winner and
    sets [gameOver]. *)
Theorem backend_untouched_boards_end_the_game (g : Backend.Game) (size : Z) :
  1 <= size ->
  Backend.board (Backend.p1 g) = Backend.Board_new size ->
  Backend.board (Backend.p2 g) = Backend.Board_new size ->
  let g2 := Backend.switchTurn (Backend.switchTurn g) in
  Backend.currentPlayer g2 = Backend.currentPlayer g /\
  Backend.hasFirstTurnBeenPlayed (Backend.p1 g2) = true /\
  Backend.hasFirstTurnBeenPlayed (Backend.p2 g2) = true /\
  Backend.board (Backend.p1 g2) = Backend.board (Backend.p1 g) /\
  Backend.board (Backend.p2 g2) = Backend.board (Backend.p2 g) /\
  Backend.isGameOver g2 = (Backend.set_gameOver g2, Some Backend.player1).
Proof.
  intros Hsize Hb1 Hb2 g2.
  destruct (backend_fresh_board size Hsize) as [Hcov Hunc].
  assert (Hflags : Backend.currentPlayer g2 = Backend.currentPlayer g /\
                   Backend.hasFirstTurnBeenPlayed (Backend.p1 g2) = true /\
                   Backend.hasFirstTurnBeenPlayed (Backend.p2 g2) = true /\
                   Backend.board (Backend.p1 g2) = Backend.board (Backend.p1 g) /\
                   Backend.board (Backend.p2 g2) = Backend.board (Backend.p2 g)).
  { subst g2. destruct g as [bs over [|] q1 q2]; cbn; repeat split. }
  destruct Hflags as [Hcur [Hf1 [Hf2 [Hk1 Hk2]]]].
  repeat (split; [assumption|]).
  unfold Backend.isGameOver. rewrite Hf1, Hf2, Hk1, Hk2, Hb1, Hb2, Hcov, Hunc. reflexivity.
Qed.

Lemma backend_untouched_boards_end_the_game_witness :
  snd (Backend.isGameOver
         (Backend.switchTurn
            (Backend.switchTurn
               (Backend.mkGame 11 false Backend.player1
                  (Backend.mkPlayer (Backend.Board_new 11) 0 false)
                  (Backend.mkPlayer (Backend.Board_new 11) 0 false))))) =
  Some Backend.player1.
Proof.
  pose proof (backend_untouched_boards_end_the_game
                (Backend.mkGame 11 false Backend.player1
                   (Backend.mkPlayer (Backend.Board_new 11) 0 false)
                   (Backend.mkPlayer (Backend.Board_new 11) 0 false))
                11 ltac:(lia) eq_refl eq_refl) as H.
  cbv zeta in H. destruct H as [_ [_ [_ [_ [_ H]]]]]. rewrite H. reflexivity.
Defined.

(** * Saving a session *)

(** X23.  [getSnapshotText] throws without a round.  With a round whose
    boards have at least one square it returns a text that [parseSnapshot]
    reads back as the state of the session: the squares of both boards, the
    tournament scores, the first player of the round, the player to move,
    the phase, the dice, the lock (unless it is on square 0) and the queued
    rolls. *)
Theorem saved_session_reads_back (s : GameSession.t) :
  (GameSession.currentRound s = None ->
   GameSession.getSnapshotText s = Throw "No active round to save.") /\
  (forall r tn,
     GameSession.currentRound s = Some r ->
     GameSession.tournament s = Some tn ->
     1 <= Board.size (board (GameRound.human r)) ->
     1 <= Board.size (board (GameRound.computer r)) ->
     exists text,
       GameSession.getSnapshotText s = Ok text /\
       Serializer.parseSnapshot text =
         Ok (Serializer.mkSnapshot
               (square_entries (board (GameRound.computer r)))
               (square_entries (board (GameRound.human r)))
               (totalScore (Tournament.computer tn)) (totalScore (Tournament.human tn))
               (GameRound.firstPlayerId r) (GameSession.currentPlayerId s)
               (GameSession.Phase_string (GameSession.phase s))
               (expected_dice (GameSession.currentDice s))
               (written_lock (GameRound.advantageLock r))
               (map expected_roll (GameSession.queuedRolls s)))).
Proof.
  split.
  - intros Hnone. unfold GameSession.getSnapshotText. now rewrite Hnone.
  - intros r tn Hr Htn Hh Hc. unfold GameSession.getSnapshotText. rewrite Hr, Htn.
    eexists. split; [reflexivity|].
    rewrite snapshot_text_reads_back; [reflexivity|].
    unfold params_ok.
    cbn [Serializer.computerBoard Serializer.humanBoard Serializer.phase].
    split; [exact Hc|]. split; [exact Hh|].
    now exists (GameSession.phase s).
Qed.

Lemma saved_session_reads_back_witness :
  exists text snap,
    GameSession.getSnapshotText session_rolled = Ok text /\
    Serializer.parseSnapshot text = Ok snap /\
    Serializer.s_nextTurnId snap = GameSession.currentPlayerId session_rolled /\
    Serializer.s_phase snap = "awaitingMove"%string.
Proof.
  destruct (GameSession.tournament session_rolled) as [tn|] eqn:Htn;
    [|vm_compute in Htn; discriminate Htn].
  destruct (proj2 (saved_session_reads_back session_rolled) start_round tn)
    as [text [Hsave Hparse]].
  - vm_compute. reflexivity.
  - exact Htn.
  - vm_compute. discriminate.
  - vm_compute. discriminate.
  - exists text. eexists. split; [exact Hsave|]. split; [exact Hparse|].
    split; reflexivity.
Defined.

(** * The roll-off *)

Lemma rollRandom_two_dice (face1 face2 : Z) (queue : list QueuedRoll) :
  exists queue' roll,
    Dice.rollRandom 2 face1 face2 queue = (queue', Ok roll) /\
    Dice.d2 roll <> None /\
    ((forall x, In x queue -> q_d2 x = None) ->
     queue' = queue /\ roll = Dice.mkRoll face1 (Some face2) (face1 + face2)).
Proof.
  pose proof (dequeue_spec 2 queue) as Hspec. unfold Dice.rollRandom.
  destruct (Dice._dequeue 2 queue) as [queue' [q|]].
  - destruct Hspec as [pre [post [Hq [_ [Hserves _]]]]].
    eexists; eexists. split; [reflexivity|]. cbn [Dice.d2]. split.
    + unfold serves in Hserves. destruct (q_d2 q); [discriminate | discriminate Hserves].
    + intros Hall. assert (Hin : In q queue) by (rewrite Hq; apply in_elt).
      apply Hall in Hin. unfold serves in Hserves. rewrite Hin in Hserves.
      discriminate Hserves.
  - destruct Hspec as [-> _]. cbn [Z.eqb Pos.eqb negb andb].
    eexists; eexists. split; [reflexivity|]. split; [discriminate|].
    intros _. split; reflexivity.
Qed.

(** X24.  [rollOff] always returns.  The first player it names is the one
    with the higher sum, a tie names nobody, and [canStart] is set exactly
    when a player is named; both rolls have two values.  On a session with a
    tournament and dice nothing changes but the queue of the dice object,
    from which two-dice entries are taken: the queued rolls of the session
    are not read, and with no two-dice entry in the queue of the dice object
    the rolls are the faces of the random number generator. *)
Theorem rollOff_names_the_higher_roll (boardSize h1 h2 c1 c2 : Z) (s : GameSession.t) :
  exists s' res,
    GameSession.rollOff boardSize h1 h2 c1 c2 s = (s', Ok res) /\
    (GameSession.ro_firstPlayerId res = Some HUMAN <->
     Dice.sum (GameSession.ro_compRoll res) < Dice.sum (GameSession.ro_humanRoll res)) /\
    (GameSession.ro_firstPlayerId res = Some COMPUTER <->
     Dice.sum (GameSession.ro_humanRoll res) < Dice.sum (GameSession.ro_compRoll res)) /\
    (GameSession.ro_firstPlayerId res = None <->
     Dice.sum (GameSession.ro_humanRoll res) = Dice.sum (GameSession.ro_compRoll res)) /\
    (GameSession.ro_canStart res = true <-> GameSession.ro_firstPlayerId res <> None) /\
    Dice.d2 (GameSession.ro_humanRoll res) <> None /\
    Dice.d2 (GameSession.ro_compRoll res) <> None /\
    (forall tn queue,
       GameSession.tournament s = Some tn -> GameSession.dice s = Some queue ->
       s' = GameSession.set_dice (GameSession.dice s') s /\
       ((forall x, In x queue -> q_d2 x = None) ->
        GameSession.dice s' = Some queue /\
        GameSession.ro_humanRoll res = Dice.mkRoll h1 (Some h2) (h1 + h2) /\
        GameSession.ro_compRoll res = Dice.mkRoll c1 (Some c2) (c1 + c2))).
Proof.
  unfold GameSession.rollOff. cbv zeta.
  set (s1 := match GameSession.tournament s, GameSession.dice s with
             | Some _, Some _ => s
             | _, _ => GameSession.resetTournament s
             end).
  set (queue0 := match GameSession.dice s1 with Some q => q | None => [] end).
  destruct (rollRandom_two_dice h1 h2 queue0) as [queue1 [hroll [Hh [Hh2 Hhf]]]].
  destruct (rollRandom_two_dice c1 c2 queue1) as [queue2 [croll [Hc [Hc2 Hcf]]]].
  rewrite Hh, Hc.
  assert (Hframe : forall tn queue,
             GameSession.tournament s = Some tn -> GameSession.dice s = Some queue ->
             GameSession.set_dice (Some queue2) s1 =
               GameSession.set_dice (GameSession.dice (GameSession.set_dice (Some queue2) s1)) s /\
             ((forall x, In x queue -> q_d2 x = None) ->
              GameSession.dice (GameSession.set_dice (Some queue2) s1) = Some queue /\
              hroll = Dice.mkRoll h1 (Some h2) (h1 + h2) /\
              croll = Dice.mkRoll c1 (Some c2) (c1 + c2))).
  { intros tn queue Htn Hdice. subst s1 queue0. rewrite Htn, Hdice in *.
    split; [reflexivity|]. intros Hall. rewrite Hdice in Hhf.
    destruct (Hhf Hall) as [-> ->]. destruct (Hcf Hall) as [-> ->].
    repeat split. }
  destruct (Z.gtb_spec (Dice.sum hroll) (Dice.sum croll)) as [Hgt | Hle];
    [|destruct (Z.gtb_spec (Dice.sum croll) (Dice.sum hroll)) as [Hlt | Heq]];
    (eexists; eexists; split; [reflexivity|]);
    cbn [GameSession.ro_firstPlayerId GameSession.ro_canStart GameSession.ro_humanRoll
         GameSession.ro_compRoll];
    do 4 (split; [split; intros H;
                  first [discriminate H | reflexivity | lia | exfalso; lia | discriminate
                        | exfalso; apply H; reflexivity]|]);
    (split; [exact Hh2|]); (split; [exact Hc2|]); exact Hframe.
Qed.

(** * Loading a saved text *)

Lemma load_typed_snapshot (text : string) (target : GameSession.t) (hb cb : list Z)
    (hS cS : Z) (first next : PlayerId) (phText : string) (pd : Serializer.ParsedDice)
    (pl : option Serializer.ParsedLock) (prs : list Serializer.ParsedRoll)
    (ph : GameSession.Phase) (cd : CurrentDice) (lock : option AdvantageLock)
    (rolls : list QueuedRoll) :
  Serializer.parseSnapshot text =
    Ok (Serializer.mkSnapshot (map Js.Int cb) (map Js.Int hb) cS hS first next phText pd pl prs) ->
  1 <= Z.of_nat (length hb) ->
  board_array (Z.of_nat (length hb)) hb ->
  board_array (Z.of_nat (length hb)) cb ->
  GameSession.phase_of_text phText = Some ph ->
  GameSession.dice_of pd = Some cd ->
  GameSession.lock_or_null_of pl = Some lock ->
  GameSession.rolls_of prs = Some rolls ->
  exists s' r',
    GameSession.loadSnapshotFromText text target = GameSession.Loaded s' /\
    loaded_as s' r' target hb cb hS cS first next ph cd lock rolls.
Proof.
  intros Hparse Hsize Hha Hca Hph Hcd Hlock Hrolls.
  unfold GameSession.loadSnapshotFromText. cbv zeta. rewrite Hparse.
  cbn [Serializer.s_humanSquares Serializer.s_computerSquares Serializer.s_humanScore
       Serializer.s_computerScore Serializer.s_firstTurnId].
  rewrite length_map.
  set (s1 := match GameSession.tournament target, GameSession.dice target with
             | Some _, Some _ => target
             | _, _ => GameSession.resetTournament target
             end).
  assert (Hpend : Tournament.nextRoundAdvantage (GameSession.tournament_or_fresh s1) =
                  pending_advantage target).
  { unfold s1, pending_advantage, GameSession.tournament_or_fresh.
    destruct (GameSession.tournament target) as [tn|] eqn:Htn; [|reflexivity].
    destruct (GameSession.dice target); [|reflexivity]. now rewrite Htn. }
  clearbody s1. destruct s1 as [tnS diceS crS hist q mode cur phS cdS].
  unfold GameSession.tournament_or_fresh in *. session_fields.
  set (tn0 := match tnS with Some tn => tn | None => Tournament.new "Human" "Computer" end)
    in *.
  unfold Tournament.startNewRound. cbv zeta.
  cbn [Tournament.human Tournament.computer Tournament.nextRoundAdvantage
       Tournament.roundNumber Tournament.currentRound].
  rewrite Hpend.
  destruct (new_round_lock (Z.of_nat (length hb)) (Tournament.human tn0)
              (Tournament.computer tn0) first (pending_advantage target) Hsize)
    as [bh [bc [Hnew [Hokh [Hsh [Hokc Hsc]]]]]].
  rewrite Hnew. clear Hnew.
  destruct (load_board_array hb bh Hokh) as [Hloadh Hreadh]; [now rewrite Hsh|].
  destruct (load_board_array cb bc Hokc) as [Hloadc Hreadc]; [now rewrite Hsc|].
  pose proof (loaded_size hb 0 bh) as Hlsh. pose proof (loaded_size cb 0 bc) as Hlsc.
  pose proof (loaded_ok hb 0 bh Hokh) as Hlokh. pose proof (loaded_ok cb 0 bc Hokc) as Hlokc.
  set (lh := loaded 0 hb bh) in *. set (lc := loaded 0 cb bc) in *.
  round_fields. unfold GameSession.on_round.
  erewrite on_board_ok by (round_fields; exact Hloadh). round_fields.
  unfold GameSession.store_round at 1. session_fields.
  erewrite on_board_ok by (round_fields; exact Hloadc). round_fields.
  unfold GameSession.store_round at 1. session_fields.
  unfold GameSession.finish_load. cbv zeta.
  cbn [Serializer.s_phase Serializer.s_currentDice Serializer.s_advantageLock
       Serializer.s_queuedRolls Serializer.s_nextTurnId Serializer.s_firstTurnId].
  rewrite Hph, Hcd, Hlock, Hrolls. round_fields.
  unfold GameSession.store_round, GameSession._pushHistory, GameSession._captureSnapshot.
  session_fields.
  destruct lock as [l|]; round_fields; session_fields;
    (eexists; eexists; split; [reflexivity|]);
    unfold loaded_as, GameSession.getScores; session_fields; round_fields;
    cbn [Tournament.human Tournament.computer]; round_fields;
    rewrite ?length_app; cbn [length Nat.add];
    repeat (split; [first [reflexivity | assumption]|]);
    try reflexivity.
  all: unfold round_fits, round_ok; round_fields; rewrite ?Hlsh, ?Hlsc. 
  all: repeat split; try assumption; try reflexivity.
Qed.

Lemma phase_of_text_string (ph : GameSession.Phase) :
  GameSession.phase_of_text (GameSession.Phase_string ph) = Some ph.
Proof. now destruct ph. Qed.

Lemma dice_of_expected (cd : CurrentDice) : GameSession.dice_of (expected_dice cd) = Some cd.
Proof. destruct cd as [[a|] [b|] [c|]]; reflexivity. Qed.

Lemma lock_of_expected (l : option AdvantageLock) :
  GameSession.lock_or_null_of (written_lock l) = Some (saved_lock l).
Proof.
  destruct l as [[p n u]|]; [|reflexivity]. unfold written_lock, saved_lock.
  cbn [lock_squareNumber]. destruct (n =? 0); [reflexivity|]. now destruct p.
Qed.

Lemma rolls_of_expected (rolls : list QueuedRoll) :
  GameSession.rolls_of (map expected_roll rolls) = Some rolls.
Proof.
  induction rolls as [|[a [b|]] rest IH]; [reflexivity| |];
    cbn [map GameSession.rolls_of]; rewrite IH; reflexivity.
Qed.

Lemma toNumberArrayFormat_length (b : Board.t) :
  0 <= Board.size b -> Z.of_nat (length (Board.toNumberArrayFormat b)) = Board.size b.
Proof. intros H. now destruct (toNumberArrayFormat_board_array b H). Qed.

(** X25.  A saved session loads back.  When a session has a round with
    boards of at least one square, the text [getSnapshotText] returns is
    loaded by [loadSnapshotFromText] into any session at all, and the session
    then has a round with the same covered squares on both boards, the same
    scores, player to move, first player, phase, dice and queued rolls; the
    mode is "HvsC" and the history has the one entry of the load.  The
    loaded round is never marked as over, whatever the phase says.  The lock
    is the saved lock; but when the text holds none (the round had none, or
    one on square 0), the round keeps the lock that the constructor set for
    the advantage pending in the session that loads. *)
Theorem saved_session_loads_back (s target : GameSession.t) (r : GameRound.t)
    (tn : Tournament.t) :
  GameSession.currentRound s = Some r ->
  GameSession.tournament s = Some tn ->
  round_fits r ->
  exists text s' r',
    GameSession.getSnapshotText s = Ok text /\
    GameSession.loadSnapshotFromText text target = GameSession.Loaded s' /\
    loaded_as s' r' target
      (Board.toNumberArrayFormat (board (GameRound.human r)))
      (Board.toNumberArrayFormat (board (GameRound.computer r)))
      (totalScore (Tournament.human tn)) (totalScore (Tournament.computer tn))
      (GameRound.firstPlayerId r) (GameSession.currentPlayerId s)
      (GameSession.phase s) (GameSession.currentDice s)
      (saved_lock (GameRound.advantageLock r)) (GameSession.queuedRolls s).
Proof.
  intros Hr Htn [Hok [Hsize [Hsh Hsc]]].
  assert (Hlen : Z.of_nat (length (Board.toNumberArrayFormat (board (GameRound.human r)))) =
                 GameRound.boardSize r).
  { rewrite toNumberArrayFormat_length; [exact Hsh | lia]. }
  unfold GameSession.getSnapshotText. rewrite Hr, Htn.
  eexists.
  match goal with |- exists s' r', Ok ?t = Ok _ /\ _ =>
    destruct (load_typed_snapshot t target
                (Board.toNumberArrayFormat (board (GameRound.human r)))
                (Board.toNumberArrayFormat (board (GameRound.computer r)))
                (totalScore (Tournament.human tn)) (totalScore (Tournament.computer tn))
                (GameRound.firstPlayerId r) (GameSession.currentPlayerId s)
                (GameSession.Phase_string (GameSession.phase s))
                (expected_dice (GameSession.currentDice s))
                (written_lock (GameRound.advantageLock r))
                (map expected_roll (GameSession.queuedRolls s))
                (GameSession.phase s) (GameSession.currentDice s)
                (saved_lock (GameRound.advantageLock r)) (GameSession.queuedRolls s))
      as [s' [r' [Hload Has]]]
  end.
  - rewrite snapshot_text_reads_back.
    + unfold expected. now rewrite <- !square_entries_array.
    + unfold params_ok.
      cbn [Serializer.computerBoard Serializer.humanBoard Serializer.phase].
      split; [lia|]. split; [lia|]. now exists (GameSession.phase s).
  - lia.
  - rewrite Hlen, <- Hsh. apply toNumberArrayFormat_board_array. lia.
  - rewrite Hlen, <- Hsc. apply toNumberArrayFormat_board_array. lia.
  - apply phase_of_text_string.
  - apply dice_of_expected.
  - apply lock_of_expected.
  - apply rolls_of_expected.
  - exists s', r'. split; [reflexivity|]. split; [exact Hload | exact Has].
Qed.

Lemma saved_session_loads_back_witness :
  exists text s' r',
    GameSession.getSnapshotText session_rolled = Ok text /\
    GameSession.loadSnapshotFromText text GameSession.new = GameSession.Loaded s' /\
    GameSession.currentRound s' = Some r' /\
    GameSession.phase s' = GameSession.awaitingMove /\
    GameSession.currentDice s' = mkCurrentDice (Some 3) (Some 4) (Some 7) /\
    GameRound.advantageLock r' = None.
Proof.
  destruct (GameSession.tournament session_rolled) as [tn|] eqn:Htn;
    [|vm_compute in Htn; discriminate Htn].
  destruct (saved_session_loads_back session_rolled GameSession.new start_round tn)
    as [text [s' [r' [Hsave [Hload Has]]]]].
  - vm_compute. reflexivity.
  - exact Htn.
  - repeat split; vm_compute; try reflexivity; discriminate.
  - exists text, s', r'. split; [exact Hsave|]. split; [exact Hload|].
    destruct Has as [Hcur [_ [_ [_ [_ [_ [_ [_ [_ [_ [_ [Hph [Hcd [_ [_ [_ [_ Hlk]]]]]]]]]]]]]]]]].
    split; [exact Hcur|]. split; [exact Hph|]. split; [exact Hcd|]. exact Hlk.
Defined.

(** X26.  A load that throws is not undone.  The history is gone whatever
    the text; when the text could be parsed, the mode is "HvsC" and the
    tournament has counted a round more; and when the human board of the
    text has at least one entry, the round in play has been replaced by a
    new round of that many squares, which carries the scores of the text. *)
Theorem failed_load_is_not_undone (text : string) (s s' : GameSession.t) (msg : string) :
  GameSession.loadSnapshotFromText text s = GameSession.LoadThrows s' msg ->
  GameSession.history s' = [] /\
  (Serializer.parseSnapshot text = Throw msg ->
   s' = GameSession.set_history [] (load_base s)) /\
  (forall snap,
     Serializer.parseSnapshot text = Ok snap ->
     GameSession.gameMode s' = GameSession.HvsC /\
     (exists tn',
        GameSession.tournament s' = Some tn' /\
        Tournament.roundNumber tn' =
          Tournament.roundNumber (GameSession.tournament_or_fresh (load_base s)) + 1) /\
     (Z.of_nat (length (Serializer.s_humanSquares snap)) < 1 ->
      GameSession.currentRound s' = GameSession.currentRound (load_base s)) /\
     (1 <= Z.of_nat (length (Serializer.s_humanSquares snap)) ->
      exists r',
        GameSession.currentRound s' = Some r' /\
        GameRound.boardSize r' = Z.of_nat (length (Serializer.s_humanSquares snap)) /\
        totalScore (GameRound.human r') = Serializer.s_humanScore snap /\
        totalScore (GameRound.computer r') = Serializer.s_computerScore snap /\
        GameRound.roundOver r' = false)).
Proof.
  unfold GameSession.loadSnapshotFromText. cbv zeta. fold (load_base s).
  destruct (load_base s) as [tnS diceS crS hist q mode cur phS cdS].
  destruct (Serializer.parseSnapshot text) as [snap|msg0].
  2:{ intros H. injection H as <- <-. split; [reflexivity|]. split; [reflexivity|].
      intros snap Hsnap. discriminate Hsnap. }
  unfold GameSession.tournament_or_fresh. session_fields.
  set (tn0 := match tnS with Some tn => tn | None => Tournament.new "Human" "Computer" end).
  set (size := Z.of_nat (length (Serializer.s_humanSquares snap))).
  unfold Tournament.startNewRound. cbv zeta.
  cbn [Tournament.human Tournament.computer Tournament.nextRoundAdvantage
       Tournament.roundNumber Tournament.currentRound].
  destruct (Z.ltb_spec size 1) as [Hsmall | Hsize].
  - unfold GameRound.new.
    replace (size <? 1) with true by (symmetry; apply Z.ltb_lt; lia).
    intros H. injection H as <- <-. session_fields.
    split; [reflexivity|]. split; [intros H; discriminate H|].
    intros snap' Hsnap. injection Hsnap as <-. fold size.
    split; [reflexivity|]. split; [eexists; split; reflexivity|].
    split; [reflexivity | lia].
  - destruct (new_round_lock size (Tournament.human tn0) (Tournament.computer tn0)
                (Serializer.s_firstTurnId snap) (Tournament.nextRoundAdvantage tn0) Hsize)
      as [bh [bc [Hnew _]]].
    rewrite Hnew. clear Hnew. round_fields.
    unfold GameSession.on_round, GameRound.on_board. round_fields.
    destruct (Board.loadFromNumberArrayFormat (Serializer.s_humanSquares snap) bh)
      as [b1 [[]|m1]].
    2:{ intros H. injection H as <- <-. unfold GameSession.store_round. session_fields.
        split; [reflexivity|]. split; [intros H; discriminate H|].
        intros snap' Hsnap. injection Hsnap as <-. fold size.
        split; [reflexivity|]. split; [eexists; split; reflexivity|].
        split; [lia|]. intros _. eexists. split; [reflexivity|]. round_fields.
        repeat split. }
    unfold GameSession.store_round at 1. session_fields. round_fields.
    destruct (Board.loadFromNumberArrayFormat (Serializer.s_computerSquares snap) bc)
      as [b2 [[]|m2]].
    2:{ intros H. injection H as <- <-. unfold GameSession.store_round. session_fields.
        split; [reflexivity|]. split; [intros H; discriminate H|].
        intros snap' Hsnap. injection Hsnap as <-. fold size.
        split; [reflexivity|]. split; [eexists; split; reflexivity|].
        split; [lia|]. intros _. eexists. split; [reflexivity|]. round_fields.
        repeat split. }
    unfold GameSession.store_round at 1. session_fields.
    unfold GameSession.finish_load. cbv zeta.
    destruct (GameSession.phase_of_text (Serializer.s_phase snap));
      [|intros H; discriminate H].
    destruct (GameSession.dice_of (Serializer.s_currentDice snap));
      [|intros H; discriminate H].
    destruct (GameSession.lock_or_null_of (Serializer.s_advantageLock snap));
      [|intros H; discriminate H].
    destruct (GameSession.rolls_of (Serializer.s_queuedRolls snap));
      intros H; discriminate H.
Qed.

Lemma failed_load_is_not_undone_witness :
  exists s' msg r',
    GameSession.loadSnapshotFromText text_bad_board session_moved =
      GameSession.LoadThrows s' msg /\
    GameSession.history session_moved <> [] /\
    GameSession.history s' = [] /\
    GameSession.currentRound s' = Some r' /\
    GameRound.boardSize r' = 3 /\
    totalScore (GameRound.human r') = 6.
Proof.
  destruct (GameSession.loadSnapshotFromText text_bad_board session_moved)
    as [s'|s' msg|] eqn:Hload;
    [vm_compute in Hload; discriminate Hload | | vm_compute in Hload; discriminate Hload].
  destruct (failed_load_is_not_undone text_bad_board session_moved s' msg Hload)
    as [Hhist [_ Hparsed]].
  destruct (Serializer.parseSnapshot text_bad_board) as [snap|m] eqn:Hparse;
    [|vm_compute in Hparse; discriminate Hparse].
  destruct (Hparsed snap eq_refl) as [_ [_ [_ Hround]]].
  assert (Hlen : Z.of_nat (length (Serializer.s_humanSquares snap)) = 3).
  { vm_compute in Hparse. injection Hparse as <-. reflexivity. }
  assert (Hscore : Serializer.s_humanScore snap = 6).
  { vm_compute in Hparse. injection Hparse as <-. reflexivity. }
  destruct (Hround ltac:(lia)) as [r' [Hcur [Hsize [Hh _]]]].
  exists s', msg, r'. split; [reflexivity|]. split; [vm_compute; discriminate|].
  split; [exact Hhist|]. split; [exact Hcur|]. split; [congruence | congruence].
Defined.

(** * The computer's turn *)

Lemma filter_length_le {A : Type} (f g : A -> bool) (l : list A) :
  (forall y, In y l -> g y = true -> f y = true) ->
  (length (filter g l) <= length (filter f l))%nat.
Proof.
  induction l as [|a l IH]; intros H; [reflexivity|]. cbn [filter].
  assert (IH' := IH (fun y Hy => H y (or_intror Hy))).
  destruct (g a) eqn:Hg.
  - rewrite (H a (or_introl eq_refl) Hg). cbn [length]. lia.
  - destruct (f a); cbn [length]; lia.
Qed.

Lemma filter_length_lt {A : Type} (f g : A -> bool) (l : list A) (x : A) :
  (forall y, In y l -> g y = true -> f y = true) ->
  In x l -> f x = true -> g x = false ->
  (length (filter g l) < length (filter f l))%nat.
Proof.
  induction l as [|a l IH]; intros H Hin Hf Hg; [destruct Hin|]. cbn [filter].
  assert (Hle := filter_length_le f g l (fun y Hy => H y (or_intror Hy))).
  destruct Hin as [-> | Hin].
  - rewrite Hf, Hg. cbn [length]. lia.
  - assert (IH' := IH (fun y Hy => H y (or_intror Hy)) Hin Hf Hg).
    destruct (g a) eqn:Hga.
    + rewrite (H a (or_introl eq_refl) Hga). cbn [length]. lia.
    + destruct (f a); cbn [length]; lia.
Qed.

Lemma filter_range_bound (f : Z -> bool) (n : Z) :
  (length (filter f (range_incl 1 n)) <= Z.to_nat n)%nat.
Proof.
  pose proof (filter_length f (range_incl 1 n)) as H.
  assert (Hle : (length (filter f (range_incl 1 n)) <= length (range_incl 1 n))%nat).
  { clear H. induction (range_incl 1 n) as [|a l IH]; [reflexivity|].
    cbn [filter]. destruct (f a); cbn [length]; lia. }
  rewrite range_incl_length in Hle. lia.
Qed.

Lemma squares_to_go_bound (r : GameRound.t) (p : PlayerId) :
  round_fits r -> (squares_to_go r p <= 2 * Z.to_nat (GameRound.boardSize r))%nat.
Proof.
  intros [_ [_ [Hsh Hsc]]]. unfold squares_to_go, Board.getUncoveredNumbers,
    Board.getCoveredNumbers, GameRound.getOpponent.
  pose proof (filter_range_bound
                (fun i => negb (Board.covered_at (board (GameRound.getPlayerById r p)) i))
                (Board.size (board (GameRound.getPlayerById r p)))) as H1.
  pose proof (filter_range_bound
                (fun i => Board.covered_at
                            (board (GameRound.getPlayerById r (GameRound.getOpponentId p))) i)
                (Board.size (board (GameRound.getPlayerById r (GameRound.getOpponentId p)))))
    as H2.
  destruct p; cbn [GameRound.getPlayerById GameRound.getOpponentId] in *;
    rewrite ?Hsh, ?Hsc in *; lia.
Qed.

(** Marking a non-empty selection leaves fewer squares in the other state. *)
Lemma mark_all_fewer (v : bool) (squares : list Z) (b : Board.t) :
  board_ok b -> squares <> [] ->
  (forall x, In x squares -> markable v b x) ->
  (length (filter (fun i => xorb v (Board.covered_at (mark_all v squares b) i))
             (range_incl 1 (Board.size b))) <
   length (filter (fun i => xorb v (Board.covered_at b i)) (range_incl 1 (Board.size b))))%nat.
Proof.
  intros Hok Hne Hall.
  destruct squares as [|x rest]; [contradiction|].
  assert (Hrange : forall n, In n (x :: rest) -> 1 <= n <= Board.size b)
    by (intros n Hn; now destruct (Hall n Hn)).
  destruct (Hall x (or_introl eq_refl)) as [Hx Hstate].
  apply (filter_length_lt _ _ _ x).
  - intros y Hy. apply range_incl_In in Hy.
    rewrite (mark_all_covered_at v (x :: rest) b y Hok Hrange) by lia.
    destruct (includes (x :: rest) y); [destruct v; discriminate | tauto].
  - apply range_incl_In. exact Hx.
  - rewrite Hstate. now destruct v.
  - rewrite (mark_all_covered_at v (x :: rest) b x Hok Hrange) by lia.
    replace (includes (x :: rest) x) with true; [now destruct v|].
    symmetry. cbn [includes existsb]. unfold includes. cbn [existsb].
    now rewrite Z.eqb_refl.
Qed.

Lemma uncovered_count (b : Board.t) :
  length (Board.getUncoveredNumbers b) =
  length (filter (fun i => xorb true (Board.covered_at b i)) (range_incl 1 (Board.size b))).
Proof. reflexivity. Qed.

Lemma covered_count (b : Board.t) :
  length (Board.getCoveredNumbers b) =
  length (filter (fun i => xorb false (Board.covered_at b i)) (range_incl 1 (Board.size b))).
Proof. reflexivity. Qed.

(** A move of the player [p] leaves [p] fewer squares to go. *)
Lemma move_makes_progress (mt : GameSession.MoveType) (p : PlayerId) (squares : list Z)
    (r r' : GameRound.t) :
  round_ok r -> squares <> [] ->
  (forall x, In x squares ->
             markable (move_state mt) (board (GameRound.getPlayerById r (move_target mt p))) x) ->
  board (GameRound.getPlayerById r' (move_target mt p)) =
    mark_all (move_state mt) squares (board (GameRound.getPlayerById r (move_target mt p))) ->
  board (GameRound.getPlayerById r' (GameRound.getOpponentId (move_target mt p))) =
    board (GameRound.getPlayerById r (GameRound.getOpponentId (move_target mt p))) ->
  (squares_to_go r' p < squares_to_go r p)%nat.
Proof.
  intros Hok Hne Hall Htarget Hother. unfold squares_to_go, GameRound.getOpponent.
  assert (Hbok : board_ok (board (GameRound.getPlayerById r (move_target mt p))))
    by (destruct Hok; now destruct (move_target mt p)).
  pose proof (mark_all_fewer (move_state mt) squares _ Hbok Hne Hall) as Hlt.
  rewrite <- Htarget in Hlt.
  assert (Hsize : Board.size (board (GameRound.getPlayerById r' (move_target mt p))) =
                  Board.size (board (GameRound.getPlayerById r (move_target mt p))))
    by (rewrite Htarget; apply mark_all_size).
  rewrite <- Hsize in Hlt at 1.
  destruct mt; cbn [move_target move_state] in *.
  - rewrite <- !uncovered_count in Hlt.
    replace (GameRound.getOpponentId (GameRound.getOpponentId p)) with p in Hother
      by now destruct p.
    rewrite Hother. lia.
  - rewrite <- !covered_count in Hlt.
    replace (GameRound.getOpponentId (GameRound.getOpponentId p)) with p in Hother
      by now destruct p.
    rewrite Hother. lia.
Qed.

Lemma option_nonempty (r : GameRound.t) (p : PlayerId) (t : Z) (c : list Z) :
  In c (GameRound.getCoverOptions r p t) \/ In c (GameRound.getUncoverOptions r p t) ->
  c <> [].
Proof.
  intros H.
  assert (Hlen : (1 <= length c)%nat); [|destruct c; [cbn in Hlen; lia | discriminate]].
  destruct H as [H | H].
  - unfold GameRound.getCoverOptions, Board.getCoverCombos in H.
    destruct (search_legal _ t c (getUncoveredNumbers_ascending _)
                (getUncoveredNumbers_positive _) H) as [_ [Hlen _]]. lia.
  - apply getUncoverOptions_incl in H. 
    destruct (search_legal _ t c (getCoveredNumbers_ascending _)
                (getCoveredNumbers_positive _) H) as [_ [Hlen _]]. lia.
Qed.

Lemma chooseNumDice_one_or_two (b : Board.t) :
  ComputerPlayer.chooseNumDice b = 1 \/ ComputerPlayer.chooseNumDice b = 2.
Proof.
  unfold ComputerPlayer.chooseNumDice. cbv zeta.
  destruct (forallb _ _); [now left | now right].
Qed.

Lemma rollRandom_returns (numDice face1 face2 : Z) (queue : list QueuedRoll) :
  numDice = 1 \/ numDice = 2 ->
  exists queue' roll, Dice.rollRandom numDice face1 face2 queue = (queue', Ok roll).
Proof.
  intros Hn. unfold Dice.rollRandom.
  destruct (Dice._dequeue numDice queue) as [queue' [q|]]; [eexists; eexists; reflexivity|].
  destruct Hn as [-> | ->]; eexists; eexists; reflexivity.
Qed.

Lemma steady_not_over (s : GameSession.t) (r : GameRound.t) :
  steady s -> GameSession.currentRound s = Some r ->
  GameSession.phase s = GameSession.awaitingRoll -> GameRound.roundOver r = false.
Proof.
  intros [r0 [tn [Hr0 [_ [_ [_ [_ [_ [_ [Hover _]]]]]]]]]] Hr Hph.
  rewrite Hr in Hr0. injection Hr0 as <-.
  destruct (GameRound.roundOver r); [|reflexivity].
  destruct Hover as [Ho _]. rewrite (Ho eq_refl) in Hph. discriminate Hph.
Qed.

(** One run of the loop body on a session in play that awaits a roll. *)
Lemma autoPlay_body_step (face1 face2 : Z) (logs : list string) (s : GameSession.t)
    (r : GameRound.t) :
  steady s -> GameSession.currentRound s = Some r ->
  GameSession.phase s = GameSession.awaitingRoll ->
  exists s' step,
    GameSession.autoPlay_body face1 face2 logs r s = (s', Ok step) /\
    steady s' /\ same_record s s' /\
    match step with
    | GameSession.Return res => turn_over s s' res
    | GameSession.Continue _ =>
        GameSession.phase s' = GameSession.awaitingRoll /\
        GameSession.currentPlayerId s' = GameSession.currentPlayerId s /\
        exists r',
          GameSession.currentRound s' = Some r' /\
          GameRound.roundOver r' = false /\
          (squares_to_go r' (GameSession.currentPlayerId s) <
           squares_to_go r (GameSession.currentPlayerId s))%nat
    end.
Proof.
  intros Hst Hr Hph. pose proof (steady_not_over s r Hst Hr Hph) as Hnot.
  pose proof Hst as [r0 [tn [Hr0 [Htn [Hdice [Hfit [Hcur [Hth [Htc [Hover [Hidle Hmove]]]]]]]]]]].
  rewrite Hr in Hr0. injection Hr0 as <-.
  unfold GameSession.autoPlay_body. rewrite Htn. cbv zeta.
  match goal with |- context [Dice.rollRandom ?n face1 face2 ?q] =>
    destruct (rollRandom_returns n face1 face2 q (chooseNumDice_one_or_two _))
      as [queue1 [roll Hroll]]; rewrite Hroll
  end.
  destruct s as [tnS diceS crS hist q mode cur ph cd]. session_fields. subst tnS crS ph.
  set (sum := Dice.sum roll).
  destruct ((length (GameRound.getCoverOptions r cur sum) =? 0)%nat &&
            (length (GameRound.getUncoverOptions r cur sum) =? 0)%nat) eqn:Hnone.
  - destruct (notifyTurnEnded_frame cur r) as [Hh [Hc [Hb [Hp Ho]]]].
    rewrite Ho, Hnot. unfold GameSession.store_round. session_fields.
    eexists. eexists. split; [reflexivity|]. split; [|split].
    + apply steady_make; session_fields; try assumption; try discriminate; try reflexivity.
      * now apply (round_fits_same_players r).
      * cbn. rewrite Ho, Hnot. split; discriminate.
    + repeat split.
    + right. cbn [GameSession.ap_roundOver GameSession.ap_switchedToHuman].
      session_fields. repeat split. cbn. now rewrite Hp, Hcur.
  - pose proof (decideMove_member r cur sum) as Hmem. cbv zeta in Hmem.
    set (d := ComputerPlayer.decideMove r cur sum) in *.
    destruct (ComputerPlayer.action d) eqn:Hact.
    + destruct (accepted_selection_markable GameSession.MoveCover r cur sum
                  (ComputerPlayer.squares d)) as [Hnd Hall];
        [now apply option_exists_member|].
      destruct (apply_move_fits GameSession.MoveCover cur _ r Hfit Hnd Hall)
        as [r' [Hmv [Hfit' Hcur']]].
      destruct (apply_move_marks GameSession.MoveCover cur _ r (proj1 Hfit) Hnd Hall)
        as [r'' [Hmv' [Htarget Hother]]].
      rewrite Hmv in Hmv'. injection Hmv' as <-.
      pose proof (move_makes_progress GameSession.MoveCover cur _ r r' (proj1 Hfit)
                    (option_nonempty r cur sum _ (or_introl Hmem)) Hall Htarget Hother)
        as Hless.
      unfold GameSession.on_round. rewrite Hmv.
      unfold GameSession.after_auto_move, GameSession.store_round. session_fields.
      destruct (GameRound.roundOver r') eqn:Hover'.
      * unfold GameSession.update_advantage, GameSession.store_round. session_fields.
        destruct (notifyTurnEnded_frame cur r') as [Hh [Hc [Hb [Hp Ho]]]].
        eexists. eexists. split; [reflexivity|]. split; [|split].
        -- apply steady_make; session_fields; try assumption; try discriminate.
           ++ now apply (round_fits_same_players r').
           ++ congruence.
           ++ match goal with |- context [Tournament.updateAdvantageForNextRound ?x] =>
                destruct (updateAdvantage_players x) as [-> _] end. reflexivity.
           ++ match goal with |- context [Tournament.updateAdvantageForNextRound ?x] =>
                destruct (updateAdvantage_players x) as [_ ->] end. reflexivity.
           ++ rewrite Ho, Hover'. tauto.
        -- repeat split.
        -- left. repeat split.
      * eexists. eexists. split; [reflexivity|]. split; [|split].
        -- apply steady_make; session_fields; try assumption; try discriminate;
             try reflexivity.
           ++ congruence.
           ++ rewrite Hover'. split; discriminate.
        -- repeat split.
        -- session_fields. split; [reflexivity|]. split; [reflexivity|].
           exists r'. split; [reflexivity|]. split; [exact Hover' | exact Hless].
    + destruct (accepted_selection_markable GameSession.MoveUncover r cur sum
                  (ComputerPlayer.squares d)) as [Hnd Hall];
        [now apply option_exists_member|].
      destruct (apply_move_fits GameSession.MoveUncover cur _ r Hfit Hnd Hall)
        as [r' [Hmv [Hfit' Hcur']]].
      destruct (apply_move_marks GameSession.MoveUncover cur _ r (proj1 Hfit) Hnd Hall)
        as [r'' [Hmv' [Htarget Hother]]].
      rewrite Hmv in Hmv'. injection Hmv' as <-.
      pose proof (move_makes_progress GameSession.MoveUncover cur _ r r' (proj1 Hfit)
                    (option_nonempty r cur sum _ (or_intror Hmem)) Hall Htarget Hother)
        as Hless.
      unfold GameSession.on_round. rewrite Hmv.
      unfold GameSession.after_auto_move, GameSession.store_round. session_fields.
      destruct (GameRound.roundOver r') eqn:Hover'.
      * unfold GameSession.update_advantage, GameSession.store_round. session_fields.
        destruct (notifyTurnEnded_frame cur r') as [Hh [Hc [Hb [Hp Ho]]]].
        eexists. eexists. split; [reflexivity|]. split; [|split].
        -- apply steady_make; session_fields; try assumption; try discriminate.
           ++ now apply (round_fits_same_players r').
           ++ congruence.
           ++ match goal with |- context [Tournament.updateAdvantageForNextRound ?x] =>
                destruct (updateAdvantage_players x) as [-> _] end. reflexivity.
           ++ match goal with |- context [Tournament.updateAdvantageForNextRound ?x] =>
                destruct (updateAdvantage_players x) as [_ ->] end. reflexivity.
           ++ rewrite Ho, Hover'. tauto.
        -- repeat split.
        -- left. repeat split.
      * eexists. eexists. split; [reflexivity|]. split; [|split].
        -- apply steady_make; session_fields; try assumption; try discriminate;
             try reflexivity.
           ++ congruence.
           ++ rewrite Hover'. split; discriminate.
        -- repeat split.
        -- session_fields. split; [reflexivity|]. split; [reflexivity|].
           exists r'. split; [reflexivity|]. split; [exact Hover' | exact Hless].
    + destruct Hmem as [_ [Hco Huo]]. rewrite Hco, Huo in Hnone. discriminate Hnone.
Qed.

Lemma same_record_trans (a b c : GameSession.t) :
  same_record a b -> same_record b c -> same_record a c.
Proof. unfold same_record. intros [H1 [H2 H3]] [H4 [H5 H6]]. repeat split; congruence. Qed.

Lemma autoPlay_loop_ends (faces : list (Z * Z)) :
  forall (logs : list string) (s : GameSession.t) (r : GameRound.t),
    steady s -> GameSession.currentRound s = Some r ->
    (squares_to_go r (GameSession.currentPlayerId s) < length faces)%nat ->
    exists s' res,
      GameSession.autoPlay_loop faces logs s = Some (s', Ok res) /\
      steady s' /\ same_record s s' /\
      (computer_to_roll s = true -> turn_over s s' res) /\
      (computer_to_roll s = false -> s' = s /\ res = GameSession.mkAutoPlay logs false false).
Proof.
  induction faces as [|[face1 face2] faces IH]; intros logs s r Hst Hr Hlt;
    [cbn [length] in Hlt; lia|].
  cbn [GameSession.autoPlay_loop]. unfold computer_to_roll. rewrite Hr.
  destruct (negb (GameRound.roundOver r) &&
            negb (GameSession.isPlayerHumanControlled s (GameSession.currentPlayerId s)) &&
            GameSession.Phase_eqb (GameSession.phase s) GameSession.awaitingRoll) eqn:Hcond.
  2:{ exists s. eexists. split; [reflexivity|]. split; [exact Hst|].
      split; [repeat split|]. split; [discriminate | intros _; split; reflexivity]. }
  apply andb_true_iff in Hcond. destruct Hcond as [Hcond Hphase].
  apply andb_true_iff in Hcond. destruct Hcond as [_ Hctrl].
  assert (Hph : GameSession.phase s = GameSession.awaitingRoll)
    by (now destruct (GameSession.phase s)).
  destruct (autoPlay_body_step face1 face2 logs s r Hst Hr Hph)
    as [s1 [step [Hbody [Hst1 [Hsame1 Hstep]]]]].
  rewrite Hbody. destruct step as [res | logs'].
  - exists s1, res. split; [reflexivity|]. split; [exact Hst1|]. split; [exact Hsame1|].
    split; [intros _; exact Hstep | discriminate].
  - destruct Hstep as [Hph1 [Hcur1 [r1 [Hr1 [Hover1 Hless]]]]].
    destruct (IH logs' s1 r1 Hst1 Hr1) as [s' [res [Hloop [Hst' [Hsame' [Hturn _]]]]]].
    { rewrite Hcur1. cbn [length] in Hlt. lia. }
    exists s', res. split; [exact Hloop|]. split; [exact Hst'|].
    split; [now apply (same_record_trans s s1 s')|]. split; [|discriminate].
    intros _.
    assert (Hroll1 : computer_to_roll s1 = true).
    { unfold computer_to_roll. rewrite Hr1, Hover1, Hph1.
      unfold GameSession.isPlayerHumanControlled in *.
      destruct Hsame1 as [_ [_ Hmode]]. rewrite Hmode, Hcur1.
      apply negb_true_iff in Hctrl. rewrite Hctrl. reflexivity. }
    specialize (Hturn Hroll1). unfold turn_over in *. rewrite Hcur1 in Hturn. exact Hturn.
Qed.

(** X27.  The computer's turn ends.  On a session in play,
    [autoPlayComputerTurn] returns within [2 * boardSize + 1] runs of its
    loop, whatever the dice show and whatever the queue of the dice holds;
    it does not throw, and the session stays well formed.  When a roll is
    awaited from a player the computer controls, the turn ends with the
    round over or with the turn passed to the other player (reported as
    [switchedToHuman] in every mode); otherwise nothing happens.  The history
    and the queued rolls of the session are as before: the moves of such a
    turn cannot be rewound to. *)
Theorem autoPlayComputerTurn_ends_the_turn (faces : list (Z * Z)) (s : GameSession.t)
    (r : GameRound.t) :
  steady s -> GameSession.currentRound s = Some r ->
  (2 * Z.to_nat (GameRound.boardSize r) < length faces)%nat ->
  exists s' res,
    GameSession.autoPlayComputerTurn faces s = Some (s', Ok res) /\
    steady s' /\ same_record s s' /\
    (computer_to_roll s = true -> turn_over s s' res) /\
    (computer_to_roll s = false -> s' = s /\ res = GameSession.mkAutoPlay [] false false).
Proof.
  intros Hst Hr Hlen.
  pose proof Hst as [r0 [tn [Hr0 [_ [Hdice [Hfit _]]]]]].
  rewrite Hr in Hr0. injection Hr0 as <-.
  pose proof (squares_to_go_bound r (GameSession.currentPlayerId s) Hfit) as Hbound.
  destruct (autoPlay_loop_ends faces [] s r Hst Hr ltac:(lia))
    as [s' [res [Hloop [Hst' [Hsame [Hturn Hidle]]]]]].
  unfold GameSession.autoPlayComputerTurn. rewrite Hr.
  destruct (GameSession.dice s) as [queue|] eqn:Hd; [|contradiction].
  destruct (GameSession.Phase_eqb (GameSession.phase s) GameSession.awaitingRoll) eqn:Hph;
    cbn [negb].
  - destruct (GameSession.isPlayerHumanControlled s (GameSession.currentPlayerId s))
      eqn:Hctrl.
    + exists s. eexists. split; [reflexivity|]. split; [exact Hst|].
      split; [repeat split|]. split; [|intros _; split; reflexivity].
      unfold computer_to_roll. rewrite Hr, Hctrl. cbn [negb]. rewrite andb_false_r.
      discriminate.
    + exists s', res. repeat (split; [assumption|]). exact Hidle.
  - exists s. eexists. split; [reflexivity|]. split; [exact Hst|].
    split; [repeat split|]. split; [|intros _; split; reflexivity].
    unfold computer_to_roll. rewrite Hr, Hph. rewrite andb_false_r. discriminate.
Qed.

Lemma autoPlayComputerTurn_ends_the_turn_witness :
  exists s' res,
    GameSession.autoPlayComputerTurn (repeat (3, 4) 19)
      (GameSession.setMode GameSession.CvsC session_start) = Some (s', Ok res) /\
    steady s' /\
    turn_over (GameSession.setMode GameSession.CvsC session_start) s' res.
Proof.
  destruct (autoPlayComputerTurn_ends_the_turn (repeat (3, 4) 19)
              (GameSession.setMode GameSession.CvsC session_start) start_round)
    as [s' [res [Hrun [Hst [_ [Hturn _]]]]]].
  - apply setMode_steady. apply (startNewRound_steady 9 HUMAN GameSession.new). lia.
  - reflexivity.
  - vm_compute. lia.
  - exists s', res. split; [exact Hrun|]. split; [exact Hst|]. apply Hturn. reflexivity.
Defined.

(** * The history of a session in play *)

Lemma history_update_advantage (s : GameSession.t) :
  GameSession.history (GameSession.update_advantage s) = GameSession.history s.
Proof. unfold GameSession.update_advantage. now destruct (GameSession.tournament s). Qed.

Lemma history_ok_frame (s s' : GameSession.t) :
  GameSession.history s' = GameSession.history s -> history_ok s -> history_ok s'.
Proof. unfold history_ok. now intros ->. Qed.

Lemma session_ok_store (r : GameRound.t) (s : GameSession.t) :
  round_fits r -> session_ok (GameSession.store_round r s).
Proof.
  intros [_ [Hsize [Hsh Hsc]]] r' tn' Hr' Htn'. destruct s as [tnS diceS crS hist q mode cur ph cd].
  unfold GameSession.store_round in *. session_fields. injection Hr' as <-.
  destruct tnS as [tn|]; [|discriminate Htn']. injection Htn' as <-.
  cbn [Tournament.human Tournament.computer]. tauto.
Qed.

Lemma history_ok_push (label : string) (la : option GameSession.LastAction)
    (s : GameSession.t) :
  session_ok s -> history_ok s -> history_ok (GameSession._pushHistory label la s).
Proof.
  intros Hok Hhist. unfold GameSession._pushHistory.
  destruct (GameSession._captureSnapshot s la) as [snap|] eqn:Hcap; [|exact Hhist].
  unfold history_ok in *. destruct s as [tnS diceS crS hist q mode cur ph cd].
  session_fields. destruct Hhist as [Hall Hne]. split.
  - apply Forall_app. split; [exact Hall|]. constructor; [|constructor].
    cbn [GameSession.h_snapshot]. exact (captureSnapshot_ok _ la snap Hok Hcap).
  - destruct hist; [contradiction | discriminate].
Qed.

Lemma history_ok_first (label : string) (la : option GameSession.LastAction)
    (s : GameSession.t) :
  session_ok s -> GameSession.currentRound s <> None -> GameSession.tournament s <> None ->
  GameSession.history s = [] -> history_ok (GameSession._pushHistory label la s).
Proof.
  intros Hok Hr Htn Hnil. unfold GameSession._pushHistory.
  destruct (GameSession._captureSnapshot s la) as [snap|] eqn:Hcap.
  - unfold history_ok. destruct s as [tnS diceS crS hist q mode cur ph cd].
    session_fields. subst hist. split; [|discriminate].
    constructor; [|constructor].
    cbn [GameSession.h_snapshot]. exact (captureSnapshot_ok _ la snap Hok Hcap).
  - unfold GameSession._captureSnapshot in Hcap.
    destruct (GameSession.currentRound s); [|contradiction].
    destruct (GameSession.tournament s); [discriminate Hcap | contradiction].
Qed.

Lemma history_ok_after_move (s : GameSession.t) (r' : GameRound.t) (label : string)
    (la : option GameSession.LastAction) :
  round_fits r' -> history_ok s ->
  history_ok (if GameRound.roundOver r'
              then GameSession.update_advantage
                     (GameSession.set_phase GameSession.roundOver
                        (GameSession._pushHistory label la (GameSession.store_round r' s)))
              else GameSession.set_phase GameSession.awaitingRoll
                     (GameSession.set_currentDice no_dice
                        (GameSession._pushHistory label la (GameSession.store_round r' s)))).
Proof.
  intros Hfit Hhist.
  assert (Hpush : history_ok (GameSession._pushHistory label la (GameSession.store_round r' s))).
  { apply history_ok_push; [now apply session_ok_store|].
    apply (history_ok_frame s); [now destruct s | exact Hhist]. }
  destruct (GameRound.roundOver r').
  - apply (history_ok_frame _ _ (history_update_advantage _)).
    revert Hpush. apply history_ok_frame.
    now destruct (GameSession._pushHistory label la (GameSession.store_round r' s)).
  - revert Hpush. apply history_ok_frame.
    now destruct (GameSession._pushHistory label la (GameSession.store_round r' s)).
Qed.

Lemma applyHumanMove_history (mt : GameSession.MoveType) (squares : list Z)
    (s : GameSession.t) :
  steady s -> history_ok s -> history_ok (fst (GameSession.applyHumanMove mt squares s)).
Proof.
  intros Hst Hhist. pose proof Hst as [r [tn [Hr [Htn [Hdice [Hfit _]]]]]].
  unfold GameSession.applyHumanMove. rewrite Hr.
  destruct (negb (GameSession.Phase_eqb (GameSession.phase s) GameSession.awaitingMove));
    [exact Hhist|].
  destruct (GameSession.sum_is_set (GameSession.currentDice s)) as [sum|]; [|exact Hhist].
  match goal with |- context [GameSession.option_exists ?o squares] =>
    destruct (GameSession.option_exists o squares) eqn:Hex end; cbn [negb]; [|exact Hhist].
  destruct (accepted_selection_markable mt r (GameSession.currentPlayerId s) sum squares)
    as [Hnd Hall]; [destruct mt; exact Hex|].
  destruct (apply_move_fits mt (GameSession.currentPlayerId s) squares r Hfit Hnd Hall)
    as [r' [Hmove [Hfit' Hcur']]].
  unfold GameSession.on_round.
  replace (match mt with
           | GameSession.MoveCover =>
               GameRound.applyCoverMove (GameSession.currentPlayerId s) squares
           | GameSession.MoveUncover =>
               GameRound.applyUncoverMove (GameSession.currentPlayerId s) squares
           end r) with (r', @Ok unit tt) by (destruct mt; now rewrite <- Hmove).
  rewrite currentRound_pushHistory, currentRound_store_round.
  match goal with |- context [GameSession._pushHistory ?L ?LA (GameSession.store_round r' s)] =>
    pose proof (history_ok_after_move s r' L LA Hfit' Hhist) as H end.
  destruct (GameRound.roundOver r'); exact H.
Qed.

Lemma endTurn_history (s : GameSession.t) :
  history_ok s -> history_ok (fst (GameSession.endTurn s)).
Proof.
  intros Hhist. unfold GameSession.endTurn.
  destruct (GameSession.currentRound s) as [r|]; [|exact Hhist].
  cbv zeta. destruct (GameRound.roundOver _); cbn [fst].
  - apply (history_ok_frame _ _ (history_update_advantage _)).
    revert Hhist. apply history_ok_frame. now destruct s.
  - revert Hhist. apply history_ok_frame. now destruct s.
Qed.

Lemma handleManualRoll_history (numDice : Z) (values : list Z) (s : GameSession.t) :
  steady s -> history_ok s ->
  history_ok (fst (GameSession.handleManualRoll numDice values s)).
Proof.
  intros Hst Hhist.
  pose proof Hst as [r [tn [Hr [Htn [Hdice [Hfit [Hcur [Hth [Htc [Hover [Hidle Hmove]]]]]]]]]]].
  unfold GameSession.handleManualRoll. rewrite Hr.
  destruct (GameSession.Phase_eqb (GameSession.phase s) GameSession.awaitingRoll) eqn:Hphase;
    cbn [negb]; [|exact Hhist].
  assert (Hph : GameSession.phase s = GameSession.awaitingRoll)
    by (now destruct (GameSession.phase s)).
  pose proof (steady_not_over s r Hst Hr Hph) as Hnot.
  destruct (negb (numDice =? 1) && negb (numDice =? 2)); [exact Hhist|].
  destruct (Z.of_nat (length values) <? numDice); [exact Hhist|].
  set (d1 := nth 0 values 0). set (d2 := if numDice =? 2 then Some (nth 1 values 0) else None).
  destruct (negb (Dice._isValidDie d1) ||
            match d2 with Some v => negb (Dice._isValidDie v) | None => false end);
    [exact Hhist|].
  destruct ((numDice =? 1) && negb (Board.canUseOneDie _)); [exact Hhist|].
  cbv zeta.
  set (sum := d1 + match d2 with Some v => v | None => 0 end).
  destruct s as [tnS diceS crS hist q mode cur ph cd]. session_fields. subst tnS crS ph.
  unfold history_ok in Hhist. session_fields.
  destruct (GameSession.isPlayerHumanControlled _ _).
  - destruct ((length _ =? 0)%nat && (length _ =? 0)%nat); cbn [fst]; exact Hhist.
  - destruct ((length _ =? 0)%nat && (length _ =? 0)%nat).
    + unfold GameSession.computer_no_moves. cbv zeta. session_fields.
      destruct (notifyTurnEnded_frame cur r) as [Hh [Hc [Hb [Hp Ho]]]].
      rewrite Ho, Hnot. cbn [fst]. exact Hhist.
    + unfold GameSession.computer_moves. cbv zeta. session_fields.
      pose proof (decideMove_member r cur sum) as Hmem. cbv zeta in Hmem.
      set (d := ComputerPlayer.decideMove r cur sum) in *.
      assert (Happly : exists r',
                 (match ComputerPlayer.action d with
                  | ComputerPlayer.ActCover =>
                      GameRound.applyCoverMove cur (ComputerPlayer.squares d)
                  | ComputerPlayer.ActUncover =>
                      GameRound.applyUncoverMove cur (ComputerPlayer.squares d)
                  | ComputerPlayer.ActNone => ret tt
                  end) r = (r', Ok tt) /\ round_fits r').
      { destruct (ComputerPlayer.action d).
        - destruct (accepted_selection_markable GameSession.MoveCover r cur sum
                      (ComputerPlayer.squares d)) as [Hnd Hall];
            [now apply option_exists_member|].
          destruct (apply_move_fits GameSession.MoveCover cur _ r Hfit Hnd Hall)
            as [r' [H1 [H2 _]]]. now exists r'.
        - destruct (accepted_selection_markable GameSession.MoveUncover r cur sum
                      (ComputerPlayer.squares d)) as [Hnd Hall];
            [now apply option_exists_member|].
          destruct (apply_move_fits GameSession.MoveUncover cur _ r Hfit Hnd Hall)
            as [r' [H1 [H2 _]]]. now exists r'.
        - exists r. split; [reflexivity | exact Hfit]. }
      destruct Happly as [r' [Hr' Hfit']].
      unfold GameSession.on_round. rewrite Hr'.
      rewrite currentRound_pushHistory, currentRound_store_round.
      match goal with
      | |- context [GameSession._pushHistory ?L ?LA (GameSession.store_round r' ?S)] =>
          assert (Hpush : history_ok (GameSession._pushHistory L LA
                                        (GameSession.store_round r' S)))
            by (apply history_ok_push; [now apply session_ok_store | exact Hhist]);
          set (s2 := GameSession._pushHistory L LA (GameSession.store_round r' S)) in *
      end.
      destruct (GameRound.roundOver r'); cbn [fst].
      * apply (history_ok_frame _ _ (history_update_advantage _)).
        revert Hpush. apply history_ok_frame. now destruct s2.
      * revert Hpush. apply history_ok_frame. now destruct s2.
Qed.

Lemma startNewRound_history (size : Z) (first : PlayerId) (s0 : GameSession.t) :
  1 <= size -> history_ok (fst (GameSession.startNewRound size first s0)).
Proof.
  intros Hsize. unfold GameSession.startNewRound. cbv zeta.
  set (s := match GameSession.tournament s0, GameSession.dice s0 with
            | Some _, Some _ => s0
            | _, _ => GameSession.resetTournament s0
            end).
  clearbody s. unfold Tournament.startNewRound. cbv zeta.
  cbn [Tournament.human Tournament.computer Tournament.nextRoundAdvantage
       Tournament.roundNumber].
  destruct (new_round_total size (Tournament.human (GameSession.tournament_or_fresh s))
              (Tournament.computer (GameSession.tournament_or_fresh s)) first
              (Tournament.nextRoundAdvantage (GameSession.tournament_or_fresh s)) Hsize)
    as [bh [bc [lock [Hnew [Hokh [Hsh [Hokc Hsc]]]]]]].
  rewrite Hnew. clear Hnew. cbn [fst].
  destruct s as [tnS diceS crS hist q mode cur ph cd]. session_fields.
  apply history_ok_first; session_fields; try discriminate; try reflexivity.
  intros r tn Hr Htn. session_fields. injection Hr as <-. injection Htn as <-.
  cbn [GameRound.human GameRound.computer GameRound.boardSize board with_board
       Tournament.human Tournament.computer totalScore].
  repeat split; try assumption; reflexivity.
Qed.

Lemma in_play_history (s : GameSession.t) : in_play s -> history_ok s.
Proof.
  induction 1 as [size first Hsize | size first s _ _ Hsize | op s Hplay IH | mode s _ IH].
  - now apply startNewRound_history.
  - now apply startNewRound_history.
  - pose proof (in_play_steady s Hplay) as Hst. destruct op; unfold run_op.
    + now apply handleManualRoll_history.
    + now apply applyHumanMove_history.
    + now apply endTurn_history.
  - revert IH. apply history_ok_frame. now destruct s.
Qed.

(** X28.  The history of a session in play is never empty, and every
    entry of it can be rewound to: for each index from 0 to the length of the
    history, [rewindTo] returns with the last action of the entry, with the
    phase "awaitingRoll" and the dice cleared, and it leaves a session with a
    round and with the history it had. *)
Theorem history_of_play_rewinds (s : GameSession.t) :
  in_play s ->
  GameSession.history s <> [] /\
  forall index entry,
    0 <= index ->
    nth_error (GameSession.history s) (Z.to_nat index) = Some entry ->
    exists s',
      GameSession.rewindTo index s =
        (s', Ok (GameSession.Rewound (GameSession.h_lastAction entry) no_dice
                   GameSession.awaitingRoll)) /\
      GameSession.history s' = GameSession.history s /\
      GameSession.phase s' = GameSession.awaitingRoll /\
      GameSession.currentDice s' = no_dice /\
      GameSession.currentRound s' <> None.
Proof.
  intros Hplay. destruct (in_play_history s Hplay) as [Hall Hne].
  split; [exact Hne|]. intros index entry Hidx Hnth.
  assert (Hok : snapshot_ok (GameSession.h_snapshot entry)).
  { apply nth_error_In in Hnth. rewrite Forall_forall in Hall. now apply Hall. }
  unfold GameSession.rewindTo.
  assert (Hlt : (Z.to_nat index < length (GameSession.history s))%nat).
  { apply nth_error_Some. rewrite Hnth. discriminate. }
  replace (index <? 0) with false by (symmetry; apply Z.ltb_ge; lia).
  replace (index >=? Z.of_nat (length (GameSession.history s))) with false
    by (symmetry; rewrite Z.geb_leb; apply Z.leb_gt; lia).
  cbn [orb]. rewrite Hnth.
  destruct (restoreSnapshot_spec (GameSession.h_snapshot entry) s Hok)
    as [s1 [Hres [Hhist [_ [_ [_ [_ [_ Hcap]]]]]]]].
  rewrite Hres. eexists. split; [reflexivity|].
  split; [now destruct s1|]. split; [reflexivity|]. split; [reflexivity|].
  specialize (Hcap None). unfold GameSession._captureSnapshot in Hcap.
  destruct s1 as [tnS diceS crS hist q mode cur ph cd]. session_fields.
  destruct crS; [discriminate | discriminate Hcap].
Qed.

Lemma history_of_play_rewinds_witness :
  exists s' la,
    GameSession.rewindTo 0 session_rolled =
      (s', Ok (GameSession.Rewound la no_dice GameSession.awaitingRoll)) /\
    GameSession.history s' = GameSession.history session_rolled.
Proof.
  assert (Hplay : in_play session_rolled).
  { apply (play_op (OpRoll 2 [3; 4]) session_start). apply (play_first 9 HUMAN). lia. }
  destruct (history_of_play_rewinds session_rolled Hplay) as [_ Hre].
  destruct (nth_error (GameSession.history session_rolled) (Z.to_nat 0)) as [entry|] eqn:Hnth;
    [|vm_compute in Hnth; discriminate Hnth].
  destruct (Hre 0 entry ltac:(lia) Hnth) as [s' [Hrun [Hhist _]]].
  exists s', (GameSession.h_lastAction entry). split; [exact Hrun | exact Hhist].
Defined.
